(** * A shallow embedding of the graphcache read path

    The development follows [src/operations/query.ts] (the read traversal:
    [query], [read], [readRoot], [readRootField], [readSelection],
    [resolveResolverResult], [resolveLink], [isDataOrKey]) and
    [src/operations/shared.ts] ([isFragmentHeuristicallyMatching],
    [SelectionIterator], [isScalar]).  JavaScript values are a small
    inductive type, the store tables are finite maps, the ambient
    dependency set and [ctx.partial] are threaded explicitly, and every
    loop whose termination depends on the document carries fuel. *)

From stdpp Require Import base gmap strings list pretty relations sorting.

#[local] Set Warnings "-register-all".

Open Scope Z_scope.

(** ** Outcomes of effectful code

    A call either returns, raises a JavaScript [TypeError]
    (property access on [null], assignment to a property of a non-object),
    or exhausts the fuel of the model. *)

Inductive Outcome (A : Type) : Type :=
| Ret (a : A)
| Throw (msg : string)
| OutOfFuel.

Arguments Ret {A} a.
Arguments Throw {A} msg.
Arguments OutOfFuel {A}.

Definition obind {A B : Type} (m : Outcome A) (k : A → Outcome B) : Outcome B :=
  match m with
  | Ret a => k a
  | Throw e => Throw e
  | OutOfFuel => OutOfFuel
  end.

Notation "'do' x <- m ; k" := (obind m (fun x => k))
  (at level 10, x pattern, m at level 100, k at level 200).

Definition returns {A : Type} (m : Outcome A) : Prop := ∃ a, m = Ret a.

(** ** JavaScript values: [DataField], [Data], [Link] *)

Inductive DataField : Type :=
| DUndefined
| DNull
| DNum (n : Z)
| DStr (s : string)
| DBool (b : bool)
| DArr (items : list DataField)
| DObj (fields : list (string * DataField)).

(** [Data] is a dictionary created by [Object.create(null)]; property order
    is insertion order. *)
Definition Data : Type := list (string * DataField).

Fixpoint getField_ (fields : Data) (k : string) : DataField :=
  match fields with
  | [] => DUndefined
  | (k', v) :: rest => if String.eqb k' k then v else getField_ rest k
  end.

(** [data[k] = v] on a dictionary. *)
Fixpoint setField (fields : Data) (k : string) (v : DataField) : Data :=
  match fields with
  | [] => [(k, v)]
  | (k', v') :: rest =>
      if String.eqb k' k then (k', v) :: rest else (k', v') :: setField rest k v
  end.

(** [x[k]] where [x] is any value that has been checked to be an object. *)
Definition getProp (x : DataField) (k : string) : DataField :=
  match x with
  | DObj fields => getField_ fields k
  | _ => DUndefined
  end.

Definition isUndefined (x : DataField) : bool :=
  match x with DUndefined => true | _ => false end.

Definition isNull (x : DataField) : bool :=
  match x with DNull => true | _ => false end.

(** [typeof x.__typename === 'string'], as an option. *)
Definition typenameOf (x : DataField) : option string :=
  match getProp x "__typename" with
  | DStr t => Some t
  | _ => None
  end.

(** [prevData[index]], evaluated only when [prevData !== undefined]. *)
Definition getIndex (prevData : DataField) (index : nat) : Outcome DataField :=
  match prevData with
  | DUndefined => Throw "TypeError: cannot read properties of undefined"
  | DNull => Throw "TypeError: cannot read properties of null"
  | DArr items => Ret (nth index items DUndefined)
  | DObj fields => Ret (getField_ fields (pretty index))
  | DStr s =>
      Ret (match String.get index s with
           | Some c => DStr (String c EmptyString)
           | None => DUndefined
           end)
  | DNum _ | DBool _ => Ret DUndefined
  end.

(** [prevData !== undefined ? prevData[index] : undefined] *)
Definition prevAt (prevData : DataField) (index : nat) : Outcome DataField :=
  if isUndefined prevData then Ret DUndefined else getIndex prevData index.

(** [prevData === undefined ? Object.create(null) : prevData] *)
Definition orFresh (prevData : DataField) : DataField :=
  if isUndefined prevData then DObj [] else prevData.

(** The target of a property assignment [data.k = v].  The type [Data] of
    the source is a dictionary; a [null] or primitive there raises a
    [TypeError] in a strict-mode module.  An array carrying named
    properties has no counterpart in [DataField] and is reported the same
    way. *)
Definition asData (x : DataField) : Outcome Data :=
  match x with
  | DObj fields => Ret fields
  | _ => Throw "TypeError: cannot set property"
  end.

Inductive Link : Type :=
| LKey (key : string)
| LNull
| LList (links : list Link).

(** ** Key helpers *)

(** Modelled from the spec: [joinKeys] of [src/helpers], §4.1:
    "returns [parentKey + "." + childKey]". *)
Definition joinKeys (parentKey childKey : string) : string :=
  parentKey +:+ "." +:+ childKey.

(** Insertion of a serialized entry into a list kept sorted by key. *)
Fixpoint insertSorted (e : string * string) (l : list (string * string))
  : list (string * string) :=
  match l with
  | [] => [e]
  | e' :: rest =>
      if String.leb e.1 e'.1 then e :: l else e' :: insertSorted e rest
  end.

Definition joinWith (sep : string) (parts : list string) : string :=
  match parts with
  | [] => EmptyString
  | p :: rest => fold_left (fun acc q => acc +:+ sep +:+ q) rest p
  end.

Definition dquote : string := String (Ascii.ascii_of_nat 34) EmptyString.

(** Modelled from the spec: the canonical serialization used by
    [keyOfField] of [src/helpers], §4.1: mappings are serialized with their
    keys in a stable (sorted) order and keys whose value is undefined are
    omitted. *)
Fixpoint stringify (v : DataField) : string :=
  match v with
  | DUndefined => "null"
  | DNull => "null"
  | DNum n => pretty n
  | DStr s => dquote +:+ s +:+ dquote
  | DBool b => if b then "true" else "false"
  | DArr items => "[" +:+ joinWith "," (map stringify items) +:+ "]"
  | DObj fields =>
      let entries :=
        (fix go (fs : list (string * DataField)) : list (string * string) :=
           match fs with
           | [] => []
           | (k, x) :: rest =>
               if isUndefined x then go rest
               else insertSorted (k, stringify x) (go rest)
           end) fields in
      "{" +:+ joinWith ","
               (map (fun e => dquote +:+ e.1 +:+ dquote +:+ ":" +:+ e.2) entries)
          +:+ "}"
  end.

(** Modelled from the spec: [keyOfField] of [src/helpers], §4.1: "returns
    [name] when [args] is absent or empty; otherwise [name(<canonical>)]". *)
Definition keyOfField (fieldName : string) (args : option Data) : string :=
  match args with
  | None | Some [] => fieldName
  | Some fields => fieldName +:+ "(" +:+ stringify (DObj fields) +:+ ")"
  end.

(** ** The parsed document

    The GraphQL AST nodes of the [graphql] package that the traversal
    inspects: arguments and their values, directives, the three kinds of
    selection, fragment and operation definitions. *)

Inductive ValueNode : Type :=
| VVariable (name : string)
| VInt (n : Z)
| VString (s : string)
| VBoolean (b : bool)
| VNullValue
| VEnum (s : string)
| VListValue (values : list ValueNode)
| VObjectValue (fields : list (string * ValueNode)).

Definition ArgumentNode : Type := string * ValueNode.

Record DirectiveNode : Type := mkDirective {
  directiveName : string;
  directiveArguments : list ArgumentNode
}.

Inductive SelectionNode : Type :=
| FieldNode (alias : option string) (name : string)
    (arguments : list ArgumentNode) (directives : list DirectiveNode)
    (selectionSet : option (list SelectionNode))
| FragmentSpreadNode (name : string) (directives : list DirectiveNode)
| InlineFragmentNode (typeCondition : option string)
    (directives : list DirectiveNode) (selectionSet : list SelectionNode).

Definition SelectionSet : Type := list SelectionNode.

Record FragmentDefinitionNode : Type := mkFragment {
  fragmentName : string;
  fragmentTypeCondition : string;
  fragmentDirectives : list DirectiveNode;
  fragmentSelectionSet : SelectionSet
}.

Inductive OperationType : Type := OpQuery | OpMutation | OpSubscription.

Record OperationDefinitionNode : Type := mkOperation {
  operation : OperationType;
  operationName : option string;
  variableDefinitions : list (string * option ValueNode);
  operationSelectionSet : SelectionSet
}.

Inductive DefinitionNode : Type :=
| OperationDefinition (op : OperationDefinitionNode)
| FragmentDefinition (fragment : FragmentDefinitionNode).

Definition DocumentNode : Type := list DefinitionNode.

Definition Variables : Type := Data.
Definition Fragments : Type := gmap string FragmentDefinitionNode.

(** *** AST utilities

    [src/ast] is imported by the traversal but is not part of the sources
    at hand; its accessors are modelled from §2 and §4.1 of the
    specification. *)

(** Modelled from the spec: [getName] of [src/ast], the [name.value] of a
    named node; an inline fragment has none. *)
Definition getName (node : SelectionNode) : string :=
  match node with
  | FieldNode _ name _ _ _ => name
  | FragmentSpreadNode name _ => name
  | InlineFragmentNode _ _ _ => EmptyString
  end.

(** Modelled from the spec: [getFieldAlias] of [src/ast], the alias of a
    field node, which defaults to its name. *)
Definition getFieldAlias (node : SelectionNode) : string :=
  match node with
  | FieldNode (Some alias) _ _ _ _ => alias
  | _ => getName node
  end.

Definition isFieldNode (node : SelectionNode) : bool :=
  match node with FieldNode _ _ _ _ _ => true | _ => false end.

Definition isInlineFragment (node : SelectionNode) : bool :=
  match node with InlineFragmentNode _ _ _ => true | _ => false end.

(** [node.selectionSet !== undefined] *)
Definition hasSelectionSet (node : SelectionNode) : bool :=
  match node with
  | FieldNode _ _ _ _ (Some _) => true
  | InlineFragmentNode _ _ _ => true
  | _ => false
  end.

(** Modelled from the spec: [getSelectionSet] of [src/ast], the selections
    of a node, empty when it has no selection set. *)
Definition getSelectionSet (node : SelectionNode) : SelectionSet :=
  match node with
  | FieldNode _ _ _ _ (Some sel) => sel
  | InlineFragmentNode _ _ sel => sel
  | _ => []
  end.

Definition nodeDirectives (node : SelectionNode) : list DirectiveNode :=
  match node with
  | FieldNode _ _ _ ds _ => ds
  | FragmentSpreadNode _ ds => ds
  | InlineFragmentNode _ ds _ => ds
  end.

(** Modelled from the spec: the evaluation of an argument value with
    "variable references replaced with concrete values" (§4.1); an
    undefined variable becomes [null] (§7). *)
Fixpoint valueFromAST (vars : Variables) (v : ValueNode) : DataField :=
  match v with
  | VVariable name =>
      match getField_ vars name with
      | DUndefined => DNull
      | x => x
      end
  | VInt n => DNum n
  | VString s => DStr s
  | VBoolean b => DBool b
  | VNullValue => DNull
  | VEnum s => DStr s
  | VListValue values => DArr (map (valueFromAST vars) values)
  | VObjectValue fields =>
      DObj ((fix go (fs : list (string * ValueNode)) (acc : Data) : Data :=
               match fs with
               | [] => acc
               | (k, x) :: rest => go rest (setField acc k (valueFromAST vars x))
               end) fields [])
  end.

(** Modelled from the spec: [getFieldArguments] of [src/ast] (§4.1): [null]
    for a field without arguments, otherwise the dictionary of the
    evaluated arguments. *)
Definition getFieldArguments (node : SelectionNode) (vars : Variables)
  : option Data :=
  match node with
  | FieldNode _ _ [] _ _ => None
  | FieldNode _ _ args _ _ =>
      Some (fold_left (fun acc arg => setField acc arg.1 (valueFromAST vars arg.2))
              args [])
  | _ => None
  end.

(** Modelled from the spec: [shouldInclude] of [src/ast], the evaluation
    of [@skip] and [@include] against the variables (§2, §4.5).  The first
    such directive whose [if] argument is a boolean or [null] decides. *)
Fixpoint shouldIncludeDirectives (ds : list DirectiveNode) (vars : Variables)
  : bool :=
  match ds with
  | [] => true
  | d :: rest =>
      let isInclude := String.eqb (directiveName d) "include" in
      if negb isInclude && negb (String.eqb (directiveName d) "skip")
      then shouldIncludeDirectives rest vars
      else
        match directiveArguments d with
        | (argName, v) :: _ =>
            if String.eqb argName "if" then
              match valueFromAST vars v with
              | DBool b => if isInclude then b else negb b
              | DNull => negb isInclude
              | _ => shouldIncludeDirectives rest vars
              end
            else shouldIncludeDirectives rest vars
        | [] => shouldIncludeDirectives rest vars
        end
  end.

Definition shouldInclude (node : SelectionNode) (vars : Variables) : bool :=
  shouldIncludeDirectives (nodeDirectives node) vars.

(** Modelled from the spec: [getFragments] of [src/ast], the "fragment
    map" of a document (§4.4 step 1). *)
Definition getFragments (doc : DocumentNode) : Fragments :=
  fold_left
    (fun acc def =>
       match def with
       | FragmentDefinition f => <[fragmentName f := f]> acc
       | OperationDefinition _ => acc
       end) doc ∅.

(** Modelled from the spec: [getMainOperation] of [src/ast], the "main
    operation" of a document (§4.4 step 1): its first operation
    definition.  A document without one is malformed. *)
Fixpoint getMainOperation (doc : DocumentNode) : Outcome OperationDefinitionNode :=
  match doc with
  | [] => Throw "Invalid GraphQL document: no operation definition"
  | OperationDefinition op :: _ => Ret op
  | FragmentDefinition _ :: rest => getMainOperation rest
  end.

(** Modelled from the spec: [normalizeVariables] of [src/ast], the
    "normalized variables" of §4.4 step 1: the declared variables, with
    their supplied value or else their default value. *)
Definition normalizeVariables (op : OperationDefinitionNode)
  (input : option Variables) : Variables :=
  let args := default [] input in
  fold_left
    (fun vars (def : string * option ValueNode) =>
       match getField_ args def.1, def.2 with
       | DUndefined, None => vars
       | DUndefined, Some dv => setField vars def.1 (valueFromAST args dv)
       | value, _ => setField vars def.1 value
       end)
    (variableDefinitions op) [].

(** ** The store

    [src/store] is not part of the sources at hand either; the tables and
    the accessors that the read path calls are modelled from §3 and §4.2 of
    the specification. *)

Record RootFields : Type := mkRootFields {
  rootQuery : string;
  rootMutation : string;
  rootSubscription : string
}.

(** Modelled from the spec: the record and link tables of the store (§3),
    keyed by fully-qualified field key, and the root-key map.  This is the
    part of the store that resolvers may inspect. *)
Record Tables : Type := mkTables {
  records : gmap string DataField;
  links : gmap string Link;
  rootFields : RootFields
}.

(** Modelled from the spec: the schema oracle of §6. *)
Record SchemaPredicates : Type := mkSchemaPredicates {
  isFieldNullable : string → string → bool;
  isInterfaceOfType : option string → option string → bool
}.

(** The resolver contract of §6: [(parent, args, store, ctx) -> value]. *)
Definition Resolver : Type := Data → Data → Tables → Variables → DataField.

(** The updater contract of §6: [(result, args, store, ctx)]; an updater
    changes the store through its facade. *)
Definition Updater : Type := DataField → Data → Tables → Variables → Tables.

(** Modelled from the spec: the store state of §3. *)
Record Store : Type := mkStore {
  tables : Tables;
  resolvers : gmap string (gmap string Resolver);
  updaters : gmap string (gmap string Updater);
  storeSchemaPredicates : option SchemaPredicates
}.

(** [store.resolvers[typename]] and, when it is defined,
    [resolvers[fieldName]] when that is a function. *)
Definition resolverOf (st : Store) (typename fieldName : string)
  : option Resolver :=
  resolvers st !! typename ≫= (.!! fieldName).

Definition defaultRootFields : RootFields :=
  mkRootFields "Query" "Mutation" "Subscription".

Definition getRootKey (t : Tables) (name : OperationType) : string :=
  match name with
  | OpQuery => rootQuery (rootFields t)
  | OpMutation => rootMutation (rootFields t)
  | OpSubscription => rootSubscription (rootFields t)
  end.

(** [store.getRecord(fieldKey)]; [undefined] for an absent entry. *)
Definition getRecord (t : Tables) (fieldKey : string) : DataField :=
  default DUndefined (records t !! fieldKey).

(** [store.getLink(fieldKey)]; [None] is [undefined]. *)
Definition getLink (t : Tables) (fieldKey : string) : option Link :=
  links t !! fieldKey.

(** [store.getField(entityKey, fieldName, args)], "convenience over
    records". *)
Definition getField (t : Tables) (entityKey fieldName : string)
  (args : option Data) : DataField :=
  getRecord t (joinKeys entityKey (keyOfField fieldName args)).

(** [store.hasField(fieldKey)], the "presence check used by heuristic
    fragment matching": a record or a link is stored under the key. *)
Definition hasField (t : Tables) (fieldKey : string) : bool :=
  negb (isUndefined (getRecord t fieldKey)) || bool_decide (is_Some (getLink t fieldKey)).

Definition isRootKey (t : Tables) (typename : string) : bool :=
  String.eqb typename (rootQuery (rootFields t))
  || String.eqb typename (rootMutation (rootFields t))
  || String.eqb typename (rootSubscription (rootFields t)).

(** The textual form of an identifier inside an entity key. *)
Definition idToString (id : DataField) : option string :=
  match id with
  | DStr s => Some s
  | DNum n => Some (pretty n)
  | _ => None
  end.

(** [store.keyOfEntity(data)] (§4.2): the root key for a root typename,
    ["<Typename>:<id>"] when [id] or else [_id] is present, otherwise
    [null] (an embedded entity). *)
Definition keyOfEntity (t : Tables) (data : DataField) : option string :=
  match typenameOf data with
  | None => None
  | Some typename =>
      if isRootKey t typename then Some typename
      else
        let id := if isUndefined (getProp data "id")
                  then getProp data "_id" else getProp data "id" in
        match idToString id with
        | Some s => Some (typename +:+ ":" +:+ s)
        | None => None
        end
  end.

(** ** [src/operations/shared.ts] *)

Record Context : Type := mkContext {
  store : Store;
  variables : Variables;
  fragments : Fragments;
  schemaPredicates : option SchemaPredicates
}.

(** A fragment is "either referred to by FragmentSpread or inline": the
    type [InlineFragmentNode | FragmentDefinitionNode] of the source. *)
Inductive FragmentNode : Type :=
| InlineFragment (node : SelectionNode)
| DefinedFragment (fragment : FragmentDefinitionNode).

(** Modelled from the spec: [getTypeCondition] of [src/ast], the
    "type-condition extraction" of §2; an inline fragment may have none. *)
Definition getTypeCondition (node : FragmentNode) : option string :=
  match node with
  | InlineFragment (InlineFragmentNode tc _ _) => tc
  | InlineFragment _ => None
  | DefinedFragment f => Some (fragmentTypeCondition f)
  end.

Definition getFragmentSelectionSet (node : FragmentNode) : SelectionSet :=
  match node with
  | InlineFragment n => getSelectionSet n
  | DefinedFragment f => fragmentSelectionSet f
  end.

(** [!typename]: [undefined] and the empty string are falsy. *)
Definition isFalsy (typename : option string) : bool :=
  match typename with
  | None => true
  | Some t => String.eqb t EmptyString
  end.

Definition isFragmentHeuristicallyMatching (node : FragmentNode)
  (typename : option string) (entityKey : string) (ctx : Context) : bool :=
  if isFalsy typename then false
  else if bool_decide (typename = getTypeCondition node) then true
  else
    negb (existsb
            (fun node =>
               if negb (isFieldNode node) then false
               else
                 let fieldName := getName node in
                 let fieldArgs := getFieldArguments node (variables ctx) in
                 let fieldKey := keyOfField fieldName fieldArgs in
                 negb (hasField (tables (store ctx)) (joinKeys entityKey fieldKey)))
            (getFragmentSelectionSet node)).

(** The fields of the class [SelectionIterator].  Both stacks grow at
    their head: the head of a list is the last element of the array. *)
Record SelectionIterator : Type := mkIterator {
  typename : option string;
  entityKey : string;
  indexStack : list nat;
  context : Context;
  selectionStack : list SelectionSet
}.

(** [new SelectionIterator(typename, entityKey, select, ctx)] *)
Definition newSelectionIterator (typename : option string) (entityKey : string)
  (select : SelectionSet) (ctx : Context) : SelectionIterator :=
  mkIterator typename entityKey [0%nat] ctx [select].

Definition withStacks (it : SelectionIterator) (indices : list nat)
  (selections : list SelectionSet) : SelectionIterator :=
  mkIterator (typename it) (entityKey it) indices (context it) selections.

(** [SelectionIterator.next]: each unit of fuel pays for one turn of the
    [while] loop. *)
Fixpoint next (fuel : nat) (it : SelectionIterator)
  : Outcome (option SelectionNode * SelectionIterator) :=
  match fuel with
  | O => OutOfFuel
  | S fuel' =>
      match indexStack it with
      | [] => Ret (None, it)
      | index :: indices =>
          match selectionStack it with
          | [] => Throw "TypeError: cannot read properties of undefined"
          | select :: selections =>
              (* [indexStack[length - 1]++] *)
              let it := withStacks it (S index :: indices) (select :: selections) in
              match select !! index with
              | None => next fuel' (withStacks it indices selections)
              | Some node =>
                  if negb (shouldInclude node (variables (context it))) then
                    next fuel' it
                  else if negb (isFieldNode node) then
                    let fragmentNode :=
                      if negb (isInlineFragment node)
                      then DefinedFragment <$> fragments (context it) !! getName node
                      else Some (InlineFragment node) in
                    match fragmentNode with
                    | Some fragmentNode =>
                        let typeCondition := getTypeCondition fragmentNode in
                        let isMatching :=
                          match schemaPredicates (context it) with
                          | Some sp => isInterfaceOfType sp typeCondition (typename it)
                          | None =>
                              isFragmentHeuristicallyMatching fragmentNode
                                (typename it) (entityKey it) (context it)
                          end in
                        if negb isMatching then next fuel' it
                        else
                          next fuel'
                            (withStacks it (0%nat :: S index :: indices)
                               (getFragmentSelectionSet fragmentNode
                                  :: select :: selections))
                    | None => next fuel' it
                    end
                  else if String.eqb (getName node) "__typename" then next fuel' it
                  else Ret (Some node, it)
              end
          end
      end
  end.

(** "Without a typename field on Data or Data[] the result must be a
    scalar". *)
Fixpoint isScalar (x : DataField) : bool :=
  match x with
  | DArr items => existsb isScalar items
  | DObj fields =>
      match getField_ fields "__typename" with
      | DStr _ => false
      | _ => true
      end
  | DNull => false
  | DUndefined | DNum _ | DStr _ | DBool _ => true
  end.

(** ** [src/operations/query.ts] *)

Record QueryResult : Type := mkQueryResult {
  dependencies : gset string;
  partial : bool;
  data : DataField
}.

(** The mutable state of one read: the [partial] flag of the context and
    the ambient dependency set of the store ([initStoreState],
    [addDependency], [getCurrentDependencies]). *)
Record ReadState : Type := mkReadState {
  ctxPartial : bool;
  currentDependencies : gset string
}.

Definition initStoreState : ReadState := mkReadState false ∅.

Definition addDependency (key : string) (s : ReadState) : ReadState :=
  mkReadState (ctxPartial s) ({[key]} ∪ currentDependencies s).

Definition setPartial (s : ReadState) : ReadState :=
  mkReadState true (currentDependencies s).

Definition isDataOrKey (x : DataField) : bool :=
  match x with
  | DStr _ => true
  | DObj _ => bool_decide (is_Some (typenameOf x))
  | _ => false
  end.

(** The signature shared by [readSelection], [resolveLink] and
    [resolveResolverResult]: the result is the value ([DUndefined] for
    [undefined]) and the state after the call. *)
Definition Reader : Type :=
  SelectionSet → DataField → ReadState → Outcome (DataField * ReadState).

(** The list traversals of the read path ([Array.prototype.map] and the
    indexed [for] loops): the elements are visited in order, [f] receives
    the element and its index, and the results are collected in a new
    array. *)
Fixpoint mapIndexed {A : Type}
  (f : A → nat → ReadState → Outcome (DataField * ReadState))
  (xs : list A) (index : nat) (out : list DataField) (s : ReadState)
  : Outcome (DataField * ReadState) :=
  match xs with
  | [] => Ret (DArr out, s)
  | x :: rest =>
      do (r, s') <- f x index s;
      mapIndexed f rest (S index) (out ++ [r]) s'
  end.

Section Traversal.

Variable ctx : Context.

(** Fuel for the selection iterator and for the [while] loops. *)
Variable fuel : nat.

(** The recursive calls of [readSelection], one level deeper. *)
Variable readSelectionRec : string → Reader.

Fixpoint resolveLink (link : Link) (select : SelectionSet)
  (prevData : DataField) (s : ReadState) {struct link}
  : Outcome (DataField * ReadState) :=
  match link with
  | LList links =>
      mapIndexed
        (fun l i s =>
           do data <- prevAt prevData i;
           resolveLink l select data s)
        links 0%nat [] s
  | LNull => Ret (DNull, s)
  | LKey key => readSelectionRec key select (orFresh prevData) s
  end.

Fixpoint resolveResolverResult (result : DataField) (key : string)
  (select : SelectionSet) (prevData : DataField) (s : ReadState)
  {struct result} : Outcome (DataField * ReadState) :=
  match result with
  | DArr items =>
      mapIndexed
        (fun childResult index s =>
           do data <- prevAt prevData index;
           let indexKey := joinKeys key (pretty index) in
           resolveResolverResult childResult indexKey select data s)
        items 0%nat [] s
  | DNull => Ret (DNull, s)
  | _ =>
      if isDataOrKey result then
        let childKey :=
          match result with
          | DStr k => if String.eqb k EmptyString then key else k
          | _ => default key (keyOfEntity (tables (store ctx)) result)
          end in
        readSelectionRec childKey select (orFresh prevData) s
      else
        (* warning: "Invalid resolver value" *)
        Ret (DUndefined, s)
  end.

(** The part of the loop body of [readSelection] that computes
    [dataFieldValue] for the field [node]: through a resolver, from the
    record of a scalar field, or through the link of a field with a
    selection set.  It returns [dataFieldValue] together with [data],
    into which the resolver branch stores the raw field value. *)
Definition readFieldValue (typename entityKey : string)
  (node : SelectionNode) (data : Data) (s : ReadState)
  : Outcome (DataField * Data * ReadState) :=
  let t := tables (store ctx) in
  let fieldName := getName node in
  let fieldArgs := getFieldArguments node (variables ctx) in
  let fieldAlias := getFieldAlias node in
  let fieldKey := joinKeys entityKey (keyOfField fieldName fieldArgs) in
  let fieldValue := getRecord t fieldKey in
  match resolverOf (store ctx) typename fieldName with
  | Some resolver =>
      (* "We have a resolver for this field." *)
      let data :=
        if isUndefined fieldValue then data
        else setField data fieldAlias fieldValue in
      let resolverValue :=
        resolver data (default [] fieldArgs) t (variables ctx) in
      let isNull := isUndefined resolverValue || isNull resolverValue in
      if negb (hasSelectionSet node) || isNull then
        Ret (if isNull then DUndefined else resolverValue, data, s)
      else
        do (r, s') <-
          resolveResolverResult resolverValue fieldKey
            (getSelectionSet node) (getField_ data fieldAlias) s;
        Ret (r, data, s')
  | None =>
      if negb (hasSelectionSet node) then
        (* "The field is a scalar and can be retrieved directly" *)
        Ret (fieldValue, data, s)
      else
        (* "We have a selection set which means that we'll be checking
           for links" *)
        let fieldSelect := getSelectionSet node in
        match getLink t fieldKey with
        | Some link =>
            let prevData := getField_ data fieldAlias in
            do (r, s') <- resolveLink link fieldSelect prevData s;
            Ret (r, data, s')
        | None =>
            match fieldValue with
            | DObj _ | DArr _ =>
                (* "The entity on the field was invalid but can still be
                   recovered" *)
                Ret (fieldValue, data, s)
            | _ => Ret (DUndefined, data, s)
            end
        end
  end.

(** The [while] loop of [readSelection], from the iterator state [iter]
    on. *)
Fixpoint readFields (count : nat) (typename entityKey : string)
  (isQuery : bool) (iter : SelectionIterator) (data : Data)
  (hasFields : bool) (s : ReadState) : Outcome (DataField * ReadState) :=
  match count with
  | O => OutOfFuel
  | S count' =>
      do (node, iter) <- next fuel iter;
      match node with
      | None =>
          Ret (if isQuery && ctxPartial s && negb hasFields
               then DUndefined else DObj data, s)
      | Some node =>
          let fieldName := getName node in
          let fieldArgs := getFieldArguments node (variables ctx) in
          let fieldAlias := getFieldAlias node in
          let fieldKey := joinKeys entityKey (keyOfField fieldName fieldArgs) in
          let s := if isQuery then addDependency fieldKey s else s in
          do (dataFieldValue, data, s) <-
            readFieldValue typename entityKey node data s;
          match schemaPredicates ctx with
          | Some sp =>
              (* "If we can check against the schema an uncached field
                 may be acceptable for partial results" *)
              if isUndefined dataFieldValue
                 && isFieldNullable sp typename fieldName
              then
                readFields count' typename entityKey isQuery iter
                  (setField data fieldAlias DNull) true (setPartial s)
              else Ret (DUndefined, s)
          | None =>
              if isUndefined dataFieldValue then
                (* "Otherwise an uncached field means that the Data is
                   invalid, so we return undefined" *)
                Ret (DUndefined, s)
              else
                readFields count' typename entityKey isQuery iter
                  (setField data fieldAlias dataFieldValue) true s
          end
      end
  end.

Definition readSelectionBody (entityKey : string) : Reader :=
  fun select data s =>
    let t := tables (store ctx) in
    let isQuery := String.eqb entityKey (getRootKey t OpQuery) in
    let s := if isQuery then s else addDependency entityKey s in
    (* "Get the __typename field for a given entity to check that it exists" *)
    let typename :=
      if isQuery then DStr (getRootKey t OpQuery)
      else getField t entityKey "__typename" None in
    match typename with
    | DStr typename =>
        do data <- asData data;
        let data := setField data "__typename" (DStr typename) in
        let iter := newSelectionIterator (Some typename) entityKey select ctx in
        readFields fuel typename entityKey isQuery iter data false s
    | _ => Ret (DUndefined, s)
    end.

End Traversal.

(** [readSelection]: one unit of fuel per level of nesting; the level's
    remaining fuel also bounds its own loops. *)
Fixpoint readSelection (fuel : nat) (ctx : Context) (entityKey : string)
  : Reader :=
  match fuel with
  | O => fun _ _ _ => OutOfFuel
  | S fuel' => readSelectionBody ctx fuel' (readSelection fuel' ctx) entityKey
  end.

Section RootTraversal.

Variable ctx : Context.
Variable fuel : nat.

(** The recursive calls of [readRoot], one level deeper. *)
Variable readRootRec : string → Reader.

Fixpoint readRootField (select : SelectionSet) (originalData : DataField)
  (s : ReadState) {struct originalData} : Outcome (DataField * ReadState) :=
  match originalData with
  | DArr items =>
      mapIndexed (fun x _ s => readRootField select x s) items 0%nat [] s
  | DNull => Ret (DNull, s)
  | _ =>
      match keyOfEntity (tables (store ctx)) originalData with
      | Some entityKey =>
          do (fieldValue, s') <- readSelection fuel ctx entityKey select (DObj []) s;
          Ret (if isUndefined fieldValue then DNull else fieldValue, s')
      | None =>
          match getProp originalData "__typename" with
          | DStr typename => readRootRec typename select originalData s
          | _ =>
              (* [readRoot] returns data without a typename unchanged *)
              Ret (originalData, s)
          end
      end
  end.

(** The [while] loop of [readRoot]. *)
Fixpoint readRootFields (count : nat) (iter : SelectionIterator)
  (originalData : DataField) (data : Data) (s : ReadState)
  : Outcome (DataField * ReadState) :=
  match count with
  | O => OutOfFuel
  | S count' =>
      do (node, iter) <- next fuel iter;
      match node with
      | None => Ret (DObj data, s)
      | Some node =>
          let fieldAlias := getFieldAlias node in
          let fieldValue := getProp originalData fieldAlias in
          if hasSelectionSet node && negb (isNull fieldValue)
             && negb (isScalar fieldValue)
          then
            do (r, s') <- readRootField (getSelectionSet node) fieldValue s;
            readRootFields count' iter originalData (setField data fieldAlias r) s'
          else
            readRootFields count' iter originalData
              (setField data fieldAlias fieldValue) s
      end
  end.

Definition readRootBody (entityKey : string) : Reader :=
  fun select originalData s =>
    match originalData with
    | DUndefined | DNull =>
        (* [originalData.__typename] *)
        Throw "TypeError: cannot read properties of null"
    | _ =>
        match getProp originalData "__typename" with
        | DStr typename =>
            let data := setField [] "__typename" (DStr typename) in
            let iter :=
              newSelectionIterator (Some entityKey) entityKey select ctx in
            readRootFields fuel iter originalData data s
        | _ => Ret (originalData, s)
        end
    end.

End RootTraversal.

Fixpoint readRoot (fuel : nat) (ctx : Context) (entityKey : string) : Reader :=
  match fuel with
  | O => fun _ _ _ => OutOfFuel
  | S fuel' => readRootBody ctx fuel' (readRoot fuel' ctx) entityKey
  end.

Record OperationRequest : Type := mkRequest {
  query_ : DocumentNode;
  requestVariables : option Variables
}.

Definition read (fuel : nat) (st : Store) (request : OperationRequest)
  (input : option DataField) (s : ReadState) : Outcome QueryResult :=
  do op <- getMainOperation (query_ request);
  let rootKey := getRootKey (tables st) (operation op) in
  let rootSelect := operationSelectionSet op in
  let ctx :=
    mkContext st (normalizeVariables op (requestVariables request))
      (getFragments (query_ request)) (storeSchemaPredicates st) in
  let s := mkReadState false (currentDependencies s) in
  do (data, s') <-
    match input with
    | Some input =>
        (* [input !== undefined] *)
        if isUndefined input
        then readSelection fuel ctx rootKey rootSelect (DObj []) s
        else readRoot fuel ctx rootKey rootSelect input s
    | None => readSelection fuel ctx rootKey rootSelect (DObj []) s
    end;
  Ret (mkQueryResult (currentDependencies s')
         (if isUndefined data then false else ctxPartial s')
         (if isUndefined data then DNull else data)).

(** [query]: [initStoreState(0)], [read], [clearStoreState()]. *)
Definition query (fuel : nat) (st : Store) (request : OperationRequest)
  (input : option DataField) : Outcome QueryResult :=
  read fuel st request input initStoreState.

(** ** Notions used to state the properties of the read path *)

(** [Yields fuel it nodes it']: [nodes] is the sequence of field nodes
    that successive calls of [next] return from the iterator state [it],
    leaving it in state [it']. *)
Inductive Yields (fuel : nat) : SelectionIterator → list SelectionNode
  → SelectionIterator → Prop :=
| Yields_nil it : Yields fuel it [] it
| Yields_cons it node it' nodes it'' :
    next fuel it = Ret (Some node, it') →
    Yields fuel it' nodes it'' →
    Yields fuel it (node :: nodes) it''.

(** The iterator is exhausted: [next] returns [undefined]. *)
Definition Exhausted (fuel : nat) (it : SelectionIterator) : Prop :=
  ∃ it', next fuel it = Ret (None, it').

(** The fully-qualified key under which [readSelection] looks a field
    node up. *)
Definition fieldKeyOf (ctx : Context) (entityKey : string)
  (node : SelectionNode) : string :=
  joinKeys entityKey
    (keyOfField (getName node) (getFieldArguments node (variables ctx))).

(** The condition of the heuristic as the specification words it: "the
    current typename equals the type condition, or every field in the
    fragment's selection is already present in the store under the current
    entity key". *)
Definition heuristicAsSpecified (node : FragmentNode)
  (typename : option string) (entityKey : string) (ctx : Context) : Prop :=
  typename = getTypeCondition node
  ∨ ∀ field, field ∈ getFragmentSelectionSet node → isFieldNode field = true →
      hasField (tables (store ctx)) (fieldKeyOf ctx entityKey field) = true.

(** The typename under which [readSelection] reads an entity: the root
    key itself on the Query root, otherwise the [__typename] record of the
    entity. *)
Definition entityTypename (ctx : Context) (entityKey : string) : option string :=
  let t := tables (store ctx) in
  if String.eqb entityKey (getRootKey t OpQuery) then Some (getRootKey t OpQuery)
  else
    match getField t entityKey "__typename" None with
    | DStr typename => Some typename
    | _ => None
    end.

(** A field is missing from the cache: no resolver stands in for it, and
    the store holds no record for a scalar field, respectively neither a
    link nor a nested record for a field with a selection set. *)
Definition uncachedField (ctx : Context) (typename entityKey : string)
  (node : SelectionNode) : Prop :=
  let t := tables (store ctx) in
  resolverOf (store ctx) typename (getName node) = None
  ∧ if hasSelectionSet node
    then getLink t (fieldKeyOf ctx entityKey node) = None
         ∧ match getRecord t (fieldKeyOf ctx entityKey node) with
           | DObj _ | DArr _ => False
           | _ => True
           end
    else getRecord t (fieldKeyOf ctx entityKey node) = DUndefined.

(** The test of [readRoot] that sends a field of the supplied data through
    [readRootField]. *)
Definition recursesInto (node : SelectionNode) (originalData : DataField) : bool :=
  let fieldValue := getProp originalData (getFieldAlias node) in
  hasSelectionSet node && negb (isNull fieldValue) && negb (isScalar fieldValue).

(** The state in which [read] starts a traversal, and its result. *)
Definition readContext (st : Store) (request : OperationRequest)
  (op : OperationDefinitionNode) : Context :=
  mkContext st (normalizeVariables op (requestVariables request))
    (getFragments (query_ request)) (storeSchemaPredicates st).

Definition readResult (r : DataField * ReadState) : QueryResult :=
  mkQueryResult (currentDependencies r.2)
    (if isUndefined r.1 then false else ctxPartial r.2)
    (if isUndefined r.1 then DNull else r.1).

(** [Poisoned ctx fuel entityKey select]: a read of [select] on the entity
    meets a field that is missing from the cache, either among the fields
    of the entity or, through links to single entities, among those of an
    entity below it.  [fuel] is the fuel of the read. *)
Inductive Poisoned (ctx : Context) : nat → string → SelectionSet → Prop :=
| Poisoned_field fuel entityKey select typename nodes it' node :
    entityTypename ctx entityKey = Some typename →
    Yields fuel (newSelectionIterator (Some typename) entityKey select ctx)
      nodes it' →
    node ∈ nodes →
    uncachedField ctx typename entityKey node →
    Poisoned ctx (S fuel) entityKey select
| Poisoned_child fuel entityKey select typename nodes it' node child :
    entityTypename ctx entityKey = Some typename →
    Yields fuel (newSelectionIterator (Some typename) entityKey select ctx)
      nodes it' →
    node ∈ nodes →
    resolverOf (store ctx) typename (getName node) = None →
    hasSelectionSet node = true →
    getLink (tables (store ctx)) (fieldKeyOf ctx entityKey node) = Some (LKey child) →
    Poisoned ctx fuel child (getSelectionSet node) →
    Poisoned ctx (S fuel) entityKey select.

(** The dependency set only grows: [grows s s'] relates the state before
    a call to the state after it. *)
Definition grows (s s' : ReadState) : Prop :=
  currentDependencies s ⊆ currentDependencies s'.

Definition growing (f : Reader) : Prop :=
  ∀ select data s r s', f select data s = Ret (r, s') → grows s s'.

(** ** Acyclic fragment references and the size of a selection *)

(** The names of the fragments spread inside a selection, at any depth. *)
Fixpoint spreadNames (node : SelectionNode) : list string :=
  match node with
  | FieldNode _ _ _ _ (Some select) => flat_map spreadNames select
  | FieldNode _ _ _ _ None => []
  | FragmentSpreadNode name _ => [name]
  | InlineFragmentNode _ _ select => flat_map spreadNames select
  end.

(** The fragment references of a fragment map are acyclic when the
    fragments can be ranked so that every fragment only spreads fragments
    of a lower rank. *)
Definition acyclicFragments (frags : Fragments) (rank : string → nat) : Prop :=
  ∀ name def spread,
    frags !! name = Some def →
    spread ∈ flat_map spreadNames (fragmentSelectionSet def) →
    (rank spread < rank name)%nat.

(** Every fragment spread in [select] has a rank below [r]. *)
Definition bounded (rank : string → nat) (r : nat) (select : SelectionSet) : Prop :=
  ∀ spread, spread ∈ flat_map spreadNames select → (rank spread < r)%nat.

(** The size of a selection node once the fragments it spreads, of rank
    below [r], are expanded. *)
Fixpoint nodeWeight (frags : Fragments) (r : nat) {struct r}
  : SelectionNode → nat :=
  fix weight (node : SelectionNode) : nat :=
    match node with
    | FieldNode _ _ _ _ (Some select) => 2 + sum_list (map weight select)
    | FieldNode _ _ _ _ None => 2
    | InlineFragmentNode _ _ select => 2 + sum_list (map weight select)
    | FragmentSpreadNode name _ =>
        match r with
        | O => 2
        | S r' =>
            match frags !! name with
            | Some def =>
                2 + sum_list (map (nodeWeight frags r') (fragmentSelectionSet def))
            | None => 2
            end
        end
    end%nat.

Definition selectionWeight (frags : Fragments) (r : nat) (select : SelectionSet)
  : nat :=
  sum_list (map (nodeWeight frags r) select).

(** [Frames frags rank indices selections m]: the stacks of an iterator
    are aligned, every selection on the stack is bounded by some rank, and
    [m] bounds the work that is left: one step for each frame and the
    weight of the nodes not yet visited in it. *)
Inductive Frames (frags : Fragments) (rank : string → nat)
  : list nat → list SelectionSet → nat → Prop :=
| Frames_nil : Frames frags rank [] [] 0%nat
| Frames_cons index select r indices selections m :
    bounded rank r select →
    Frames frags rank indices selections m →
    Frames frags rank (index :: indices) (select :: selections)
      (1 + selectionWeight frags r (drop index select) + m)%nat.

(** A call halts when it does not exhaust its fuel. *)
Definition halts {A : Type} (m : Outcome A) : Prop := m ≠ OutOfFuel.

(** ** The populate transform

    The transform itself ([populateExchange]) is not among the sources at
    hand; only its tests are ([populateExchange.test.ts]).  It is modelled
    from §4.6 of the specification, and the names and the order of the
    synthesized fragments follow the snapshots of the tests. *)

Module Populate.

(** Modelled from the spec: the part of the schema oracle that the
    populate transform consults (§4.6): the named return type of a field,
    with list and non-null wrappers removed; the expansion of a type "into
    [its] concrete object types" (an object type expands to itself, an
    interface to its implementors, a union to its members); the root
    types. *)
Record Schema : Type := mkSchema {
  fieldType : string → string → option string;
  concreteTypes : string → list string;
  rootType : OperationType → string
}.

(** The operations of the stream, as the tests build them. *)
Inductive OperationKind : Type :=
| KQuery | KMutation | KSubscription | KTeardown.

Record Operation : Type := mkOp {
  key : Z;
  kind : OperationKind;
  document : DocumentNode
}.

(** Modelled from the spec: a synthesized fragment [{ name, node, key }]
    (§4.6); [fragmentKey] is the key of the originating operation and the
    name is that of [fragmentNode]. *)
Record TypeFragment : Type := mkTypeFragment {
  fragmentKey : Z;
  fragmentNode : FragmentDefinitionNode
}.

(** Modelled from the spec: the "global state over the stream of
    operations" (§4.6). *)
Record State : Type := mkState {
  activeQueries : gmap Z (list string);
  typeFragments : gmap string (list TypeFragment);
  userFragments : gmap string FragmentDefinitionNode
}.

Definition initialState : State := mkState ∅ ∅ ∅.

Definition fragmentsOfType (st : State) (typename : string) : list TypeFragment :=
  default [] (typeFragments st !! typename).

(** *** Observing a query *)

(** Modelled from the spec: "for every selection set whose parent field's
    return type resolves (via the schema oracle) to a concrete object type
    [T], record a synthesized fragment on [T] consisting of that selection
    set".  The selection sets are met in document order; the result pairs
    each one with its type. *)
Fixpoint extractSelections (schema : Schema) (parentType : string)
  (node : SelectionNode) : list (string * SelectionSet) :=
  match node with
  | FieldNode _ name _ _ (Some select) =>
      match fieldType schema parentType name with
      | Some type =>
          (if bool_decide (concreteTypes schema type = [type])
           then [(type, select)] else [])
          ++ flat_map (extractSelections schema type) select
      | None => []
      end
  | FieldNode _ _ _ _ None => []
  | FragmentSpreadNode _ _ => []
  | InlineFragmentNode typeCondition _ select =>
      flat_map (extractSelections schema (default parentType typeCondition)) select
  end.

Definition extractFromDefinition (schema : Schema) (def : DefinitionNode)
  : list (string * SelectionSet) :=
  match def with
  | OperationDefinition op =>
      flat_map (extractSelections schema (rootType schema (operation op)))
        (operationSelectionSet op)
  | FragmentDefinition f =>
      flat_map (extractSelections schema (fragmentTypeCondition f))
        (fragmentSelectionSet f)
  end.

(** The name of the [n]-th fragment synthesized for a type; the tests'
    snapshots read [Todo_PopulateFragment_0], [Todo_PopulateFragment_1]. *)
Definition populateFragmentName (typename : string) (n : nat) : string :=
  typename +:+ "_PopulateFragment_" +:+ pretty n.

(** Modelled from the spec: "fragments are appended in a deterministic
    order (by typename, then by key)" (§4.6).  The fragments recorded
    for a type are kept in the order of the keys of their operations; the
    fragments of one operation stay in the order in which its selection
    sets are met. *)
Fixpoint insertByKey (f : TypeFragment) (fs : list TypeFragment)
  : list TypeFragment :=
  match fs with
  | [] => [f]
  | g :: rest =>
      if bool_decide (fragmentKey g ≤ fragmentKey f)
      then g :: insertByKey f rest
      else f :: g :: rest
  end.

(** Records one synthesized fragment, keyed by the originating
    operation, among those already recorded for its type. *)
Definition addTypeFragment (opKey : Z) (fragments : gmap string (list TypeFragment))
  (entry : string * SelectionSet) : gmap string (list TypeFragment) :=
  let current := default [] (fragments !! entry.1) in
  let node :=
    mkFragment (populateFragmentName entry.1 (length current)) entry.1 []
      entry.2 in
  <[entry.1 := insertByKey (mkTypeFragment opKey node) current]> fragments.

Definition addUserFragment (fragments : gmap string FragmentDefinitionNode)
  (def : DefinitionNode) : gmap string FragmentDefinitionNode :=
  match def with
  | FragmentDefinition f => <[fragmentName f := f]> fragments
  | OperationDefinition _ => fragments
  end.

(** A key is observed for the first time when no synthesized fragment
    originates from it. *)
Definition firstTime (st : State) (opKey : Z) : bool :=
  bool_decide
    (map_Forall (λ _ fragments, Forall (λ f, fragmentKey f ≠ opKey) fragments)
       (typeFragments st)).

(** Modelled from the spec: the handling of a query (§4.6).  On the
    first observation of its key the query becomes live, the document is
    walked, the synthesized fragments are recorded under the key of the
    operation, and the fragment definitions of the document are
    collected.  The specification describes no effect of a query whose
    key has been observed before: it leaves the state as it is. *)
Definition handleQuery (schema : Schema) (st : State) (op : Operation) : State :=
  if firstTime st (key op) then
    let entries := flat_map (extractFromDefinition schema) (document op) in
    mkState (<[key op := map fst entries]> (activeQueries st))
      (fold_left (addTypeFragment (key op)) entries (typeFragments st))
      (fold_left addUserFragment (document op) (userFragments st))
  else st.

(** Modelled from the spec: "query teardown ... remove the query's
    contribution from [activeQueries]; its previously synthesized
    fragments stop being emitted". *)
Definition handleTeardown (st : State) (op : Operation) : State :=
  mkState (delete (key op) (activeQueries st)) (typeFragments st)
    (userFragments st).

(** *** Rewriting a mutation *)

(** The synthesized fragments on a type that come "from queries currently
    live", in the order in which they are kept. *)
Definition activeFragments (st : State) (typename : string) : list TypeFragment :=
  filter (λ f, fragmentKey f ∈ dom (activeQueries st)) (fragmentsOfType st typename).

(** The fragments that apply to a populated field: "for each concrete type
    [T] in that expansion, ... every active synthesized fragment on [T]". *)
Definition applicableFragments (schema : Schema) (st : State)
  (returnType : option string) : list TypeFragment :=
  match returnType with
  | Some type => flat_map (activeFragments st) (concreteTypes schema type)
  | None => []
  end.

Definition isPopulate (d : DirectiveNode) : bool :=
  String.eqb (directiveName d) "populate".

Definition hasPopulate (ds : list DirectiveNode) : bool := existsb isPopulate ds.

Definition withoutPopulate (ds : list DirectiveNode) : list DirectiveNode :=
  List.filter (λ d, negb (isPopulate d)) ds.

Definition spreadOf (f : TypeFragment) : SelectionNode :=
  FragmentSpreadNode (fragmentName (fragmentNode f)) [].

Definition typenameField : SelectionNode :=
  FieldNode None "__typename" [] [] None.

(** Modelled from the spec: the rewrite of the selections of a mutation
    (§4.6).  A field annotated [@populate] loses the directive and
    receives the spreads of the applicable fragments, "merged with any
    selections the user already wrote on that field"; "if no fragments
    apply ..., emit a single [__typename] field".  The second component
    lists the synthesized fragments that the rewritten node refers to. *)
Fixpoint rewriteNode (schema : Schema) (st : State) (parentType : string)
  (node : SelectionNode) : SelectionNode * list TypeFragment :=
  match node with
  | FieldNode alias name args ds select =>
      let returnType := fieldType schema parentType name in
      let children :=
        match select with
        | Some select =>
            map (rewriteNode schema st (default EmptyString returnType)) select
        | None => []
        end in
      if hasPopulate ds then
        match applicableFragments schema st returnType with
        | [] =>
            (FieldNode alias name args (withoutPopulate ds) (Some [typenameField]),
             [])
        | applicable =>
            (FieldNode alias name args (withoutPopulate ds)
               (Some (map spreadOf applicable ++ map fst children)),
             applicable ++ flat_map snd children)
        end
      else
        (FieldNode alias name args ds
           (match select with
            | Some _ => Some (map fst children)
            | None => None
            end),
         flat_map snd children)
  | FragmentSpreadNode _ _ => (node, [])
  | InlineFragmentNode typeCondition ds select =>
      let children :=
        map (rewriteNode schema st (default parentType typeCondition)) select in
      (InlineFragmentNode typeCondition ds (map fst children),
       flat_map snd children)
  end.

Definition rewriteDefinition (schema : Schema) (st : State) (def : DefinitionNode)
  : DefinitionNode * list TypeFragment :=
  match def with
  | OperationDefinition op =>
      let children :=
        map (rewriteNode schema st (rootType schema (operation op)))
          (operationSelectionSet op) in
      (OperationDefinition
         (mkOperation (operation op) (operationName op) (variableDefinitions op)
            (map fst children)),
       flat_map snd children)
  | FragmentDefinition f =>
      let children :=
        map (rewriteNode schema st (fragmentTypeCondition f))
          (fragmentSelectionSet f) in
      (FragmentDefinition
         (mkFragment (fragmentName f) (fragmentTypeCondition f)
            (fragmentDirectives f) (map fst children)),
       flat_map snd children)
  end.

(** Keeps the first of several entries of the same name. *)
Fixpoint dedupByName (seen : list string) (fs : list FragmentDefinitionNode)
  : list FragmentDefinitionNode :=
  match fs with
  | [] => []
  | f :: rest =>
      if bool_decide (fragmentName f ∈ seen) then dedupByName seen rest
      else f :: dedupByName (fragmentName f :: seen) rest
  end.

(** The user fragments "transitively referenced" from a list of fragment
    names; [fuel] bounds the depth of the references that are followed. *)
Fixpoint referencedUserFragments (fuel : nat)
  (user : gmap string FragmentDefinitionNode) (names : list string)
  : list FragmentDefinitionNode :=
  match fuel with
  | O => []
  | S fuel' =>
      flat_map
        (λ name,
           match user !! name with
           | Some f =>
               f :: referencedUserFragments fuel' user
                      (flat_map spreadNames (fragmentSelectionSet f))
           | None => []
           end) names
  end.

Definition definedFragmentNames (doc : DocumentNode) : list string :=
  flat_map
    (λ def,
       match def with
       | FragmentDefinition f => [fragmentName f]
       | OperationDefinition _ => []
       end) doc.

(** The synthesized fragments that the rewrite of a document refers to,
    in the order of their first reference. *)
Definition referencedFragments (schema : Schema) (st : State) (doc : DocumentNode)
  : list TypeFragment :=
  flat_map (λ def, (rewriteDefinition schema st def).2) doc.

Definition appendedFragments (schema : Schema) (st : State) (doc : DocumentNode)
  : list FragmentDefinitionNode :=
  dedupByName [] (map fragmentNode (referencedFragments schema st doc)).

(** Modelled from the spec: the rewritten document (§4.6): the rewritten
    definitions, then "the definitions of all synthesized fragments
    referenced, plus any user fragment definitions transitively referenced
    from them" that the document does not define itself. *)
Definition addFragmentsToQuery (schema : Schema) (st : State) (doc : DocumentNode)
  : DocumentNode :=
  let synthesized := appendedFragments schema st doc in
  let required :=
    dedupByName (definedFragmentNames doc)
      (referencedUserFragments (S (size (userFragments st))) (userFragments st)
         (flat_map (λ f, flat_map spreadNames (fragmentSelectionSet f)) synthesized)) in
  map (λ def, (rewriteDefinition schema st def).1) doc
  ++ map FragmentDefinition synthesized
  ++ map FragmentDefinition required.

(** Modelled from the spec: the handling of one operation of the stream
    (§4.6): the state after it and the operation that is forwarded. *)
Definition handleOperation (schema : Schema) (st : State) (op : Operation)
  : State * Operation :=
  match kind op with
  | KQuery => (handleQuery schema st op, op)
  | KTeardown => (handleTeardown st op, op)
  | KMutation | KSubscription =>
      (st, mkOp (key op) (kind op) (addFragmentsToQuery schema st (document op)))
  end.

(** The state of the transform after a stream of operations. *)
Definition stateAfter (schema : Schema) (ops : list Operation) (st : State) : State :=
  fold_left (λ st op, (handleOperation schema st op).1) ops st.

(** The document of the mutation that is forwarded after a history of
    operations. *)
Definition populated (schema : Schema) (history : list Operation)
  (mutation : DocumentNode) : DocumentNode :=
  addFragmentsToQuery schema (stateAfter schema history initialState) mutation.

(** *** Notions used to state the properties of the transform *)

(** The position of a typename in a list of typenames. *)
Fixpoint indexOf (typename : string) (typenames : list string) : nat :=
  match typenames with
  | [] => O
  | t :: rest => if String.eqb t typename then O else S (indexOf typename rest)
  end.

(** The order of the fragments that apply to a field of return type
    [type]: by the position of their typename in the expansion of
    [type], then by the key of the originating operation. *)
Definition fragmentOrder (schema : Schema) (type : string) (f g : TypeFragment)
  : Prop :=
  let position f :=
    indexOf (fragmentTypeCondition (fragmentNode f)) (concreteTypes schema type) in
  (position f < position g)%nat
  ∨ (position f = position g ∧ fragmentKey f ≤ fragmentKey g).

(** A recorded fragment contributes to a field of return type
    [returnType]: it is recorded for one of the concrete types of the
    return type and its query is live. *)
Definition contributes (schema : Schema) (st : State)
  (returnType : option string) (f : TypeFragment) : Prop :=
  ∃ type typename,
    returnType = Some type
    ∧ typename ∈ concreteTypes schema type
    ∧ f ∈ fragmentsOfType st typename
    ∧ fragmentKey f ∈ dom (activeQueries st).

(** The node at a path of indices into nested selection sets. *)
Fixpoint childAt (path : list nat) (node : SelectionNode) : option SelectionNode :=
  match path with
  | [] => Some node
  | i :: rest =>
      match node with
      | FieldNode _ _ _ _ (Some select) | InlineFragmentNode _ _ select =>
          match select !! i with
          | Some child => childAt rest child
          | None => None
          end
      | _ => None
      end
  end.

(** The node at a path together with the type of its parent, provided
    that no field above it is annotated [@populate]. *)
Fixpoint locate (schema : Schema) (parentType : string) (path : list nat)
  (node : SelectionNode) : option (string * SelectionNode) :=
  match path with
  | [] => Some (parentType, node)
  | i :: rest =>
      match node with
      | FieldNode _ name _ ds (Some select) =>
          if hasPopulate ds then None
          else
            match select !! i with
            | Some child =>
                locate schema
                  (default EmptyString (fieldType schema parentType name))
                  rest child
            | None => None
            end
      | InlineFragmentNode typeCondition _ select =>
          match select !! i with
          | Some child =>
              locate schema (default parentType typeCondition) rest child
          | None => None
          end
      | _ => None
      end
  end.

(** The number of fields annotated [@populate]. *)
Fixpoint countNode (node : SelectionNode) : nat :=
  match node with
  | FieldNode _ _ _ ds select =>
      (if hasPopulate ds then 1 else 0)
      + match select with
        | Some select => sum_list (map countNode select)
        | None => 0
        end
  | FragmentSpreadNode _ _ => 0
  | InlineFragmentNode _ _ select => sum_list (map countNode select)
  end%nat.

Definition definitionSelectionSet (def : DefinitionNode) : SelectionSet :=
  match def with
  | OperationDefinition op => operationSelectionSet op
  | FragmentDefinition f => fragmentSelectionSet f
  end.

Definition countPopulate (doc : DocumentNode) : nat :=
  sum_list (map (λ def, sum_list (map countNode (definitionSelectionSet def))) doc).

(** The names of the fragments that the definitions of a document
    spread. *)
Definition documentSpreads (doc : DocumentNode) : list string :=
  flat_map (λ def, flat_map spreadNames (definitionSelectionSet def)) doc.

(** The user fragments that the transform appends to a document. *)
Definition requiredFragments (schema : Schema) (st : State) (doc : DocumentNode)
  : list FragmentDefinitionNode :=
  dedupByName (definedFragmentNames doc)
    (referencedUserFragments (S (size (userFragments st))) (userFragments st)
       (flat_map (λ f, flat_map spreadNames (fragmentSelectionSet f))
          (appendedFragments schema st doc))).

(** The fragments recorded for a type are fragments on that type, they
    carry pairwise distinct names of that type, and they are kept in the
    order of the keys of their operations. *)
Definition wellRecorded (fragments : gmap string (list TypeFragment)) : Prop :=
  ∀ typename fs,
    fragments !! typename = Some fs →
    Forall (λ f,
              fragmentTypeCondition (fragmentNode f) = typename
              ∧ ∃ n, (n < length fs)%nat
                     ∧ fragmentName (fragmentNode f)
                       = populateFragmentName typename n) fs
    ∧ NoDup (map (λ f, fragmentName (fragmentNode f)) fs)
    ∧ StronglySorted (λ f g, fragmentKey f ≤ fragmentKey g) fs.

(** The character that separates the number from the rest of the name
    of a synthesized fragment. *)
Definition underscore : Ascii.ascii := Ascii.ascii_of_nat 95.

(** The characters of a string. *)
Fixpoint chars (s : string) : list Ascii.ascii :=
  match s with
  | EmptyString => []
  | String c rest => c :: chars rest
  end.

End Populate.

(** ** The write path

    [src/operations/write.ts] is not among the sources at hand (the tests
    call [write]); the traversal is modelled from §4.3 of the
    specification.  It walks the selection with the [SelectionIterator] of
    [shared.ts], over the store as it is at each step. *)

(** The store tables and the dependency set during a write. *)
Record WriteState : Type := mkWriteState {
  writeTables : Tables;
  writeDependencies : gset string
}.

(** Modelled from the spec: [writeRecord(fieldKey, value)] of §4.2. *)
Definition writeRecord (fieldKey : string) (value : DataField) (w : WriteState)
  : WriteState :=
  let t := writeTables w in
  mkWriteState (mkTables (<[fieldKey := value]> (records t)) (links t) (rootFields t))
    (writeDependencies w).

(** Modelled from the spec: [writeLink(fieldKey, link)] of §4.2. *)
Definition writeLink (fieldKey : string) (link : Link) (w : WriteState)
  : WriteState :=
  let t := writeTables w in
  mkWriteState (mkTables (records t) (<[fieldKey := link]> (links t)) (rootFields t))
    (writeDependencies w).

Definition addWriteDependency (key : string) (w : WriteState) : WriteState :=
  mkWriteState (writeTables w) ({[key]} ∪ writeDependencies w).

(** The context of the iterator, over the tables as they are now. *)
Definition contextAt (ctx : Context) (w : WriteState) : Context :=
  mkContext
    (mkStore (writeTables w) (resolvers (store ctx)) (updaters (store ctx))
       (storeSchemaPredicates (store ctx)))
    (variables ctx) (fragments ctx) (schemaPredicates ctx).

Definition withContext (it : SelectionIterator) (ctx : Context) : SelectionIterator :=
  mkIterator (typename it) (entityKey it) (indexStack it) ctx (selectionStack it).

(** [store.updaters[rootKey]] and, when it is defined, its entry for the
    field. *)
Definition updaterOf (st : Store) (rootKey fieldName : string) : option Updater :=
  updaters st !! rootKey ≫= (.!! fieldName).

(** The elements of an array are written in order; an element without a
    link of its own leaves [null] in the parallel link structure. *)
Fixpoint writeElements {A : Type}
  (f : A → nat → WriteState → Outcome (option Link * WriteState))
  (xs : list A) (index : nat) (out : list Link) (w : WriteState)
  : Outcome (list Link * WriteState) :=
  match xs with
  | [] => Ret (out, w)
  | x :: rest =>
      do (l, w') <- f x index w;
      writeElements f rest (S index) (out ++ [default LNull l]) w'
  end.

Section WriteTraversal.

Variable ctx : Context.
Variable fuel : nat.

(** The recursive calls of [writeSelection], one level deeper. *)
Variable writeSelectionRec :
  string → SelectionSet → DataField → WriteState → Outcome WriteState.

(** Modelled from the spec: the value of a field with a sub-selection
    (§4.3 step 3).  [null] gives a null link; an array is written element
    by element, "building a parallel link structure"; a mapping is written
    under its own entity key when it has one, and the link is that key; an
    embedded mapping is written with [parentFieldKey] "as the child's
    addressing prefix" and gets "no link entry".  The result is the link
    to write at the field, if any. *)
Fixpoint writeField (value : DataField) (parentFieldKey : string)
  (select : SelectionSet) (w : WriteState) {struct value}
  : Outcome (option Link * WriteState) :=
  match value with
  | DArr items =>
      do (ls, w') <-
        writeElements
          (fun x index w =>
             writeField x (joinKeys parentFieldKey (pretty index)) select w)
          items 0%nat [] w;
      Ret (Some (LList ls), w')
  | DNull => Ret (Some LNull, w)
  | DObj _ =>
      match keyOfEntity (writeTables w) value with
      | Some entityKey =>
          do w' <- writeSelectionRec entityKey select value w;
          Ret (Some (LKey entityKey), w')
      | None =>
          do w' <- writeSelectionRec parentFieldKey select value w;
          Ret (None, w')
      end
  | _ => Ret (None, w)
  end.

(** Modelled from the spec: §4.3 step 3 for one field node [node] of the
    entity: a field without sub-selection is written as a scalar into the
    record of the entity, and the entity key is recorded as a dependency;
    otherwise the value is written through [writeField] and the resulting
    link, if any, is written at the full key of the field. *)
Definition writeFieldNode (entityKey : string) (node : SelectionNode)
  (data : DataField) (w : WriteState) : Outcome WriteState :=
  let fieldName := getName node in
  let fieldArgs := getFieldArguments node (variables ctx) in
  let fieldKey := keyOfField fieldName fieldArgs in
  let fullKey := joinKeys entityKey fieldKey in
  let value := getProp data (getFieldAlias node) in
  if negb (hasSelectionSet node) then
    Ret (addWriteDependency entityKey (writeRecord fullKey value w))
  else
    do (link, w') <- writeField value fullKey (getSelectionSet node) w;
    Ret (match link with
         | Some l => writeLink fullKey l w'
         | None => w'
         end).

(** Modelled from the spec: step 4 of §4.3: the updater registered "for
    the operation root and field name" runs after the field is written. *)
Definition runUpdater (updaterRoot : option string) (node : SelectionNode)
  (data : DataField) (w : WriteState) : WriteState :=
  match updaterRoot ≫= (λ root, updaterOf (store ctx) root (getName node)) with
  | Some updater =>
      mkWriteState
        (updater (getProp data (getFieldAlias node))
           (default [] (getFieldArguments node (variables ctx)))
           (writeTables w) (variables ctx))
        (writeDependencies w)
  | None => w
  end.

(** The loop over the field nodes of a selection (fragments expanded by
    the selection iterator, §4.5). *)
Fixpoint writeFields (count : nat) (entityKey : string)
  (updaterRoot : option string) (iter : SelectionIterator) (data : DataField)
  (w : WriteState) : Outcome WriteState :=
  match count with
  | O => OutOfFuel
  | S count' =>
      do (node, iter) <- next fuel (withContext iter (contextAt ctx w));
      match node with
      | None => Ret w
      | Some node =>
          do w <- writeFieldNode entityKey node data w;
          writeFields count' entityKey updaterRoot iter data
            (runUpdater updaterRoot node data w)
      end
  end.

(** Modelled from the spec: the write of one entity.  The [__typename]
    of the entity, which the iterator skips, is recorded first ("every
    record for a keyed entity contains [__typename]", §3). *)
Definition writeSelectionBody (updaterRoot : option string) (entityKey : string)
  (select : SelectionSet) (data : DataField) (w : WriteState)
  : Outcome WriteState :=
  let w :=
    match typenameOf data with
    | Some typename =>
        writeRecord (joinKeys entityKey (keyOfField "__typename" None))
          (DStr typename) w
    | None => w
    end in
  let iter :=
    newSelectionIterator (typenameOf data) entityKey select (contextAt ctx w) in
  writeFields fuel entityKey updaterRoot iter data w.

End WriteTraversal.

Fixpoint writeSelection (fuel : nat) (ctx : Context) (entityKey : string)
  (select : SelectionSet) (data : DataField) (w : WriteState)
  : Outcome WriteState :=
  match fuel with
  | O => OutOfFuel
  | S fuel' =>
      writeSelectionBody ctx fuel' (writeSelection fuel' ctx) None entityKey
        select data w
  end.

(** Modelled from the spec: [write] (§4.3): "Input: store, request
    (parsed document + variables), result tree.  Output: the set of
    dependency keys touched"; the store is changed in place. *)
Definition write (fuel : nat) (st : Store) (request : OperationRequest)
  (data : DataField) : Outcome (Store * gset string) :=
  do op <- getMainOperation (query_ request);
  let rootKey := getRootKey (tables st) (operation op) in
  let ctx :=
    mkContext st (normalizeVariables op (requestVariables request))
      (getFragments (query_ request)) (storeSchemaPredicates st) in
  let updaterRoot :=
    match operation op with
    | OpQuery => None
    | OpMutation | OpSubscription => Some rootKey
    end in
  do w <-
    match fuel with
    | O => OutOfFuel
    | S fuel' =>
        writeSelectionBody ctx fuel' (writeSelection fuel' ctx) updaterRoot
          rootKey (operationSelectionSet op) data (mkWriteState (tables st) ∅)
    end;
  Ret (mkStore (writeTables w) (resolvers st) (updaters st)
         (storeSchemaPredicates st),
       writeDependencies w).

(** ** Fully-selected normalized results

    The notions in which the round trip of a write and a read is stated. *)

(** Deep equality of result data, as the tests compare it ([toEqual]): a
    property whose value is [undefined] counts as absent, and the order of
    the properties is immaterial. *)
Inductive DeepEqual : DataField → DataField → Prop :=
| DeepEqual_refl x : DeepEqual x x
| DeepEqual_array xs ys :
    length xs = length ys →
    (∀ i x y, xs !! i = Some x → ys !! i = Some y → DeepEqual x y) →
    DeepEqual (DArr xs) (DArr ys)
| DeepEqual_object fields1 fields2 :
    (∀ k, DeepEqual (getField_ fields1 k) (getField_ fields2 k)) →
    DeepEqual (DObj fields1) (DObj fields2).

(** The field nodes that the iterator yields from a selection made of
    field nodes only. *)
Definition selects (vars : Variables) (node : SelectionNode) : bool :=
  shouldInclude node vars && negb (String.eqb (getName node) "__typename").

Definition selectedFields (vars : Variables) (select : SelectionSet)
  : list SelectionNode :=
  List.filter (selects vars) select.

Definition responseKeys (vars : Variables) (select : SelectionSet) : list string :=
  "__typename" :: map getFieldAlias (selectedFields vars select).

(** The size of a selection without fragments. *)
Fixpoint nodeSize (node : SelectionNode) : nat :=
  match node with
  | FieldNode _ _ _ _ (Some select) => 2 + sum_list (map nodeSize select)
  | InlineFragmentNode _ _ select => 2 + sum_list (map nodeSize select)
  | _ => 2
  end.

Definition selectionSize (select : SelectionSet) : nat :=
  sum_list (map nodeSize select).

Section Denotation.

Variable vars : Variables.

(** The root keys, by which [keyOfEntity] recognises root entities. *)
Variable roots : Tables.

(** The records and the links of a normalized graph. *)
Variable hasRecord : string → DataField → Prop.
Variable hasLink : string → Link → Prop.

(** [Denotes entityKey select data]: [data] is the result that the
    selection [select], made of field nodes, selects from the entity
    [entityKey] of the graph.  The result carries the [__typename] of the
    entity and exactly one property for each selected field, the response
    keys being distinct; a scalar field holds the record of the field; a
    field with a selection set holds [null], a list or a keyed entity,
    according to the link of the field. *)
Inductive Denotes : string → SelectionSet → DataField → Prop :=
| Denotes_entity entityKey select fields typename :
    getField_ fields "__typename" = DStr typename →
    hasRecord (joinKeys entityKey "__typename") (DStr typename) →
    (entityKey = getRootKey roots OpQuery → typename = getRootKey roots OpQuery) →
    Forall (λ node, isFieldNode node = true) select →
    NoDup (responseKeys vars select) →
    (∀ k, getField_ fields k ≠ DUndefined → k ∈ responseKeys vars select) →
    (∀ node, node ∈ selectedFields vars select →
       DenotesField entityKey node (getField_ fields (getFieldAlias node))) →
    Denotes entityKey select (DObj fields)
with DenotesField : string → SelectionNode → DataField → Prop :=
| DenotesField_scalar entityKey node value :
    hasSelectionSet node = false →
    value ≠ DUndefined →
    hasRecord
      (joinKeys entityKey
         (keyOfField (getName node) (getFieldArguments node vars))) value →
    DenotesField entityKey node value
| DenotesField_link entityKey node value link :
    hasSelectionSet node = true →
    hasLink
      (joinKeys entityKey
         (keyOfField (getName node) (getFieldArguments node vars))) link →
    DenotesLink link (getSelectionSet node) value →
    DenotesField entityKey node value
with DenotesLink : Link → SelectionSet → DataField → Prop :=
| DenotesLink_null select : DenotesLink LNull select DNull
| DenotesLink_list ls select items :
    length ls = length items →
    (∀ i l x, ls !! i = Some l → items !! i = Some x → DenotesLink l select x) →
    DenotesLink (LList ls) select (DArr items)
| DenotesLink_key key select fields :
    keyOfEntity roots (DObj fields) = Some key →
    Denotes key select (DObj fields) →
    DenotesLink (LKey key) select (DObj fields).

End Denotation.

Scheme Denotes_mut := Minimality for Denotes Sort Prop
  with DenotesField_mut := Minimality for DenotesField Sort Prop
  with DenotesLink_mut := Minimality for DenotesLink Sort Prop.

Combined Scheme Denotes_mutind
  from Denotes_mut, DenotesField_mut, DenotesLink_mut.

Definition recordIn (t : Tables) (k : string) (v : DataField) : Prop :=
  records t !! k = Some v.

Definition linkIn (t : Tables) (k : string) (l : Link) : Prop :=
  links t !! k = Some l.

(** [data] is a fully-selected normalized result of [select] on the
    entity [entityKey]: it is what the selection selects from some
    normalized graph [graph], so that the occurrences of one entity, field
    or link in [data] agree with each other. *)
Definition NormalizedResult (vars : Variables) (graph : Tables)
  (entityKey : string) (select : SelectionSet) (data : DataField) : Prop :=
  Denotes vars graph (recordIn graph) (linkIn graph) entityKey select data.

(** The writes of a traversal keep the entries of the tables that agree
    with the graph: they only put entries of the graph into the tables. *)
Definition WritesWithin (graph : Tables) (w w' : WriteState) : Prop :=
  rootFields (writeTables w') = rootFields (writeTables w)
  ∧ (∀ k v, recordIn graph k v → recordIn (writeTables w) k v →
            recordIn (writeTables w') k v)
  ∧ (∀ k l, linkIn graph k l → linkIn (writeTables w) k l →
            linkIn (writeTables w') k l).

(** Entries that the graph and the tables have in common. *)
Definition recordInBoth (graph t : Tables) (k : string) (v : DataField) : Prop :=
  recordIn graph k v ∧ recordIn t k v.

Definition linkInBoth (graph t : Tables) (k : string) (l : Link) : Prop :=
  linkIn graph k l ∧ linkIn t k l.

(** The first selected field of the rest of a selection made of field
    nodes, and the index after it. *)
Fixpoint scan (vars : Variables) (suffix : list SelectionNode) (i : nat)
  : option (SelectionNode * nat) :=
  match suffix with
  | [] => None
  | node :: rest =>
      if selects vars node then Some (node, S i) else scan vars rest (S i)
  end.

(** ** Documents and stores of the examples *)

Module Examples.

Definition scalarField (name : string) : SelectionNode :=
  FieldNode None name [] [] None.

Definition objectField (name : string) (select : SelectionSet) : SelectionNode :=
  FieldNode None name [] [] (Some select).

Definition queryDocument (select : SelectionSet) : DocumentNode :=
  [OperationDefinition (mkOperation OpQuery None [] select)].

Definition requestOf (select : SelectionSet) : OperationRequest :=
  mkRequest (queryDocument select) None.

Definition tablesOf (rs : list (string * DataField)) (ls : list (string * Link))
  : Tables :=
  mkTables (list_to_map rs) (list_to_map ls) defaultRootFields.

(** The query [{ int }] of the test "allows viewer fields to overwrite
    the root Query data", and a store that holds [int: 42] on the Query
    root. *)
Definition intQuery : SelectionSet := [scalarField "int"].

Definition intTables : Tables := tablesOf [("Query.int", DNum 42)] [].

Definition intStore : Store := mkStore intTables ∅ ∅ None.

(** A schema oracle of a schema all of whose fields are nullable. *)
Definition nullableSchema : SchemaPredicates :=
  mkSchemaPredicates (λ _ _, true)
    (λ typeCondition typename, bool_decide (typeCondition = typename)).

Definition intStoreWithSchema : Store :=
  mkStore intTables ∅ ∅ (Some nullableSchema).

(** A list of two todos of which only the first is in the store. *)
Definition todosQuery : SelectionSet :=
  [objectField "todos" [scalarField "id"; scalarField "text"]].

Definition todoQuery : SelectionSet :=
  [objectField "todo" [scalarField "id"; scalarField "text"]].

Definition todoTables : Tables :=
  tablesOf
    [("Todo:1.__typename", DStr "Todo"); ("Todo:1.id", DNum 1);
     ("Todo:1.text", DStr "first")]
    [("Query.todos", LList [LKey "Todo:1"; LKey "Todo:2"]);
     ("Query.todo", LKey "Todo:2")].

Definition todoStore : Store := mkStore todoTables ∅ ∅ None.

Definition contextOf (st : Store) : Context :=
  mkContext st [] ∅ (storeSchemaPredicates st).

(** The user fragment and a query that spreads it, after the test "on
    (query w/ fragment) -> mutation". *)
Definition todoFragment : FragmentDefinitionNode :=
  mkFragment "TodoFragment" "Todo" [] [scalarField "id"; scalarField "text"].

Definition fragmentQuery : SelectionSet :=
  [objectField "todos" [FragmentSpreadNode "TodoFragment" []]].

Definition fragmentContext : Context :=
  mkContext todoStore [] {["TodoFragment" := todoFragment]} None.

End Examples.


(** Writes followed by a read of the same request. *)
Module RoundTripExamples.

Import Examples.

(** [write] and then [query] with the same request. *)
Definition writeThenQuery (fuel : nat) (st : Store) (request : OperationRequest)
  (result : DataField) : Outcome QueryResult :=
  do (st', _) <- write fuel st request result;
  query fuel st' request None.

Definition emptyStore : Store := mkStore (tablesOf [] []) ∅ ∅ None.

(** A store with a resolver for [Query.int], as the pagination tests
    install one for [Query.items]. *)
Definition sevenResolver : Resolver := λ _ _ _ _, DNum 7.

Definition resolverStore : Store :=
  mkStore (tablesOf [] []) {["Query" := {["int" := sevenResolver]}]} ∅ None.

Definition intResult : DataField :=
  DObj [("__typename", DStr "Query"); ("int", DNum 42)].

(** The mutation [mutation { mutate { viewer { int } } }] of the test
    "allows viewer fields to overwrite the root Query data", and its
    result. *)
Definition viewerMutation : OperationRequest :=
  mkRequest
    [OperationDefinition
       (mkOperation OpMutation None []
          [objectField "mutate" [objectField "viewer" [scalarField "int"]]])]
    None.

Definition viewerResult : DataField :=
  DObj [("__typename", DStr "Mutation");
        ("mutate",
         DObj [("__typename", DStr "MutateResult");
               ("viewer",
                DObj [("__typename", DStr "Query"); ("int", DNum 43)])])].

(** The two writes and the read of that test. *)
Definition viewerTest (fuel : nat) : Outcome QueryResult :=
  do (st1, _) <- write fuel emptyStore (requestOf intQuery) intResult;
  do (st2, _) <- write fuel st1 viewerMutation viewerResult;
  query fuel st2 (requestOf intQuery) None.

(** [{ todo { id text } }] and its result. *)
Definition todoResult : DataField :=
  DObj [("__typename", DStr "Query");
        ("todo",
         DObj [("__typename", DStr "Todo"); ("id", DNum 1);
               ("text", DStr "first")])].

Definition todoGraph : Tables :=
  tablesOf
    [("Query.__typename", DStr "Query"); ("Todo:1.__typename", DStr "Todo");
     ("Todo:1.id", DNum 1); ("Todo:1.text", DStr "first")]
    [("Query.todo", LKey "Todo:1")].

(** [{ todo { ... on Other { a: id } id } }]: a fragment on another type
    whose only field is one that the entity has. *)
Definition overmatchingQuery : SelectionSet :=
  [objectField "todo"
     [InlineFragmentNode (Some "Other") [] [FieldNode (Some "a") "id" [] [] None];
      scalarField "id"]].

Definition overmatchingResult : DataField :=
  DObj [("__typename", DStr "Query");
        ("todo", DObj [("__typename", DStr "Todo"); ("id", DNum 1)])].

End RoundTripExamples.

(** The schema, the operations and the snapshots of
    [populateExchange.test.ts]. *)
Module PopulateExamples.

Import Examples Populate.

(** [schemaDef] of the tests.  The oracle lists the implementors of
    [Node] as the snapshot of "on query -> (mutation w/ interface return
    type)" has them, and the members of [UnionType] as the union
    declares them. *)
Definition testFieldType (parent field : string) : option string :=
  if String.eqb parent "Query" then
    if String.eqb field "todos" then Some "Todo"
    else if String.eqb field "users" then Some "User" else None
  else if String.eqb parent "User" then
    if String.eqb field "id" then Some "ID"
    else if String.eqb field "name" then Some "String"
    else if String.eqb field "age" then Some "Int"
    else if String.eqb field "todos" then Some "Todo" else None
  else if String.eqb parent "Todo" then
    if String.eqb field "id" then Some "ID"
    else if String.eqb field "text" then Some "String"
    else if String.eqb field "creator" then Some "User" else None
  else if String.eqb parent "Mutation" then
    if String.eqb field "addTodo" then Some "Todo"
    else if String.eqb field "removeTodo" then Some "Node"
    else if String.eqb field "updateTodo" then Some "UnionType" else None
  else if String.eqb parent "Node" then
    if String.eqb field "id" then Some "ID" else None
  else None.

Definition testConcreteTypes (type : string) : list string :=
  if String.eqb type "Todo" then ["Todo"]
  else if String.eqb type "User" then ["User"]
  else if String.eqb type "Node" then ["Todo"; "User"]
  else if String.eqb type "UnionType" then ["User"; "Todo"]
  else if String.eqb type "Query" then ["Query"]
  else if String.eqb type "Mutation" then ["Mutation"]
  else [].

Definition testSchema : Schema :=
  mkSchema testFieldType testConcreteTypes
    (λ t, match t with
          | OpQuery => "Query"
          | OpMutation => "Mutation"
          | OpSubscription => "Subscription"
          end).

Definition populateDirective : DirectiveNode := mkDirective "populate" [].

Definition mutationDocument (field : string) (select : option SelectionSet)
  (fragments : list FragmentDefinitionNode) : DocumentNode :=
  OperationDefinition
    (mkOperation OpMutation (Some "MyMutation") []
       [FieldNode None field [] [populateDirective] select])
  :: map FragmentDefinition fragments.

Definition rewrittenMutation (field : string) (select : SelectionSet)
  : DefinitionNode :=
  OperationDefinition
    (mkOperation OpMutation (Some "MyMutation") []
       [FieldNode None field [] [] (Some select)]).

Definition spread (name : string) : SelectionNode := FragmentSpreadNode name [].

Definition queryOp (k : Z) (select : SelectionSet)
  (fragments : list FragmentDefinitionNode) : Operation :=
  mkOp k KQuery
    (OperationDefinition (mkOperation OpQuery None [] select)
     :: map FragmentDefinition fragments).

Definition teardownOp (k : Z) : Operation := mkOp k KTeardown [].

(** "on query -> mutation" *)
Definition nestedQuery : SelectionSet :=
  [objectField "todos"
     [scalarField "id"; scalarField "text";
      objectField "creator" [scalarField "id"; scalarField "name"]];
   objectField "users" [objectField "todos" [scalarField "text"]]].

(** "on (query w/ fragment) -> mutation" *)
Definition creatorFragment : FragmentDefinitionNode :=
  mkFragment "CreatorFragment" "User" [] [scalarField "id"; scalarField "name"].

Definition queryWithFragments : SelectionSet :=
  [objectField "todos"
     [spread "TodoFragment"; objectField "creator" [spread "CreatorFragment"]]].

(** "on (query w/ unused fragment) -> mutation" *)
Definition userFragment : FragmentDefinitionNode :=
  mkFragment "UserFragment" "User" [] [scalarField "id"; scalarField "name"].

Definition queryWithUnusedFragment : SelectionSet :=
  [objectField "todos" [scalarField "id"; scalarField "text"];
   objectField "users" [spread "UserFragment"]].

(** "on query -> (mutation w/ interface return type)" and "... union
    return type" *)
Definition mixedQuery : SelectionSet :=
  [objectField "todos" [scalarField "id"; scalarField "name"];
   objectField "users" [scalarField "id"; scalarField "text"]].

(** "on query -> teardown -> mutation" *)
Definition simpleQuery : SelectionSet :=
  [objectField "todos" [scalarField "id"; scalarField "text"]].

(** The typenames of a list of fragment definitions are in ascending,
    respectively descending, lexicographic order. *)
Fixpoint ascending (names : list string) : bool :=
  match names with
  | a :: (b :: _) as rest => String.leb a b && ascending rest
  | _ => true
  end.

Definition conditions (fs : list FragmentDefinitionNode) : list string :=
  map fragmentTypeCondition fs.

End PopulateExamples.

(** ** Notions used to state further properties of the iterator *)

(** The two stacks of an iterator go together: one index for each
    selection. *)
Definition aligned (it : SelectionIterator) : Prop :=
  length (indexStack it) = length (selectionStack it).

(** The fragment that a node which is not a field refers to: the node
    itself when it is an inline fragment, otherwise the definition of
    its name, if there is one. *)
Definition fragmentOf (ctx : Context) (node : SelectionNode)
  : option FragmentNode :=
  if negb (isInlineFragment node)
  then DefinedFragment <$> fragments ctx !! getName node
  else Some (InlineFragment node).

(** The test [isMatching] of [next]: the schema oracle when the context
    has one, the heuristic otherwise. *)
Definition isMatching (ctx : Context) (typename : option string)
  (entityKey : string) (fragmentNode : FragmentNode) : bool :=
  match schemaPredicates ctx with
  | Some sp => isInterfaceOfType sp (getTypeCondition fragmentNode) typename
  | None => isFragmentHeuristicallyMatching fragmentNode typename entityKey ctx
  end.

Section Expansion.

Variable ctx : Context.
Variable typename : option string.
Variable entityKey : string.

(** The fields that a node stands for: a field that is included and is
    not [__typename] stands for itself, a matching fragment for the
    fields of its selection set, anything else for nothing.  Fragment
    spreads are followed to the depth [r]. *)
Fixpoint expandNode (r : nat) {struct r} : SelectionNode → list SelectionNode :=
  fix expand (node : SelectionNode) : list SelectionNode :=
    if negb (shouldInclude node (variables ctx)) then []
    else
      match node with
      | FieldNode _ name _ _ _ =>
          if String.eqb name "__typename" then [] else [node]
      | InlineFragmentNode _ _ select =>
          if isMatching ctx typename entityKey (InlineFragment node)
          then flat_map expand select
          else []
      | FragmentSpreadNode name _ =>
          match r with
          | O => []
          | S r' =>
              match fragments ctx !! name with
              | Some def =>
                  if isMatching ctx typename entityKey (DefinedFragment def)
                  then flat_map (expandNode r') (fragmentSelectionSet def)
                  else []
              | None => []
              end
          end
      end.

Definition expandSelection (r : nat) (select : SelectionSet)
  : list SelectionNode :=
  flat_map (expandNode r) select.

(** [Pending rank indices selections nodes m]: the stacks of an iterator
    are aligned, every selection on them is bounded by some rank,
    [nodes] are the fields that the selections still stand for from
    their indices on, the top of the stack first, and [m] bounds the
    work that is left. *)
Inductive Pending (rank : string → nat)
  : list nat → list SelectionSet → list SelectionNode → nat → Prop :=
| Pending_nil : Pending rank [] [] [] 0%nat
| Pending_cons index select r indices selections nodes m :
    bounded rank r select →
    Pending rank indices selections nodes m →
    Pending rank (index :: indices) (select :: selections)
      (expandSelection r (drop index select) ++ nodes)
      (1 + selectionWeight (fragments ctx) r (drop index select) + m)%nat.

End Expansion.

(** The iterator [it] over another store. *)
Definition iteratorIn (st : Store) (it : SelectionIterator) : SelectionIterator :=
  mkIterator (typename it) (entityKey it) (indexStack it)
    (mkContext st (variables (context it)) (fragments (context it))
       (schemaPredicates (context it)))
    (selectionStack it).

(** The values that [isScalar] rejects: [null], an object with a
    [__typename], and the arrays of such values. *)
Inductive EntityShape : DataField → Prop :=
| EntityShape_null : EntityShape DNull
| EntityShape_entity fields t :
    getField_ fields "__typename" = DStr t → EntityShape (DObj fields)
| EntityShape_list items :
    Forall EntityShape items → EntityShape (DArr items).

(** [Steps ctx typename entityKey rank fuel indices selections nodes m]:
    what one call of [next] does on the stacks [indices] and [selections]
    when [nodes] are the fields that are left: it returns the first of
    them and leaves stacks on which the others are left, with less work
    than [m]; when none is left it returns [undefined] and empties the
    stacks. *)
Definition Steps (ctx : Context) (typename : option string) (entityKey : string)
  (rank : string → nat) (fuel : nat) (indices : list nat)
  (selections : list SelectionSet) (nodes : list SelectionNode) (m : nat)
  : Prop :=
  match nodes with
  | [] =>
      next fuel (mkIterator typename entityKey indices ctx selections)
      = Ret (None, mkIterator typename entityKey [] ctx [])
  | node :: rest =>
      ∃ indices' selections' m',
        next fuel (mkIterator typename entityKey indices ctx selections)
        = Ret (Some node, mkIterator typename entityKey indices' ctx selections')
        ∧ Pending ctx typename entityKey rank indices' selections' rest m'
        ∧ (m' < m)%nat
  end.

(** Selections for the iterator. *)
Module IteratorExamples.

Import Examples.

(** [{ ...TodoFragment done }] *)
Definition spreadSelection : SelectionSet :=
  [FragmentSpreadNode "TodoFragment" []; scalarField "done"].

(** [{ ... on Todo { id } ...Missing text }]; the document defines no
    fragment [Missing]. *)
Definition inlineSelection : SelectionSet :=
  [InlineFragmentNode (Some "Todo") [] [scalarField "id"];
   FragmentSpreadNode "Missing" []; scalarField "text"].

Definition schemaContext (st : Store) : Context :=
  mkContext st [] ∅ (Some nullableSchema).

End IteratorExamples.

(** ** Notions used to state further properties of the read *)

(** Every returning call of [f] relates the state before it to the state
    after it. *)
Definition preserving (Rel : ReadState → ReadState → Prop) (f : Reader) : Prop :=
  ∀ select data s r s', f select data s = Ret (r, s') → Rel s s'.

(** [null] or [undefined]. *)
Definition isNullish (x : DataField) : bool := isUndefined x || isNull x.

(** Stores with a resolver for [Query.int]. *)
Module ResolverExamples.

Import Examples.

Definition nullResolver : Resolver := λ _ _ _ _, DNull.

(** The store holds [int: 42]; the resolver of [Query.int] returns
    [null]. *)
Definition nullResolverStore : Store :=
  mkStore intTables {["Query" := {["int" := nullResolver]}]} ∅ None.

(** [{ __typename }] *)
Definition typenameQuery : SelectionSet := [scalarField "__typename"].

(** A todo that is not in [todoStore]. *)
Definition missingTodo : Data :=
  [("__typename", DStr "Todo"); ("id", DNum 2); ("text", DStr "second")].

End ResolverExamples.

(** ** The read over a store of entities

    [src/operations/query.ts] holds, before the read over the record and
    link tables, a read over a store of entities:
    [query], [readEntity], [readSelection] and [readField].  The store
    ([find], [readLink]), [makeContext] of [./shared] and
    [forEachFieldNode] of [../ast] that it calls are not part of the
    sources at hand; the store is an interface of two functions here,
    and the definitions are parametric in the other two. *)
Module EntityRead.

(** An entity is a dictionary from field keys to values. *)
Definition Entity : Type := Data.

(** [store.find(key)] is [null] for an entity that is not cached;
    [store.readLink(key)] is [undefined] for a link that is not. *)
Record Store : Type := mkStore {
  find : string → option Entity;
  readLink : string → option Link
}.

(** The context of a read.  [isComplete] and [dependencies] are the two
    fields that the read assigns to. *)
Record Context : Type := mkContext {
  store : Store;
  fragments : Fragments;
  vars : Variables;
  operation : OperationDefinitionNode;
  isComplete : bool;
  dependencies : list string
}.

(** [ctx.isComplete = false] *)
Definition markIncomplete (ctx : Context) : Context :=
  mkContext (store ctx) (fragments ctx) (vars ctx) (operation ctx) false
    (dependencies ctx).

(** [ctx.dependencies.push(key)] *)
Definition pushDependency (key : string) (ctx : Context) : Context :=
  mkContext (store ctx) (fragments ctx) (vars ctx) (operation ctx)
    (isComplete ctx) (dependencies ctx ++ [key]).

(** The result of [query]; [data] is absent when no context could be
    made. *)
Record Result : Type := mkResult {
  data : option DataField;
  resultIsComplete : bool;
  resultDependencies : list string
}.

(** [link.map((childLink, index) => ...)] *)
Fixpoint mapLinks (f : Link → nat → Context → Outcome (DataField * Context))
  (links : list Link) (index : nat) (out : list DataField) (ctx : Context)
  : Outcome (DataField * Context) :=
  match links with
  | [] => Ret (DArr out, ctx)
  | link :: rest =>
      do (r, ctx') <- f link index ctx;
      mapLinks f rest (S index) (out ++ [r]) ctx'
  end.

Section Read.

(** The field nodes on which [forEachFieldNode(select, fragments, vars,
    cb)] calls [cb], in the order of the calls. *)
Variable forEachFieldNode : SelectionSet → Fragments → Variables → list SelectionNode.

Section Level.

(** The recursive calls of [readEntity], one level deeper. *)
Variable readEntityRec :
  Context → string → SelectionSet → DataField → Outcome (DataField * Context).

Fixpoint readField (ctx : Context) (link : Link) (select : SelectionSet)
  (prevData : DataField) {struct link} : Outcome (DataField * Context) :=
  match link with
  | LList links =>
      mapLinks
        (fun childLink index ctx =>
           do data <- prevAt prevData index;
           readField ctx childLink select data)
        links 0%nat [] ctx
  | LNull => Ret (DNull, ctx)
  | LKey key => readEntityRec ctx key select (orFresh prevData)
  end.

(** The callback that [readSelection] passes to [forEachFieldNode]. *)
Definition readFieldNode (entity : Entity) (key : string) (node : SelectionNode)
  (data : Data) (ctx : Context) : Outcome (Data * Context) :=
  let fieldName := getName node in
  (* "The field's key can include arguments if it has any" *)
  let fieldKey := keyOfField fieldName (getFieldArguments node (vars ctx)) in
  let fieldValue := getField_ entity fieldKey in
  let fieldAlias := getFieldAlias node in
  let childFieldKey := joinKeys key fieldKey in
  let ctx :=
    if String.eqb key "Query" then pushDependency childFieldKey ctx else ctx in
  if isUndefined fieldValue then
    (* "Cache Incomplete: A missing field means it wasn't cached" *)
    Ret (setField data fieldAlias DNull, markIncomplete ctx)
  else if negb (hasSelectionSet node) || negb (isNull fieldValue) then
    Ret (setField data fieldAlias fieldValue, ctx)
  else
    (* "null values mean that a field might be linked to other entities" *)
    let fieldSelect := getSelectionSet node in
    match readLink (store ctx) childFieldKey with
    | None =>
        (* "Cache Incomplete: A missing link for a field means it's not
           cached" *)
        Ret (setField data fieldAlias DNull, markIncomplete ctx)
    | Some link =>
        let prevData := getField_ data fieldAlias in
        do (r, ctx') <- readField ctx link fieldSelect prevData;
        Ret (setField data fieldAlias r, ctx')
    end.

(** The calls of the callback, one after the other. *)
Fixpoint readFieldNodes (entity : Entity) (key : string)
  (nodes : list SelectionNode) (data : Data) (ctx : Context)
  : Outcome (Data * Context) :=
  match nodes with
  | [] => Ret (data, ctx)
  | node :: rest =>
      do (data', ctx') <- readFieldNode entity key node data ctx;
      readFieldNodes entity key rest data' ctx'
  end.

Definition readSelection (ctx : Context) (entity : Entity) (key : string)
  (select : SelectionSet) (data : DataField) : Outcome (DataField * Context) :=
  do data <- asData data;
  let data := setField data "__typename" (getField_ entity "__typename") in
  do (data', ctx') <-
    readFieldNodes entity key
      (forEachFieldNode select (fragments ctx) (vars ctx)) data ctx;
  Ret (DObj data', ctx').

Definition readEntityBody (ctx : Context) (key : string) (select : SelectionSet)
  (data : DataField) : Outcome (DataField * Context) :=
  match find (store ctx) key with
  | None =>
      (* "Cache Incomplete: A missing entity for a key means it wasn't
         cached" *)
      Ret (DNull, markIncomplete ctx)
  | Some entity =>
      let ctx :=
        if negb (String.eqb key "Query") then pushDependency key ctx else ctx in
      readSelection ctx entity key select data
  end.

End Level.

(** [readEntity]: one unit of fuel for each level of nesting. *)
Fixpoint readEntity (fuel : nat) (ctx : Context) (key : string)
  (select : SelectionSet) (data : DataField) : Outcome (DataField * Context) :=
  match fuel with
  | O => OutOfFuel
  | S fuel' => readEntityBody (readEntity fuel') ctx key select data
  end.

(** "Reads a request entirely from the store" *)
Definition query {Request : Type} (makeContext : Store → Request → option Context)
  (fuel : nat) (st : Store) (request : Request) : Outcome Result :=
  match makeContext st request with
  | None => Ret (mkResult None false [])
  | Some ctx =>
      let select := operationSelectionSet (operation ctx) in
      do (data, ctx') <- readEntity fuel ctx "Query" select (DObj []);
      Ret (mkResult (Some data) (isComplete ctx') (dependencies ctx'))
  end.

(** The key under which an entity holds the field of a node. *)
Definition fieldKeyOf (ctx : Context) (node : SelectionNode) : string :=
  keyOfField (getName node) (getFieldArguments node (vars ctx)).

(** The field of a node is cached on an entity: the entity holds a
    value for it, and when the node has a selection set and the value is
    [null], the store holds the link of the field. *)
Definition cachedField (ctx : Context) (entity : Entity) (key : string)
  (node : SelectionNode) : Prop :=
  getField_ entity (fieldKeyOf ctx node) ≠ DUndefined
  ∧ (hasSelectionSet node = true →
     getField_ entity (fieldKeyOf ctx node) = DNull →
     is_Some (readLink (store ctx) (joinKeys key (fieldKeyOf ctx node)))).

(** What a call may do to the context: the store, the fragments, the
    variables and the operation stay, [isComplete] does not go back to
    [true], and the dependencies are only added to, at the end. *)
Definition extends (ctx ctx' : Context) : Prop :=
  store ctx' = store ctx
  ∧ fragments ctx' = fragments ctx
  ∧ vars ctx' = vars ctx
  ∧ operation ctx' = operation ctx
  ∧ (isComplete ctx = false → isComplete ctx' = false)
  ∧ ∃ added, dependencies ctx' = dependencies ctx ++ added.

End Read.

End EntityRead.

(** An entity store with the Query root and one todo, and a context over
    it. *)
Module EntityReadExamples.

Import Examples.

Definition rootEntity : EntityRead.Entity :=
  [("__typename", DStr "Query"); ("todo", DNull); ("int", DNum 42)].

Definition todoEntity : EntityRead.Entity :=
  [("__typename", DStr "Todo"); ("id", DNum 1)].

Definition entityStore : EntityRead.Store :=
  EntityRead.mkStore
    (λ key,
       if String.eqb key "Query" then Some rootEntity
       else if String.eqb key "Todo:1" then Some todoEntity
       else None)
    (λ key, if String.eqb key "Query.todo" then Some (LKey "Todo:1") else None).

(** The field nodes of a selection without fragments and directives. *)
Definition fieldNodes : SelectionSet → Fragments → Variables → list SelectionNode :=
  λ select _ _, select.

Definition entityContext (select : SelectionSet) : EntityRead.Context :=
  EntityRead.mkContext entityStore ∅ [] (mkOperation OpQuery None [] select)
    true [].

(** [{ todo { id } int }], which the store holds entirely, and
    [{ todo { id text } }], of which [text] is missing. *)
Definition cachedQuery : SelectionSet :=
  [objectField "todo" [scalarField "id"]; scalarField "int"].

End EntityReadExamples.

(** A resolver that returns a number. *)
Module ScalarResolverExamples.

Import Examples.

Definition numberResolver : Resolver := λ _ _ _ _, DNum 7.

(** The resolver of [Query.todo] returns a number although the field has
    a selection set. *)
Definition numberResolverStore : Store :=
  mkStore todoTables {["Query" := {["todo" := numberResolver]}]} ∅ None.

(** Prior data of [{ int }]. *)
Definition priorInt : Data := [("__typename", DStr "Query"); ("int", DNum 1)].

End ScalarResolverExamples.

(** ** The calls of a read

    What a read touches is what its calls of [readSelection] touch.  The
    relations of this section describe, following the control flow of
    [query.ts], which calls of [readSelection] a read makes and for which
    fields the loop of such a call runs its body. *)

(** A call [readSelection(ctx, entityKey, select, data)], with the fuel
    of the model and the state in which it is made. *)
Record Call : Type := mkCall {
  callFuel : nat;
  callKey : string;
  callSelect : SelectionSet;
  callData : DataField;
  callState : ReadState
}.

Definition runCall (ctx : Context) (c : Call) : Outcome (DataField * ReadState) :=
  readSelection (callFuel c) ctx (callKey c) (callSelect c) (callData c)
    (callState c).

(** [MapReaches f xs index s x i si]: the traversal of the list [xs]
    from the index [index] in state [s] reaches the element [x], at
    index [i] and in state [si]: every element before it has been
    handled and has returned. *)
Inductive MapReaches {A : Type}
  (f : A → nat → ReadState → Outcome (DataField * ReadState))
  : list A → nat → ReadState → A → nat → ReadState → Prop :=
| MapReaches_here x rest index s :
    MapReaches f (x :: rest) index s x index s
| MapReaches_later x0 rest index s r s1 x i si :
    f x0 index s = Ret (r, s1) →
    MapReaches f rest (S index) s1 x i si →
    MapReaches f (x0 :: rest) index s x i si.

(** The calls of [readSelection] that [resolveLink] makes: one for a
    link to an entity, and for a list those of the elements that the
    loop reaches. *)
Inductive LinkCalls (ctx : Context) (fuel : nat) (select : SelectionSet)
  : Link → DataField → ReadState → Call → Prop :=
| LinkCalls_key key prevData s :
    LinkCalls ctx fuel select (LKey key) prevData s
      (mkCall fuel key select (orFresh prevData) s)
| LinkCalls_list links prevData s link i si data c :
    MapReaches
      (fun l i s =>
         do data <- prevAt prevData i;
         resolveLink (readSelection fuel ctx) l select data s)
      links 0%nat s link i si →
    prevAt prevData i = Ret data →
    LinkCalls ctx fuel select link data si c →
    LinkCalls ctx fuel select (LList links) prevData s c.

(** The key under which [resolveResolverResult] reads a value that is a
    key or an entity:
    [(typeof result === 'string' ? result : keyOfEntity(result)) || key]. *)
Definition resolvedKey (ctx : Context) (result : DataField) (key : string)
  : string :=
  match result with
  | DStr k => if String.eqb k EmptyString then key else k
  | _ => default key (keyOfEntity (tables (store ctx)) result)
  end.

(** The calls of [readSelection] that [resolveResolverResult] makes. *)
Inductive ResultCalls (ctx : Context) (fuel : nat) (select : SelectionSet)
  : DataField → string → DataField → ReadState → Call → Prop :=
| ResultCalls_entity result key prevData s :
    (∀ items, result ≠ DArr items) → result ≠ DNull →
    isDataOrKey result = true →
    ResultCalls ctx fuel select result key prevData s
      (mkCall fuel (resolvedKey ctx result key) select (orFresh prevData) s)
| ResultCalls_list items key prevData s result i si data c :
    MapReaches
      (fun childResult index s =>
         do data <- prevAt prevData index;
         resolveResolverResult ctx (readSelection fuel ctx) childResult
           (joinKeys key (pretty index)) select data s)
      items 0%nat s result i si →
    prevAt prevData i = Ret data →
    ResultCalls ctx fuel select result (joinKeys key (pretty i)) data si c →
    ResultCalls ctx fuel select (DArr items) key prevData s c.

(** The calls of [readSelection] that the body of the loop makes for the
    field [node], entered with [data] in state [s] (the state after the
    dependency of a root field has been added): through the value of a
    resolver, or through the link of the field. *)
Definition FieldCalls (ctx : Context) (fuel : nat) (typename entityKey : string)
  (node : SelectionNode) (data : Data) (s : ReadState) (c : Call) : Prop :=
  let t := tables (store ctx) in
  let fieldArgs := getFieldArguments node (variables ctx) in
  let fieldAlias := getFieldAlias node in
  let fieldKey := fieldKeyOf ctx entityKey node in
  let fieldValue := getRecord t fieldKey in
  hasSelectionSet node = true
  ∧ match resolverOf (store ctx) typename (getName node) with
    | Some resolver =>
        let data :=
          if isUndefined fieldValue then data
          else setField data fieldAlias fieldValue in
        let resolverValue :=
          resolver data (default [] fieldArgs) t (variables ctx) in
        isNullish resolverValue = false
        ∧ ResultCalls ctx fuel (getSelectionSet node) resolverValue fieldKey
            (getField_ data fieldAlias) s c
    | None =>
        ∃ link,
          getLink t fieldKey = Some link
          ∧ LinkCalls ctx fuel (getSelectionSet node) link
              (getField_ data fieldAlias) s c
    end.

(** What the loop does with the value [v] of a field: it goes on with
    the value, or with [null] and the partial flag, or it abandons the
    read ([None]). *)
Definition accepted (ctx : Context) (typename : string) (node : SelectionNode)
  (v : DataField) (s : ReadState) : option (DataField * ReadState) :=
  match schemaPredicates ctx with
  | Some sp =>
      if isUndefined v && isFieldNullable sp typename (getName node)
      then Some (DNull, setPartial s) else None
  | None => if isUndefined v then None else Some (v, s)
  end.

(** The state in which the body of the loop computes the value of a
    field: on the Query root the full key of the field has been added. *)
Definition fieldState (ctx : Context) (entityKey : string) (isQuery : bool)
  (node : SelectionNode) (s : ReadState) : ReadState :=
  if isQuery then addDependency (fieldKeyOf ctx entityKey node) s else s.

(** [LoopReaches ... count iter data hasFields s node dk sk]: the loop
    of [readSelection], started with the iterator [iter], [data] and the
    state [s], runs its body for the field [node], with the data [dk]
    and in the state [sk]: the iterator has returned [node], and every
    field before it has been accepted. *)
Inductive LoopReaches (ctx : Context) (fuel : nat) (typename entityKey : string)
  (isQuery : bool)
  : nat → SelectionIterator → Data → ReadState → SelectionNode → Data
    → ReadState → Prop :=
| LoopReaches_here count iter iter' node data s :
    next fuel iter = Ret (Some node, iter') →
    LoopReaches ctx fuel typename entityKey isQuery (S count) iter data s
      node data s
| LoopReaches_later count iter iter' node0 data s v data1 s1 x s2 node dk sk :
    next fuel iter = Ret (Some node0, iter') →
    readFieldValue ctx (readSelection fuel ctx) typename entityKey node0 data
      (fieldState ctx entityKey isQuery node0 s) = Ret (v, data1, s1) →
    accepted ctx typename node0 v s1 = Some (x, s2) →
    LoopReaches ctx fuel typename entityKey isQuery count iter'
      (setField data1 (getFieldAlias node0) x) s2 node dk sk →
    LoopReaches ctx fuel typename entityKey isQuery (S count) iter data s
      node dk sk.

(** Whether a call is one on the Query root. *)
Definition onQueryRoot (ctx : Context) (c : Call) : bool :=
  String.eqb (callKey c) (getRootKey (tables (store ctx)) OpQuery).

(** [CallReaches ctx c typename node dk sk]: the call [c] finds the
    typename of its entity and the loop of the call runs its body for
    [node], with the data [dk] and in the state [sk]. *)
Definition CallReaches (ctx : Context) (c : Call) (typename : string)
  (node : SelectionNode) (dk : Data) (sk : ReadState) : Prop :=
  ∃ fuel fields,
    callFuel c = S fuel
    ∧ entityTypename ctx (callKey c) = Some typename
    ∧ callData c = DObj fields
    ∧ LoopReaches ctx fuel typename (callKey c) (onQueryRoot ctx c) fuel
        (newSelectionIterator (Some typename) (callKey c) (callSelect c) ctx)
        (setField fields "__typename" (DStr typename))
        (if onQueryRoot ctx c then callState c
         else addDependency (callKey c) (callState c))
        node dk sk.

(** [c] calls [child]: the body of the loop of [c], run for some field,
    makes the call [child]. *)
Definition CallCalls (ctx : Context) (c child : Call) : Prop :=
  ∃ typename node dk sk,
    CallReaches ctx c typename node dk sk
    ∧ FieldCalls ctx (pred (callFuel c)) typename (callKey c) node dk
        (fieldState ctx (callKey c) (onQueryRoot ctx c) node sk) child.

(** The calls that a call makes, directly or through other calls,
    itself included. *)
Definition Visits (ctx : Context) : Call → Call → Prop := rtc (CallCalls ctx).

(** *** Reads with prior data *)

(** A call [readRoot(ctx, entityKey, select, originalData)]. *)
Record RootCall : Type := mkRootCall {
  rootCallFuel : nat;
  rootCallKey : string;
  rootCallSelect : SelectionSet;
  rootCallData : DataField;
  rootCallState : ReadState
}.

(** The calls that [readRootField] makes: of [readSelection] for an
    entity with a key, of [readRoot] for one without, and for an array
    those of the elements that the loop reaches. *)
Inductive RootFieldCalls (ctx : Context) (fuel : nat) (select : SelectionSet)
  : DataField → ReadState → Call + RootCall → Prop :=
| RootFieldCalls_list items s x i si c :
    MapReaches
      (fun x _ s => readRootField ctx fuel (readRoot fuel ctx) select x s)
      items 0%nat s x i si →
    RootFieldCalls ctx fuel select x si c →
    RootFieldCalls ctx fuel select (DArr items) s c
| RootFieldCalls_entity originalData s entityKey :
    (∀ items, originalData ≠ DArr items) → originalData ≠ DNull →
    keyOfEntity (tables (store ctx)) originalData = Some entityKey →
    RootFieldCalls ctx fuel select originalData s
      (inl (mkCall fuel entityKey select (DObj []) s))
| RootFieldCalls_embedded originalData s typename :
    (∀ items, originalData ≠ DArr items) → originalData ≠ DNull →
    keyOfEntity (tables (store ctx)) originalData = None →
    getProp originalData "__typename" = DStr typename →
    RootFieldCalls ctx fuel select originalData s
      (inr (mkRootCall fuel typename select originalData s)).

(** The outcome of a call that [readRootField] makes: of [readSelection]
    or of [readRoot]. *)
Definition runEither (ctx : Context) (c : Call + RootCall)
  : Outcome (DataField * ReadState) :=
  match c with
  | inl c => runCall ctx c
  | inr rc =>
      readRoot (rootCallFuel rc) ctx (rootCallKey rc) (rootCallSelect rc)
        (rootCallData rc) (rootCallState rc)
  end.

Definition stateOfEither (c : Call + RootCall) : ReadState :=
  match c with
  | inl c => callState c
  | inr rc => rootCallState rc
  end.

(** [RootLoopReaches ... count iter originalData s node sk]: the loop of
    [readRoot] runs its body for [node] in the state [sk]. *)
Inductive RootLoopReaches (ctx : Context) (fuel : nat) (originalData : DataField)
  : nat → SelectionIterator → ReadState → SelectionNode → ReadState → Prop :=
| RootLoopReaches_here count iter iter' node s :
    next fuel iter = Ret (Some node, iter') →
    RootLoopReaches ctx fuel originalData (S count) iter s node s
| RootLoopReaches_copied count iter iter' node0 s node sk :
    next fuel iter = Ret (Some node0, iter') →
    recursesInto node0 originalData = false →
    RootLoopReaches ctx fuel originalData count iter' s node sk →
    RootLoopReaches ctx fuel originalData (S count) iter s node sk
| RootLoopReaches_read count iter iter' node0 s r s1 node sk :
    next fuel iter = Ret (Some node0, iter') →
    recursesInto node0 originalData = true →
    readRootField ctx fuel (readRoot fuel ctx) (getSelectionSet node0)
      (getProp originalData (getFieldAlias node0)) s = Ret (r, s1) →
    RootLoopReaches ctx fuel originalData count iter' s1 node sk →
    RootLoopReaches ctx fuel originalData (S count) iter s node sk.

(** [c] is a call that the body of the loop of the call [rc] of
    [readRoot] makes for some field that it recurses into. *)
Definition RootCallCalls (ctx : Context) (rc : RootCall) (c : Call + RootCall)
  : Prop :=
  ∃ fuel typename node sk,
    rootCallFuel rc = S fuel
    ∧ rootCallData rc ≠ DUndefined ∧ rootCallData rc ≠ DNull
    ∧ getProp (rootCallData rc) "__typename" = DStr typename
    ∧ RootLoopReaches ctx fuel (rootCallData rc) fuel
        (newSelectionIterator (Some (rootCallKey rc)) (rootCallKey rc)
           (rootCallSelect rc) ctx)
        (rootCallState rc) node sk
    ∧ recursesInto node (rootCallData rc) = true
    ∧ RootFieldCalls ctx fuel (getSelectionSet node)
        (getProp (rootCallData rc) (getFieldAlias node)) sk c.

(** The calls of [readSelection] that a call of [readRoot] makes,
    directly or through other calls. *)
Inductive RootVisits (ctx : Context) : RootCall → Call → Prop :=
| RootVisits_entity rc c c' :
    RootCallCalls ctx rc (inl c) → Visits ctx c c' → RootVisits ctx rc c'
| RootVisits_embedded rc rc' c' :
    RootCallCalls ctx rc (inr rc') → RootVisits ctx rc' c' →
    RootVisits ctx rc c'.

(** The calls of [readSelection] that [read] makes for a request:
    without prior data those of the call on the root key, with prior
    data those of the call of [readRoot]. *)
Definition ReadVisits (fuel : nat) (st : Store) (request : OperationRequest)
  (op : OperationDefinitionNode) (input : option DataField) (c : Call) : Prop :=
  let ctx := readContext st request op in
  let rootKey := getRootKey (tables st) (operation op) in
  let s := mkReadState false ∅ in
  match input with
  | Some input =>
      if isUndefined input
      then Visits ctx (mkCall fuel rootKey (operationSelectionSet op) (DObj []) s) c
      else RootVisits ctx
             (mkRootCall fuel rootKey (operationSelectionSet op) input s) c
  | None =>
      Visits ctx (mkCall fuel rootKey (operationSelectionSet op) (DObj []) s) c
  end.

(** Reads used to illustrate the dependencies of a read. *)
Module DependencyExamples.

Import Examples.

(** [{ int missing later }] against a store that holds only [int]: the
    read is abandoned at [missing]. *)
Definition abandonedQuery : SelectionSet :=
  [scalarField "int"; scalarField "missing"; scalarField "later"].

Definition queryOperation (select : SelectionSet) : OperationDefinitionNode :=
  mkOperation OpQuery None [] select.

(** The call on the Query root with which a read without prior data
    starts. *)
Definition rootCall (fuel : nat) (select : SelectionSet) : Call :=
  mkCall fuel "Query" select (DObj []) (mkReadState false ∅).

(** The call on the missing entity [Todo:2] that the read of
    [{ todo { id text } }] makes through the link of [todo]. *)
Definition todoCall : Call :=
  mkCall 2 "Todo:2" [scalarField "id"; scalarField "text"] (DObj [])
    (addDependency "Query.todo" (mkReadState false ∅)).

(** Prior data for [{ todos { id text } }]: two entities with keys, of
    which the store holds the first with another text, [null], an object
    without a key, and a field that the query does not select. *)
Definition stalePrior : Data :=
  [("__typename", DStr "Query");
   ("todos",
    DArr [DObj [("__typename", DStr "Todo"); ("id", DNum 1);
                ("text", DStr "stale")];
          DObj [("__typename", DStr "Todo"); ("id", DNum 2);
                ("text", DStr "gone")];
          DNull;
          DObj [("__typename", DStr "Draft"); ("text", DStr "kept")]]);
   ("unselected", DNum 0)].

Definition mergedData : Data :=
  [("__typename", DStr "Query");
   ("todos",
    DArr [DObj [("__typename", DStr "Todo"); ("id", DNum 1);
                ("text", DStr "first")];
          DNull;
          DNull;
          DObj [("__typename", DStr "Draft"); ("id", DUndefined);
                ("text", DStr "kept")]])].

End DependencyExamples.

(** ** The merge of prior data with the store

    What [readRoot] and [readRootField] compute, as relations between the
    supplied data and the result: [MergedField select x s v s'] says that
    the supplied value [x], read with the selection [select] in the state
    [s], becomes [v] and leaves the state [s'].  The shape of the
    supplied data is kept: a list becomes the list of its merged
    elements, [null] stays [null], an entity with a key becomes what the
    normalized read of [select] returns for that key from the store
    ([null] when that read fails), an object with a typename and no key
    is merged field by field, and any other value is kept. *)

Section RootMerge.

Variable ctx : Context.
Variable fuel : nat.

(** The merge of an object without a key, one level deeper. *)
Variable MergedRootRec :
  string → SelectionSet → DataField → ReadState → DataField → ReadState → Prop.

Inductive MergedField (select : SelectionSet)
  : DataField → ReadState → DataField → ReadState → Prop :=
| MergedField_list items s vs s' :
    MergedItems select items s vs s' →
    MergedField select (DArr items) s (DArr vs) s'
| MergedField_null s :
    MergedField select DNull s DNull s
| MergedField_entity x s entityKey v s' :
    (∀ items, x ≠ DArr items) → x ≠ DNull →
    keyOfEntity (tables (store ctx)) x = Some entityKey →
    readSelection fuel ctx entityKey select (DObj []) s = Ret (v, s') →
    MergedField select x s (if isUndefined v then DNull else v) s'
| MergedField_embedded x s typename v s' :
    (∀ items, x ≠ DArr items) → x ≠ DNull →
    keyOfEntity (tables (store ctx)) x = None →
    getProp x "__typename" = DStr typename →
    MergedRootRec typename select x s v s' →
    MergedField select x s v s'
| MergedField_kept x s :
    (∀ items, x ≠ DArr items) → x ≠ DNull →
    keyOfEntity (tables (store ctx)) x = None →
    (∀ typename, getProp x "__typename" ≠ DStr typename) →
    MergedField select x s x s
with MergedItems (select : SelectionSet)
  : list DataField → ReadState → list DataField → ReadState → Prop :=
| MergedItems_nil s :
    MergedItems select [] s [] s
| MergedItems_cons x items s v s1 vs s' :
    MergedField select x s v s1 →
    MergedItems select items s1 vs s' →
    MergedItems select (x :: items) s (v :: vs) s'.

(** The fields that the loop of [readRoot] writes for the field nodes
    [nodes], in order: a field that carries a selection set and whose
    supplied value is neither [null] nor a scalar is merged, any other
    field keeps the supplied value. *)
Inductive MergedNodes (originalData : DataField)
  : list SelectionNode → ReadState → list (string * DataField) → ReadState
    → Prop :=
| MergedNodes_nil s :
    MergedNodes originalData [] s [] s
| MergedNodes_copied node nodes s writes s' :
    recursesInto node originalData = false →
    MergedNodes originalData nodes s writes s' →
    MergedNodes originalData (node :: nodes) s
      ((getFieldAlias node, getProp originalData (getFieldAlias node)) :: writes)
      s'
| MergedNodes_merged node nodes s v s1 writes s' :
    recursesInto node originalData = true →
    MergedField (getSelectionSet node)
      (getProp originalData (getFieldAlias node)) s v s1 →
    MergedNodes originalData nodes s1 writes s' →
    MergedNodes originalData (node :: nodes) s
      ((getFieldAlias node, v) :: writes) s'.

(** [data[alias] = value] for each of the writes, in order. *)
Definition applyWrites (data : Data) (writes : list (string * DataField)) : Data :=
  foldl (λ data w, setField data w.1 w.2) data writes.

(** The merge of an object: the prior data has a typename, the iterator
    is run to exhaustion over [select] (the loop has the fuel for the
    fields that it returns), and the result holds the typename and what
    the loop writes for the fields. *)
Definition MergedRootBody (entityKey : string) (select : SelectionSet)
  (originalData : DataField) (s : ReadState) (r : DataField) (s' : ReadState)
  : Prop :=
  ∃ typename nodes it' writes,
    getProp originalData "__typename" = DStr typename
    ∧ Yields fuel (newSelectionIterator (Some entityKey) entityKey select ctx)
        nodes it'
    ∧ Exhausted fuel it'
    ∧ (length nodes < fuel)%nat
    ∧ MergedNodes originalData nodes s writes s'
    ∧ r = DObj (applyWrites [("__typename", DStr typename)] writes).

End RootMerge.

Scheme MergedField_mutual := Minimality for MergedField Sort Prop
  with MergedItems_mutual := Minimality for MergedItems Sort Prop.

Fixpoint MergedRoot (fuel : nat) (ctx : Context) (entityKey : string)
  (select : SelectionSet) (originalData : DataField) (s : ReadState)
  (r : DataField) (s' : ReadState) {struct fuel} : Prop :=
  match fuel with
  | O => False
  | S fuel' =>
      MergedRootBody ctx fuel' (MergedRoot fuel' ctx) entityKey select
        originalData s r s'
  end.

(** * Properties of the read path *)

(** ** Heuristic fragment matching *)

Lemma existsb_false_iff {A : Type} (p : A → bool) (l : list A) :
  existsb p l = false ↔ ∀ x, x ∈ l → p x = false.
Proof.
  induction l as [|a l IH]; simpl.
  - split; [intros _ x Hx; inversion Hx | done].
  - rewrite orb_false_iff, IH. split.
    + intros [Ha Hl] x Hx. inversion Hx; subst; auto.
    + intros H. split; [apply H; left | intros x Hx; apply H; by right].
Qed.

(** C8 (as amended).  Without a schema oracle a fragment matches exactly
    when the current typename is a non-empty string and either it equals
    the type condition of the fragment, or every field node that stands
    directly in the fragment's selection set is present in the store under
    the current entity key. *)
Theorem isFragmentHeuristicallyMatching_iff (node : FragmentNode)
  (typename : option string) (entityKey : string) (ctx : Context) :
  isFragmentHeuristicallyMatching node typename entityKey ctx = true
  ↔ isFalsy typename = false ∧ heuristicAsSpecified node typename entityKey ctx.
Proof.
  unfold isFragmentHeuristicallyMatching, heuristicAsSpecified.
  destruct (isFalsy typename) eqn:Hf.
  { split; [done | by intros [? _]]. }
  case_bool_decide as Heq.
  { split; [intros _; split; [done | by left] | done]. }
  rewrite negb_true_iff, existsb_false_iff. split.
  - intros H. split; [done | right]. intros field Hin Hfield.
    specialize (H field Hin). rewrite Hfield in H. simpl in H.
    by apply negb_false_iff in H.
  - intros [_ [Habs | H]]; [done |]. intros field Hin.
    destruct (isFieldNode field) eqn:Hfield; simpl; [| done].
    apply negb_false_iff. by apply H.
Qed.

(** C8 (counterexample).  An iterator whose typename is [undefined] does
    not match an inline fragment [... on Item { text }] although [text] is
    present in the store under the entity key. *)
Lemma isFragmentHeuristicallyMatching_undefined_typename :
  let tbl := mkTables {["Todo:1.text" := DStr "x"]} ∅ defaultRootFields in
  let ctx := mkContext (mkStore tbl ∅ ∅ None) [] ∅ None in
  let fragment :=
    InlineFragment
      (InlineFragmentNode (Some "Item") [] [FieldNode None "text" [] [] None]) in
  heuristicAsSpecified fragment None "Todo:1" ctx
  ∧ isFragmentHeuristicallyMatching fragment None "Todo:1" ctx = false.
Proof.
  split; [| reflexivity].
  right. intros field Hin _. apply list_elem_of_singleton in Hin. subst.
  reflexivity.
Qed.

(** ** Induction principles for the nested value types *)

Lemma Link_nested_ind (P : Link → Prop) :
  (∀ key, P (LKey key)) → P LNull →
  (∀ links, Forall P links → P (LList links)) →
  ∀ link, P link.
Proof.
  intros HKey HNull HList. fix IH 1. intros [key | | links].
  - apply HKey.
  - apply HNull.
  - apply HList. induction links as [|l links IHl]; constructor.
    + apply IH.
    + apply IHl.
Qed.

Lemma DataField_items_ind (P : DataField → Prop) :
  (∀ x, (∀ items, x = DArr items → Forall P items) → P x) →
  ∀ x, P x.
Proof.
  intros Hstep. fix IH 1. intros x. apply Hstep.
  destruct x as [| | | | | items |]; intros items' Heq; try discriminate.
  injection Heq as <-.
  induction items as [|y items IHitems]; constructor.
  - apply IH.
  - apply IHitems.
Qed.

(** Case analysis on a bound outcome. *)
Lemma obind_Ret {A B : Type} (m : Outcome A) (k : A → Outcome B) (b : B) :
  obind m k = Ret b → ∃ a, m = Ret a ∧ k a = Ret b.
Proof. destruct m; simpl; intros H; try discriminate. eauto. Qed.

Ltac bind_inv H :=
  let a := fresh "a" in
  let Hm := fresh "Hm" in
  apply obind_Ret in H as (a & Hm & H).

(** ** The dependency set only grows *)

#[global] Instance grows_refl : Reflexive grows.
Proof. intros s. unfold grows. set_solver. Qed.

#[global] Instance grows_trans : Transitive grows.
Proof. intros s1 s2 s3. unfold grows. set_solver. Qed.

Lemma grows_addDependency key s : grows s (addDependency key s).
Proof. unfold grows, addDependency. simpl. set_solver. Qed.

Lemma grows_setPartial s : grows s (setPartial s).
Proof. unfold grows, setPartial. simpl. set_solver. Qed.

Lemma mapIndexed_grows {A : Type}
  (f : A → nat → ReadState → Outcome (DataField * ReadState)) (xs : list A) :
  Forall (λ x, ∀ i s r s', f x i s = Ret (r, s') → grows s s') xs →
  ∀ i out s r s', mapIndexed f xs i out s = Ret (r, s') → grows s s'.
Proof.
  induction 1 as [|x xs Hx _ IH]; intros i out s r s' H; simpl in H.
  - injection H as _ <-. reflexivity.
  - bind_inv H. destruct a as [r1 s1].
    etrans; [eapply Hx, Hm | eapply IH, H].
Qed.

Section GrowingTraversal.

Variable ctx : Context.
Variable fuel : nat.
Variable rec : string → Reader.
Hypothesis rec_growing : ∀ key, growing (rec key).

Lemma resolveLink_grows link :
  ∀ select prevData s r s',
    resolveLink rec link select prevData s = Ret (r, s') → grows s s'.
Proof.
  induction link as [key | | links IH] using Link_nested_ind;
    intros select prevData s r s' H; simpl in H.
  - eapply rec_growing, H.
  - injection H as _ <-. reflexivity.
  - eapply mapIndexed_grows; [| exact H].
    eapply Forall_impl; [exact IH |]. simpl.
    intros l Hl i s0 r0 s0' H0. bind_inv H0. eapply Hl, H0.
Qed.

Lemma resolveResolverResult_grows result :
  ∀ key select prevData s r s',
    resolveResolverResult ctx rec result key select prevData s = Ret (r, s') →
    grows s s'.
Proof.
  induction result as [result IH] using DataField_items_ind.
  intros key select prevData s r s' H.
  destruct result as [| | n | k | b | items | fields]; simpl in H;
    try (injection H as _ <-; reflexivity).
  - eapply rec_growing, H.
  - eapply mapIndexed_grows; [| exact H].
    eapply Forall_impl; [exact (IH items eq_refl) |]. simpl.
    intros x Hx i s0 r0 s0' H0. bind_inv H0. eapply Hx, H0.
  - destruct (bool_decide _); [eapply rec_growing, H |].
    injection H as _ <-. reflexivity.
Qed.

Lemma readFieldValue_grows typename entityKey node data s v data' s' :
  readFieldValue ctx rec typename entityKey node data s = Ret (v, data', s') →
  grows s s'.
Proof.
  unfold readFieldValue. intros H.
  destruct (resolverOf _ _ _) as [resolver|].
  - destruct (_ || _).
    + injection H as _ _ <-. reflexivity.
    + bind_inv H. destruct a as [r0 s0]. injection H as _ _ <-.
      eapply resolveResolverResult_grows, Hm.
  - destruct (negb _).
    + injection H as _ _ <-. reflexivity.
    + destruct (getLink _ _) as [link|].
      * bind_inv H. destruct a as [r0 s0]. injection H as _ _ <-.
        eapply resolveLink_grows, Hm.
      * destruct (getRecord _ _); injection H as _ _ <-; reflexivity.
Qed.

Lemma readFields_grows count :
  ∀ typename entityKey isQuery iter data hasFields s r s',
    readFields ctx fuel rec count typename entityKey isQuery iter data
      hasFields s = Ret (r, s') →
    grows s s'.
Proof.
  induction count as [|count IH];
    intros typename entityKey isQuery iter data hasFields s r s' H;
    simpl in H; [discriminate |].
  bind_inv H. destruct a as [[node|] iter']; cycle 1.
  { injection H as _ <-. reflexivity. }
  set (s1 := if isQuery then addDependency _ s else s) in H.
  assert (grows s s1) as Hs1.
  { subst s1. destruct isQuery; [apply grows_addDependency | reflexivity]. }
  bind_inv H. destruct a as [[dataFieldValue data'] s2].
  apply readFieldValue_grows in Hm0 as Hs2.
  etrans; [exact Hs1 |]. etrans; [exact Hs2 |]. clear Hm0.
  destruct (schemaPredicates ctx) as [sp|].
  - destruct (isUndefined dataFieldValue && _).
    + etrans; [apply grows_setPartial | eapply IH, H].
    + injection H as _ <-. reflexivity.
  - destruct (isUndefined dataFieldValue).
    + injection H as _ <-. reflexivity.
    + eapply IH, H.
Qed.

Lemma readSelectionBody_grows entityKey :
  growing (readSelectionBody ctx fuel rec entityKey).
Proof.
  intros select data s r s' H. unfold readSelectionBody in H.
  set (s1 := if String.eqb _ _ then s else _) in H.
  assert (grows s s1) as Hs1.
  { subst s1. destruct (String.eqb _ _); [reflexivity | apply grows_addDependency]. }
  etrans; [exact Hs1 |].
  match type of H with
  | match ?x with _ => _ end = _ => destruct x
  end; try (injection H as _ <-; reflexivity).
  bind_inv H. eapply readFields_grows, H.
Qed.

End GrowingTraversal.

Lemma readSelection_grows fuel ctx entityKey :
  growing (readSelection fuel ctx entityKey).
Proof.
  revert entityKey. induction fuel as [|fuel IH]; intros entityKey.
  - intros select data s r s' H. discriminate.
  - simpl. by apply readSelectionBody_grows.
Qed.

(** ** Dependencies recorded by [readSelection] *)

Lemma Yields_snoc fuel it nodes it' node it'' :
  Yields fuel it nodes it' →
  next fuel it' = Ret (Some node, it'') →
  Yields fuel it (nodes ++ [node]) it''.
Proof.
  induction 1 as [it | it n it1 nodes it2 Hn _ IH]; intros Hnext; simpl.
  - econstructor; [exact Hnext | constructor].
  - econstructor; [exact Hn | by apply IH].
Qed.

(** The loop of [readSelection] on the root: the full key of every field
    it obtains from the iterator is recorded, and the loop ends with a
    value only when the iterator is exhausted. *)
Lemma readFields_root_dependencies ctx fuel rec count :
  (∀ key, growing (rec key)) →
  ∀ typename entityKey iter data hasFields s r s',
    readFields ctx fuel rec count typename entityKey true iter data hasFields s
      = Ret (r, s') →
    ∃ nodes it',
      Yields fuel iter nodes it'
      ∧ (∀ node, node ∈ nodes →
           fieldKeyOf ctx entityKey node ∈ currentDependencies s')
      ∧ (r ≠ DUndefined → Exhausted fuel it').
Proof.
  intros Hrec. induction count as [|count IH];
    intros typename entityKey iter data hasFields s r s' H; [discriminate |].
  pose proof (readFields_grows ctx fuel rec Hrec _ _ _ _ _ _ _ _ _ _ H) as Hgrow.
  simpl in H. bind_inv H. destruct a as [[node|] iter']; cycle 1.
  { exists [], iter. split; [constructor |]. split.
    - intros node Hin. inversion Hin.
    - intros _. by exists iter'. }
  bind_inv H. destruct a as [[dataFieldValue data'] s2].
  assert (fieldKeyOf ctx entityKey node ∈ currentDependencies s2) as Hkey.
  { apply readFieldValue_grows in Hm0; [| exact Hrec].
    apply Hm0. unfold addDependency. simpl. set_solver. }
  clear Hm0.
  assert (∀ it'' nodes,
            Yields fuel iter' nodes it'' →
            Yields fuel iter (node :: nodes) it'') as Hcons.
  { intros it'' nodes Hy. econstructor; [exact Hm | exact Hy]. }
  assert (∃ nodes it',
            Yields fuel iter' nodes it'
            ∧ (∀ n, n ∈ nodes → fieldKeyOf ctx entityKey n ∈ currentDependencies s')
            ∧ (r ≠ DUndefined → Exhausted fuel it')
            ∧ grows s2 s') as (nodes & it' & Hy & Hkeys & Hex & Hg).
  { destruct (schemaPredicates ctx) as [sp|].
    - destruct (isUndefined dataFieldValue && _).
      + destruct (IH _ _ _ _ _ _ _ _ H) as (nodes & it' & Hy & Hkeys & Hex).
        exists nodes, it'. repeat split; try done.
        etrans; [apply grows_setPartial |].
        eapply readFields_grows; [exact Hrec | exact H].
      + injection H as <- <-. exists [], iter'.
        repeat split; [constructor | | done | done].
        intros n Hin. inversion Hin.
    - destruct (isUndefined dataFieldValue).
      + injection H as <- <-. exists [], iter'.
        repeat split; [constructor | | done | done].
        intros n Hin. inversion Hin.
      + destruct (IH _ _ _ _ _ _ _ _ H) as (nodes & it' & Hy & Hkeys & Hex).
        exists nodes, it'. repeat split; try done.
        eapply readFields_grows; [exact Hrec | exact H]. }
  exists (node :: nodes), it'. split; [by apply Hcons |]. split; [| done].
  intros n Hin. apply elem_of_cons in Hin as [-> | Hin]; [| by apply Hkeys].
  by apply Hg.
Qed.

(** Every call of [readSelection] that returns leaves a dependency set
    that (a) contains everything recorded before the call, (b) contains
    the entity key when the entity is not the Query root, and (c) on the
    Query root contains the full key [joinKeys rootKey fieldKey] of the
    fields the loop obtained from the selection iterator; the loop
    obtains all of them unless the read is abandoned. *)
Lemma readSelection_dependency_completeness (fuel : nat) (ctx : Context)
  (entityKey : string) (select : SelectionSet) (data : DataField)
  (s : ReadState) (r : DataField) (s' : ReadState) :
  readSelection fuel ctx entityKey select data s = Ret (r, s') →
  let rootKey := getRootKey (tables (store ctx)) OpQuery in
  grows s s'
  ∧ (entityKey ≠ rootKey → entityKey ∈ currentDependencies s')
  ∧ (entityKey = rootKey →
     ∃ nodes it',
       Yields (pred fuel) (newSelectionIterator (Some rootKey) entityKey select ctx)
         nodes it'
       ∧ (∀ node, node ∈ nodes →
            joinKeys rootKey
              (keyOfField (getName node) (getFieldArguments node (variables ctx)))
            ∈ currentDependencies s')
       ∧ (r ≠ DUndefined → Exhausted (pred fuel) it')).
Proof.
  intros H rootKey. split; [eapply readSelection_grows, H |].
  destruct fuel as [|fuel]; [discriminate |]. simpl in H.
  pose proof (readSelectionBody_grows ctx fuel (readSelection fuel ctx)
                (λ key, readSelection_grows fuel ctx key) _ _ _ _ _ _ H) as Hgrow.
  unfold readSelectionBody in H. fold rootKey in H. split.
  - intros Hne. apply String.eqb_neq in Hne. rewrite Hne in H.
    assert (grows (addDependency entityKey s) s') as Hg.
    { match type of H with
      | match ?x with _ => _ end = _ => destruct x
      end; try (injection H as _ <-; reflexivity).
      bind_inv H. eapply readFields_grows, H.
      intros key. apply readSelection_grows. }
    apply Hg. unfold addDependency. simpl. set_solver.
  - intros ->. rewrite String.eqb_refl in H. bind_inv H. simpl.
    eapply readFields_root_dependencies, H.
    intros key. apply readSelection_grows.
Qed.

(** The set that [query] returns is the set accumulated by the traversal
    that it starts from the empty set. *)
Lemma query_dependencies_final fuel st request res :
  query fuel st request None = Ret res →
  ∃ op r s',
    getMainOperation (query_ request) = Ret op
    ∧ readSelection fuel
        (mkContext st (normalizeVariables op (requestVariables request))
           (getFragments (query_ request)) (storeSchemaPredicates st))
        (getRootKey (tables st) (operation op)) (operationSelectionSet op)
        (DObj []) initStoreState = Ret (r, s')
    ∧ dependencies res = currentDependencies s'.
Proof.
  unfold query, read. intros H. bind_inv H. bind_inv H.
  destruct a0 as [r s']. injection H as <-. simpl.
  exists a, r, s'. done.
Qed.

(** A non-root entity whose [__typename] record is absent makes
    [readSelection] return [undefined], and its key has been added to the
    dependency set by then. *)
Lemma readSelection_missing_entity_dependency (fuel : nat) (ctx : Context)
  (entityKey : string) (select : SelectionSet) (data : DataField)
  (s : ReadState) :
  entityKey ≠ getRootKey (tables (store ctx)) OpQuery →
  (∀ t, getField (tables (store ctx)) entityKey "__typename" None ≠ DStr t) →
  readSelection (S fuel) ctx entityKey select data s
    = Ret (DUndefined, addDependency entityKey s)
  ∧ entityKey ∈ currentDependencies (addDependency entityKey s).
Proof.
  intros Hne Hmissing. split; [| unfold addDependency; simpl; set_solver].
  simpl. unfold readSelectionBody.
  apply String.eqb_neq in Hne. rewrite Hne.
  destruct (getField _ _ _ _) as [| | | t | | |] eqn:Ht; try reflexivity.
  by destruct (Hmissing t).
Qed.

Import Examples.

(** A read of [{ todo { id text } }] whose link leads to an entity that is
    not in the store: the result is [null], and the dependency set holds
    the key of the missing entity next to the root field key. *)
Example query_missing_entity :
  query 3 todoStore (requestOf todoQuery) None
  = Ret (mkQueryResult (list_to_set ["Query.todo"; "Todo:2"]) false DNull).
Proof. vm_compute. reflexivity. Qed.

(** ** Reads with a schema oracle *)

(** With a schema oracle the loop of [readSelection] abandons the read at
    a field whose value is in the cache. *)
Lemma readFields_schema_cached_field ctx fuel rec count typename entityKey
  (isQuery : bool) iter iter' node data hasFields s sp v data' s' :
  schemaPredicates ctx = Some sp →
  next fuel iter = Ret (Some node, iter') →
  readFieldValue ctx rec typename entityKey node data
    (if isQuery then addDependency (fieldKeyOf ctx entityKey node) s else s)
    = Ret (v, data', s') →
  v ≠ DUndefined →
  readFields ctx fuel rec (S count) typename entityKey isQuery iter data
    hasFields s = Ret (DUndefined, s').
Proof.
  intros Hsp Hnext Hvalue Hv. simpl. rewrite Hnext. simpl.
  unfold fieldKeyOf in Hvalue. rewrite Hvalue. simpl. rewrite Hsp.
  destruct v; done.
Qed.

(** C1 (the code at the failing input).  The store holds [int: 42] on the
    Query root and has a schema oracle; the read of [{ int }] returns
    [data: null] instead of emitting the cached value. *)
Theorem query_with_schema_drops_cached_field :
  query 3 intStoreWithSchema (requestOf intQuery) None
  = Ret (mkQueryResult (list_to_set ["Query.int"]) false DNull)
  ∧ query 3 intStore (requestOf intQuery) None
    = Ret (mkQueryResult (list_to_set ["Query.int"]) false
             (DObj [("__typename", DStr "Query"); ("int", DNum 42)])).
Proof. split; vm_compute; reflexivity. Qed.

(** ** Cache misses without a schema oracle *)

Lemma readFieldValue_uncached ctx rec typename entityKey node data s :
  uncachedField ctx typename entityKey node →
  readFieldValue ctx rec typename entityKey node data s = Ret (DUndefined, data, s).
Proof.
  intros [Hres Hmiss]. unfold readFieldValue. cbv zeta. rewrite Hres.
  unfold fieldKeyOf in Hmiss.
  destruct (hasSelectionSet node); simpl.
  - destruct Hmiss as [-> Hrec]. by destruct (getRecord _ _).
  - by rewrite Hmiss.
Qed.

Lemma readFieldValue_single_link ctx rec typename entityKey node data s child :
  resolverOf (store ctx) typename (getName node) = None →
  hasSelectionSet node = true →
  getLink (tables (store ctx)) (fieldKeyOf ctx entityKey node) = Some (LKey child) →
  readFieldValue ctx rec typename entityKey node data s
  = do (r, s') <- rec child (getSelectionSet node)
                    (orFresh (getField_ data (getFieldAlias node))) s;
    Ret (r, data, s').
Proof.
  intros Hres Hsel Hlink. unfold readFieldValue, fieldKeyOf in *. cbv zeta.
  rewrite Hres, Hsel, Hlink. reflexivity.
Qed.

(** The loop returns [undefined], and raises nothing, at the moment it
    meets a field that is missing from the cache. *)
Lemma readFields_uncached ctx fuel rec count typename entityKey (isQuery : bool)
  iter iter' node data hasFields s :
  schemaPredicates ctx = None →
  next fuel iter = Ret (Some node, iter') →
  uncachedField ctx typename entityKey node →
  readFields ctx fuel rec (S count) typename entityKey isQuery iter data hasFields s
  = Ret (DUndefined,
         if isQuery then addDependency (fieldKeyOf ctx entityKey node) s else s).
Proof.
  intros Hsp Hnext Hmiss. simpl. rewrite Hnext. simpl.
  rewrite (readFieldValue_uncached _ _ _ _ _ _ _ Hmiss). simpl.
  by rewrite Hsp.
Qed.

(** An [undefined] that the read of a linked entity returns makes the
    loop of the entity above it return [undefined] as well. *)
Lemma readFields_child_undefined ctx fuel rec count typename entityKey
  (isQuery : bool) iter iter' node data hasFields s child s' :
  schemaPredicates ctx = None →
  next fuel iter = Ret (Some node, iter') →
  resolverOf (store ctx) typename (getName node) = None →
  hasSelectionSet node = true →
  getLink (tables (store ctx)) (fieldKeyOf ctx entityKey node) = Some (LKey child) →
  rec child (getSelectionSet node) (orFresh (getField_ data (getFieldAlias node)))
    (if isQuery then addDependency (fieldKeyOf ctx entityKey node) s else s)
    = Ret (DUndefined, s') →
  readFields ctx fuel rec (S count) typename entityKey isQuery iter data hasFields s
  = Ret (DUndefined, s').
Proof.
  intros Hsp Hnext Hres Hsel Hlink Hchild. simpl. rewrite Hnext. simpl.
  rewrite (readFieldValue_single_link _ _ _ _ _ _ _ _ Hres Hsel Hlink).
  unfold fieldKeyOf in Hchild. rewrite Hchild. simpl. by rewrite Hsp.
Qed.

(** The loop cannot end with a value when a field that the iterator still
    yields makes it return [undefined]. *)
Lemma readFields_poisoned ctx fuel rec (bad : SelectionNode → Prop)
  typename entityKey (isQuery : bool) :
  schemaPredicates ctx = None →
  (∀ node data s v data' s',
     bad node →
     readFieldValue ctx rec typename entityKey node data s = Ret (v, data', s') →
     v = DUndefined) →
  ∀ count iter nodes it' node data hasFields s r s',
    Yields fuel iter nodes it' → node ∈ nodes → bad node →
    readFields ctx fuel rec count typename entityKey isQuery iter data hasFields s
      = Ret (r, s') →
    r = DUndefined.
Proof.
  intros Hsp Hbad. induction count as [|count IH];
    intros iter nodes it' node data hasFields s r s' Hy Hin Hnode H;
    [discriminate |].
  simpl in H. destruct Hy as [it | it n it1 nodes it2 Hn Hy]; [inversion Hin |].
  rewrite Hn in H. simpl in H.
  bind_inv H. destruct a as [[v data1] s1]. rewrite Hsp in H.
  destruct (isUndefined v) eqn:Hv; [by injection H as <- _ |].
  apply elem_of_cons in Hin as [<- | Hin].
  - apply Hbad in Hm; [| done]. subst v. discriminate.
  - eapply IH; eauto.
Qed.

Lemma readSelection_poisoned ctx :
  schemaPredicates ctx = None →
  ∀ fuel entityKey select data s r s',
    Poisoned ctx fuel entityKey select →
    readSelection fuel ctx entityKey select data s = Ret (r, s') →
    r = DUndefined.
Proof.
  intros Hsp fuel entityKey select data s r s' Hp. revert data s r s'.
  induction Hp as
    [fuel entityKey select typename nodes it' node Htn Hy Hin Hmiss
    |fuel entityKey select typename nodes it' node child Htn Hy Hin Hres Hsel
       Hlink Hp IH]; intros data s r s' H; simpl in H;
    unfold readSelectionBody in H; unfold entityTypename in Htn.
  - destruct (String.eqb entityKey _).
    + injection Htn as <-. bind_inv H.
      eapply (readFields_poisoned _ _ _ (λ n, n = node)); eauto.
      intros n ? ? ? ? ? -> Hv.
      rewrite (readFieldValue_uncached _ _ _ _ _ _ _ Hmiss) in Hv. congruence.
    + destruct (getField _ _ _ _); try discriminate. injection Htn as <-.
      bind_inv H.
      eapply (readFields_poisoned _ _ _ (λ n, n = node)); eauto.
      intros n ? ? ? ? ? -> Hv.
      rewrite (readFieldValue_uncached _ _ _ _ _ _ _ Hmiss) in Hv. congruence.
  - assert (∀ data0 s0 v data' s0',
              readFieldValue ctx (readSelection fuel ctx) typename entityKey node
                data0 s0 = Ret (v, data', s0') → v = DUndefined) as Hv.
    { intros data0 s0 v data' s0' Hv.
      rewrite (readFieldValue_single_link _ _ _ _ _ _ _ _ Hres Hsel Hlink) in Hv.
      bind_inv Hv. destruct a as [r0 s1'']. injection Hv as <- _ _.
      eapply IH, Hm. }
    destruct (String.eqb entityKey _).
    + injection Htn as <-. bind_inv H.
      eapply (readFields_poisoned _ _ _ (λ n, n = node)); eauto.
      intros n ? ? ? ? ? ->. apply Hv.
    + destruct (getField _ _ _ _); try discriminate. injection Htn as <-.
      bind_inv H.
      eapply (readFields_poisoned _ _ _ (λ n, n = node)); eauto.
      intros n ? ? ? ? ? ->. apply Hv.
Qed.

(** C3.  Without a schema oracle: (1) the loop of [readSelection] returns
    [undefined], without raising, when the iterator hands it a field that
    is missing from the cache; (2) an [undefined] returned for a linked
    entity makes the loop of the entity above return [undefined]; (3) so a
    read that meets a missing field, at any depth below single links,
    cannot return a value; (4) and when [undefined] reaches the root,
    [query] returns [data: null] with [partial: false]. *)
Theorem cache_miss_without_schema (ctx : Context) :
  schemaPredicates ctx = None →
  (∀ fuel rec count typename entityKey (isQuery : bool) iter iter' node data
     hasFields s,
     next fuel iter = Ret (Some node, iter') →
     uncachedField ctx typename entityKey node →
     readFields ctx fuel rec (S count) typename entityKey isQuery iter data
       hasFields s
     = Ret (DUndefined,
            if isQuery then addDependency (fieldKeyOf ctx entityKey node) s else s))
  ∧ (∀ fuel rec count typename entityKey (isQuery : bool) iter iter' node data
       hasFields s child s',
       next fuel iter = Ret (Some node, iter') →
       resolverOf (store ctx) typename (getName node) = None →
       hasSelectionSet node = true →
       getLink (tables (store ctx)) (fieldKeyOf ctx entityKey node)
         = Some (LKey child) →
       rec child (getSelectionSet node)
         (orFresh (getField_ data (getFieldAlias node)))
         (if isQuery then addDependency (fieldKeyOf ctx entityKey node) s else s)
         = Ret (DUndefined, s') →
       readFields ctx fuel rec (S count) typename entityKey isQuery iter data
         hasFields s = Ret (DUndefined, s'))
  ∧ (∀ fuel entityKey select data s r s',
       Poisoned ctx fuel entityKey select →
       readSelection fuel ctx entityKey select data s = Ret (r, s') →
       r = DUndefined)
  ∧ (∀ fuel request op s',
       getMainOperation (query_ request) = Ret op →
       ctx = readContext (store ctx) request op →
       readSelection fuel ctx (getRootKey (tables (store ctx)) (operation op))
         (operationSelectionSet op) (DObj []) initStoreState
         = Ret (DUndefined, s') →
       query fuel (store ctx) request None
       = Ret (mkQueryResult (currentDependencies s') false DNull)).
Proof.
  intros Hsp. repeat split.
  - intros. by eapply readFields_uncached.
  - intros. by eapply readFields_child_undefined.
  - by apply readSelection_poisoned.
  - intros fuel request op s' Hop Hctx H. unfold query, read.
    rewrite Hop. simpl. unfold readContext in Hctx. rewrite <- Hctx.
    unfold initStoreState in H. by rewrite H.
Qed.

Lemma cache_miss_without_schema_witness :
  let op := mkOperation OpQuery None [] todoQuery in
  let ctx := readContext todoStore (requestOf todoQuery) op in
  schemaPredicates ctx = None
  ∧ query 3 (store ctx) (requestOf todoQuery) None
    = Ret (mkQueryResult
             (currentDependencies
                (addDependency "Todo:2" (addDependency "Query.todo" initStoreState)))
             false DNull).
Proof.
  intros op ctx. split; [reflexivity |].
  destruct (cache_miss_without_schema ctx eq_refl) as (_ & _ & _ & Hroot).
  apply (Hroot 3%nat (requestOf todoQuery) op
           (addDependency "Todo:2" (addDependency "Query.todo" initStoreState))).
  - reflexivity.
  - reflexivity.
  - vm_compute. reflexivity.
Defined.

(** ** Reads with prior result data *)

Lemma getField_setField_eq (fields : Data) k v :
  getField_ (setField fields k v) k = v.
Proof.
  induction fields as [|[k' v'] fields IH]; simpl.
  - by rewrite String.eqb_refl.
  - destruct (String.eqb k' k) eqn:Hk; simpl; rewrite Hk; done.
Qed.

Lemma getField_setField_ne (fields : Data) k k' v :
  k ≠ k' → getField_ (setField fields k v) k' = getField_ fields k'.
Proof.
  intros Hne. induction fields as [|[k0 v0] fields IH]; simpl.
  - apply String.eqb_neq in Hne. by rewrite Hne.
  - destruct (String.eqb k0 k) eqn:Hk; simpl.
    + apply String.eqb_eq in Hk as ->.
      apply String.eqb_neq in Hne. by rewrite Hne.
    + by rewrite IH.
Qed.

(** The loop of [readRoot] ends when the iterator is exhausted; a field
    of the result that no recursing node writes holds the value of the
    supplied data when it is selected, and is left alone otherwise. *)
Lemma readRootFields_shape ctx fuel rec count :
  ∀ iter originalData data s r s',
    readRootFields ctx fuel rec count iter originalData data s = Ret (r, s') →
    ∃ nodes it' data',
      r = DObj data'
      ∧ Yields fuel iter nodes it'
      ∧ Exhausted fuel it'
      ∧ ∀ alias,
          (∀ node, node ∈ nodes → getFieldAlias node = alias →
             recursesInto node originalData = false) →
          getField_ data' alias
          = if bool_decide (alias ∈ map getFieldAlias nodes)
            then getProp originalData alias
            else getField_ data alias.
Proof.
  induction count as [|count IH]; intros iter originalData data s r s' H;
    [discriminate |].
  simpl in H. bind_inv H. destruct a as [[node|] iter']; cycle 1.
  { injection H as <- <-. exists [], iter, data.
    split_and!; [done | constructor | by exists iter' |].
    intros alias _. rewrite bool_decide_eq_false_2; [done |].
    simpl. apply not_elem_of_nil. }
  fold (recursesInto node originalData) in H.
  assert (∃ v s1,
            readRootFields ctx fuel rec count iter' originalData
              (setField data (getFieldAlias node) v) s1 = Ret (r, s')
            ∧ (recursesInto node originalData = false →
               v = getProp originalData (getFieldAlias node)))
    as (v & s1 & Hrest & Hv).
  { destruct (recursesInto node originalData).
    - bind_inv H. destruct a as [v s1]. exists v, s1. by split.
    - exists (getProp originalData (getFieldAlias node)), s. by split. }
  clear H. apply IH in Hrest as (nodes & it' & data' & -> & Hy & Hex & Hfields).
  exists (node :: nodes), it', data'.
  split_and!; [done | econstructor; eauto | done |].
  intros alias Hnorec. rewrite Hfields; cycle 1.
  { intros n Hin. apply Hnorec. by right. }
  simpl. case_bool_decide as Hin.
  - rewrite bool_decide_eq_true_2; [done | by right].
  - destruct (decide (getFieldAlias node = alias)) as [<- | Hne].
    + rewrite bool_decide_eq_true_2; [| by left].
      rewrite getField_setField_eq. apply Hv, Hnorec; [by left | done].
    + rewrite bool_decide_eq_false_2.
      * by apply getField_setField_ne.
      * intros Hin'. apply elem_of_cons in Hin' as [-> | Hin']; done.
Qed.

Lemma read_normalized fuel st request op s :
  getMainOperation (query_ request) = Ret op →
  read fuel st request None s
  = do r <- readSelection fuel (readContext st request op)
              (getRootKey (tables st) (operation op)) (operationSelectionSet op)
              (DObj []) (mkReadState false (currentDependencies s));
    Ret (readResult r).
Proof.
  intros Hop. unfold read. rewrite Hop. simpl. unfold readContext.
  destruct (readSelection _ _ _ _ _ _) as [[r s'] | |]; reflexivity.
Qed.

(** [read] runs the normalized read from the root key of the store only
    when no prior data is supplied.  Prior data whose [__typename] is not
    a string is returned unchanged, without any access to the store.  In
    the root-merge read of prior data whose [__typename] is a string,
    every selected field that is not sent through [readRootField] keeps
    its supplied value, and nothing else but [__typename] is set. *)
Lemma read_with_prior_data (fuel : nat) (st : Store)
  (request : OperationRequest) (op : OperationDefinitionNode) (s : ReadState) :
  getMainOperation (query_ request) = Ret op →
  let ctx := readContext st request op in
  let rootKey := getRootKey (tables st) (operation op) in
  let rootSelect := operationSelectionSet op in
  read fuel st request None s
  = (do r <- readSelection fuel ctx rootKey rootSelect (DObj [])
               (mkReadState false (currentDependencies s));
     Ret (readResult r))
  ∧ (∀ fields,
       typenameOf (DObj fields) = None →
       read (S fuel) st request (Some (DObj fields)) s
       = Ret (mkQueryResult (currentDependencies s) false (DObj fields)))
  ∧ (∀ fields t res,
       typenameOf (DObj fields) = Some t →
       read (S fuel) st request (Some (DObj fields)) s = Ret res →
       ∃ nodes it' data',
         data res = DObj data'
         ∧ Yields fuel (newSelectionIterator (Some rootKey) rootKey rootSelect ctx)
             nodes it'
         ∧ Exhausted fuel it'
         ∧ ∀ alias,
             (∀ node, node ∈ nodes → getFieldAlias node = alias →
                recursesInto node (DObj fields) = false) →
             getField_ data' alias
             = if bool_decide (alias ∈ map getFieldAlias nodes)
               then getField_ fields alias
               else if String.eqb alias "__typename" then DStr t
                    else DUndefined).
Proof.
  intros Hop ctx rootKey rootSelect. split; [by apply read_normalized |].
  split.
  - intros fields Htn. unfold read. rewrite Hop. simpl.
    unfold readRootBody. unfold typenameOf in Htn. simpl in *.
    destruct (getField_ fields "__typename"); try discriminate; reflexivity.
  - intros fields t res Htn H. unfold read in H. rewrite Hop in H.
    simpl in H. unfold readRootBody in H.
    unfold typenameOf in Htn. simpl in *.
    destruct (getField_ fields "__typename") as [| | | t' | | |];
      try discriminate.
    injection Htn as ->. bind_inv H. destruct a as [r s'].
    injection H as <-. simpl.
    apply readRootFields_shape in Hm as (nodes & it' & data' & -> & Hy & Hex & Hf).
    exists nodes, it', data'. split_and!; try done.
    intros alias Hnorec. rewrite (Hf alias Hnorec).
    case_bool_decide; [done |].
    change (getField_ [("__typename", DStr t)] alias)
      with (if String.eqb "__typename" alias then DStr t else DUndefined).
    by rewrite String.eqb_sym.
Qed.

(** ** Termination of the selection iterator *)

Lemma nodeWeight_field frags r alias name args ds sel :
  nodeWeight frags r (FieldNode alias name args ds sel)
  = (2 + selectionWeight frags r (getSelectionSet (FieldNode alias name args ds sel)))%nat.
Proof. destruct r, sel; reflexivity. Qed.

Lemma nodeWeight_inline frags r tc ds sel :
  nodeWeight frags r (InlineFragmentNode tc ds sel)
  = (2 + selectionWeight frags r sel)%nat.
Proof. destruct r; reflexivity. Qed.

Lemma nodeWeight_spread frags r name ds def :
  frags !! name = Some def →
  nodeWeight frags (S r) (FragmentSpreadNode name ds)
  = (2 + selectionWeight frags r (fragmentSelectionSet def))%nat.
Proof. intros H. simpl. by rewrite H. Qed.

Lemma nodeWeight_pos frags r node : (2 ≤ nodeWeight frags r node)%nat.
Proof.
  destruct node as [alias name args ds sel | name ds | tc ds sel].
  - rewrite nodeWeight_field. lia.
  - destruct r; simpl; [lia |]. destruct (frags !! name); lia.
  - rewrite nodeWeight_inline. lia.
Qed.

Lemma selectionWeight_cons frags r node select :
  selectionWeight frags r (node :: select)
  = (nodeWeight frags r node + selectionWeight frags r select)%nat.
Proof. reflexivity. Qed.

Lemma bounded_mono rank r r' select :
  (r ≤ r')%nat → bounded rank r select → bounded rank r' select.
Proof. intros Hle Hb spread Hin. specialize (Hb spread Hin). lia. Qed.

Lemma bounded_node rank r select node :
  bounded rank r select → node ∈ select →
  ∀ spread, spread ∈ spreadNames node → (rank spread < r)%nat.
Proof.
  intros Hb Hin spread Hs. apply Hb.
  apply list_elem_of_In, in_flat_map. exists node.
  split; by apply list_elem_of_In.
Qed.

Lemma bounded_selectionSet rank r select node :
  bounded rank r select → node ∈ select →
  bounded rank r (getSelectionSet node).
Proof.
  intros Hb Hin spread Hs. eapply bounded_node; [exact Hb | exact Hin |].
  destruct node as [alias name args ds [sel|] | name ds | tc ds sel];
    simpl in *; try done. inversion Hs.
Qed.

(** One call of [next] on an iterator whose stacks are well formed: with
    more fuel than the work that is left, the call returns; the stacks
    stay well formed; a field that it returns has been paid for together
    with its own selection set, and [undefined] is only returned with
    empty stacks. *)
Lemma next_progress ctx rank :
  acyclicFragments (fragments ctx) rank →
  ∀ fuel it m,
    context it = ctx →
    Frames (fragments ctx) rank (indexStack it) (selectionStack it) m →
    (m < fuel)%nat →
    ∃ res it' m',
      next fuel it = Ret (res, it')
      ∧ context it' = ctx
      ∧ typename it' = typename it
      ∧ entityKey it' = entityKey it
      ∧ Frames (fragments ctx) rank (indexStack it') (selectionStack it') m'
      ∧ match res with
        | Some node =>
            ∃ r, bounded rank r (getSelectionSet node)
                 ∧ (selectionWeight (fragments ctx) r (getSelectionSet node)
                    + 2 + m' ≤ m)%nat
        | None => indexStack it' = [] ∧ m' = 0%nat
        end.
Proof.
  intros Hacyclic. induction fuel as [|fuel IH]; intros it m Hctx HF Hm; [lia |].
  destruct it as [tn ek indices c selections]. simpl in *. subst c.
  destruct HF as [|index select r indices selections m0 Hb HF].
  { exists None, (mkIterator tn ek [] ctx []), 0%nat.
    split_and!; try done. constructor. }
  unfold withStacks. simpl.
  destruct (select !! index) as [node|] eqn:Hnode; cycle 1.
  { (* the selection on top of the stack is exhausted *)
    destruct (IH (mkIterator tn ek indices ctx selections) m0 eq_refl HF)
      as (res & it' & m' & Hnext & ? & ? & ? & HF' & Hres); [lia |].
    exists res, it', m'. split_and!; try done.
    destruct res as [n|]; [| done].
    destruct Hres as (r' & ? & ?). exists r'. split; [done | lia]. }
  pose proof (drop_S _ _ _ Hnode) as Hdrop. rewrite Hdrop in Hm |- *.
  rewrite selectionWeight_cons in Hm |- *.
  pose proof (nodeWeight_pos (fragments ctx) r node) as Hpos.
  assert (node ∈ select) as Hin by (eapply list_elem_of_lookup_2, Hnode).
  set (m1 := (1 + selectionWeight (fragments ctx) r (drop (S index) select) + m0)%nat).
  assert (Frames (fragments ctx) rank (S index :: indices) (select :: selections) m1)
    as HF1 by (by constructor).
  (* the loop goes on with the next index *)
  assert (∃ res it' m',
            next fuel (mkIterator tn ek (S index :: indices) ctx (select :: selections))
              = Ret (res, it')
            ∧ context it' = ctx ∧ typename it' = tn ∧ entityKey it' = ek
            ∧ Frames (fragments ctx) rank (indexStack it') (selectionStack it') m'
            ∧ match res with
              | Some node0 =>
                  ∃ r0, bounded rank r0 (getSelectionSet node0)
                        ∧ (selectionWeight (fragments ctx) r0 (getSelectionSet node0)
                           + 2 + m'
                           ≤ 1 + (nodeWeight (fragments ctx) r node
                                  + selectionWeight (fragments ctx) r
                                      (drop (S index) select)) + m0)%nat
              | None => indexStack it' = [] ∧ m' = 0%nat
              end) as Hcontinue.
  { destruct (IH (mkIterator tn ek (S index :: indices) ctx (select :: selections))
                m1 eq_refl HF1)
      as (res & it' & m' & Hnext & ? & ? & ? & HF' & Hres); [subst m1; lia |].
    exists res, it', m'. split_and!; try done.
    destruct res as [n|]; [| done].
    destruct Hres as (r' & ? & ?). exists r'. split; [done | subst m1; lia]. }
  (* the loop goes on inside a fragment *)
  assert (∀ r2 fsel,
            bounded rank r2 fsel →
            nodeWeight (fragments ctx) r node
              = (2 + selectionWeight (fragments ctx) r2 fsel)%nat →
            ∃ res it' m',
              next fuel (mkIterator tn ek (0%nat :: S index :: indices) ctx
                           (fsel :: select :: selections))
                = Ret (res, it')
              ∧ context it' = ctx ∧ typename it' = tn ∧ entityKey it' = ek
              ∧ Frames (fragments ctx) rank (indexStack it') (selectionStack it') m'
              ∧ match res with
                | Some node0 =>
                    ∃ r0, bounded rank r0 (getSelectionSet node0)
                          ∧ (selectionWeight (fragments ctx) r0 (getSelectionSet node0)
                             + 2 + m'
                             ≤ 1 + (nodeWeight (fragments ctx) r node
                                    + selectionWeight (fragments ctx) r
                                        (drop (S index) select)) + m0)%nat
                | None => indexStack it' = [] ∧ m' = 0%nat
                end) as Hpush.
  { intros r2 fsel Hb2 Hw.
    assert (Frames (fragments ctx) rank (0%nat :: S index :: indices)
              (fsel :: select :: selections)
              (1 + selectionWeight (fragments ctx) r2 (drop 0 fsel) + m1)%nat)
      as HF2 by (by constructor).
    rewrite drop_0 in HF2.
    destruct (IH (mkIterator tn ek (0%nat :: S index :: indices) ctx
                    (fsel :: select :: selections)) _ eq_refl HF2)
      as (res & it' & m' & Hnext & ? & ? & ? & HF' & Hres); [subst m1; lia |].
    exists res, it', m'. split_and!; try done.
    destruct res as [n|]; [| done].
    destruct Hres as (r' & ? & ?). exists r'. split; [done | subst m1; lia]. }
  destruct (negb (shouldInclude node (variables ctx))); [exact Hcontinue |].
  destruct node as [alias name args ds sel | name ds | tc ds sel]; simpl.
  - (* a field *)
    destruct (String.eqb name "__typename"); [exact Hcontinue |].
    eexists _, _, m1. split_and!; try done.
    exists r. split; [by eapply bounded_selectionSet |].
    rewrite nodeWeight_field. subst m1. lia.
  - (* a fragment spread *)
    destruct (fragments ctx !! name) as [def|] eqn:Hdef; simpl; [| exact Hcontinue].
    match goal with
    | |- context [negb ?b] => destruct (negb b); [exact Hcontinue |]
    end.
    assert (rank name < r)%nat as Hrank.
    { eapply bounded_node; [exact Hb | exact Hin | simpl; by left]. }
    destruct r as [|r']; [lia |].
    apply (Hpush r' (fragmentSelectionSet def)).
    + intros spread Hs. specialize (Hacyclic name def spread Hdef Hs). lia.
    + by apply nodeWeight_spread.
  - (* an inline fragment *)
    match goal with
    | |- context [negb ?b] => destruct (negb b); [exact Hcontinue |]
    end.
    apply (Hpush r sel).
    + by eapply (bounded_selectionSet _ _ _ (InlineFragmentNode tc ds sel)).
    + apply nodeWeight_inline.
Qed.

Lemma bounded_exists rank select : ∃ r, bounded rank r select.
Proof.
  exists (S (max_list (map rank (flat_map spreadNames select)))).
  intros spread Hin.
  assert (rank spread ∈ map rank (flat_map spreadNames select)) as Hr
    by (by apply list_elem_of_fmap_2).
  apply max_list_elem_of_le in Hr. lia.
Qed.

Lemma Frames_new frags rank r select :
  bounded rank r select →
  Frames frags rank [0%nat] [select] (1 + selectionWeight frags r select + 0)%nat.
Proof.
  intros Hb. rewrite <- (drop_0 select) at 2. constructor; [done | constructor].
Qed.

(** Draining an iterator: successive calls of [next] return finitely
    many fields and then [undefined], with empty stacks. *)
Lemma next_drains ctx rank :
  acyclicFragments (fragments ctx) rank →
  ∀ fuel m it,
    context it = ctx →
    Frames (fragments ctx) rank (indexStack it) (selectionStack it) m →
    (m < fuel)%nat →
    ∃ nodes it' it'',
      Yields fuel it nodes it'
      ∧ next fuel it' = Ret (None, it'')
      ∧ indexStack it'' = []
      ∧ (length nodes ≤ m)%nat.
Proof.
  intros Hacyclic fuel m. induction (lt_wf m) as [m _ IH].
  intros it Hctx HF Hm.
  destruct (next_progress ctx rank Hacyclic fuel it m Hctx HF Hm)
    as (res & it1 & m1 & Hnext & Hctx1 & _ & _ & HF1 & Hres).
  destruct res as [node|].
  - destruct Hres as (r & _ & Hle).
    destruct (IH m1 ltac:(lia) it1 Hctx1 HF1 ltac:(lia))
      as (nodes & it' & it'' & Hy & Hend & Hempty & Hlen).
    exists (node :: nodes), it', it''. split_and!; try done.
    + econstructor; eauto.
    + simpl. lia.
  - destruct Hres as [Hempty _].
    exists [], it, it1. split_and!; try done; [constructor | simpl; lia].
Qed.

(** Once the stacks are empty every further call returns [undefined]. *)
Lemma next_exhausted fuel it :
  indexStack it = [] → next (S fuel) it = Ret (None, it).
Proof. intros H. simpl. by rewrite H. Qed.

(** ** Termination of the read traversal *)

Lemma mapIndexed_halts {A : Type}
  (f : A → nat → ReadState → Outcome (DataField * ReadState)) (xs : list A) :
  Forall (λ x, ∀ i s, halts (f x i s)) xs →
  ∀ i out s, halts (mapIndexed f xs i out s).
Proof.
  induction 1 as [|x xs Hx _ IH]; intros i out s; simpl; [done |].
  specialize (Hx i s).
  destruct (f x i s) as [[r s'] | |]; simpl; first [done | apply IH].
Qed.

Lemma prevAt_halts {B : Type} prevData i (k : DataField → Outcome B) :
  (∀ data, halts (k data)) → halts (do data <- prevAt prevData i; k data).
Proof.
  intros Hk. unfold prevAt, getIndex.
  destruct prevData; simpl; try done; apply Hk.
Qed.

Section HaltingTraversal.

Variable ctx : Context.
Variable rec : string → Reader.
Variable select : SelectionSet.
Hypothesis rec_halts : ∀ key data s, halts (rec key select data s).

Lemma resolveLink_halts link :
  ∀ prevData s, halts (resolveLink rec link select prevData s).
Proof.
  induction link as [key | | links IH] using Link_nested_ind;
    intros prevData s; simpl.
  { apply rec_halts. }
  { done. }
  apply mapIndexed_halts. eapply Forall_impl; [exact IH |]. simpl.
  intros l Hl i s0. apply prevAt_halts. intros data. apply Hl.
Qed.

Lemma resolveResolverResult_halts result :
  ∀ key prevData s,
    halts (resolveResolverResult ctx rec result key select prevData s).
Proof.
  induction result as [result IH] using DataField_items_ind.
  intros key prevData s.
  destruct result as [| | n | k | b | items | fields]; simpl.
  - done.
  - done.
  - done.
  - apply rec_halts.
  - done.
  - apply mapIndexed_halts.
    eapply Forall_impl; [exact (IH items eq_refl) |]. simpl.
    intros x Hx i s0. apply prevAt_halts. intros data. apply Hx.
  - destruct (bool_decide _); [apply rec_halts | done].
Qed.

End HaltingTraversal.

Lemma readFieldValue_halts ctx rec typename entityKey node data s :
  (∀ key data s, halts (rec key (getSelectionSet node) data s)) →
  halts (readFieldValue ctx rec typename entityKey node data s).
Proof.
  intros Hrec. unfold readFieldValue. cbv zeta.
  destruct (resolverOf _ _ _) as [resolver|].
  - destruct (_ || _); [done |].
    match goal with
    | |- halts (obind ?m _) =>
        pose proof (resolveResolverResult_halts ctx rec _ Hrec _ _ _ _ : halts m) as Hh;
        destruct m as [[r s'] | |]
    end; done.
  - destruct (negb _); [done |].
    destruct (getLink _ _) as [link|].
    + match goal with
      | |- halts (obind ?m _) =>
          pose proof (resolveLink_halts rec _ Hrec _ _ _ : halts m) as Hh;
          destruct m as [[r s'] | |]
      end; done.
    + by destruct (getRecord _ _).
Qed.

Lemma readFields_halts ctx rank fuel rec typename entityKey isQuery :
  acyclicFragments (fragments ctx) rank →
  ∀ count m iter data hasFields s,
    context iter = ctx →
    Frames (fragments ctx) rank (indexStack iter) (selectionStack iter) m →
    (m < fuel)%nat → (m < count)%nat →
    (∀ r select,
       bounded rank r select →
       (selectionWeight (fragments ctx) r select + 2 ≤ m)%nat →
       ∀ key data s, halts (rec key select data s)) →
    halts (readFields ctx fuel rec count typename entityKey isQuery iter data
             hasFields s).
Proof.
  intros Hacyclic. induction count as [|count IH];
    intros m iter data hasFields s Hctx HF Hfuel Hcount Hrec; [lia |].
  simpl.
  destruct (next_progress ctx rank Hacyclic fuel iter m Hctx HF Hfuel)
    as (res & it1 & m1 & -> & Hctx1 & _ & _ & HF1 & Hres).
  simpl. destruct res as [node|]; [| done].
  destruct Hres as (r & Hb & Hle).
  match goal with
  | |- halts (obind ?v _) =>
      assert (halts v) as Hv;
      [apply readFieldValue_halts; intros; eapply (Hrec r); [done | lia]
      | destruct v as [[[v0 data0] s0] | |]; try done]
  end.
  simpl.
  assert (∀ data1 hf s1,
            halts (readFields ctx fuel rec count typename entityKey isQuery it1
                     data1 hf s1)) as Hrest.
  { intros. apply (IH m1); try done; try lia.
    intros r' select' Hb' Hle'. apply (Hrec r' select' Hb'). lia. }
  destruct (schemaPredicates ctx).
  - destruct (_ && _); [apply Hrest | done].
  - destruct (isUndefined v0); [done | apply Hrest].
Qed.

(** A read of a selection halts with fuel beyond the weight of the
    selection. *)
Lemma readSelection_halts ctx rank :
  acyclicFragments (fragments ctx) rank →
  ∀ fuel r select,
    bounded rank r select →
    (selectionWeight (fragments ctx) r select + 3 ≤ fuel)%nat →
    ∀ entityKey data s, halts (readSelection fuel ctx entityKey select data s).
Proof.
  intros Hacyclic. induction fuel as [|fuel IH];
    intros r select Hb Hfuel entityKey data s; [lia |].
  simpl. unfold readSelectionBody.
  match goal with
  | |- halts (match ?x with _ => _ end) => destruct x
  end; try done.
  destruct data as [| | | | | | fields]; simpl; try done.
  eapply (readFields_halts ctx rank); try done.
  - apply (Frames_new _ _ r). exact Hb.
  - lia.
  - lia.
  - intros r' select' Hb' Hle'. apply (IH r' select' Hb'). lia.
Qed.

(** C9.  When the fragment references of the document are acyclic, there
    is an amount of fuel from which on (1) successive calls of [next] on a
    new iterator over a selection return finitely many field nodes and
    then [undefined], (2) every later call returns [undefined] again, and
    (3) the read traversal of the selection halts, on whatever entity and
    in whatever state it is started. *)
Theorem selectionIterator_terminates (ctx : Context) (rank : string → nat)
  (typename : option string) (entityKey : string) (select : SelectionSet) :
  acyclicFragments (fragments ctx) rank →
  ∃ bound, ∀ fuel, (bound ≤ fuel)%nat →
    (∃ nodes it' it'',
       Yields fuel (newSelectionIterator typename entityKey select ctx) nodes it'
       ∧ next fuel it' = Ret (None, it'')
       ∧ next fuel it'' = Ret (None, it'')
       ∧ (length nodes ≤ bound)%nat)
    ∧ (∀ key data s, halts (readSelection fuel ctx key select data s)).
Proof.
  intros Hacyclic. destruct (bounded_exists rank select) as [r Hb].
  exists (selectionWeight (fragments ctx) r select + 3)%nat.
  intros fuel Hfuel. split.
  - destruct (next_drains ctx rank Hacyclic fuel _
                (newSelectionIterator typename entityKey select ctx) eq_refl
                (Frames_new _ _ r select Hb))
      as (nodes & it' & it'' & Hy & Hend & Hempty & Hlen); [lia |].
    exists nodes, it', it''. split_and!; try done; [| lia].
    destruct fuel as [|fuel]; [lia |]. by apply next_exhausted.
  - by apply (readSelection_halts ctx rank Hacyclic fuel r).
Qed.

Lemma selectionIterator_terminates_witness :
  acyclicFragments (fragments fragmentContext) (λ _, 0%nat)
  ∧ ∃ bound, ∀ fuel, (bound ≤ fuel)%nat →
      (∃ nodes it' it'',
         Yields fuel
           (newSelectionIterator (Some "Query") "Query" fragmentQuery fragmentContext)
           nodes it'
         ∧ next fuel it' = Ret (None, it'')
         ∧ next fuel it'' = Ret (None, it'')
         ∧ (length nodes ≤ bound)%nat)
      ∧ (∀ key data s,
           halts (readSelection fuel fragmentContext key fragmentQuery data s)).
Proof.
  assert (acyclicFragments (fragments fragmentContext) (λ _, 0%nat)) as Hacyclic.
  { intros name def spread Hdef Hin. simpl in Hdef.
    apply lookup_singleton_Some in Hdef as [<- <-].
    simpl in Hin. inversion Hin. }
  split; [exact Hacyclic |].
  exact (selectionIterator_terminates fragmentContext (λ _, 0%nat) (Some "Query")
           "Query" fragmentQuery Hacyclic).
Defined.

(** * The populate transform *)

Import Populate PopulateExamples.

(** ** The snapshots of the tests *)

(** "on mutation" *)
Example populate_on_mutation :
  populated testSchema [] (mutationDocument "addTodo" None [])
  = [rewrittenMutation "addTodo" [typenameField]].
Proof. vm_compute. reflexivity. Qed.

(** "on query -> mutation" *)
Example populate_on_query_mutation :
  populated testSchema [queryOp 1234 nestedQuery []]
    (mutationDocument "addTodo" None [])
  = [rewrittenMutation "addTodo"
       [spread "Todo_PopulateFragment_0"; spread "Todo_PopulateFragment_1"];
     FragmentDefinition
       (mkFragment "Todo_PopulateFragment_0" "Todo" []
          [scalarField "id"; scalarField "text";
           objectField "creator" [scalarField "id"; scalarField "name"]]);
     FragmentDefinition
       (mkFragment "Todo_PopulateFragment_1" "Todo" [] [scalarField "text"])].
Proof. vm_compute. reflexivity. Qed.

(** "on (query w/ fragment) -> mutation" *)
Example populate_on_query_with_fragment :
  populated testSchema
    [queryOp 1234 queryWithFragments [todoFragment; creatorFragment]]
    (mutationDocument "addTodo" (Some [spread "TodoFragment"]) [todoFragment])
  = [rewrittenMutation "addTodo"
       [spread "Todo_PopulateFragment_0"; spread "TodoFragment"];
     FragmentDefinition todoFragment;
     FragmentDefinition
       (mkFragment "Todo_PopulateFragment_0" "Todo" []
          [spread "TodoFragment";
           objectField "creator" [spread "CreatorFragment"]]);
     FragmentDefinition creatorFragment].
Proof. vm_compute. reflexivity. Qed.

(** "on (query w/ unused fragment) -> mutation" *)
Example populate_on_query_with_unused_fragment :
  populated testSchema [queryOp 1234 queryWithUnusedFragment [userFragment]]
    (mutationDocument "addTodo" None [])
  = [rewrittenMutation "addTodo" [spread "Todo_PopulateFragment_0"];
     FragmentDefinition
       (mkFragment "Todo_PopulateFragment_0" "Todo" []
          [scalarField "id"; scalarField "text"])].
Proof. vm_compute. reflexivity. Qed.

(** "on query -> (mutation w/ interface return type)" *)
Example populate_on_interface :
  populated testSchema [queryOp 1234 mixedQuery []]
    (mutationDocument "removeTodo" None [])
  = [rewrittenMutation "removeTodo"
       [spread "Todo_PopulateFragment_0"; spread "User_PopulateFragment_0"];
     FragmentDefinition
       (mkFragment "Todo_PopulateFragment_0" "Todo" []
          [scalarField "id"; scalarField "name"]);
     FragmentDefinition
       (mkFragment "User_PopulateFragment_0" "User" []
          [scalarField "id"; scalarField "text"])].
Proof. vm_compute. reflexivity. Qed.

(** "on query -> (mutation w/ union return type)" *)
Example populate_on_union :
  populated testSchema [queryOp 1234 mixedQuery []]
    (mutationDocument "updateTodo" None [])
  = [rewrittenMutation "updateTodo"
       [spread "User_PopulateFragment_0"; spread "Todo_PopulateFragment_0"];
     FragmentDefinition
       (mkFragment "User_PopulateFragment_0" "User" []
          [scalarField "id"; scalarField "text"]);
     FragmentDefinition
       (mkFragment "Todo_PopulateFragment_0" "Todo" []
          [scalarField "id"; scalarField "name"])].
Proof. vm_compute. reflexivity. Qed.

(** "on query -> teardown -> mutation" *)
Example populate_on_teardown :
  populated testSchema [queryOp 1234 simpleQuery []; teardownOp 1234]
    (mutationDocument "addTodo" None [])
  = [rewrittenMutation "addTodo" [typenameField]].
Proof. vm_compute. reflexivity. Qed.

(** ** The names of the synthesized fragments *)

Lemma chars_app (a b : string) : chars (a +:+ b) = chars a ++ chars b.
Proof. induction a as [|c a IH]; simpl; [done | by rewrite IH]. Qed.

Lemma chars_inj (a b : string) : chars a = chars b → a = b.
Proof.
revert b. induction a as [|c a IH]; intros [|c' b] H; simpl in H; try done.
injection H as -> H. f_equal. by apply IH.
Qed.

(** A string is split at its last separator in one way only. *)
Lemma last_separator_unique {A : Type} (sep : A) (l l' d d' : list A) :
  sep ∉ d → sep ∉ d' →
  l ++ sep :: d = l' ++ sep :: d' → l = l' ∧ d = d'.
Proof.
intros Hd Hd'. revert l'. induction l as [|c l IH]; intros [|c' l'] H;
  simpl in H.
- by injection H as ->.
- injection H as -> ->. destruct Hd. apply elem_of_app. right. by left.
- injection H as -> <-. destruct Hd'. apply elem_of_app. right. by left.
- injection H as -> H. destruct (IH _ H) as [-> ->]. done.
Qed.

Lemma pretty_N_go_no_underscore (x : N) (s : string) :
  underscore ∉ chars s → underscore ∉ chars (pretty_N_go x s).
Proof.
revert s. induction (N.lt_wf_0 x) as [x _ IH]; intros s Hs.
assert (x = 0 ∨ 0 < x)%N as [-> | Hpos] by lia.
- by rewrite pretty_N_go_0.
- rewrite pretty_N_go_step by done. apply IH.
  + by apply N.div_lt.
  + simpl. apply not_elem_of_cons. split; [| done].
    unfold pretty_N_char. repeat case_match; vm_compute; discriminate.
Qed.

Lemma pretty_nat_no_underscore (n : nat) : underscore ∉ chars (pretty n).
Proof.
unfold pretty, pretty_nat, pretty, pretty_N. case_decide.
- simpl. apply not_elem_of_cons.
  split; [vm_compute; discriminate | apply not_elem_of_nil].
- apply pretty_N_go_no_underscore. apply not_elem_of_nil.
Qed.

(** The name of a synthesized fragment determines its type and its
    number. *)
Lemma populateFragmentName_inj typename typename' n n' :
  populateFragmentName typename n = populateFragmentName typename' n' →
  typename = typename' ∧ n = n'.
Proof.
intros H.
assert (∀ t m,
          chars (populateFragmentName t m)
          = (chars t ++ chars "_PopulateFragment")
            ++ underscore :: chars (pretty m)) as Hsplit.
{ intros t m. unfold populateFragmentName.
  rewrite !chars_app, <- app_assoc. reflexivity. }
apply (f_equal chars) in H. rewrite !Hsplit in H.
apply last_separator_unique in H as [Hl Hd];
  [| apply pretty_nat_no_underscore | apply pretty_nat_no_underscore].
apply app_inv_tail in Hl. apply chars_inj in Hl, Hd.
split; [done | by apply (inj pretty)].
Qed.

(** ** The recorded fragments *)

Lemma insertByKey_Permutation f fs : insertByKey f fs ≡ₚ f :: fs.
Proof.
induction fs as [|g fs IH]; simpl; [done |].
case_bool_decide; [| done]. rewrite IH. apply Permutation_swap.
Qed.

Lemma insertByKey_elem_of f fs g : g ∈ insertByKey f fs ↔ g = f ∨ g ∈ fs.
Proof. rewrite insertByKey_Permutation. apply elem_of_cons. Qed.

Lemma insertByKey_length f fs : length (insertByKey f fs) = S (length fs).
Proof. by rewrite insertByKey_Permutation. Qed.

Lemma insertByKey_sorted f fs :
  StronglySorted (λ f g, fragmentKey f ≤ fragmentKey g) fs →
  StronglySorted (λ f g, fragmentKey f ≤ fragmentKey g) (insertByKey f fs).
Proof.
induction 1 as [|g fs Hsorted IH Hall]; simpl.
- repeat constructor.
- case_bool_decide as Hle.
  + constructor; [exact IH |].
    apply Forall_forall. intros h Hh.
    apply insertByKey_elem_of in Hh as [-> | Hh]; [done |].
    rewrite Forall_forall in Hall. by apply Hall.
  + constructor; [by constructor |].
    constructor; [lia |].
    eapply Forall_impl; [exact Hall |]. simpl. intros h Hh. lia.
Qed.

Lemma wellRecorded_empty : wellRecorded ∅.
Proof. intros typename fs H. by rewrite lookup_empty in H. Qed.

Lemma addTypeFragment_wellRecorded opKey fragments entry :
  wellRecorded fragments →
  wellRecorded (addTypeFragment opKey fragments entry).
Proof.
intros Hwell typename fs Hfs. unfold addTypeFragment in Hfs.
destruct (decide (entry.1 = typename)) as [<- | Hne]; cycle 1.
{ rewrite lookup_insert_ne in Hfs by done. by apply Hwell. }
rewrite lookup_insert_eq in Hfs. injection Hfs as <-.
set (current := default [] (fragments !! entry.1)).
assert (Forall (λ f,
                  fragmentTypeCondition (fragmentNode f) = entry.1
                  ∧ ∃ n, (n < length current)%nat
                         ∧ fragmentName (fragmentNode f)
                           = populateFragmentName entry.1 n) current
        ∧ NoDup (map (λ f, fragmentName (fragmentNode f)) current)
        ∧ StronglySorted (λ f g, fragmentKey f ≤ fragmentKey g) current)
  as (Hall & Hnodup & Hsorted).
{ subst current. destruct (fragments !! entry.1) as [fs|] eqn:Hfs.
  - by apply Hwell.
  - simpl. split_and!; constructor. }
split_and!.
- apply Forall_forall. intros f Hf. rewrite insertByKey_length.
  apply insertByKey_elem_of in Hf as [-> | Hf].
  + simpl. split; [done |]. exists (length current). split; [lia | done].
  + rewrite Forall_forall in Hall.
    destruct (Hall f Hf) as (Htype & n & Hn & Hname).
    split; [done |]. exists n. split; [lia | done].
- rewrite insertByKey_Permutation. simpl. constructor; [| done].
  intros Hin. apply list_elem_of_fmap in Hin as (f & Hname & Hf).
  rewrite Forall_forall in Hall.
  destruct (Hall f Hf) as (_ & n & Hn & Hname').
  rewrite Hname' in Hname. apply populateFragmentName_inj in Hname as [_ Heq].
  lia.
- by apply insertByKey_sorted.
Qed.

Lemma fold_addTypeFragment_wellRecorded opKey entries fragments :
  wellRecorded fragments →
  wellRecorded (fold_left (addTypeFragment opKey) entries fragments).
Proof.
revert fragments. induction entries as [|entry entries IH]; intros fragments H;
  simpl; [done |].
by apply IH, addTypeFragment_wellRecorded.
Qed.

Lemma handleOperation_wellRecorded schema st op :
  wellRecorded (typeFragments st) →
  wellRecorded (typeFragments (handleOperation schema st op).1).
Proof.
intros H. unfold handleOperation. destruct (kind op); simpl; try done.
unfold handleQuery. destruct (firstTime st (key op)); simpl; [| done].
by apply fold_addTypeFragment_wellRecorded.
Qed.

Lemma stateAfter_snoc schema ops op st :
  stateAfter schema (ops ++ [op]) st
  = (handleOperation schema (stateAfter schema ops st) op).1.
Proof. unfold stateAfter. by rewrite fold_left_app. Qed.

Lemma stateAfter_app schema ops ops' st :
  stateAfter schema (ops ++ ops') st
  = stateAfter schema ops' (stateAfter schema ops st).
Proof. unfold stateAfter. by rewrite fold_left_app. Qed.

Lemma stateAfter_wellRecorded schema ops st :
  wellRecorded (typeFragments st) →
  wellRecorded (typeFragments (stateAfter schema ops st)).
Proof.
intros H. induction ops as [|op ops IH] using rev_ind; [done |].
rewrite stateAfter_snoc. by apply handleOperation_wellRecorded.
Qed.

(** Two recorded fragments of the same name are the same fragment. *)
Lemma wellRecorded_name_inj fragments typename typename' f g :
  wellRecorded fragments →
  f ∈ default [] (fragments !! typename) →
  g ∈ default [] (fragments !! typename') →
  fragmentName (fragmentNode f) = fragmentName (fragmentNode g) →
  typename = typename' ∧ f = g.
Proof.
intros Hwell Hf Hg Hname.
destruct (fragments !! typename) as [fs|] eqn:Hfs; [| by inversion Hf].
destruct (fragments !! typename') as [gs|] eqn:Hgs; [| by inversion Hg].
simpl in Hf, Hg.
destruct (Hwell _ _ Hfs) as (Hall & Hnodup & _).
destruct (Hwell _ _ Hgs) as (Hall' & _ & _).
rewrite Forall_forall in Hall, Hall'.
destruct (Hall f Hf) as (_ & n & _ & Hn).
destruct (Hall' g Hg) as (_ & n' & _ & Hn').
rewrite Hn, Hn' in Hname. apply populateFragmentName_inj in Hname as [<- <-].
split; [done |]. rewrite Hfs in Hgs. injection Hgs as <-.
apply list_elem_of_lookup in Hf as [i Hi]. apply list_elem_of_lookup in Hg as [j Hj].
assert (i = j) as <-.
{ eapply NoDup_lookup; [exact Hnodup | |].
  - rewrite list_lookup_fmap, Hi. reflexivity.
  - rewrite list_lookup_fmap, Hj. simpl. by rewrite Hn, Hn'. }
congruence.
Qed.

(** A recorded fragment stays recorded. *)
Lemma addTypeFragment_keeps opKey fragments entry typename f :
  f ∈ default [] (fragments !! typename) →
  f ∈ default [] (addTypeFragment opKey fragments entry !! typename).
Proof.
intros Hf. unfold addTypeFragment.
destruct (decide (entry.1 = typename)) as [<- | Hne].
- rewrite lookup_insert_eq. simpl. apply insertByKey_elem_of. by right.
- by rewrite lookup_insert_ne.
Qed.

Lemma fold_addTypeFragment_keeps opKey entries fragments typename f :
  f ∈ default [] (fragments !! typename) →
  f ∈ default [] (fold_left (addTypeFragment opKey) entries fragments !! typename).
Proof.
revert fragments. induction entries as [|entry entries IH]; intros fragments H;
  simpl; [done |].
by apply IH, addTypeFragment_keeps.
Qed.

Lemma handleOperation_keeps schema st op typename f :
  f ∈ fragmentsOfType st typename →
  f ∈ fragmentsOfType (handleOperation schema st op).1 typename.
Proof.
intros Hf. unfold handleOperation, fragmentsOfType in *.
destruct (kind op); simpl; try done.
unfold handleQuery. destruct (firstTime st (key op)); simpl; [| done].
by apply fold_addTypeFragment_keeps.
Qed.

Lemma stateAfter_keeps schema ops st typename f :
  f ∈ fragmentsOfType st typename →
  f ∈ fragmentsOfType (stateAfter schema ops st) typename.
Proof.
intros Hf. induction ops as [|op ops IH] using rev_ind; [done |].
rewrite stateAfter_snoc. by apply handleOperation_keeps.
Qed.

(** A key from which a recorded fragment originates is not observed for
    the first time. *)
Lemma firstTime_false st typename f :
  f ∈ fragmentsOfType st typename → firstTime st (fragmentKey f) = false.
Proof.
intros Hf. unfold firstTime. apply bool_decide_eq_false_2. intros Hall.
unfold fragmentsOfType in Hf.
destruct (typeFragments st !! typename) as [fs|] eqn:Hfs; [| by inversion Hf].
specialize (Hall _ _ Hfs). simpl in Hall, Hf.
rewrite Forall_forall in Hall. by apply (Hall f Hf).
Qed.

(** The key of a query that has been torn down and from which a
    fragment originates does not become live again. *)
Lemma handleOperation_torn_down schema st op typename f :
  f ∈ fragmentsOfType st typename →
  fragmentKey f ∉ dom (activeQueries st) →
  fragmentKey f ∉ dom (activeQueries (handleOperation schema st op).1).
Proof.
intros Hf Hdead. unfold handleOperation. destruct (kind op) eqn:Hkind; simpl;
  try done.
- unfold handleQuery. destruct (firstTime st (key op)) eqn:Hfirst; [| done].
  simpl. rewrite dom_insert. apply not_elem_of_union. split; [| done].
  apply not_elem_of_singleton. intros Heq.
  rewrite <- Heq in Hfirst. by rewrite (firstTime_false _ _ _ Hf) in Hfirst.
- rewrite dom_delete. intros Hin. apply elem_of_difference in Hin as [Hin _].
  by apply Hdead.
Qed.

Lemma stateAfter_torn_down schema ops st typename f :
  f ∈ fragmentsOfType st typename →
  fragmentKey f ∉ dom (activeQueries st) →
  fragmentKey f ∉ dom (activeQueries (stateAfter schema ops st)).
Proof.
intros Hf Hdead. induction ops as [|op ops IH] using rev_ind; [done |].
rewrite stateAfter_snoc. eapply handleOperation_torn_down; [| exact IH].
by apply stateAfter_keeps.
Qed.

(** ** The rewrite of a selection *)

Lemma SelectionNode_nested_ind (P : SelectionNode → Prop) :
  (∀ alias name args ds, P (FieldNode alias name args ds None)) →
  (∀ alias name args ds select,
     Forall P select → P (FieldNode alias name args ds (Some select))) →
  (∀ name ds, P (FragmentSpreadNode name ds)) →
  (∀ tc ds select, Forall P select → P (InlineFragmentNode tc ds select)) →
  ∀ node, P node.
Proof.
  intros HLeaf HField HSpread HInline. fix IH 1.
  assert (∀ select, Forall P select) as Hall.
  { induction select as [|n select IHs]; constructor; [apply IH | apply IHs]. }
  intros [alias name args ds [select|] | name ds | tc ds select].
  - apply HField, Hall.
  - apply HLeaf.
  - apply HSpread.
  - apply HInline, Hall.
Qed.

Lemma elem_of_flat_map {A B : Type} (f : A → list B) (l : list A) (y : B) :
  y ∈ flat_map f l ↔ ∃ x, x ∈ l ∧ y ∈ f x.
Proof.
  rewrite list_elem_of_In, in_flat_map. split.
  - intros (x & Hx & Hy). exists x. by rewrite !list_elem_of_In.
  - intros (x & Hx & Hy). exists x. by rewrite <- !list_elem_of_In.
Qed.


Lemma applicableFragments_contributes schema st returnType f :
  f ∈ applicableFragments schema st returnType ↔ contributes schema st returnType f.
Proof.
unfold applicableFragments, contributes. destruct returnType as [type|].
- rewrite elem_of_flat_map. split.
  + intros (typename & Htn & Hf). unfold activeFragments in Hf.
    apply list_elem_of_filter in Hf as [Hlive Hf]. by exists type, typename.
  + intros (type' & typename & [= <-] & Htn & Hf & Hlive).
    exists typename. split; [done |]. unfold activeFragments.
    by apply list_elem_of_filter.
- split; [by inversion 1 |]. by intros (type & typename & [=] & _).
Qed.

(** The rewrite of a field annotated [@populate]. *)
Lemma rewriteNode_populated schema st parentType alias name args ds select :
  hasPopulate ds = true →
  rewriteNode schema st parentType (FieldNode alias name args ds select)
  = let returnType := fieldType schema parentType name in
    let children :=
      match select with
      | Some select =>
          map (rewriteNode schema st (default EmptyString returnType)) select
      | None => []
      end in
    match applicableFragments schema st returnType with
    | [] =>
        (FieldNode alias name args (withoutPopulate ds) (Some [typenameField]),
         [])
    | applicable =>
        (FieldNode alias name args (withoutPopulate ds)
           (Some (map spreadOf applicable ++ map fst children)),
         applicable ++ flat_map snd children)
    end.
Proof. intros H. simpl. by rewrite H. Qed.

(** Every synthesized fragment that a rewritten node refers to
    contributes to some field. *)
Lemma rewriteNode_contributes schema st node :
  ∀ parentType f,
    f ∈ (rewriteNode schema st parentType node).2 →
    ∃ returnType, contributes schema st returnType f.
Proof.
induction node as [alias name args ds | alias name args ds select IH
                  | name ds | tc ds select IH]
  using SelectionNode_nested_ind; intros parentType f Hf.
- destruct (hasPopulate ds) eqn:Hpop; [| simpl in Hf; rewrite Hpop in Hf;
                                         by inversion Hf].
  rewrite rewriteNode_populated in Hf by done. simpl in Hf.
  destruct (applicableFragments _ _ _) as [|f0 fs] eqn:Happ; [by inversion Hf |].
  simpl in Hf. rewrite app_nil_r, <- Happ in Hf.
  eexists. by apply applicableFragments_contributes.
- assert (∀ parent,
            f ∈ flat_map snd (map (rewriteNode schema st parent) select) →
            ∃ returnType, contributes schema st returnType f) as Hchildren.
  { intros parent H. apply elem_of_flat_map in H as (r & Hr & Hin).
    apply list_elem_of_fmap in Hr as (n & -> & Hn).
    rewrite Forall_forall in IH. by eapply IH. }
  destruct (hasPopulate ds) eqn:Hpop;
    [| simpl in Hf; rewrite Hpop in Hf; by eapply Hchildren].
  rewrite rewriteNode_populated in Hf by done. simpl in Hf.
  destruct (applicableFragments _ _ _) as [|f0 fs] eqn:Happ; [by inversion Hf |].
  simpl in Hf.
  match type of Hf with
  | f ∈ _ :: _ ++ ?rest => change (f ∈ (f0 :: fs) ++ rest) in Hf
  end.
  rewrite <- Happ in Hf. apply elem_of_app in Hf as [Hf | Hf].
  + eexists. by apply applicableFragments_contributes.
  + by eapply Hchildren.
- inversion Hf.
- simpl in Hf. apply elem_of_flat_map in Hf as (r & Hr & Hin).
  apply list_elem_of_fmap in Hr as (n & -> & Hn).
  rewrite Forall_forall in IH. by eapply IH.
Qed.

Lemma rewriteDefinition_contributes schema st def f :
  f ∈ (rewriteDefinition schema st def).2 →
  ∃ returnType, contributes schema st returnType f.
Proof.
intros H. destruct def as [op | fd]; simpl in H;
  apply elem_of_flat_map in H as (r & Hr & Hin);
  apply list_elem_of_fmap in Hr as (n & -> & Hn);
  by eapply rewriteNode_contributes.
Qed.

Lemma referencedFragments_contributes schema st doc f :
  f ∈ referencedFragments schema st doc →
  ∃ returnType, contributes schema st returnType f.
Proof.
unfold referencedFragments. intros H.
apply elem_of_flat_map in H as (def & _ & H).
by eapply rewriteDefinition_contributes.
Qed.

(** The fragments that a rewritten node spreads are those that the node
    spreads and the synthesized fragments that the rewrite refers to. *)
Lemma rewriteNode_spreads schema st node :
  ∀ parentType name,
    name ∈ spreadNames (rewriteNode schema st parentType node).1 →
    name ∈ spreadNames node
    ∨ ∃ f, f ∈ (rewriteNode schema st parentType node).2
           ∧ name = fragmentName (fragmentNode f).
Proof.
induction node as [alias fname args ds | alias fname args ds select IH
                  | sname ds | tc ds select IH]
  using SelectionNode_nested_ind; intros parentType name Hname.
- destruct (hasPopulate ds) eqn:Hpop;
    [| simpl in Hname; rewrite Hpop in Hname; by inversion Hname].
  rewrite rewriteNode_populated in Hname |- * by done. simpl in Hname |- *.
  destruct (applicableFragments _ _ _) as [|f0 fs] eqn:Happ;
    [by inversion Hname |].
  right. cbn [fst spreadNames] in Hname.
  rewrite app_nil_r in Hname.
  apply elem_of_flat_map in Hname as (n & Hn & Hname).
  change (n ∈ map spreadOf (f0 :: fs)) in Hn.
  apply list_elem_of_fmap in Hn as (f & -> & Hf).
  simpl in Hname. apply list_elem_of_singleton in Hname.
  exists f. split; [| done]. cbn [snd]. by rewrite app_nil_r.
- assert (∀ parent,
            name ∈ flat_map spreadNames
                     (map fst (map (rewriteNode schema st parent) select)) →
            name ∈ flat_map spreadNames select
            ∨ ∃ f, f ∈ flat_map snd (map (rewriteNode schema st parent) select)
                   ∧ name = fragmentName (fragmentNode f)) as Hchildren.
  { intros parent H. apply elem_of_flat_map in H as (n' & Hn' & Hin).
    apply list_elem_of_fmap in Hn' as (r & -> & Hr).
    apply list_elem_of_fmap in Hr as (n & -> & Hn).
    rewrite Forall_forall in IH.
    destruct (IH n Hn parent name Hin) as [Horig | (f & Hf & ->)].
    - left. apply elem_of_flat_map. by exists n.
    - right. exists f. split; [| done]. apply elem_of_flat_map.
      eexists. split; [| exact Hf]. apply list_elem_of_fmap. by exists n. }
  destruct (hasPopulate ds) eqn:Hpop; cycle 1.
  { simpl in Hname |- *. rewrite Hpop in Hname |- *. simpl in Hname |- *.
    by apply Hchildren. }
  rewrite rewriteNode_populated in Hname |- * by done. simpl in Hname |- *.
  destruct (applicableFragments _ _ _) as [|f0 fs] eqn:Happ;
    [by inversion Hname |].
  cbn [fst snd spreadNames] in Hname |- *.
  change (name ∈ flat_map spreadNames
                   (map spreadOf (f0 :: fs)
                    ++ map fst
                         (map (rewriteNode schema st
                                 (default EmptyString
                                    (fieldType schema parentType fname)))
                            select))) in Hname.
  rewrite flat_map_app in Hname. apply elem_of_app in Hname as [Hname | Hname].
  + right. apply elem_of_flat_map in Hname as (n & Hn & Hname).
    apply list_elem_of_fmap in Hn as (f & -> & Hf).
    simpl in Hname. apply list_elem_of_singleton in Hname.
    exists f. split; [| done]. rewrite app_comm_cons. apply elem_of_app.
    by left.
  + destruct (Hchildren _ Hname) as [Horig | (f & Hf & ->)]; [by left |].
    right. exists f. split; [| done]. rewrite app_comm_cons.
    apply elem_of_app. by right.
- simpl in Hname. by left.
- simpl in Hname |- *. apply elem_of_flat_map in Hname as (n' & Hn' & Hin).
  apply list_elem_of_fmap in Hn' as (r & -> & Hr).
  apply list_elem_of_fmap in Hr as (n & -> & Hn).
  rewrite Forall_forall in IH.
  destruct (IH n Hn _ name Hin) as [Horig | (f & Hf & ->)].
  + left. apply elem_of_flat_map. by exists n.
  + right. exists f. split; [| done]. apply elem_of_flat_map.
    eexists. split; [| exact Hf]. apply list_elem_of_fmap. by exists n.
Qed.

(** The rewrite keeps the place of a node above which no field is
    annotated [@populate]. *)
Lemma locate_rewrite schema st path :
  ∀ parentType node parentType' sub,
    locate schema parentType path node = Some (parentType', sub) →
    childAt path (rewriteNode schema st parentType node).1
    = Some (rewriteNode schema st parentType' sub).1.
Proof.
induction path as [|i path IH]; intros parentType node parentType' sub H.
- simpl in H. by injection H as -> ->.
- destruct node as [alias name args ds [select|] | sname ds | tc ds select];
    simpl in H; try done.
  + destruct (hasPopulate ds) eqn:Hpop; [done |].
    destruct (select !! i) as [child|] eqn:Hchild; [| done].
    simpl. rewrite Hpop. simpl.
    rewrite !list_lookup_fmap, Hchild. simpl. by apply IH.
  + destruct (select !! i) as [child|] eqn:Hchild; [| done].
    simpl. rewrite !list_lookup_fmap, Hchild. simpl. by apply IH.
Qed.

(** ** The forwarded document *)

Lemma dedupByName_subseteq seen fs d : d ∈ dedupByName seen fs → d ∈ fs.
Proof.
revert seen. induction fs as [|f fs IH]; intros seen H; simpl in H; [done |].
case_bool_decide.
- right. by eapply IH.
- apply elem_of_cons in H as [-> | H]; [by left |]. right. by eapply IH.
Qed.

Lemma referencedUserFragments_collected fuel user names d :
  d ∈ referencedUserFragments fuel user names → ∃ name, user !! name = Some d.
Proof.
revert names. induction fuel as [|fuel IH]; intros names H; simpl in H;
  [by inversion H |].
apply elem_of_flat_map in H as (name & _ & H).
destruct (user !! name) as [f|] eqn:Hname; [| by inversion H].
apply elem_of_cons in H as [-> | H]; [by exists name |]. by eapply IH.
Qed.

Lemma rewriteDefinition_names schema st doc :
  definedFragmentNames (map (λ def, (rewriteDefinition schema st def).1) doc)
  = definedFragmentNames doc.
Proof.
unfold definedFragmentNames. induction doc as [|def doc IH]; [done |].
simpl. rewrite IH. by destruct def.
Qed.

Lemma definedFragmentNames_app doc doc' :
  definedFragmentNames (doc ++ doc')
  = definedFragmentNames doc ++ definedFragmentNames doc'.
Proof. unfold definedFragmentNames. apply flat_map_app. Qed.

Lemma definedFragmentNames_fragments fs :
  definedFragmentNames (map FragmentDefinition fs) = map fragmentName fs.
Proof.
unfold definedFragmentNames. induction fs as [|f fs IH]; [done |].
simpl. by rewrite IH.
Qed.

(** The forwarded document: the rewritten definitions, the synthesized
    fragments that they refer to, and the user fragments that those
    require. *)
Lemma addFragmentsToQuery_parts schema st doc :
  addFragmentsToQuery schema st doc
  = map (λ def, (rewriteDefinition schema st def).1) doc
    ++ map FragmentDefinition (appendedFragments schema st doc)
    ++ map FragmentDefinition (requiredFragments schema st doc).
Proof. reflexivity. Qed.

Lemma addFragmentsToQuery_rewritten schema st doc :
  take (length doc) (addFragmentsToQuery schema st doc)
  = map (λ def, (rewriteDefinition schema st def).1) doc.
Proof.
rewrite addFragmentsToQuery_parts. apply take_app_length'.
by rewrite length_map.
Qed.

Lemma addFragmentsToQuery_lookup schema st doc j def :
  doc !! j = Some def →
  addFragmentsToQuery schema st doc !! j
  = Some (rewriteDefinition schema st def).1.
Proof.
intros H. rewrite addFragmentsToQuery_parts. unfold DocumentNode in *.
apply lookup_app_l_Some. by rewrite list_lookup_fmap, H.
Qed.

(** The place of a field above which no field is annotated [@populate]
    is kept in the forwarded document. *)
Lemma addFragmentsToQuery_locate schema st doc j op i top path parentType sub :
  doc !! j = Some (OperationDefinition op) →
  operationSelectionSet op !! i = Some top →
  locate schema (rootType schema (operation op)) path top
    = Some (parentType, sub) →
  ∃ op' top',
    addFragmentsToQuery schema st doc !! j = Some (OperationDefinition op')
    ∧ operationSelectionSet op' !! i = Some top'
    ∧ childAt path top' = Some (rewriteNode schema st parentType sub).1.
Proof.
intros Hdef Htop Hlocate.
pose proof (addFragmentsToQuery_lookup schema st doc j _ Hdef) as Hj.
simpl in Hj. eexists _, _. split; [exact Hj |].
simpl. split.
- unfold SelectionSet in *. rewrite !list_lookup_fmap, Htop. reflexivity.
- by apply locate_rewrite.
Qed.

Lemma rewriteDefinition_spreads schema st def name :
  name ∈ flat_map spreadNames
           (definitionSelectionSet (rewriteDefinition schema st def).1) →
  name ∈ flat_map spreadNames (definitionSelectionSet def)
  ∨ ∃ f, f ∈ (rewriteDefinition schema st def).2
         ∧ name = fragmentName (fragmentNode f).
Proof.
assert (∀ parent select,
          name ∈ flat_map spreadNames
                   (map fst (map (rewriteNode schema st parent) select)) →
          name ∈ flat_map spreadNames select
          ∨ ∃ f, f ∈ flat_map snd (map (rewriteNode schema st parent) select)
                 ∧ name = fragmentName (fragmentNode f)) as Hchildren.
{ intros parent select H. apply elem_of_flat_map in H as (n' & Hn' & Hin).
  apply list_elem_of_fmap in Hn' as (r & -> & Hr).
  apply list_elem_of_fmap in Hr as (n & -> & Hn).
  destruct (rewriteNode_spreads schema st n parent name Hin)
    as [Horig | (f & Hf & ->)].
  - left. apply elem_of_flat_map. by exists n.
  - right. exists f. split; [| done]. apply elem_of_flat_map.
    eexists. split; [| exact Hf]. apply list_elem_of_fmap. by exists n. }
destruct def as [op | fd]; simpl; apply Hchildren.
Qed.

Lemma documentSpreads_rewritten schema st doc name :
  name ∈ documentSpreads (map (λ def, (rewriteDefinition schema st def).1) doc) →
  name ∈ documentSpreads doc
  ∨ ∃ f, f ∈ referencedFragments schema st doc
         ∧ name = fragmentName (fragmentNode f).
Proof.
unfold documentSpreads, referencedFragments. intros H.
apply elem_of_flat_map in H as (def' & Hdef' & H).
apply list_elem_of_fmap in Hdef' as (def & -> & Hdef).
apply rewriteDefinition_spreads in H as [H | (f & Hf & ->)].
- left. apply elem_of_flat_map. by exists def.
- right. exists f. split; [| done]. apply elem_of_flat_map. by exists def.
Qed.

(** A fragment of a query that has been torn down contributes to no
    field, and no fragment that does has its name. *)
Lemma torn_down_not_contributing schema before teardown later typename f :
  kind teardown = KTeardown →
  f ∈ fragmentsOfType (stateAfter schema before initialState) typename →
  fragmentKey f = key teardown →
  let st := stateAfter schema (before ++ teardown :: later) initialState in
  ∀ returnType g,
    contributes schema st returnType g →
    fragmentName (fragmentNode g) ≠ fragmentName (fragmentNode f).
Proof.
intros Hkind Hf Hkey st returnType g (type & tn & _ & _ & Hg & Hlive) Hname.
assert (f ∈ fragmentsOfType st typename) as Hf'.
{ subst st. rewrite stateAfter_app. by apply stateAfter_keeps. }
assert (fragmentKey f ∉ dom (activeQueries st)) as Hdead.
{ subst st. rewrite stateAfter_app.
  change (stateAfter schema (teardown :: later) ?s)
    with (stateAfter schema later (handleOperation schema s teardown).1).
  eapply stateAfter_torn_down.
  - apply handleOperation_keeps, Hf.
  - unfold handleOperation. rewrite Hkind. simpl. rewrite dom_delete, Hkey.
    intros Hin. apply elem_of_difference in Hin as [_ Hin].
    apply Hin. by apply elem_of_singleton. }
assert (wellRecorded (typeFragments st)) as Hwell.
{ apply stateAfter_wellRecorded, wellRecorded_empty. }
destruct (wellRecorded_name_inj _ _ _ _ _ Hwell Hg Hf' Hname) as [_ ->].
done.
Qed.

(** C6.  After a teardown that shares the key of a query, no synthesized
    fragment that originates from that query appears in a mutation that
    is rewritten afterwards: the rewrite does not refer to it, its
    definition is not among the appended ones, the rewritten definitions
    spread its name only where the mutation itself does, and the
    forwarded document defines its name only when the mutation or a user
    fragment does.  And a field annotated [@populate] to which no
    fragment of a live query contributes stands in the forwarded document
    at its place, without the directive and with the selection set
    [{ __typename }]. *)
Theorem populate_teardown_and_empty (schema : Schema)
  (history : list Operation) (mutation : DocumentNode) :
  let st := stateAfter schema history initialState in
  let forwarded := populated schema history mutation in
  (∀ before teardown later typename f,
     history = before ++ teardown :: later →
     kind teardown = KTeardown →
     f ∈ fragmentsOfType (stateAfter schema before initialState) typename →
     fragmentKey f = key teardown →
     (f ∉ referencedFragments schema st mutation)
     ∧ (fragmentNode f ∉ appendedFragments schema st mutation)
     ∧ (fragmentName (fragmentNode f)
        ∈ documentSpreads (take (length mutation) forwarded) →
        fragmentName (fragmentNode f) ∈ documentSpreads mutation)
     ∧ (fragmentName (fragmentNode f) ∈ definedFragmentNames forwarded →
        fragmentName (fragmentNode f) ∈ definedFragmentNames mutation
        ∨ ∃ name d,
            userFragments st !! name = Some d
            ∧ fragmentName d = fragmentName (fragmentNode f)))
  ∧ (∀ j op i top path parentType alias name args ds select,
       mutation !! j = Some (OperationDefinition op) →
       operationSelectionSet op !! i = Some top →
       locate schema (rootType schema (operation op)) path top
       = Some (parentType, FieldNode alias name args ds select) →
       hasPopulate ds = true →
       (∀ f, ¬ contributes schema st (fieldType schema parentType name) f) →
       ∃ op' top',
         forwarded !! j = Some (OperationDefinition op')
         ∧ operationSelectionSet op' !! i = Some top'
         ∧ childAt path top'
           = Some (FieldNode alias name args (withoutPopulate ds)
                     (Some [typenameField]))).
Proof.
intros st forwarded. split.
- intros before teardown later typename f -> Hkind Hf Hkey.
  pose proof (torn_down_not_contributing schema before teardown later typename
                f Hkind Hf Hkey) as Hdead.
  simpl in Hdead. fold st in Hdead.
  assert (∀ g, g ∈ referencedFragments schema st mutation →
               fragmentName (fragmentNode g) ≠ fragmentName (fragmentNode f))
    as Hreferenced.
  { intros g Hg. apply referencedFragments_contributes in Hg as [rt Hg].
    by eapply Hdead. }
  assert (∀ d, d ∈ appendedFragments schema st mutation →
               fragmentName d ≠ fragmentName (fragmentNode f)) as Happended.
  { intros d Hd. unfold appendedFragments in Hd.
    apply dedupByName_subseteq in Hd.
    apply list_elem_of_fmap in Hd as (g & -> & Hg). by apply Hreferenced. }
  split_and!.
  + intros Hin. by apply (Hreferenced f Hin).
  + intros Hin. by apply (Happended _ Hin).
  + subst forwarded. unfold populated.
    rewrite addFragmentsToQuery_rewritten. intros Hin.
    apply documentSpreads_rewritten in Hin as [Hin | (g & Hg & Hname)];
      [done |].
    by destruct (Hreferenced g Hg).
  + subst forwarded. unfold populated. rewrite addFragmentsToQuery_parts.
    rewrite !definedFragmentNames_app, rewriteDefinition_names,
      !definedFragmentNames_fragments.
    intros Hin. apply elem_of_app in Hin as [Hin | Hin]; [by left |].
    apply elem_of_app in Hin as [Hin | Hin].
    * apply list_elem_of_fmap in Hin as (d & Hname & Hd).
      by destruct (Happended d Hd).
    * right. apply list_elem_of_fmap in Hin as (d & Hname & Hd).
      unfold requiredFragments in Hd. apply dedupByName_subseteq in Hd.
      apply referencedUserFragments_collected in Hd as [name Hd].
      by exists name, d.
- intros j op i top path parentType alias name args ds select
    Hdef Htop Hlocate Hpop Hnone.
  destruct (addFragmentsToQuery_locate schema st mutation j op i top path
              parentType _ Hdef Htop Hlocate) as (op' & top' & Hj & Hi & Hat).
  exists op', top'. split_and!; [exact Hj | exact Hi |].
  rewrite Hat. f_equal. rewrite rewriteNode_populated by done. simpl.
  destruct (applicableFragments _ _ _) as [|f fs] eqn:Happ; [done |].
  destruct (Hnone f). apply applicableFragments_contributes.
  rewrite Happ. by left.
Qed.

Lemma populate_teardown_and_empty_witness :
  let history := [queryOp 1234 simpleQuery []; teardownOp 1234] in
  let mutation := mutationDocument "addTodo" None [] in
  let st := stateAfter testSchema history initialState in
  let forwarded := populated testSchema history mutation in
  let f :=
    mkTypeFragment 1234
      (mkFragment "Todo_PopulateFragment_0" "Todo" []
         [scalarField "id"; scalarField "text"]) in
  (f ∈ fragmentsOfType
         (stateAfter testSchema [queryOp 1234 simpleQuery []] initialState)
         "Todo"
   ∧ (f ∉ referencedFragments testSchema st mutation)
   ∧ (fragmentNode f ∉ appendedFragments testSchema st mutation)
   ∧ ("Todo_PopulateFragment_0"
      ∈ documentSpreads (take (length mutation) forwarded) →
      "Todo_PopulateFragment_0" ∈ documentSpreads mutation)
   ∧ ("Todo_PopulateFragment_0" ∈ definedFragmentNames forwarded →
      "Todo_PopulateFragment_0" ∈ definedFragmentNames mutation
      ∨ ∃ name d,
          userFragments st !! name = Some d
          ∧ fragmentName d = "Todo_PopulateFragment_0"))
  ∧ ∃ op' top',
      forwarded !! 0%nat = Some (OperationDefinition op')
      ∧ operationSelectionSet op' !! 0%nat = Some top'
      ∧ childAt [] top'
        = Some (FieldNode None "addTodo" [] [] (Some [typenameField])).
Proof.
intros history mutation st forwarded f.
destruct (populate_teardown_and_empty testSchema history mutation)
  as [Hteardown Hempty].
assert (f ∈ fragmentsOfType
              (stateAfter testSchema [queryOp 1234 simpleQuery []] initialState)
              "Todo") as Hf.
{ vm_compute. left. }
split.
- split; [exact Hf |].
  exact (Hteardown [queryOp 1234 simpleQuery []] (teardownOp 1234) [] "Todo" f
           eq_refl eq_refl Hf eq_refl).
- apply (Hempty 0%nat (mkOperation OpMutation (Some "MyMutation") []
                         [FieldNode None "addTodo" [] [populateDirective] None])
           0%nat _ [] "Mutation" None "addTodo" [] [populateDirective] None
           eq_refl eq_refl eq_refl eq_refl).
  intros g (type & typename & _ & _ & _ & Hlive).
  assert (dom (activeQueries (stateAfter testSchema history initialState)) = ∅)
    as Hdom by (vm_compute; reflexivity).
  rewrite Hdom in Hlive. by apply elem_of_empty in Hlive.
Defined.

(** ** The order of the synthesized fragments *)

Lemma indexOf_app typename pre typenames :
  typename ∉ pre →
  indexOf typename (pre ++ typenames)
  = (length pre + indexOf typename typenames)%nat.
Proof.
induction pre as [|t pre IH]; intros Hnot; simpl; [done |].
apply not_elem_of_cons in Hnot as [Hne Hnot].
destruct (String.eqb_spec t typename) as [-> | _]; [done |].
by rewrite IH.
Qed.

Lemma indexOf_here typename typenames : indexOf typename (typename :: typenames) = O.
Proof. simpl. by rewrite String.eqb_refl. Qed.

Lemma indexOf_later typename t typenames :
  t ≠ typename →
  indexOf typename (t :: typenames) = S (indexOf typename typenames).
Proof. intros Hne. simpl. by destruct (String.eqb_spec t typename). Qed.

Lemma Forall_filter_keeps {A : Type} (Q P : A → Prop)
  `{∀ x, Decision (P x)} (l : list A) :
  Forall Q l → Forall Q (filter P l).
Proof.
rewrite !Forall_forall. intros Hall x Hx.
apply list_elem_of_filter in Hx as [_ Hx]. by apply Hall.
Qed.

Lemma StronglySorted_filter {A : Type} (R : relation A) (P : A → Prop)
  `{∀ x, Decision (P x)} (l : list A) :
  StronglySorted R l → StronglySorted R (filter P l).
Proof.
induction 1 as [|x l Hsorted IH Hall]; [constructor |].
rewrite filter_cons. case_decide; [| done].
constructor; [done |]. by apply Forall_filter_keeps.
Qed.

Lemma StronglySorted_impl_on {A : Type} (R R' : relation A) (P : A → Prop)
  (l : list A) :
  (∀ x y, P x → P y → R x y → R' x y) →
  Forall P l → StronglySorted R l → StronglySorted R' l.
Proof.
intros Himpl Hall. induction 1 as [|x l Hsorted IH Hrel]; [constructor |].
apply Forall_cons in Hall as [Hx Hall].
constructor; [by apply IH |].
rewrite Forall_forall in Hall, Hrel |- *.
intros y Hy. apply Himpl; [done | by apply Hall | by apply Hrel].
Qed.

Lemma NoDup_fmap_filter {A B : Type} (g : A → B) (P : A → Prop)
  `{∀ x, Decision (P x)} (l : list A) :
  NoDup (map g l) → NoDup (map g (filter P l)).
Proof.
induction l as [|x l IH]; intros Hnodup; [constructor |].
simpl in Hnodup. apply NoDup_cons in Hnodup as [Hx Hnodup].
rewrite filter_cons. case_decide; [| by apply IH].
simpl. apply NoDup_cons. split; [| by apply IH].
intros Hin. apply Hx. apply list_elem_of_fmap in Hin as (y & -> & Hy).
apply list_elem_of_fmap. exists y. split; [done |].
by apply list_elem_of_filter in Hy as [_ Hy].
Qed.

(** The live fragments of a type are fragments on that type, they have
    pairwise distinct names and they are ordered by key. *)
Lemma activeFragments_wellRecorded st typename :
  wellRecorded (typeFragments st) →
  Forall (λ f, fragmentTypeCondition (fragmentNode f) = typename)
    (activeFragments st typename)
  ∧ NoDup (map (λ f, fragmentName (fragmentNode f)) (activeFragments st typename))
  ∧ StronglySorted (λ f g, fragmentKey f ≤ fragmentKey g)
      (activeFragments st typename).
Proof.
intros Hwell. unfold activeFragments, fragmentsOfType.
destruct (typeFragments st !! typename) as [fs|] eqn:Hfs; cycle 1.
{ simpl. split_and!; constructor. }
destruct (Hwell _ _ Hfs) as (Hall & Hnodup & Hsorted). simpl. split_and!.
- apply Forall_filter_keeps. eapply Forall_impl; [exact Hall |]. by intros f [? _].
- by apply NoDup_fmap_filter.
- by apply StronglySorted_filter.
Qed.

Lemma activeFragments_recorded st typename f :
  f ∈ activeFragments st typename → f ∈ fragmentsOfType st typename.
Proof.
unfold activeFragments. intros H. by apply list_elem_of_filter in H as [_ H].
Qed.

(** The fragments that apply to a field are ordered by the position of
    their typename in the expansion of the return type of the field, then
    by key. *)
Lemma applicableFragments_sorted schema st type :
  wellRecorded (typeFragments st) →
  NoDup (concreteTypes schema type) →
  StronglySorted (fragmentOrder schema type)
    (applicableFragments schema st (Some type)).
Proof.
intros Hwell Hnodup. unfold applicableFragments.
assert (∀ suf pre,
          concreteTypes schema type = pre ++ suf →
          StronglySorted (fragmentOrder schema type)
            (flat_map (activeFragments st) suf)) as Hgen.
{ induction suf as [|t suf IH]; intros pre Htypes; [constructor |].
  simpl. rewrite Htypes in Hnodup.
  apply NoDup_app in Hnodup as (_ & Hdisjoint & Hsuf).
  apply NoDup_cons in Hsuf as [Ht _].
  assert (t ∉ pre) as Hpre.
  { intros Hin. apply (Hdisjoint t Hin). by left. }
  destruct (activeFragments_wellRecorded st t Hwell) as (Htype & _ & Hsorted).
  assert (∀ f, f ∈ activeFragments st t →
               indexOf (fragmentTypeCondition (fragmentNode f))
                 (concreteTypes schema type) = length pre) as Hposition.
  { intros f Hf. rewrite Forall_forall in Htype. rewrite (Htype f Hf), Htypes.
    rewrite indexOf_app by done. rewrite indexOf_here. lia. }
  apply StronglySorted_app. split; [| split].
  - intros f g Hf Hg. left.
    apply elem_of_flat_map in Hg as (t' & Ht' & Hg).
    destruct (activeFragments_wellRecorded st t' Hwell) as (Htype' & _ & _).
    rewrite Forall_forall in Htype'.
    rewrite (Hposition f Hf), (Htype' g Hg), Htypes.
    assert (t' ∉ pre) as Hpre'.
    { intros Hin. apply (Hdisjoint t' Hin). by right. }
    rewrite indexOf_app by done.
    rewrite indexOf_later; [lia |]. by intros ->.
  - eapply (@StronglySorted_impl_on TypeFragment _ _
              (λ f : TypeFragment, f ∈ activeFragments st t));
      [| by apply Forall_forall | exact Hsorted].
    intros f g Hf Hg Hle. right. unfold fragmentOrder.
    by rewrite (Hposition f Hf), (Hposition g Hg).
  - apply (IH (pre ++ [t])). by rewrite <- app_assoc. }
by apply (Hgen _ []).
Qed.

(** The fragments that apply to a field have pairwise distinct names. *)
Lemma applicableFragments_names schema st returnType :
  wellRecorded (typeFragments st) →
  (∀ type, returnType = Some type → NoDup (concreteTypes schema type)) →
  NoDup (map (λ f, fragmentName (fragmentNode f))
           (applicableFragments schema st returnType)).
Proof.
intros Hwell Hnodup. unfold applicableFragments.
destruct returnType as [type|]; [| constructor].
specialize (Hnodup type eq_refl).
apply NoDup_fmap_2_strong.
- intros f g Hf Hg Hname.
  apply elem_of_flat_map in Hf as (t & _ & Hf).
  apply elem_of_flat_map in Hg as (t' & _ & Hg).
  apply activeFragments_recorded in Hf, Hg.
  by destruct (wellRecorded_name_inj _ _ _ _ _ Hwell Hf Hg Hname).
- induction Hnodup as [|t types Ht _ IH]; [constructor |].
  simpl. apply NoDup_app. split_and!; [| | exact IH].
  + destruct (activeFragments_wellRecorded st t Hwell) as (_ & Hnames & _).
    by apply NoDup_fmap_1 in Hnames.
  + intros f Hf Hin. apply elem_of_flat_map in Hin as (t' & Ht' & Hf').
    destruct (activeFragments_wellRecorded st t Hwell) as (Htype & _ & _).
    destruct (activeFragments_wellRecorded st t' Hwell) as (Htype' & _ & _).
    rewrite Forall_forall in Htype, Htype'.
    apply Ht. rewrite <- (Htype f Hf), (Htype' f Hf'). exact Ht'.
Qed.

Lemma dedupByName_NoDup seen fs :
  NoDup (map fragmentName fs) →
  (∀ f, f ∈ fs → fragmentName f ∉ seen) →
  dedupByName seen fs = fs.
Proof.
revert seen. induction fs as [|f fs IH]; intros seen Hnodup Hseen; [done |].
simpl in Hnodup |- *. apply NoDup_cons in Hnodup as [Hf Hnodup].
rewrite bool_decide_eq_false_2; [| apply Hseen; by left].
f_equal. apply IH; [done |].
intros g Hg Hin. apply elem_of_cons in Hin as [Heq | Hin].
- apply Hf. rewrite <- Heq. apply list_elem_of_fmap. by exists g.
- apply (Hseen g); [by right | done].
Qed.

(** Of several definitions of one name the first is kept. *)
Lemma dedupByName_keeps seen fs f :
  f ∈ fs → fragmentName f ∉ seen →
  ∃ g, g ∈ dedupByName seen fs ∧ fragmentName g = fragmentName f.
Proof.
revert seen. induction fs as [|h fs IH]; intros seen Hf Hseen;
  [by inversion Hf |].
simpl. apply elem_of_cons in Hf as [<- | Hf].
- rewrite bool_decide_eq_false_2 by done. exists f. split; [by left | done].
- case_bool_decide as Hh; [by apply IH |].
  destruct (decide (fragmentName h = fragmentName f)) as [Heq | Hne].
  + exists h. split; [by left | done].
  + destruct (IH (fragmentName h :: seen) Hf) as (g & Hg & Hname).
    { apply not_elem_of_cons. split; [done | exact Hseen]. }
    exists g. split; [by right | done].
Qed.

(** ** Documents with one field annotated [@populate] *)

Lemma sum_list_zero (l : list nat) : sum_list l = O → Forall (λ n, n = O) l.
Proof.
induction l as [|n l IH]; intros H; [constructor |]. simpl in H.
constructor; [lia |]. apply IH. lia.
Qed.

(** In a list whose counts add up to one, the element that counts
    contributes alone. *)
Lemma single_contribution {A B : Type} (count : A → nat) (g : A → list B)
  (l : list A) (i : nat) (x : A) :
  (∀ y, count y = O → g y = []) →
  l !! i = Some x →
  sum_list (map count l) = 1%nat →
  (1 ≤ count x)%nat →
  count x = 1%nat ∧ flat_map g l = g x.
Proof.
intros Hzero Hx Hsum Hcount.
rewrite <- (take_drop_middle l i x Hx) in Hsum |- *.
rewrite map_app, sum_list_with_app in Hsum. simpl in Hsum.
assert (∀ l', sum_list (map count l') = O → flat_map g l' = []) as Hnone.
{ intros l' H. apply sum_list_zero in H.
  induction l' as [|y l' IH]; [done |]. simpl in H |- *.
  apply Forall_cons in H as [Hy H]. by rewrite (Hzero y Hy), IH. }
split; [lia |].
rewrite flat_map_app. simpl.
rewrite (Hnone (take i l)) by lia. rewrite (Hnone (drop (S i) l)) by lia.
by rewrite app_nil_r.
Qed.

Lemma flat_map_snd_map {A B C : Type} (f : A → B * list C) (l : list A) :
  flat_map snd (map f l) = flat_map (λ x, (f x).2) l.
Proof. induction l as [|x l IH]; simpl; [done | by rewrite IH]. Qed.

(** A selection without a field annotated [@populate] refers to no
    synthesized fragment. *)
Lemma countNode_zero schema st node :
  ∀ parentType,
    countNode node = O → (rewriteNode schema st parentType node).2 = [].
Proof.
induction node as [alias name args ds | alias name args ds select IH
                  | name ds | tc ds select IH]
  using SelectionNode_nested_ind; intros parentType Hcount; simpl in Hcount.
- destruct (hasPopulate ds) eqn:Hpop; [lia |]. simpl. by rewrite Hpop.
- destruct (hasPopulate ds) eqn:Hpop; [lia |]. simpl. rewrite Hpop. simpl.
  rewrite flat_map_snd_map. apply sum_list_zero in Hcount.
  induction select as [|n select IHs]; [done |]. simpl in Hcount |- *.
  apply Forall_cons in IH as [Hn IH]. apply Forall_cons in Hcount as [Hc Hcount].
  by rewrite (Hn _ Hc), IHs.
- done.
- simpl. rewrite flat_map_snd_map. apply sum_list_zero in Hcount.
  induction select as [|n select IHs]; [done |]. simpl in Hcount |- *.
  apply Forall_cons in IH as [Hn IH]. apply Forall_cons in Hcount as [Hc Hcount].
  by rewrite (Hn _ Hc), IHs.
Qed.

Lemma sum_list_lookup (count : SelectionNode → nat) (select : list SelectionNode)
  i child :
  select !! i = Some child →
  (count child ≤ sum_list (map count select))%nat.
Proof.
intros H. rewrite <- (take_drop_middle select i child H).
rewrite map_app, sum_list_with_app. simpl. lia.
Qed.

Lemma locate_counted schema path :
  ∀ parentType top parentType' alias name args ds select,
    locate schema parentType path top
    = Some (parentType', FieldNode alias name args ds select) →
    hasPopulate ds = true →
    (1 ≤ countNode top)%nat.
Proof.
induction path as [|i path IH];
  intros parentType top parentType' alias name args ds select H Hpop.
- simpl in H. injection H as _ ->. simpl. rewrite Hpop. lia.
- destruct top as [alias' name' args' ds' [select'|] | sname ds' | tc ds' select'];
    simpl in H; try done.
  + destruct (hasPopulate ds'); [done |].
    destruct (select' !! i) as [child|] eqn:Hchild; [| done].
    specialize (IH _ _ _ _ _ _ _ _ H Hpop).
    pose proof (sum_list_lookup countNode select' i child Hchild).
    simpl. lia.
  + destruct (select' !! i) as [child|] eqn:Hchild; [| done].
    specialize (IH _ _ _ _ _ _ _ _ H Hpop).
    pose proof (sum_list_lookup countNode select' i child Hchild).
    simpl. lia.
Qed.

(** When a selection holds one field annotated [@populate], its rewrite
    refers to the fragments that apply to that field. *)
Lemma locate_single schema st path :
  ∀ parentType top parentType' alias name args ds chosen,
    locate schema parentType path top
    = Some (parentType', FieldNode alias name args ds chosen) →
    hasPopulate ds = true →
    countNode top = 1%nat →
    (rewriteNode schema st parentType top).2
    = applicableFragments schema st (fieldType schema parentType' name).
Proof.
induction path as [|i path IH];
  intros parentType top parentType' alias name args ds chosen H Hpop Hcount.
- simpl in H. injection H as -> ->.
  rewrite rewriteNode_populated by done. simpl in Hcount |- *.
  rewrite Hpop in Hcount.
  assert (flat_map snd
            match chosen with
            | Some select =>
                map (rewriteNode schema st
                       (default EmptyString (fieldType schema parentType' name)))
                  select
            | None => []
            end = []) as ->.
  { destruct chosen as [select|]; [| done].
    rewrite flat_map_snd_map.
    assert (sum_list (map countNode select) = O) as Hzero by lia.
    apply sum_list_zero in Hzero. clear Hcount.
    induction select as [|n select IHs]; [done |]. simpl in Hzero |- *.
    apply Forall_cons in Hzero as [Hn Hzero].
    rewrite (countNode_zero schema st n _ Hn). simpl. by apply IHs. }
  destruct (applicableFragments _ _ _); [done | by rewrite app_nil_r].
- destruct top as [alias' name' args' ds' [select'|] | sname ds' | tc ds' select'];
    simpl in H; try done.
  + destruct (hasPopulate ds') eqn:Hpop'; [done |].
    destruct (select' !! i) as [child|] eqn:Hchild; [| done].
    simpl in Hcount |- *. rewrite Hpop' in Hcount |- *. simpl.
    rewrite flat_map_snd_map.
    destruct (single_contribution countNode
                (λ n, (rewriteNode schema st
                         (default EmptyString (fieldType schema parentType name'))
                         n).2)
                select' i child) as [Hone ->]; try done.
    * intros n Hn. by apply countNode_zero.
    * by eapply locate_counted.
    * by eapply IH.
  + destruct (select' !! i) as [child|] eqn:Hchild; [| done].
    simpl in Hcount |- *. rewrite flat_map_snd_map.
    destruct (single_contribution countNode
                (λ n, (rewriteNode schema st (default parentType tc) n).2)
                select' i child) as [Hone ->]; try done.
    * intros n Hn. by apply countNode_zero.
    * by eapply locate_counted.
    * by eapply IH.
Qed.

Lemma referencedFragments_single schema st doc j op i top path parentType
  alias name args ds select :
  doc !! j = Some (OperationDefinition op) →
  operationSelectionSet op !! i = Some top →
  locate schema (rootType schema (operation op)) path top
  = Some (parentType, FieldNode alias name args ds select) →
  hasPopulate ds = true →
  countPopulate doc = 1%nat →
  referencedFragments schema st doc
  = applicableFragments schema st (fieldType schema parentType name).
Proof.
intros Hdef Htop Hlocate Hpop Hcount.
pose proof (locate_counted _ _ _ _ _ _ _ _ _ _ Hlocate Hpop) as Hone.
pose proof (sum_list_lookup countNode _ _ _ Htop) as Hsum.
unfold referencedFragments, countPopulate in *.
destruct (single_contribution
            (λ def, sum_list (map countNode (definitionSelectionSet def)))
            (λ def, (rewriteDefinition schema st def).2)
            doc j (OperationDefinition op)) as [Hop ->]; try done.
- intros def Hzero. apply sum_list_zero in Hzero.
  assert (∀ parent select,
            Forall (λ n, n = O) (map countNode select) →
            flat_map snd (map (rewriteNode schema st parent) select) = [])
    as Hnone.
  { intros parent sel Hsel. rewrite flat_map_snd_map.
    induction sel as [|n sel IHs]; [done |]. simpl in Hsel |- *.
    apply Forall_cons in Hsel as [Hn Hsel].
    by rewrite (countNode_zero schema st n _ Hn), IHs. }
  destruct def as [op0 | fd]; simpl in *; by apply Hnone.
- simpl. lia.
- simpl in Hop |- *. rewrite flat_map_snd_map.
  destruct (single_contribution countNode
              (λ n, (rewriteNode schema st (rootType schema (operation op)) n).2)
              (operationSelectionSet op) i top) as [Htop1 ->]; try done.
  + intros n Hn. by apply countNode_zero.
  + by eapply locate_single.
Qed.

(** ** The forwarded document depends on the history through the
    fragments that apply and the user fragments *)

Lemma rewriteNode_ext schema st st' node :
  (∀ returnType,
     applicableFragments schema st' returnType
     = applicableFragments schema st returnType) →
  ∀ parentType,
    rewriteNode schema st' parentType node = rewriteNode schema st parentType node.
Proof.
intros Happ.
induction node as [alias name args ds | alias name args ds select IH
                  | name ds | tc ds select IH]
  using SelectionNode_nested_ind; intros parentType.
- simpl. by rewrite Happ.
- assert (∀ parent,
            map (rewriteNode schema st' parent) select
            = map (rewriteNode schema st parent) select) as Hchildren.
  { intros parent. induction IH as [|n select Hn _ IHs]; [done |].
    simpl. by rewrite Hn, IHs. }
  simpl. by rewrite Happ, Hchildren.
- done.
- assert (∀ parent,
            map (rewriteNode schema st' parent) select
            = map (rewriteNode schema st parent) select) as Hchildren.
  { intros parent. induction IH as [|n select Hn _ IHs]; [done |].
    simpl. by rewrite Hn, IHs. }
  simpl. by rewrite Hchildren.
Qed.

Lemma addFragmentsToQuery_ext schema st st' doc :
  (∀ returnType,
     applicableFragments schema st' returnType
     = applicableFragments schema st returnType) →
  userFragments st' = userFragments st →
  addFragmentsToQuery schema st' doc = addFragmentsToQuery schema st doc.
Proof.
intros Happ Huser.
assert (∀ def, rewriteDefinition schema st' def = rewriteDefinition schema st def)
  as Hdef.
{ intros [op | fd]; simpl.
  - assert (map (rewriteNode schema st' (rootType schema (operation op)))
              (operationSelectionSet op)
            = map (rewriteNode schema st (rootType schema (operation op)))
                (operationSelectionSet op)) as ->; [| done].
    apply map_ext. intros n. by apply rewriteNode_ext.
  - assert (map (rewriteNode schema st' (fragmentTypeCondition fd))
              (fragmentSelectionSet fd)
            = map (rewriteNode schema st (fragmentTypeCondition fd))
                (fragmentSelectionSet fd)) as ->; [| done].
    apply map_ext. intros n. by apply rewriteNode_ext. }
assert (referencedFragments schema st' doc = referencedFragments schema st doc)
  as Href.
{ unfold referencedFragments. induction doc as [|def doc IH]; [done |].
  simpl. by rewrite Hdef, IH. }
unfold addFragmentsToQuery, appendedFragments. rewrite Href, Huser.
f_equal. apply map_ext. intros def. by rewrite Hdef.
Qed.

(** The rewrite of a selection refers to the fragments that the rewrite
    of a node in it refers to, when no field above the node is annotated
    [@populate]. *)
Lemma locate_referenced schema st path :
  ∀ parentType top parentType' sub f,
    locate schema parentType path top = Some (parentType', sub) →
    f ∈ (rewriteNode schema st parentType' sub).2 →
    f ∈ (rewriteNode schema st parentType top).2.
Proof.
induction path as [|i path IH]; intros parentType top parentType' sub f H Hf.
- simpl in H. by injection H as -> ->.
- destruct top as [alias name args ds [sel|] | sname ds | tc ds sel];
    simpl in H; try done.
  + destruct (hasPopulate ds) eqn:Hpop; [done |].
    destruct (sel !! i) as [child|] eqn:Hchild; [| done].
    simpl. rewrite Hpop. simpl. apply elem_of_flat_map.
    eexists. split; [| eapply IH; [exact H | exact Hf]].
    apply list_elem_of_fmap. exists child. split; [done |].
    by eapply list_elem_of_lookup_2.
  + destruct (sel !! i) as [child|] eqn:Hchild; [| done].
    simpl. apply elem_of_flat_map.
    eexists. split; [| eapply IH; [exact H | exact Hf]].
    apply list_elem_of_fmap. exists child. split; [done |].
    by eapply list_elem_of_lookup_2.
Qed.

Lemma referencedFragments_located schema st doc j op i top path parentType sub f :
  doc !! j = Some (OperationDefinition op) →
  operationSelectionSet op !! i = Some top →
  locate schema (rootType schema (operation op)) path top
  = Some (parentType, sub) →
  f ∈ (rewriteNode schema st parentType sub).2 →
  f ∈ referencedFragments schema st doc.
Proof.
intros Hdef Htop Hlocate Hf. unfold referencedFragments.
apply elem_of_flat_map. exists (OperationDefinition op).
split; [by eapply list_elem_of_lookup_2 |].
simpl. apply elem_of_flat_map.
eexists. split; [| eapply locate_referenced; [exact Hlocate | exact Hf]].
apply list_elem_of_fmap. exists top. split; [done |].
by eapply list_elem_of_lookup_2.
Qed.



(** Two queries whose fragments are on one type: the fragment of the
    query with the smaller key comes first, whichever query was observed
    first. *)
Example populate_orders_by_key :
  map (λ f, (fragmentKey f, fragmentName (fragmentNode f)))
    (applicableFragments testSchema
       (stateAfter testSchema
          [queryOp 5678 simpleQuery []; queryOp 1234 simpleQuery []]
          initialState)
       (Some "Todo"))
  = [(1234, "Todo_PopulateFragment_1"); (5678, "Todo_PopulateFragment_0")].
Proof. vm_compute. reflexivity. Qed.


(** * The round trip of a write and a read *)

Import RoundTripExamples.

(** ** The graph of a result *)

Lemma Denotes_mono vars roots
  (R1 R2 : string → DataField → Prop) (L1 L2 : string → Link → Prop) :
  (∀ k v, R1 k v → R2 k v) → (∀ k l, L1 k l → L2 k l) →
  (∀ entityKey select data,
     Denotes vars roots R1 L1 entityKey select data →
     Denotes vars roots R2 L2 entityKey select data)
  ∧ (∀ entityKey node value,
       DenotesField vars roots R1 L1 entityKey node value →
       DenotesField vars roots R2 L2 entityKey node value)
  ∧ (∀ link select value,
       DenotesLink vars roots R1 L1 link select value →
       DenotesLink vars roots R2 L2 link select value).
Proof.
  intros HR HL. apply Denotes_mutind.
  - intros entityKey select fields typename Htn Hrec Hroot Hfields Hnodup
      Hexact _ IH.
    apply Denotes_entity with (typename := typename); auto.
  - intros entityKey node value Hsel Hvalue Hrec.
    apply DenotesField_scalar; auto.
  - intros entityKey node value link Hsel Hlink _ IH.
    apply DenotesField_link with (link := link); auto.
  - constructor.
  - intros ls select items Hlen _ IH. constructor; auto.
  - intros key select fields Hkey _ IH. constructor; auto.
Qed.

(** ** The iterator over a selection made of field nodes *)

Lemma next_scan fuel tn ek ctx (select : SelectionSet) :
  Forall (λ node, isFieldNode node = true) select →
  ∀ suffix i,
    drop i select = suffix →
    (length suffix + 2 ≤ fuel)%nat →
    next fuel (mkIterator tn ek [i] ctx [select])
    = Ret (match scan (variables ctx) suffix i with
           | Some (node, j) => (Some node, mkIterator tn ek [j] ctx [select])
           | None => (None, mkIterator tn ek [] ctx [])
           end).
Proof.
  intros Hfields suffix. revert fuel.
  induction suffix as [|node rest IH]; intros fuel i Hdrop Hfuel.
  - destruct fuel as [|fuel]; simpl in Hfuel; [lia |].
    assert (select !! i = None) as Hnone.
    { apply lookup_ge_None. apply drop_nil_inv in Hdrop. lia. }
    simpl. rewrite Hnone. unfold withStacks. simpl.
    destruct fuel as [|fuel]; [lia |]. reflexivity.
  - destruct fuel as [|fuel]; simpl in Hfuel; [lia |].
    assert (select !! i = Some node) as Hnode.
    { pose proof (lookup_drop select i 0) as Hl.
      rewrite Hdrop, Nat.add_0_r in Hl. symmetry. exact Hl. }
    assert (drop (S i) select = rest) as Hrest.
    { rewrite (drop_S _ _ _ Hnode) in Hdrop. by injection Hdrop. }
    assert (isFieldNode node = true) as Hfield.
    { rewrite Forall_forall in Hfields. apply Hfields.
      by eapply list_elem_of_lookup_2. }
    simpl. rewrite Hnode. unfold withStacks. simpl.
    unfold selects. destruct (shouldInclude node (variables ctx)); simpl.
    + rewrite Hfield. simpl.
      destruct (String.eqb (getName node) "__typename"); simpl; [| done].
      apply IH; [done | lia].
    + apply IH; [done | lia].
Qed.

Lemma scan_unselected vars node rest i :
  selects vars node = false → scan vars (node :: rest) i = scan vars rest (S i).
Proof. intros H. simpl. by rewrite H. Qed.

Lemma scan_selected vars node rest i :
  selects vars node = true → scan vars (node :: rest) i = Some (node, S i).
Proof. intros H. simpl. by rewrite H. Qed.

Lemma drop_cons_inv {A : Type} (l : list A) i x rest :
  drop i l = x :: rest → drop (S i) l = rest.
Proof.
  intros H. pose proof (lookup_drop l i 0) as Hl.
  rewrite H, Nat.add_0_r in Hl. simpl in Hl. symmetry in Hl.
  rewrite (drop_S _ _ _ Hl) in H. by injection H.
Qed.

Lemma nodeSize_pos node : (2 ≤ nodeSize node)%nat.
Proof. destruct node as [? ? ? ? [?|] | |]; simpl; lia. Qed.

Lemma nodeSize_selectionSet node :
  hasSelectionSet node = true →
  nodeSize node = (2 + selectionSize (getSelectionSet node))%nat.
Proof. destruct node as [? ? ? ? [?|] | |]; simpl; done. Qed.

Lemma selectionSize_elem node (select : SelectionSet) :
  node ∈ select → (nodeSize node ≤ selectionSize select)%nat.
Proof.
  unfold selectionSize. induction 1 as [node rest | node other rest _ IH]; simpl; lia.
Qed.

Lemma selectionSize_length (select : SelectionSet) :
  (2 * length select ≤ selectionSize select)%nat.
Proof.
  unfold selectionSize. induction select as [|node rest IH]; simpl; [lia |].
  pose proof (nodeSize_pos node). lia.
Qed.

Lemma selectedFields_elem vars node (select : SelectionSet) :
  node ∈ selectedFields vars select → node ∈ select ∧ selects vars node = true.
Proof.
  unfold selectedFields. rewrite list_elem_of_In, filter_In, <- list_elem_of_In. done.
Qed.

Lemma selectedFields_suffix vars (select : SelectionSet) i node :
  node ∈ selectedFields vars (drop i select) → node ∈ selectedFields vars select.
Proof.
  unfold selectedFields. rewrite !list_elem_of_In, !filter_In, <- !list_elem_of_In.
  intros [Hin Hsel]. split; [| done].
  apply list_elem_of_lookup in Hin as [j Hj]. rewrite lookup_drop in Hj.
  by eapply list_elem_of_lookup_2.
Qed.

(** ** Reading a graph back *)

Lemma readFields_next_eq ctx fuel rec count typename entityKey isQuery it1 it2
  data hasFields s :
  next fuel it1 = next fuel it2 →
  readFields ctx fuel rec count typename entityKey isQuery it1 data hasFields s
  = readFields ctx fuel rec count typename entityKey isQuery it2 data hasFields s.
Proof. intros H. destruct count; simpl; [done |]. by rewrite H. Qed.

Section ReadBack.

Variable ctx : Context.
Hypothesis no_schema : schemaPredicates ctx = None.

(** The values that the fields of the entity are expected to have. *)
Variable expected : string → DataField.
Variable fuel : nat.
Variable rec : string → Reader.
Variable typename entityKey : string.
Variable isQuery : bool.
Variable select : SelectionSet.
Hypothesis field_nodes : Forall (λ node, isFieldNode node = true) select.

Hypothesis reads_fields :
  ∀ node, node ∈ selectedFields (variables ctx) select →
    ∀ data s,
      getField_ data (getFieldAlias node) = DUndefined →
      ctxPartial s = false →
      ∃ v s',
        readFieldValue ctx rec typename entityKey node data s = Ret (v, data, s')
        ∧ DeepEqual v (expected (getFieldAlias node))
        ∧ v ≠ DUndefined
        ∧ ctxPartial s' = false.

(** The loop of [readSelection] over the rest of a selection made of
    field nodes: it sets the response key of every selected field to a
    value deep-equal to the expected one and leaves the other properties
    alone. *)
Lemma readFields_suffix suffix :
  ∀ i count data hasFields s,
    drop i select = suffix →
    (length suffix + 1 ≤ count)%nat →
    (length suffix + 2 ≤ fuel)%nat →
    ctxPartial s = false →
    NoDup (map getFieldAlias (selectedFields (variables ctx) suffix)) →
    (∀ node, node ∈ selectedFields (variables ctx) suffix →
       getField_ data (getFieldAlias node) = DUndefined) →
    ∃ final s',
      readFields ctx fuel rec count typename entityKey isQuery
        (mkIterator (Some typename) entityKey [i] ctx [select]) data hasFields s
      = Ret (DObj final, s')
      ∧ ctxPartial s' = false
      ∧ (∀ node, node ∈ selectedFields (variables ctx) suffix →
           DeepEqual (getField_ final (getFieldAlias node))
             (expected (getFieldAlias node)))
      ∧ (∀ k, k ∉ map getFieldAlias (selectedFields (variables ctx) suffix) →
           getField_ final k = getField_ data k).
Proof.
  induction suffix as [|node rest IH];
    intros i count data hasFields s Hdrop Hcount Hfuel Hpartial Hnodup Hfresh.
  - destruct count as [|count]; [simpl in Hcount; lia |]. simpl.
    rewrite (next_scan fuel _ _ ctx select field_nodes [] i Hdrop Hfuel). simpl.
    rewrite Hpartial, andb_false_r. simpl.
    exists data, s. split_and!; try done.
    intros node Hin. inversion Hin.
  - pose proof (drop_cons_inv _ _ _ _ Hdrop) as Hrest.
    simpl in Hcount, Hfuel.
    destruct (selects (variables ctx) node) eqn:Hsel.
    + (* the field is selected *)
      assert (node ∈ selectedFields (variables ctx) select) as Hin.
      { apply (selectedFields_suffix _ _ i). rewrite Hdrop.
        unfold selectedFields. simpl. rewrite Hsel. by left. }
      unfold selectedFields in Hnodup, Hfresh |- *. simpl in Hnodup, Hfresh |- *.
      rewrite Hsel in Hnodup, Hfresh |- *. simpl in Hnodup.
      apply NoDup_cons in Hnodup as [Hnotin Hnodup].
      destruct count as [|count]; [lia |]. simpl.
      rewrite (next_scan fuel _ _ ctx select field_nodes (node :: rest) i Hdrop)
        by (simpl; lia).
      rewrite (scan_selected _ _ _ _ Hsel). simpl.
      set (s1 := if isQuery then addDependency _ s else s).
      assert (ctxPartial s1 = false) as Hp1 by (subst s1; by destruct isQuery).
      destruct (reads_fields node Hin data s1) as (v & s2 & -> & Hv & Hdef & Hp2);
        [apply Hfresh; by left | done |].
      simpl. rewrite no_schema.
      assert (isUndefined v = false) as -> by (by destruct v).
      destruct (IH (S i) count (setField data (getFieldAlias node) v) true s2
                  Hrest ltac:(lia) ltac:(lia) Hp2 Hnodup)
        as (final & s' & -> & Hp' & Hfinal & Hframe).
      { intros n Hn. rewrite getField_setField_ne.
        - apply Hfresh. by right.
        - intros Heq. apply Hnotin. rewrite Heq. by apply list_elem_of_fmap_2. }
      exists final, s'. split_and!; try done.
      * intros n Hn. apply elem_of_cons in Hn as [-> | Hn].
        -- rewrite (Hframe _ Hnotin), getField_setField_eq. exact Hv.
        -- by apply Hfinal.
      * intros k Hk. apply not_elem_of_cons in Hk as [Hk1 Hk2].
        rewrite (Hframe k Hk2). by apply getField_setField_ne.
    + (* the field is skipped *)
      assert (selectedFields (variables ctx) (node :: rest)
              = selectedFields (variables ctx) rest) as Heq.
      { unfold selectedFields. simpl. by rewrite Hsel. }
      rewrite Heq in Hnodup, Hfresh |- *.
      rewrite (readFields_next_eq _ _ _ _ _ _ _ _
                 (mkIterator (Some typename) entityKey [S i] ctx [select])).
      * apply IH; try done; lia.
      * rewrite (next_scan fuel _ _ ctx select field_nodes (node :: rest) i Hdrop)
          by (simpl; lia).
        rewrite (next_scan fuel _ _ ctx select field_nodes rest (S i) Hrest)
          by lia.
        by rewrite (scan_unselected _ _ _ _ Hsel).
Qed.

End ReadBack.

Lemma mapIndexed_elements {A : Type}
  (f : A → nat → ReadState → Outcome (DataField * ReadState)) (ls : list A) :
  ∀ items,
    length ls = length items →
    (∀ i l x, ls !! i = Some l → items !! i = Some x →
       ∀ index s, ctxPartial s = false →
         ∃ v s', f l index s = Ret (v, s') ∧ DeepEqual v x ∧ ctxPartial s' = false) →
    ∀ index out s,
      ctxPartial s = false →
      ∃ vs s',
        mapIndexed f ls index out s = Ret (DArr (out ++ vs), s')
        ∧ length vs = length items
        ∧ (∀ i v x, vs !! i = Some v → items !! i = Some x → DeepEqual v x)
        ∧ ctxPartial s' = false.
Proof.
  induction ls as [|l ls IH]; intros items Hlen Hf index out s Hp.
  - destruct items; [| discriminate]. exists [], s. simpl.
    rewrite app_nil_r. split_and!; done.
  - destruct items as [|x items]; [discriminate |]. simpl in Hlen.
    destruct (Hf 0%nat l x eq_refl eq_refl index s Hp) as (v & s1 & Hv & Heq & Hp1).
    simpl. rewrite Hv. simpl.
    destruct (IH items ltac:(lia)
                (λ i l' x' Hl Hx, Hf (S i) l' x' Hl Hx) (S index) (out ++ [v]) s1 Hp1)
      as (vs & s' & -> & Hlen' & Hvs & Hp').
    exists (v :: vs), s'. rewrite <- app_assoc. simpl. split_and!; try done.
    + lia.
    + intros [|i] v' x' Hv' Hx'; simpl in *.
      * injection Hv' as <-. injection Hx' as <-. exact Heq.
      * by eapply Hvs.
Qed.

Lemma getField_singleton k v k' :
  getField_ [(k, v)] k' = if String.eqb k k' then v else DUndefined.
Proof. reflexivity. Qed.

Lemma resolverOf_empty st typename fieldName :
  resolvers st = ∅ → resolverOf st typename fieldName = None.
Proof. intros H. unfold resolverOf. by rewrite H, lookup_empty. Qed.

(** A read without schema oracle and without resolvers returns data that
    is deep-equal to the result that the selection selects from the
    tables of the store. *)
Lemma read_back ctx roots :
  schemaPredicates ctx = None →
  resolvers (store ctx) = ∅ →
  rootFields (tables (store ctx)) = rootFields roots →
  let Rec := recordIn (tables (store ctx)) in
  let Lnk := linkIn (tables (store ctx)) in
  (∀ entityKey select data,
     Denotes (variables ctx) roots Rec Lnk entityKey select data →
     ∀ fuel s,
       (selectionSize select + 3 ≤ fuel)%nat → ctxPartial s = false →
       ∃ d s',
         readSelection fuel ctx entityKey select (DObj []) s = Ret (d, s')
         ∧ DeepEqual d data ∧ d ≠ DUndefined ∧ ctxPartial s' = false)
  ∧ (∀ entityKey node value,
       DenotesField (variables ctx) roots Rec Lnk entityKey node value →
       ∀ fuel typename data s,
         (nodeSize node + 1 ≤ fuel)%nat →
         getField_ data (getFieldAlias node) = DUndefined →
         ctxPartial s = false →
         ∃ v s',
           readFieldValue ctx (readSelection fuel ctx) typename entityKey node
             data s = Ret (v, data, s')
           ∧ DeepEqual v value ∧ v ≠ DUndefined ∧ ctxPartial s' = false)
  ∧ (∀ link select value,
       DenotesLink (variables ctx) roots Rec Lnk link select value →
       ∀ fuel s,
         (selectionSize select + 3 ≤ fuel)%nat → ctxPartial s = false →
         ∃ v s',
           resolveLink (readSelection fuel ctx) link select DUndefined s
             = Ret (v, s')
           ∧ DeepEqual v value ∧ v ≠ DUndefined ∧ ctxPartial s' = false).
Proof.
  intros Hschema Hresolvers Hroots Rec Lnk. apply Denotes_mutind.
  - (* an entity *)
    intros entityKey select fields typename Htn Hrec Hroot Hfields Hnodup
      Hexact _ IH fuel s Hfuel Hp.
    destruct fuel as [|fuel]; [lia |]. simpl. unfold readSelectionBody.
    set (isQuery := String.eqb entityKey (getRootKey (tables (store ctx)) OpQuery)).
    assert ((if isQuery then DStr (getRootKey (tables (store ctx)) OpQuery)
             else getField (tables (store ctx)) entityKey "__typename" None)
            = DStr typename) as ->.
    { subst isQuery. destruct (String.eqb entityKey _) eqn:Hq.
      - apply String.eqb_eq in Hq. f_equal. symmetry.
        unfold getRootKey in *. rewrite Hroots in *. by apply Hroot.
      - unfold getField, getRecord. simpl. unfold Rec, recordIn in Hrec.
        by rewrite Hrec. }
    simpl.
    set (s1 := if isQuery then s else addDependency entityKey s).
    assert (ctxPartial s1 = false) as Hp1 by (subst s1; by destruct isQuery).
    unfold responseKeys in Hnodup, Hexact.
    apply NoDup_cons in Hnodup as [Hnotin Hnodup].
    pose proof (selectionSize_length select) as Hlen.
    destruct (readFields_suffix ctx Hschema (getField_ fields) fuel
                (readSelection fuel ctx) typename entityKey isQuery select Hfields)
      with (suffix := select) (i := 0%nat) (count := fuel)
           (data := [("__typename", DStr typename)]) (hasFields := false) (s := s1)
      as (final & s' & Hread & Hp' & Hfinal & Hframe); try done; try lia.
    { intros node Hin data s0 Hfresh Hp0.
      apply selectedFields_elem in Hin as Hin'. destruct Hin' as [Hin' _].
      apply (IH node Hin fuel typename data s0); try done.
      pose proof (selectionSize_elem node select Hin'). lia. }
    { intros node Hin. rewrite getField_singleton.
      destruct (String.eqb "__typename" (getFieldAlias node)) eqn:Heq; [| done].
      apply String.eqb_eq in Heq. exfalso. apply Hnotin. rewrite Heq.
      by apply list_elem_of_fmap_2. }
    unfold newSelectionIterator. rewrite Hread.
    exists (DObj final), s'. split_and!; try done.
    apply DeepEqual_object. intros k.
    destruct (decide (k ∈ map getFieldAlias (selectedFields (variables ctx) select)))
      as [Hin | Hnin].
    + apply list_elem_of_fmap in Hin as (node & -> & Hin). by apply Hfinal.
    + rewrite (Hframe k Hnin), getField_singleton.
      destruct (String.eqb "__typename" k) eqn:Heq.
      * apply String.eqb_eq in Heq as <-. rewrite Htn. constructor.
      * destruct (getField_ fields k) eqn:Hk; try constructor;
          exfalso; (assert (k ∈ "__typename"
                               :: map getFieldAlias
                                    (selectedFields (variables ctx) select)) as Hk'
                      by (apply Hexact; by rewrite Hk));
          apply elem_of_cons in Hk' as [-> | Hk']; try done;
          by rewrite String.eqb_refl in Heq.
  - (* a scalar field *)
    intros entityKey node value Hsel Hvalue Hrec fuel typename data s Hfuel
      Hfresh Hp.
    exists value, s. unfold readFieldValue. cbv zeta.
    rewrite (resolverOf_empty _ _ _ Hresolvers), Hsel. simpl.
    unfold getRecord. unfold Rec, recordIn in Hrec. rewrite Hrec. simpl.
    split_and!; try done. constructor.
  - (* a field with a selection set *)
    intros entityKey node value link Hsel Hlink _ IH fuel typename data s Hfuel
      Hfresh Hp.
    rewrite (nodeSize_selectionSet _ Hsel) in Hfuel.
    destruct (IH fuel s ltac:(lia) Hp) as (v & s' & Hv & Heq & Hdef & Hp').
    exists v, s'. unfold readFieldValue. cbv zeta.
    rewrite (resolverOf_empty _ _ _ Hresolvers), Hsel. simpl.
    unfold getLink. unfold Lnk, linkIn in Hlink. rewrite Hlink.
    rewrite Hfresh, Hv. simpl. done.
  - (* a null link *)
    intros select fuel s Hfuel Hp. exists DNull, s. simpl.
    split_and!; try done. constructor.
  - (* a list of links *)
    intros ls select items Hlen _ IH fuel s Hfuel Hp. simpl.
    match goal with
    | |- context [mapIndexed ?f ls 0%nat [] s] =>
        destruct (mapIndexed_elements f ls items Hlen)
          with (index := 0%nat) (out := @nil DataField) (s := s)
          as (vs & s' & -> & Hlen' & Hvs & Hp'); try done
    end.
    { intros i l x Hl Hx index s0 Hp0. simpl.
      destruct (IH i l x Hl Hx fuel s0 Hfuel Hp0) as (v & s0' & Hv & Heq & _ & Hp0').
      exists v, s0'. done. }
    exists (DArr vs), s'. simpl. split_and!; try done.
    apply DeepEqual_array; [done | exact Hvs].
  - (* a link to an entity *)
    intros key select fields Hkey _ IH fuel s Hfuel Hp. simpl.
    apply (IH fuel s Hfuel Hp).
Qed.

(** ** Writing a result *)

Lemma WritesWithin_refl graph w : WritesWithin graph w w.
Proof. by split_and!. Qed.

Lemma WritesWithin_trans graph w1 w2 w3 :
  WritesWithin graph w1 w2 → WritesWithin graph w2 w3 → WritesWithin graph w1 w3.
Proof.
  intros (Hr1 & Hrec1 & Hlnk1) (Hr2 & Hrec2 & Hlnk2). split_and!.
  - by rewrite Hr2.
  - intros k v Hg Hk. apply Hrec2; [done |]. by apply Hrec1.
  - intros k l Hg Hk. apply Hlnk2; [done |]. by apply Hlnk1.
Qed.

Lemma WritesWithin_writeRecord graph k v w :
  recordIn graph k v → WritesWithin graph w (writeRecord k v w).
Proof.
  intros Hg. split_and!; try done.
  intros k' v' Hg' Hk'. unfold recordIn, writeRecord in *. simpl.
  destruct (decide (k = k')) as [<- | Hne].
  - rewrite lookup_insert_eq. congruence.
  - by rewrite lookup_insert_ne.
Qed.

Lemma WritesWithin_writeLink graph k l w :
  linkIn graph k l → WritesWithin graph w (writeLink k l w).
Proof.
  intros Hg. split_and!; try done.
  intros k' l' Hg' Hk'. unfold linkIn, writeLink in *. simpl.
  destruct (decide (k = k')) as [<- | Hne].
  - rewrite lookup_insert_eq. congruence.
  - by rewrite lookup_insert_ne.
Qed.

Lemma WritesWithin_addWriteDependency graph key w :
  WritesWithin graph w (addWriteDependency key w).
Proof. by split_and!. Qed.

(** What the graph and the tables have in common stays in the tables. *)
Lemma Denotes_stable vars graph w w' :
  WritesWithin graph w w' →
  (∀ entityKey select data,
     Denotes vars graph (recordInBoth graph (writeTables w))
       (linkInBoth graph (writeTables w)) entityKey select data →
     Denotes vars graph (recordInBoth graph (writeTables w'))
       (linkInBoth graph (writeTables w')) entityKey select data)
  ∧ (∀ entityKey node value,
       DenotesField vars graph (recordInBoth graph (writeTables w))
         (linkInBoth graph (writeTables w)) entityKey node value →
       DenotesField vars graph (recordInBoth graph (writeTables w'))
         (linkInBoth graph (writeTables w')) entityKey node value)
  ∧ (∀ link select value,
       DenotesLink vars graph (recordInBoth graph (writeTables w))
         (linkInBoth graph (writeTables w)) link select value →
       DenotesLink vars graph (recordInBoth graph (writeTables w'))
         (linkInBoth graph (writeTables w')) link select value).
Proof.
  intros (_ & Hrec & Hlnk). apply Denotes_mono.
  - intros k v [Hg Hk]. split; [done | by apply Hrec].
  - intros k l [Hg Hk]. split; [done | by apply Hlnk].
Qed.

Lemma keyOfEntity_roots t t' data :
  rootFields t = rootFields t' → keyOfEntity t data = keyOfEntity t' data.
Proof. intros H. unfold keyOfEntity, isRootKey. by rewrite H. Qed.

Lemma writeFields_next_eq ctx fuel rec count entityKey updaterRoot it1 it2 data w :
  next fuel (withContext it1 (contextAt ctx w))
  = next fuel (withContext it2 (contextAt ctx w)) →
  writeFields ctx fuel rec count entityKey updaterRoot it1 data w
  = writeFields ctx fuel rec count entityKey updaterRoot it2 data w.
Proof. intros H. destruct count; simpl; [done |]. by rewrite H. Qed.

Section WriteOut.

Variable ctx : Context.
Variable graph : Tables.
Variable fuel : nat.
Variable rec : string → SelectionSet → DataField → WriteState → Outcome WriteState.
Variable typename : option string.
Variable entityKey : string.
Variable select : SelectionSet.
Variable data : DataField.
Hypothesis field_nodes : Forall (λ node, isFieldNode node = true) select.

(** What the write of a field establishes. *)
Variable written : SelectionNode → WriteState → Prop.
Hypothesis written_stable :
  ∀ node w w', WritesWithin graph w w' → written node w → written node w'.

Hypothesis writes_fields :
  ∀ node, node ∈ selectedFields (variables ctx) select →
    ∀ w, rootFields (writeTables w) = rootFields graph →
      ∃ w', writeFieldNode ctx rec entityKey node data w = Ret w'
            ∧ WritesWithin graph w w'
            ∧ written node w'.

(** The loop of the write over the rest of a selection made of field
    nodes, for an operation without updaters. *)
Lemma writeFields_suffix suffix :
  ∀ i count c w,
    drop i select = suffix →
    (length suffix + 1 ≤ count)%nat →
    (length suffix + 2 ≤ fuel)%nat →
    rootFields (writeTables w) = rootFields graph →
    ∃ w',
      writeFields ctx fuel rec count entityKey None
        (mkIterator typename entityKey [i] c [select]) data w = Ret w'
      ∧ WritesWithin graph w w'
      ∧ (∀ node, node ∈ selectedFields (variables ctx) suffix → written node w').
Proof.
  induction suffix as [|node rest IH]; intros i count c w Hdrop Hcount Hfuel Hroots.
  - destruct count as [|count]; [simpl in Hcount; lia |]. simpl.
    unfold withContext. simpl.
    rewrite (next_scan fuel _ _ (contextAt ctx w) select field_nodes [] i Hdrop Hfuel).
    simpl. exists w. split_and!; [done | apply WritesWithin_refl |].
    intros node Hin. inversion Hin.
  - pose proof (drop_cons_inv _ _ _ _ Hdrop) as Hrest.
    simpl in Hcount, Hfuel.
    destruct (selects (variables ctx) node) eqn:Hsel.
    + assert (node ∈ selectedFields (variables ctx) select) as Hin.
      { apply (selectedFields_suffix _ _ i). rewrite Hdrop.
        unfold selectedFields. simpl. rewrite Hsel. by left. }
      destruct count as [|count]; [lia |]. simpl.
      unfold withContext. simpl.
      rewrite (next_scan fuel _ _ (contextAt ctx w) select field_nodes
                 (node :: rest) i Hdrop) by (simpl; lia).
      change (variables (contextAt ctx w)) with (variables ctx).
      rewrite (scan_selected _ _ _ _ Hsel). simpl.
      destruct (writes_fields node Hin w Hroots) as (w1 & -> & Hw1 & Hnode).
      simpl. unfold runUpdater. simpl.
      destruct (IH (S i) count (contextAt ctx w) w1 Hrest ltac:(lia) ltac:(lia))
        as (w' & -> & Hw' & Hrestw).
      { destruct Hw1 as [-> _]. exact Hroots. }
      exists w'. split_and!; [done | by eapply WritesWithin_trans |].
      intros n Hn. unfold selectedFields in Hn. simpl in Hn. rewrite Hsel in Hn.
      apply elem_of_cons in Hn as [-> | Hn].
      * by eapply written_stable.
      * by apply Hrestw.
    + assert (selectedFields (variables ctx) (node :: rest)
              = selectedFields (variables ctx) rest) as Heq.
      { unfold selectedFields. simpl. by rewrite Hsel. }
      rewrite Heq.
      rewrite (writeFields_next_eq _ _ _ _ _ _ _
                 (mkIterator typename entityKey [S i] c [select])).
      * apply IH; try done; lia.
      * unfold withContext. simpl.
        rewrite (next_scan fuel _ _ (contextAt ctx w) select field_nodes
                   (node :: rest) i Hdrop) by (simpl; lia).
        rewrite (next_scan fuel _ _ (contextAt ctx w) select field_nodes
                   rest (S i) Hrest) by lia.
        change (variables (contextAt ctx w)) with (variables ctx).
        by rewrite (scan_unselected _ _ _ _ Hsel).
Qed.

End WriteOut.

Lemma writeElements_links {A : Type} graph
  (f : A → nat → WriteState → Outcome (option Link * WriteState))
  (holds : Link → A → WriteState → Prop) (items : list A) :
  (∀ l x w w', WritesWithin graph w w' → holds l x w → holds l x w') →
  ∀ ls,
    length ls = length items →
    (∀ i l x, ls !! i = Some l → items !! i = Some x →
       ∀ index w, rootFields (writeTables w) = rootFields graph →
         ∃ w', f x index w = Ret (Some l, w')
               ∧ WritesWithin graph w w' ∧ holds l x w') →
    ∀ index out w,
      rootFields (writeTables w) = rootFields graph →
      ∃ w',
        writeElements f items index out w = Ret (out ++ ls, w')
        ∧ WritesWithin graph w w'
        ∧ (∀ i l x, ls !! i = Some l → items !! i = Some x → holds l x w').
Proof.
  intros Hstable. induction items as [|x items IH];
    intros ls Hlen Hf index out w Hroots.
  - destruct ls; [| discriminate]. exists w. simpl. rewrite app_nil_r.
    split_and!; [done | apply WritesWithin_refl | done].
  - destruct ls as [|l ls]; [discriminate |]. simpl in Hlen.
    destruct (Hf 0%nat l x eq_refl eq_refl index w Hroots) as (w1 & Hx & Hw1 & Hl).
    simpl. rewrite Hx. simpl.
    destruct (IH ls ltac:(lia) (λ i l' x' Hl' Hx', Hf (S i) l' x' Hl' Hx')
                (S index) (out ++ [l]) w1)
      as (w' & -> & Hw' & Hls).
    { destruct Hw1 as [-> _]. exact Hroots. }
    exists w'. rewrite <- app_assoc. simpl.
    split_and!; [done | by eapply WritesWithin_trans |].
    intros [|i] l' x' Hl' Hx'; simpl in *.
    + injection Hl' as <-. injection Hx' as <-. by eapply Hstable.
    + by eapply Hls.
Qed.

(** The write of a normalized result of a graph puts entries of the
    graph into the tables, and afterwards the tables hold everything of
    the graph that the result is made of. *)
Lemma write_graph ctx graph :
  let Rec w := recordInBoth graph (writeTables w) in
  let Lnk w := linkInBoth graph (writeTables w) in
  (∀ entityKey select data,
     Denotes (variables ctx) graph (recordIn graph) (linkIn graph) entityKey
       select data →
     ∀ fuel w,
       (selectionSize select + 3 ≤ fuel)%nat →
       rootFields (writeTables w) = rootFields graph →
       ∃ w',
         writeSelection fuel ctx entityKey select data w = Ret w'
         ∧ WritesWithin graph w w'
         ∧ Denotes (variables ctx) graph (Rec w') (Lnk w') entityKey select data)
  ∧ (∀ entityKey node value,
       DenotesField (variables ctx) graph (recordIn graph) (linkIn graph)
         entityKey node value →
       ∀ fuel w data,
         (nodeSize node + 1 ≤ fuel)%nat →
         rootFields (writeTables w) = rootFields graph →
         getProp data (getFieldAlias node) = value →
         ∃ w',
           writeFieldNode ctx (writeSelection fuel ctx) entityKey node data w
             = Ret w'
           ∧ WritesWithin graph w w'
           ∧ DenotesField (variables ctx) graph (Rec w') (Lnk w') entityKey node
               value)
  ∧ (∀ link select value,
       DenotesLink (variables ctx) graph (recordIn graph) (linkIn graph) link
         select value →
       ∀ fuel w parentFieldKey,
         (selectionSize select + 3 ≤ fuel)%nat →
         rootFields (writeTables w) = rootFields graph →
         ∃ w',
           writeField (writeSelection fuel ctx) value parentFieldKey select w
             = Ret (Some link, w')
           ∧ WritesWithin graph w w'
           ∧ DenotesLink (variables ctx) graph (Rec w') (Lnk w') link select value).
Proof.
  intros Rec Lnk. apply Denotes_mutind.
  - (* an entity *)
    intros entityKey select fields typename Htn Hrec Hroot Hfields Hnodup
      Hexact _ IH fuel w Hfuel Hroots.
    destruct fuel as [|fuel]; [lia |]. simpl. unfold writeSelectionBody.
    assert (typenameOf (DObj fields) = Some typename) as ->.
    { unfold typenameOf. simpl. by rewrite Htn. }
    change (keyOfField "__typename" None) with "__typename".
    set (w0 := writeRecord (joinKeys entityKey "__typename") (DStr typename) w).
    assert (WritesWithin graph w w0) as Hw0
      by (by apply WritesWithin_writeRecord).
    pose proof (selectionSize_length select) as Hlen.
    destruct (writeFields_suffix ctx graph fuel (writeSelection fuel ctx)
                (Some typename) entityKey select (DObj fields) Hfields
                (λ node w',
                   DenotesField (variables ctx) graph (Rec w') (Lnk w') entityKey
                     node (getField_ fields (getFieldAlias node))))
      with (suffix := select) (i := 0%nat) (count := fuel)
           (c := contextAt ctx w0) (w := w0)
      as (w' & Hwrite & Hw' & Hnodes); try done; try lia.
    { intros node w1 w2 Hw12. by apply (Denotes_stable _ _ _ _ Hw12). }
    { intros node Hin w1 Hroots1.
      apply selectedFields_elem in Hin as Hin'. destruct Hin' as [Hin' _].
      apply (IH node Hin fuel w1 (DObj fields)); try done.
      pose proof (selectionSize_elem node select Hin'). lia. }
    unfold newSelectionIterator. rewrite Hwrite.
    exists w'. split_and!; [done | by eapply WritesWithin_trans |].
    apply Denotes_entity with (typename := typename); try done.
    split; [done |].
    destruct Hw' as (_ & Hstable & _). apply Hstable; [done |].
    unfold recordIn, w0, writeRecord. simpl. by rewrite lookup_insert_eq.
  - (* a scalar field *)
    intros entityKey node value Hsel Hvalue Hrec fuel w data Hfuel Hroots Hdata.
    unfold writeFieldNode. cbv zeta. rewrite Hsel, Hdata. simpl.
    eexists. split_and!; [done | |].
    + eapply WritesWithin_trans;
        [by apply WritesWithin_writeRecord | apply WritesWithin_addWriteDependency].
    + apply DenotesField_scalar; try done. split; [done |].
      unfold recordIn, addWriteDependency, writeRecord. simpl.
      by rewrite lookup_insert_eq.
  - (* a field with a selection set *)
    intros entityKey node value link Hsel Hlink _ IH fuel w data Hfuel Hroots
      Hdata.
    rewrite (nodeSize_selectionSet _ Hsel) in Hfuel.
    unfold writeFieldNode. cbv zeta. rewrite Hsel, Hdata. simpl.
    destruct (IH fuel w
                (joinKeys entityKey
                   (keyOfField (getName node)
                      (getFieldArguments node (variables ctx))))
                ltac:(lia) Hroots)
      as (w1 & -> & Hw1 & Hl).
    simpl. eexists. split_and!; [done | |].
    + eapply WritesWithin_trans; [exact Hw1 | by apply WritesWithin_writeLink].
    + apply DenotesField_link with (link := link); try done.
      * split; [done |]. unfold linkIn, writeLink. simpl.
        by rewrite lookup_insert_eq.
      * eapply Denotes_stable; [| exact Hl]. by apply WritesWithin_writeLink.
  - (* a null link *)
    intros select fuel w parentFieldKey Hfuel Hroots. exists w. simpl.
    split_and!; [done | apply WritesWithin_refl | constructor].
  - (* a list of links *)
    intros ls select items Hlen _ IH fuel w parentFieldKey Hfuel Hroots. simpl.
    match goal with
    | |- context [writeElements ?f items 0%nat [] w] =>
        destruct (writeElements_links graph f
                    (λ l x w',
                       DenotesLink (variables ctx) graph (Rec w') (Lnk w') l
                         select x) items)
          with (ls := ls) (index := 0%nat) (out := @nil Link) (w := w)
          as (w' & -> & Hw' & Hls); try done
    end.
    { intros l x w1 w2 Hw12. by apply (Denotes_stable _ _ _ _ Hw12). }
    { intros i l x Hl Hx index w1 Hroots1.
      apply (IH i l x Hl Hx fuel w1 _ Hfuel Hroots1). }
    exists w'. simpl. split_and!; try done. by constructor.
  - (* a link to an entity *)
    intros key select fields Hkey _ IH fuel w parentFieldKey Hfuel Hroots. simpl.
    rewrite (keyOfEntity_roots _ graph _ Hroots), Hkey.
    destruct (IH fuel w Hfuel Hroots) as (w' & -> & Hw' & Hd).
    exists w'. simpl. split_and!; try done. by constructor.
Qed.

(** The test "allows viewer fields to overwrite the root Query data":
    the [viewer] of the mutation result is the Query root, whose [int]
    the second write replaces. *)
Example write_viewer_overwrites_root :
  ∃ res,
    viewerTest 5 = Ret res
    ∧ partial res = false
    ∧ data res = DObj [("__typename", DStr "Query"); ("int", DNum 43)].
Proof. eexists. split_and!; [by vm_compute | reflexivity | reflexivity]. Qed.

Lemma DeepEqual_field fields1 fields2 k :
  DeepEqual (DObj fields1) (DObj fields2) →
  DeepEqual (getField_ fields1 k) (getField_ fields2 k).
Proof.
intros H. inversion H; subst.
- apply DeepEqual_refl.
- auto.
Qed.

Lemma DeepEqual_num a x : DeepEqual (DNum a) x → x = DNum a.
Proof. intros H. by inversion H. Qed.


Lemma getField_defined (fields : Data) k :
  getField_ fields k ≠ DUndefined → k ∈ fields.*1.
Proof.
induction fields as [|[k' v] rest IH]; simpl; [done|].
destruct (String.eqb_spec k' k) as [->|_]; intros H.
- apply list_elem_of_here.
- apply list_elem_of_further. auto.
Qed.

(** [todoResult] is the normalized result of [{ todo { id text } }] in
    [todoGraph]. *)
Lemma todoResult_normalized :
  NormalizedResult [] todoGraph "Query" todoQuery todoResult.
Proof.
unfold NormalizedResult, todoResult, todoQuery.
eapply Denotes_entity with (typename := "Query").
- reflexivity.
- reflexivity.
- reflexivity.
- repeat constructor.
- vm_compute. apply (bool_decide_unpack _). by vm_compute.
- intros k Hk. by apply getField_defined in Hk.
- intros node Hnode.
  change (node ∈ [objectField "todo" [scalarField "id"; scalarField "text"]])
    in Hnode.
  apply list_elem_of_singleton in Hnode as ->.
  eapply DenotesField_link with (link := LKey "Todo:1").
  + reflexivity.
  + reflexivity.
  + apply DenotesLink_key; [reflexivity|].
    eapply Denotes_entity with (typename := "Todo").
    * reflexivity.
    * reflexivity.
    * intros H. by vm_compute in H.
    * repeat constructor.
    * vm_compute. apply (bool_decide_unpack _). by vm_compute.
    * intros k Hk. by apply getField_defined in Hk.
    * intros node Hnode.
      change (node ∈ [scalarField "id"; scalarField "text"]) in Hnode.
      apply elem_of_cons in Hnode as [->|Hnode];
        [|apply list_elem_of_singleton in Hnode as ->].
      -- apply DenotesField_scalar; [reflexivity|done|reflexivity].
      -- apply DenotesField_scalar; [reflexivity|done|reflexivity].
Qed.



(** * Further properties of [src/operations/shared.ts] *)

(** ** What the iterator returns *)

(** X1.  A node that [next] returns is a field that its directives include
    and that is not [__typename]; the call leaves the typename, the
    entity key and the context of the iterator as they are. *)
Theorem next_returns_included_field fuel it node it' :
  next fuel it = Ret (Some node, it') →
  isFieldNode node = true
  ∧ shouldInclude node (variables (context it)) = true
  ∧ getName node ≠ "__typename"
  ∧ typename it' = typename it
  ∧ entityKey it' = entityKey it
  ∧ context it' = context it.
Proof.
revert it. induction fuel as [|fuel IH]; intros it H; [discriminate|].
destruct it as [tn ek indices ctx selections]. simpl in *.
destruct indices as [|index indices]; [discriminate|].
destruct selections as [|select selections]; [discriminate|].
unfold withStacks in H. simpl in H.
destruct (select !! index) as [n|]; [|by apply IH in H].
destruct (shouldInclude n (variables ctx)) eqn:Hinc; simpl in H;
  [|by apply IH in H].
destruct (isFieldNode n) eqn:Hfield; simpl in H; cycle 1.
{ destruct (if negb (isInlineFragment n) then _ else _) as [fragmentNode|];
    [|by apply IH in H].
  match type of H with
  | (if negb ?b then _ else _) = _ => destruct b
  end; by apply IH in H. }
destruct (String.eqb_spec (getName n) "__typename") as [|Hname];
  [by apply IH in H|].
injection H as <- <-. by split_and!.
Qed.

Lemma next_returns_included_field_witness :
  isFieldNode (scalarField "int") = true
  ∧ shouldInclude (scalarField "int") (variables (contextOf intStore)) = true
  ∧ getName (scalarField "int") ≠ "__typename".
Proof.
  destruct (next_returns_included_field 2
              (newSelectionIterator (Some "Query") "Query" intQuery
                 (contextOf intStore))
              (scalarField "int")
              (mkIterator (Some "Query") "Query" [1%nat] (contextOf intStore)
                 [intQuery]) eq_refl)
    as (H1 & H2 & H3 & _).
  by split_and!.
Defined.

(** ** The stacks of the iterator *)

Lemma next_aligned fuel :
  ∀ it r it', aligned it → next fuel it = Ret (r, it') → aligned it'.
Proof.
induction fuel as [|fuel IH]; intros it r it' Hal H; [discriminate|].
destruct it as [tn ek indices ctx selections]. unfold aligned in *. simpl in *.
destruct indices as [|index indices].
{ injection H as _ <-. done. }
destruct selections as [|select selections]; [discriminate|].
unfold withStacks in H. simpl in H, Hal.
assert (∀ ixs sels, length ixs = length sels →
          aligned (mkIterator tn ek ixs ctx sels)) as Hmk by done.
destruct (select !! index) as [n|].
2:{ eapply IH in H; [done|]. apply Hmk. lia. }
destruct (negb (shouldInclude n (variables ctx))).
{ eapply IH in H; [done|]. by apply Hmk. }
destruct (negb (isFieldNode n)).
{ destruct (if negb (isInlineFragment n) then _ else _) as [fragmentNode|].
  2:{ eapply IH in H; [done|]. by apply Hmk. }
  match type of H with
  | (if negb ?b then _ else _) = _ => destruct b
  end; simpl in H; (eapply IH in H; [done|]); apply Hmk; simpl; lia. }
destruct (String.eqb (getName n) "__typename").
{ eapply IH in H; [done|]. by apply Hmk. }
injection H as _ <-. simpl. done.
Qed.

Lemma next_aligned_returns fuel :
  ∀ it msg, aligned it → next fuel it ≠ Throw msg.
Proof.
induction fuel as [|fuel IH]; intros it msg Hal H; [discriminate|].
destruct it as [tn ek indices ctx selections]. unfold aligned in *. simpl in *.
destruct indices as [|index indices]; [discriminate|].
destruct selections as [|select selections]; [discriminate|].
unfold withStacks in H. simpl in H, Hal.
assert (∀ ixs sels, length ixs = length sels →
          aligned (mkIterator tn ek ixs ctx sels)) as Hmk by done.
destruct (select !! index) as [n|].
2:{ eapply IH in H; [done|]. apply Hmk. lia. }
destruct (negb (shouldInclude n (variables ctx))).
{ eapply IH in H; [done|]. by apply Hmk. }
destruct (negb (isFieldNode n)).
{ destruct (if negb (isInlineFragment n) then _ else _) as [fragmentNode|].
  2:{ eapply IH in H; [done|]. by apply Hmk. }
  match type of H with
  | (if negb ?b then _ else _) = _ => destruct b
  end; simpl in H; (eapply IH in H; [done|]); apply Hmk; simpl; lia. }
destruct (String.eqb (getName n) "__typename").
{ eapply IH in H; [done|]. by apply Hmk. }
discriminate.
Qed.

(** X2.  However often [next] has been called on an iterator made by the
    constructor, its two stacks have the same height, and the next call
    does not raise the [TypeError] of a selection missing from the
    stack. *)
Theorem iterator_stacks_aligned fuel typename entityKey select ctx nodes it' :
  Yields fuel (newSelectionIterator typename entityKey select ctx) nodes it' →
  aligned it' ∧ ∀ msg, next fuel it' ≠ Throw msg.
Proof.
intros H.
assert (aligned it') as Hal.
{ assert (aligned (newSelectionIterator typename entityKey select ctx)) as H0
    by done.
  revert H0.
  induction H as [|it node it1 nodes it2 Hnext _ IH]; [done|].
  intros Hit. apply IH. eapply next_aligned; eauto. }
split; [done|]. intros msg. by apply next_aligned_returns.
Qed.

Lemma iterator_stacks_aligned_witness :
  let it' := mkIterator (Some "Query") "Query" [1%nat] (contextOf intStore)
               [intQuery] in
  aligned it' ∧ ∀ msg, next 2 it' ≠ Throw msg.
Proof.
  apply (iterator_stacks_aligned 2 (Some "Query") "Query" intQuery
           (contextOf intStore) [scalarField "int"]).
  econstructor; [reflexivity | constructor].
Defined.

(** ** The fields that a selection stands for *)

#[local] Arguments shouldInclude : simpl never.

Lemma expandNode_excluded ctx tn ek r node :
  shouldInclude node (variables ctx) = false → expandNode ctx tn ek r node = [].
Proof. intros H. destruct r, node; simpl; by rewrite H. Qed.

Lemma expandNode_field ctx tn ek r alias name args ds sel :
  shouldInclude (FieldNode alias name args ds sel) (variables ctx) = true →
  expandNode ctx tn ek r (FieldNode alias name args ds sel)
  = if String.eqb name "__typename" then []
    else [FieldNode alias name args ds sel].
Proof. intros H. destruct r; simpl; by rewrite H. Qed.

Lemma expandNode_inline ctx tn ek r tc ds sel :
  shouldInclude (InlineFragmentNode tc ds sel) (variables ctx) = true →
  expandNode ctx tn ek r (InlineFragmentNode tc ds sel)
  = if isMatching ctx tn ek (InlineFragment (InlineFragmentNode tc ds sel))
    then expandSelection ctx tn ek r sel else [].
Proof. intros H. destruct r; simpl; by rewrite H. Qed.

Lemma expandNode_spread ctx tn ek r name ds :
  shouldInclude (FragmentSpreadNode name ds) (variables ctx) = true →
  expandNode ctx tn ek (S r) (FragmentSpreadNode name ds)
  = match fragments ctx !! name with
    | Some def =>
        if isMatching ctx tn ek (DefinedFragment def)
        then expandSelection ctx tn ek r (fragmentSelectionSet def) else []
    | None => []
    end.
Proof. intros H. simpl. by rewrite H. Qed.

Lemma Steps_mono ctx tn ek rank fuel indices selections nodes m m' :
  (m ≤ m')%nat →
  Steps ctx tn ek rank fuel indices selections nodes m →
  Steps ctx tn ek rank fuel indices selections nodes m'.
Proof.
intros Hle. destruct nodes as [|node rest]; simpl; [done|].
intros (indices' & selections' & m1 & ? & ? & ?).
exists indices', selections', m1. split_and!; [done|done|lia].
Qed.

(** One call of [next] on stacks with pending fields. *)
Lemma next_pending ctx rank tn ek :
  acyclicFragments (fragments ctx) rank →
  ∀ fuel indices selections nodes m,
    Pending ctx tn ek rank indices selections nodes m →
    (m < fuel)%nat →
    Steps ctx tn ek rank fuel indices selections nodes m.
Proof.
intros Hacyclic. induction fuel as [|fuel IH];
  intros indices selections nodes m HP Hm; [lia|].
destruct HP as [|index select r indices selections nodes m0 Hb HP].
{ reflexivity. }
destruct (select !! index) as [node|] eqn:Hnode; cycle 1.
{ (* the selection on top of the stack is exhausted *)
  rewrite (drop_ge select index) in Hm |- *
    by (by apply lookup_ge_None).
  simpl app.
  assert (Steps ctx tn ek rank fuel indices selections nodes m0) as Hstep
    by (apply IH; [done | lia]).
  assert (next (S fuel) (mkIterator tn ek (index :: indices) ctx
                           (select :: selections))
          = next fuel (mkIterator tn ek indices ctx selections)) as Heq.
  { simpl. by rewrite Hnode. }
  apply (Steps_mono _ _ _ _ _ _ _ _ m0); [lia|].
  unfold Steps in *. by rewrite Heq. }
pose proof (drop_S _ _ _ Hnode) as Hdrop. rewrite Hdrop in Hm |- *.
unfold expandSelection at 1. simpl flat_map.
fold (expandSelection ctx tn ek r (drop (S index) select)).
rewrite <- app_assoc.
rewrite selectionWeight_cons in Hm |- *.
pose proof (nodeWeight_pos (fragments ctx) r node) as Hpos.
assert (node ∈ select) as Hin by (eapply list_elem_of_lookup_2, Hnode).
set (rest := expandSelection ctx tn ek r (drop (S index) select) ++ nodes).
set (m1 := (1 + selectionWeight (fragments ctx) r (drop (S index) select) + m0)%nat).
set (m2 := (1 + (nodeWeight (fragments ctx) r node
                 + selectionWeight (fragments ctx) r (drop (S index) select))
            + m0)%nat) in *.
assert (Pending ctx tn ek rank (S index :: indices) (select :: selections)
          rest m1) as HP1 by (by constructor).
(* the loop goes on with the next index *)
assert (∀ it1,
          next (S fuel) (mkIterator tn ek (index :: indices) ctx
                           (select :: selections))
          = next fuel it1 →
          it1 = mkIterator tn ek (S index :: indices) ctx (select :: selections) →
          Steps ctx tn ek rank (S fuel) (index :: indices)
            (select :: selections) rest m2) as Hcontinue.
{ intros it1 Heq ->.
  assert (Steps ctx tn ek rank fuel (S index :: indices)
            (select :: selections) rest m1) as Hstep
    by (apply IH; [done | subst m1 m2; lia]).
  apply (Steps_mono _ _ _ _ _ _ _ _ m1); [subst m1 m2; lia|].
  unfold Steps in *. by rewrite Heq. }
(* the loop goes on inside a fragment *)
assert (∀ r2 fsel,
          bounded rank r2 fsel →
          nodeWeight (fragments ctx) r node
            = (2 + selectionWeight (fragments ctx) r2 fsel)%nat →
          next (S fuel) (mkIterator tn ek (index :: indices) ctx
                           (select :: selections))
          = next fuel (mkIterator tn ek (0%nat :: S index :: indices) ctx
                         (fsel :: select :: selections)) →
          Steps ctx tn ek rank (S fuel) (index :: indices)
            (select :: selections) (expandSelection ctx tn ek r2 fsel ++ rest)
            m2) as Hpush.
{ intros r2 fsel Hb2 Hw Heq.
  assert (Pending ctx tn ek rank (0%nat :: S index :: indices)
            (fsel :: select :: selections)
            (expandSelection ctx tn ek r2 (drop 0 fsel) ++ rest)
            (1 + selectionWeight (fragments ctx) r2 (drop 0 fsel) + m1)%nat)
    as HP2 by (by constructor).
  rewrite drop_0 in HP2.
  apply IH in HP2; [|subst m1 m2; lia].
  eapply Steps_mono in HP2; [|shelve].
  unfold Steps in *. rewrite Heq. exact HP2.
  Unshelve. subst m1 m2. lia. }
destruct (shouldInclude node (variables ctx)) eqn:Hinc; cycle 1.
{ rewrite expandNode_excluded by done. simpl app.
  eapply Hcontinue; [|reflexivity]. simpl. by rewrite Hnode, Hinc. }
destruct node as [alias name args ds sel | name ds | tc ds sel].
- (* a field *)
  rewrite expandNode_field by done.
  destruct (String.eqb name "__typename") eqn:Hname.
  + simpl app. eapply Hcontinue; [|reflexivity].
    simpl. rewrite Hnode, Hinc. simpl. by rewrite Hname.
  + simpl app. unfold Steps.
    exists (S index :: indices), (select :: selections), m1.
    split_and!; [|done|subst m1 m2; lia].
    simpl. rewrite Hnode, Hinc. simpl. by rewrite Hname.
- (* a fragment spread *)
  assert (rank name < r)%nat as Hrank.
  { eapply bounded_node; [exact Hb | exact Hin | simpl; by left]. }
  destruct r as [|r']; [lia|].
  rewrite expandNode_spread by done.
  destruct (fragments ctx !! name) as [def|] eqn:Hdef; cycle 1.
  { simpl app. eapply Hcontinue; [|reflexivity].
    simpl. rewrite Hnode, Hinc. simpl. by rewrite Hdef. }
  destruct (isMatching ctx tn ek (DefinedFragment def)) eqn:Hmatch.
  + apply (Hpush r' (fragmentSelectionSet def)).
    * intros spread Hs. specialize (Hacyclic name def spread Hdef Hs). lia.
    * by apply nodeWeight_spread.
    * simpl. rewrite Hnode, Hinc. simpl. rewrite Hdef. simpl.
      unfold isMatching in Hmatch. simpl in Hmatch. by rewrite Hmatch.
  + simpl app. eapply Hcontinue; [|reflexivity].
    simpl. rewrite Hnode, Hinc. simpl. rewrite Hdef. simpl.
    unfold isMatching in Hmatch. simpl in Hmatch. by rewrite Hmatch.
- (* an inline fragment *)
  rewrite expandNode_inline by done.
  destruct (isMatching ctx tn ek (InlineFragment (InlineFragmentNode tc ds sel)))
    eqn:Hmatch.
  + apply (Hpush r sel).
    * by eapply (bounded_selectionSet _ _ _ (InlineFragmentNode tc ds sel)).
    * apply nodeWeight_inline.
    * simpl. rewrite Hnode, Hinc. simpl.
      unfold isMatching in Hmatch. simpl in Hmatch. by rewrite Hmatch.
  + simpl app. eapply Hcontinue; [|reflexivity].
    simpl. rewrite Hnode, Hinc. simpl.
    unfold isMatching in Hmatch. simpl in Hmatch. by rewrite Hmatch.
Qed.

Lemma next_drains_pending ctx rank tn ek fuel :
  acyclicFragments (fragments ctx) rank →
  ∀ nodes indices selections m,
    Pending ctx tn ek rank indices selections nodes m →
    (m < fuel)%nat →
    ∃ it',
      Yields fuel (mkIterator tn ek indices ctx selections) nodes it'
      ∧ next fuel it' = Ret (None, mkIterator tn ek [] ctx []).
Proof.
intros Hacyclic. induction nodes as [|node rest IH];
  intros indices selections m HP Hm;
  pose proof (next_pending ctx rank tn ek Hacyclic fuel _ _ _ _ HP Hm) as Hstep;
  simpl in Hstep.
- eexists. split; [constructor | exact Hstep].
- destruct Hstep as (indices' & selections' & m' & Hnext & HP' & Hlt).
  destruct (IH _ _ _ HP') as (it' & Hy & Hend); [lia|].
  exists it'. split; [|done]. econstructor; eauto.
Qed.

(** X3.  The fields that the iterator returns for a selection are, in order,
    the fields that the selection stands for: the included fields other
    than [__typename], with every matching fragment replaced by the
    fields its selection set stands for, and with the fragments that do
    not match or are not defined left out.  The fragment references are
    acyclic and those inside [select] have a rank below [r]. *)
Theorem next_yields_expansion ctx rank typename entityKey select r fuel :
  acyclicFragments (fragments ctx) rank →
  bounded rank r select →
  (selectionWeight (fragments ctx) r select + 2 ≤ fuel)%nat →
  ∃ it',
    Yields fuel (newSelectionIterator typename entityKey select ctx)
      (expandSelection ctx typename entityKey r select) it'
    ∧ Exhausted fuel it'.
Proof.
intros Hacyclic Hb Hfuel.
assert (Pending ctx typename entityKey rank [0%nat] [select]
          (expandSelection ctx typename entityKey r (drop 0 select) ++ [])
          (1 + selectionWeight (fragments ctx) r (drop 0 select) + 0)%nat) as HP
  by (constructor; [done | constructor]).
rewrite drop_0, app_nil_r in HP.
destruct (next_drains_pending ctx rank typename entityKey fuel Hacyclic _ _ _ _ HP)
  as (it' & Hy & Hend); [lia|].
exists it'. split; [done|]. by eexists.
Qed.

Lemma next_yields_expansion_witness :
  ∃ it',
    Yields 10
      (newSelectionIterator (Some "Todo") "Todo:1"
         IteratorExamples.spreadSelection fragmentContext)
      [scalarField "id"; scalarField "text"; scalarField "done"] it'
    ∧ Exhausted 10 it'.
Proof.
  apply (next_yields_expansion fragmentContext (λ _, 0%nat) (Some "Todo")
           "Todo:1" IteratorExamples.spreadSelection 1 10).
  - intros name def spread Hdef Hin. simpl in Hdef.
    apply lookup_singleton_Some in Hdef as [<- <-].
    simpl in Hin. inversion Hin.
  - intros spread Hin. vm_compute in Hin.
    apply list_elem_of_singleton in Hin. lia.
  - vm_compute. lia.
Defined.

(** ** Fragment matching with a schema oracle *)

(** X4.  With a schema oracle the iterator does not look into the store: over
    any other store [next] returns the same node and leaves the same
    stacks. *)
Theorem next_with_schema_ignores_store fuel st it :
  is_Some (schemaPredicates (context it)) →
  next fuel (iteratorIn st it)
  = match next fuel it with
    | Ret (node, it') => Ret (node, iteratorIn st it')
    | Throw msg => Throw msg
    | OutOfFuel => OutOfFuel
    end.
Proof.
revert it. induction fuel as [|fuel IH]; intros it Hsp; [done|].
destruct it as [tn ek indices [st0 vars frags sp0] selections]. simpl in Hsp.
destruct Hsp as [sp ->].
assert (∀ ixs sels,
          next fuel (mkIterator tn ek ixs (mkContext st vars frags (Some sp)) sels)
          = match next fuel
                    (mkIterator tn ek ixs (mkContext st0 vars frags (Some sp)) sels)
            with
            | Ret (node, it') => Ret (node, iteratorIn st it')
            | Throw msg => Throw msg
            | OutOfFuel => OutOfFuel
            end) as IH'.
{ intros ixs sels.
  apply (IH (mkIterator tn ek ixs (mkContext st0 vars frags (Some sp)) sels)).
  by eexists. }
unfold iteratorIn at 1. simpl.
destruct indices as [|index indices]; [done|].
destruct selections as [|select selections]; [done|].
unfold withStacks. simpl.
destruct (select !! index) as [n|]; [|apply IH'].
destruct (negb (shouldInclude n vars)); [apply IH'|].
destruct (negb (isFieldNode n)).
{ destruct (if negb (isInlineFragment n) then _ else _) as [fragmentNode|];
    [|apply IH'].
  destruct (negb (isInterfaceOfType sp (getTypeCondition fragmentNode) tn));
    apply IH'. }
destruct (String.eqb (getName n) "__typename"); [apply IH'|done].
Qed.

Lemma next_with_schema_ignores_store_witness :
  next 4
    (newSelectionIterator (Some "Todo") "Todo:1"
       IteratorExamples.inlineSelection (IteratorExamples.schemaContext todoStore))
  = Ret (Some (scalarField "id"),
         mkIterator (Some "Todo") "Todo:1" [1%nat; 1%nat]
           (IteratorExamples.schemaContext todoStore)
           [[scalarField "id"]; IteratorExamples.inlineSelection]).
Proof.
  pose proof (next_with_schema_ignores_store 4 todoStore
                (newSelectionIterator (Some "Todo") "Todo:1"
                   IteratorExamples.inlineSelection
                   (IteratorExamples.schemaContext intStore))
                (ex_intro _ nullableSchema eq_refl)) as H.
  exact H.
Defined.

(** ** [isScalar] *)

Lemma EntityShape_nested_ind (P : DataField → Prop) :
  P DNull →
  (∀ fields t, getField_ fields "__typename" = DStr t → P (DObj fields)) →
  (∀ items, Forall EntityShape items → Forall P items → P (DArr items)) →
  ∀ x, EntityShape x → P x.
Proof.
intros HNull HObj HArr. fix IH 2. intros x [|fields t Ht|items Hitems].
- exact HNull.
- by eapply HObj.
- apply HArr; [done|].
  induction Hitems as [|y items Hy _ IHitems]; constructor.
  + by apply IH.
  + exact IHitems.
Qed.

(** X5.  [isScalar] rejects exactly [null], the objects that have a
    [__typename], and the arrays all of whose elements it rejects; in
    particular the empty array is not a scalar, and an array is a scalar
    as soon as one element is. *)
Theorem isScalar_false_iff x : isScalar x = false ↔ EntityShape x.
Proof.
split.
- induction x as [x IH] using DataField_items_ind.
  destruct x as [| | n | s | b | items | fields]; simpl; try done.
  + intros _. constructor.
  + intros H. constructor. specialize (IH items eq_refl).
    induction IH as [|y items Hy _ IHitems]; [constructor|].
    simpl in H. apply orb_false_iff in H as [H1 H2].
    constructor; auto.
  + destruct (getField_ fields "__typename") eqn:Ht; try done.
    intros _. by econstructor.
- induction 1 as [|fields t Ht|items _ IH] using EntityShape_nested_ind.
  + done.
  + simpl. by rewrite Ht.
  + simpl. induction IH as [|y items Hy _ IHitems]; [done|].
    simpl. by rewrite Hy, IHitems.
Qed.

(** * Further properties of [src/operations/query.ts] *)

(** ** What a read does to its state *)

Lemma append_ne (a s : string) : s ≠ EmptyString → a +:+ s ≠ a.
Proof.
intros Hs. induction a as [|c a IH]; simpl; [done|].
intros H. injection H as H. by apply IH.
Qed.

Lemma joinKeys_ne parentKey childKey : joinKeys parentKey childKey ≠ parentKey.
Proof. unfold joinKeys. by apply append_ne. Qed.

Lemma mapIndexed_preserving {A : Type} (Rel : ReadState → ReadState → Prop)
  (f : A → nat → ReadState → Outcome (DataField * ReadState)) (xs : list A) :
  (∀ s, Rel s s) → (∀ s1 s2 s3, Rel s1 s2 → Rel s2 s3 → Rel s1 s3) →
  Forall (λ x, ∀ i s r s', f x i s = Ret (r, s') → Rel s s') xs →
  ∀ i out s r s', mapIndexed f xs i out s = Ret (r, s') → Rel s s'.
Proof.
intros Hrefl Htrans.
induction 1 as [|x xs Hx _ IH]; intros i out s r s' H; simpl in H.
- injection H as _ <-. apply Hrefl.
- bind_inv H. destruct a as [r1 s1].
  eapply Htrans; [eapply Hx, Hm | eapply IH, H].
Qed.

Section Preserved.

Variable ctx : Context.
Variable Rel : ReadState → ReadState → Prop.
Hypothesis Rel_refl : ∀ s, Rel s s.
Hypothesis Rel_trans : ∀ s1 s2 s3, Rel s1 s2 → Rel s2 s3 → Rel s1 s3.
Hypothesis Rel_dependency :
  ∀ key s, key ≠ getRootKey (tables (store ctx)) OpQuery →
    Rel s (addDependency key s).
Hypothesis Rel_partial :
  is_Some (schemaPredicates ctx) → ∀ s, Rel s (setPartial s).

Section PreservedTraversal.

Variable fuel : nat.
Variable rec : string → Reader.
Hypothesis rec_preserving : ∀ key, preserving Rel (rec key).

Lemma resolveLink_preserving link :
  ∀ select prevData s r s',
    resolveLink rec link select prevData s = Ret (r, s') → Rel s s'.
Proof.
induction link as [key | | links IH] using Link_nested_ind;
  intros select prevData s r s' H; simpl in H.
- eapply rec_preserving, H.
- injection H as _ <-. apply Rel_refl.
- eapply mapIndexed_preserving; [done | done | | exact H].
  eapply Forall_impl; [exact IH |]. simpl.
  intros l Hl i s0 r0 s0' H0. bind_inv H0. eapply Hl, H0.
Qed.

Lemma resolveResolverResult_preserving result :
  ∀ key select prevData s r s',
    resolveResolverResult ctx rec result key select prevData s = Ret (r, s') →
    Rel s s'.
Proof.
induction result as [result IH] using DataField_items_ind.
intros key select prevData s r s' H.
destruct result as [| | n | k | b | items | fields]; simpl in H;
  try (injection H as _ <-; apply Rel_refl).
- eapply rec_preserving, H.
- eapply mapIndexed_preserving; [done | done | | exact H].
  eapply Forall_impl; [exact (IH items eq_refl) |]. simpl.
  intros x Hx i s0 r0 s0' H0. bind_inv H0. eapply Hx, H0.
- destruct (bool_decide _); [eapply rec_preserving, H |].
  injection H as _ <-. apply Rel_refl.
Qed.

Lemma readFieldValue_preserving typename entityKey node data s v data' s' :
  readFieldValue ctx rec typename entityKey node data s = Ret (v, data', s') →
  Rel s s'.
Proof.
unfold readFieldValue. intros H.
destruct (resolverOf _ _ _) as [resolver|].
- destruct (_ || _).
  + injection H as _ _ <-. apply Rel_refl.
  + bind_inv H. destruct a as [r0 s0]. injection H as _ _ <-.
    eapply resolveResolverResult_preserving, Hm.
- destruct (negb _).
  + injection H as _ _ <-. apply Rel_refl.
  + destruct (getLink _ _) as [link|].
    * bind_inv H. destruct a as [r0 s0]. injection H as _ _ <-.
      eapply resolveLink_preserving, Hm.
    * destruct (getRecord _ _); injection H as _ _ <-; apply Rel_refl.
Qed.

Lemma readFields_preserving count :
  ∀ typename entityKey (isQuery : bool) iter data hasFields s r s',
    (isQuery = true → entityKey = getRootKey (tables (store ctx)) OpQuery) →
    readFields ctx fuel rec count typename entityKey isQuery iter data
      hasFields s = Ret (r, s') →
    Rel s s'.
Proof.
induction count as [|count IH];
  intros typename entityKey isQuery iter data hasFields s r s' Hroot H;
  simpl in H; [discriminate |].
bind_inv H. destruct a as [[node|] iter']; cycle 1.
{ injection H as _ <-. apply Rel_refl. }
set (s1 := if isQuery then addDependency _ s else s) in H.
assert (Rel s s1) as Hs1.
{ subst s1. destruct isQuery; [|apply Rel_refl].
  apply Rel_dependency. rewrite <- (Hroot eq_refl). apply joinKeys_ne. }
bind_inv H. destruct a as [[dataFieldValue data'] s2].
apply readFieldValue_preserving in Hm0 as Hs2.
eapply Rel_trans; [exact Hs1 |]. eapply Rel_trans; [exact Hs2 |]. clear Hm0.
destruct (schemaPredicates ctx) as [sp|] eqn:Hsp.
- destruct (isUndefined dataFieldValue && _).
  + eapply Rel_trans; [apply Rel_partial; by eexists | eapply IH, H]. done.
  + injection H as _ <-. apply Rel_refl.
- destruct (isUndefined dataFieldValue).
  + injection H as _ <-. apply Rel_refl.
  + eapply IH, H. done.
Qed.

Lemma readSelectionBody_preserving entityKey :
  preserving Rel (readSelectionBody ctx fuel rec entityKey).
Proof.
intros select data s r s' H. unfold readSelectionBody in H.
destruct (String.eqb_spec entityKey (getRootKey (tables (store ctx)) OpQuery))
  as [Heq|Hne].
- bind_inv H. eapply readFields_preserving, H. done.
- eapply Rel_trans; [by apply Rel_dependency|].
  destruct (getField _ _ _ _); try (injection H as _ <-; apply Rel_refl).
  bind_inv H. eapply readFields_preserving, H. done.
Qed.

End PreservedTraversal.

Lemma readSelection_preserving fuel entityKey :
  preserving Rel (readSelection fuel ctx entityKey).
Proof.
revert entityKey. induction fuel as [|fuel IH]; intros entityKey.
- intros select data s r s' H. discriminate.
- simpl. by apply readSelectionBody_preserving.
Qed.

Section PreservedRootTraversal.

Variable fuel : nat.
Variable rec : string → Reader.
Hypothesis rec_preserving : ∀ key, preserving Rel (rec key).

Lemma readRootField_preserving select originalData :
  ∀ s r s',
    readRootField ctx fuel rec select originalData s = Ret (r, s') → Rel s s'.
Proof.
induction originalData as [x IH] using DataField_items_ind.
intros s r s' H.
assert (∀ x, (∀ items, x ≠ DArr items) → x ≠ DNull →
          readRootField ctx fuel rec select x s = Ret (r, s') → Rel s s')
  as Hentity.
{ intros y Harr Hnull Hy.
  assert (match keyOfEntity (tables (store ctx)) y with
          | Some entityKey =>
              do (fieldValue, s') <-
                readSelection fuel ctx entityKey select (DObj []) s;
              Ret (if isUndefined fieldValue then DNull else fieldValue, s')
          | None =>
              match getProp y "__typename" with
              | DStr typename => rec typename select y s
              | _ => Ret (y, s)
              end
          end = Ret (r, s')) as Hy'.
  { destruct y; try done. by destruct (Harr items). }
  clear Hy. destruct (keyOfEntity _ _) as [entityKey|].
  - bind_inv Hy'. destruct a as [v s1]. injection Hy' as _ <-.
    eapply readSelection_preserving, Hm.
  - destruct (getProp y "__typename");
      try (injection Hy' as _ <-; apply Rel_refl).
    eapply rec_preserving, Hy'. }
destruct x as [| | n | k | b | items | fields];
  try (eapply Hentity; [| |exact H]; done).
- simpl in H. injection H as _ <-. apply Rel_refl.
- simpl in H.
  eapply mapIndexed_preserving; [done | done | | exact H].
  eapply Forall_impl; [exact (IH items eq_refl) |]. simpl.
  intros y Hy i s0 r0 s0' H0. eapply Hy, H0.
Qed.

Lemma readRootFields_preserving count :
  ∀ iter originalData data s r s',
    readRootFields ctx fuel rec count iter originalData data s = Ret (r, s') →
    Rel s s'.
Proof.
induction count as [|count IH]; intros iter originalData data s r s' H;
  simpl in H; [discriminate|].
bind_inv H. destruct a as [[node|] iter']; cycle 1.
{ injection H as _ <-. apply Rel_refl. }
destruct (_ && _).
- bind_inv H. destruct a as [v s1].
  eapply Rel_trans; [eapply readRootField_preserving, Hm0 | eapply IH, H].
- eapply IH, H.
Qed.

Lemma readRootBody_preserving entityKey :
  preserving Rel (readRootBody ctx fuel rec entityKey).
Proof.
intros select data s r s' H. unfold readRootBody in H.
destruct data as [| | n | k | b | items | fields]; try discriminate;
  (destruct (getProp _ "__typename");
   try (injection H as _ <-; apply Rel_refl));
  eapply readRootFields_preserving, H.
Qed.

End PreservedRootTraversal.

Lemma readRoot_preserving fuel entityKey :
  preserving Rel (readRoot fuel ctx entityKey).
Proof.
revert entityKey. induction fuel as [|fuel IH]; intros entityKey.
- intros select data s r s' H. discriminate.
- simpl. by apply readRootBody_preserving.
Qed.

End Preserved.

(** X6.  Without a schema oracle a read is never partial: whatever the store
    holds and whether or not prior data is supplied, [query] reports
    [partial = false].  (Resolvers are functions of their arguments.) *)
Theorem query_partial_needs_schema fuel st request input res :
  storeSchemaPredicates st = None →
  query fuel st request input = Ret res →
  partial res = false.
Proof.
intros Hsp H. unfold query, read in H.
bind_inv H. rename a into op. bind_inv H. destruct a as [d s'].
injection H as <-. simpl.
destruct (isUndefined d); [done|].
set (ctx := mkContext st _ _ _) in Hm0.
assert (ctxPartial s' = ctxPartial (mkReadState false ∅)) as ->; [|done].
set (Rel := λ s s' : ReadState, ctxPartial s' = ctxPartial s).
assert (∀ key s, Rel s (addDependency key s)) as Hdep by done.
assert (is_Some (schemaPredicates ctx) → ∀ s, Rel s (setPartial s)) as Hpartial.
{ intros [sp Hsome]. simpl in Hsome. congruence. }
assert (∀ s1 s2 s3, Rel s1 s2 → Rel s2 s3 → Rel s1 s3) as Htrans.
{ unfold Rel. intros s1 s2 s3 H1 H2. congruence. }
destruct input as [input|]; [destruct (isUndefined input)|].
- eapply (readSelection_preserving ctx Rel); [done|done| |done|exact Hm0].
  intros key s _. apply Hdep.
- eapply (readRoot_preserving ctx Rel); [done|done| |done|exact Hm0].
  intros key s _. apply Hdep.
- eapply (readSelection_preserving ctx Rel); [done|done| |done|exact Hm0].
  intros key s _. apply Hdep.
Qed.

Lemma query_partial_needs_schema_witness :
  partial (mkQueryResult (list_to_set ["Query.todo"; "Todo:2"]) false DNull)
  = false.
Proof.
  exact (query_partial_needs_schema 3 todoStore (requestOf todoQuery) None _
           eq_refl eq_refl).
Defined.

(** X7.  The key of the Query root itself is never among the dependencies of
    a read: the root is depended upon field by field.  (Resolvers are
    functions of their arguments.) *)
Theorem query_no_root_dependency fuel st request input res :
  query fuel st request input = Ret res →
  getRootKey (tables st) OpQuery ∉ dependencies res.
Proof.
intros H. unfold query, read in H.
bind_inv H. rename a into op. bind_inv H. destruct a as [d s'].
injection H as <-. simpl.
set (ctx := mkContext st _ _ _) in Hm0.
set (rootKey := getRootKey (tables st) OpQuery).
set (Rel := λ s s' : ReadState,
       rootKey ∉ currentDependencies s → rootKey ∉ currentDependencies s').
assert (∀ key s, key ≠ getRootKey (tables (store ctx)) OpQuery →
          Rel s (addDependency key s)) as Hdep.
{ intros key s Hkey Hs. simpl.
  apply not_elem_of_union. split; [|done].
  apply not_elem_of_singleton. intros Heq. by apply Hkey. }
assert (is_Some (schemaPredicates ctx) → ∀ s, Rel s (setPartial s)) as Hpartial
  by (intros _ s Hs; exact Hs).
assert (∀ s, Rel s s) as Hrefl by (intros s Hs; exact Hs).
assert (∀ s1 s2 s3, Rel s1 s2 → Rel s2 s3 → Rel s1 s3) as Htrans.
{ unfold Rel. intros s1 s2 s3 H1 H2. tauto. }
assert (Rel (mkReadState false ∅) s') as Hrel.
{ destruct input as [input|]; [destruct (isUndefined input)|].
  - by eapply (readSelection_preserving ctx Rel).
  - by eapply (readRoot_preserving ctx Rel).
  - by eapply (readSelection_preserving ctx Rel). }
apply Hrel. simpl. apply not_elem_of_empty.
Qed.

Lemma query_no_root_dependency_witness :
  "Query" ∉ dependencies
               (mkQueryResult (list_to_set ["Query.todo"; "Todo:2"]) false DNull).
Proof.
  exact (query_no_root_dependency 3 todoStore (requestOf todoQuery) None _
           eq_refl).
Defined.

(** ** The shape of the data that a read returns *)

Lemma setField_defined (fields : Data) k k' v :
  v ≠ DUndefined → getField_ fields k ≠ DUndefined →
  getField_ (setField fields k' v) k ≠ DUndefined.
Proof.
intros Hv Hk. destruct (decide (k' = k)) as [->|Hne].
- by rewrite getField_setField_eq.
- by rewrite getField_setField_ne.
Qed.

Lemma readFieldValue_data ctx rec typename entityKey node data s v data' s' :
  readFieldValue ctx rec typename entityKey node data s = Ret (v, data', s') →
  data' = data
  ∨ ∃ fieldValue, fieldValue ≠ DUndefined
                  ∧ data' = setField data (getFieldAlias node) fieldValue.
Proof.
unfold readFieldValue. intros H.
destruct (resolverOf _ _ _) as [resolver|].
- set (fieldValue := getRecord _ _) in H.
  assert ((if isUndefined fieldValue then data
           else setField data (getFieldAlias node) fieldValue) = data') as Hdata.
  { destruct (_ || _).
    - by injection H as _ <- _.
    - bind_inv H. destruct a as [r0 s0]. by injection H as _ <- _. }
  destruct fieldValue eqn:Hfv; simpl in Hdata; [by left|..];
    right; eexists; (split; [|by rewrite <- Hdata]); done.
- left. destruct (negb _).
  + by injection H as _ <- _.
  + destruct (getLink _ _) as [link|].
    * bind_inv H. destruct a as [r0 s0]. by injection H as _ <- _.
    * destruct (getRecord _ _); by injection H as _ <- _.
Qed.

Lemma readFields_shape ctx fuel rec count :
  ∀ typename entityKey isQuery iter data hasFields s r s',
    readFields ctx fuel rec count typename entityKey isQuery iter data
      hasFields s = Ret (r, s') →
    r = DUndefined
    ∨ ∃ fields nodes it',
        r = DObj fields
        ∧ Yields fuel iter nodes it'
        ∧ Exhausted fuel it'
        ∧ (∀ k, getField_ data k ≠ DUndefined → getField_ fields k ≠ DUndefined)
        ∧ (∀ node, node ∈ nodes →
             getField_ fields (getFieldAlias node) ≠ DUndefined)
        ∧ (∀ k, k ∉ map getFieldAlias nodes →
             getField_ fields k = getField_ data k).
Proof.
induction count as [|count IH];
  intros typename entityKey isQuery iter data hasFields s r s' H;
  simpl in H; [discriminate |].
bind_inv H. destruct a as [[node|] iter']; cycle 1.
{ injection H as <- _. destruct (_ && _); [by left|]. right.
  exists data, [], iter. split_and!; try done.
  - constructor.
  - by eexists.
  - intros node Hnode. inversion Hnode. }
bind_inv H. destruct a as [[v data1] s2].
apply readFieldValue_data in Hm0 as Hdata1.
assert (∀ x data2,
          x ≠ DUndefined →
          data2 = setField data1 (getFieldAlias node) x →
          (∀ k, getField_ data k ≠ DUndefined → getField_ data2 k ≠ DUndefined)
          ∧ getField_ data2 (getFieldAlias node) = x
          ∧ (∀ k, k ≠ getFieldAlias node → getField_ data2 k = getField_ data k))
  as Hset.
{ intros x data2 Hx ->. split_and!.
  - intros k Hk. apply setField_defined; [done|].
    destruct Hdata1 as [->|(fv & Hfv & ->)]; [done|].
    by apply setField_defined.
  - apply getField_setField_eq.
  - intros k Hk. rewrite getField_setField_ne by done.
    destruct Hdata1 as [->|(fv & Hfv & ->)]; [done|].
    by rewrite getField_setField_ne. }
assert (∀ x hasFields' s3,
          x ≠ DUndefined →
          readFields ctx fuel rec count typename entityKey isQuery iter'
            (setField data1 (getFieldAlias node) x) hasFields' s3 = Ret (r, s') →
          r = DUndefined
          ∨ ∃ fields nodes it',
              r = DObj fields
              ∧ Yields fuel iter nodes it'
              ∧ Exhausted fuel it'
              ∧ (∀ k, getField_ data k ≠ DUndefined →
                   getField_ fields k ≠ DUndefined)
              ∧ (∀ node, node ∈ nodes →
                   getField_ fields (getFieldAlias node) ≠ DUndefined)
              ∧ (∀ k, k ∉ map getFieldAlias nodes →
                   getField_ fields k = getField_ data k)) as Hnext.
{ intros x hasFields' s3 Hx Hrec.
  destruct (Hset x _ Hx eq_refl) as (Hkeep & Halias & Hother).
  apply IH in Hrec as [->|(fields & nodes & it' & -> & Hy & Hex & Hdef & Hnodes & Hrest)];
    [by left|right].
  exists fields, (node :: nodes), it'. split_and!; try done.
  - econstructor; eauto.
  - auto.
  - intros n Hn. apply elem_of_cons in Hn as [->|Hn]; [|by apply Hnodes].
    apply Hdef. by rewrite Halias.
  - intros k Hk. simpl in Hk. apply not_elem_of_cons in Hk as [Hk1 Hk2].
    rewrite Hrest by done. by apply Hother. }
destruct (schemaPredicates ctx) as [sp|].
- destruct (isUndefined v && _).
  + by eapply (Hnext DNull).
  + injection H as <- _. by left.
- destruct v; simpl in H; try (by eapply Hnext; [|exact H]).
  injection H as <- _. by left.
Qed.

(** X8.  A read of an entity returns either [undefined] or an object.  In
    the object the response key of every field that the iterator has
    returned is defined, and every other key is as in the data that was
    passed in, except [__typename], which is the typename under which
    the entity was read. *)
Theorem readSelection_result_shape fuel ctx entityKey select fields0 s r s' :
  readSelection fuel ctx entityKey select (DObj fields0) s = Ret (r, s') →
  r ≠ DUndefined →
  ∃ fields tn nodes it',
    r = DObj fields
    ∧ entityTypename ctx entityKey = Some tn
    ∧ Yields (pred fuel) (newSelectionIterator (Some tn) entityKey select ctx)
        nodes it'
    ∧ Exhausted (pred fuel) it'
    ∧ (∀ node, node ∈ nodes →
         getField_ fields (getFieldAlias node) ≠ DUndefined)
    ∧ (∀ k, k ∉ map getFieldAlias nodes →
         getField_ fields k
         = if String.eqb k "__typename" then DStr tn else getField_ fields0 k).
Proof.
intros H Hr. destruct fuel as [|fuel]; [discriminate|].
simpl in H. unfold readSelectionBody in H. unfold entityTypename.
set (isQuery := String.eqb entityKey _) in *.
set (typenameField :=
       if isQuery then DStr (getRootKey (tables (store ctx)) OpQuery)
       else getField (tables (store ctx)) entityKey "__typename" None) in H.
assert (∃ tn, typenameField = DStr tn) as [tn Htn].
{ destruct typenameField; try (by injection H as <- _); by eexists. }
rewrite Htn in H. simpl in H.
apply readFields_shape
  in H as [->|(fields & nodes & it' & -> & Hy & Hex & _ & Hnodes & Hrest)];
  [done|].
exists fields, tn, nodes, it'. split_and!; try done.
- subst typenameField. destruct isQuery; [congruence|].
  by rewrite Htn.
- intros k Hk. rewrite Hrest by done.
  destruct (String.eqb_spec k "__typename") as [->|Hne].
  + apply getField_setField_eq.
  + by rewrite getField_setField_ne.
Qed.

Lemma readSelection_result_shape_witness :
  ∃ fields tn nodes it',
    DObj [("__typename", DStr "Query"); ("int", DNum 42)] = DObj fields
    ∧ entityTypename (contextOf intStore) "Query" = Some tn
    ∧ Yields 2 (newSelectionIterator (Some tn) "Query" intQuery (contextOf intStore))
        nodes it'
    ∧ Exhausted 2 it'
    ∧ (∀ node, node ∈ nodes →
         getField_ fields (getFieldAlias node) ≠ DUndefined)
    ∧ (∀ k, k ∉ map getFieldAlias nodes →
         getField_ fields k
         = if String.eqb k "__typename" then DStr tn else getField_ [] k).
Proof.
  apply (readSelection_result_shape 3 (contextOf intStore) "Query" intQuery []
           initStoreState _ (addDependency "Query.int" initStoreState));
    [reflexivity | discriminate].
Defined.

(** X9.  [query] without prior data never returns [undefined] data: either
    the data is [null], and then the result is not partial, or it is an
    object with a [__typename]. *)
Theorem query_data_null_or_object fuel st request res :
  query fuel st request None = Ret res →
  (data res = DNull ∧ partial res = false)
  ∨ ∃ fields,
      data res = DObj fields ∧ getField_ fields "__typename" ≠ DUndefined.
Proof.
intros H. unfold query, read in H.
bind_inv H. rename a into op. bind_inv H. destruct a as [d s'].
injection H as <-. simpl.
destruct fuel as [|fuel]; [discriminate|].
simpl in Hm0. unfold readSelectionBody in Hm0.
match type of Hm0 with
| match ?x with _ => _ end = _ => destruct x eqn:Htn
end; try (injection Hm0 as <- _; by left).
simpl in Hm0.
apply readFields_shape
  in Hm0 as [->|(fields & nodes & it' & -> & _ & _ & Hdef & _ & _)];
  [by left|right].
exists fields. split; [done|]. apply Hdef. done.
Qed.

Lemma query_data_null_or_object_witness :
  (data (mkQueryResult (list_to_set ["Query.todo"; "Todo:2"]) false DNull)
   = DNull
   ∧ partial (mkQueryResult (list_to_set ["Query.todo"; "Todo:2"]) false DNull)
     = false)
  ∨ ∃ fields,
      data (mkQueryResult (list_to_set ["Query.todo"; "Todo:2"]) false DNull)
      = DObj fields
      ∧ getField_ fields "__typename" ≠ DUndefined.
Proof.
  exact (query_data_null_or_object 3 todoStore (requestOf todoQuery) _ eq_refl).
Defined.

(** ** Edge cases of [readSelection] *)

(** X10.  Without a schema oracle, a field whose resolver returns [null] or
    [undefined] is a cache miss: the loop of [readSelection] returns
    [undefined] at this field, whatever the store holds for it. *)
Theorem resolver_nullish_is_cache_miss ctx fuel rec count typename entityKey
  (isQuery : bool) iter iter' node data hasFields s resolver :
  schemaPredicates ctx = None →
  next fuel iter = Ret (Some node, iter') →
  resolverOf (store ctx) typename (getName node) = Some resolver →
  (∀ parent,
     isNullish
       (resolver parent (default [] (getFieldArguments node (variables ctx)))
          (tables (store ctx)) (variables ctx)) = true) →
  readFields ctx fuel rec (S count) typename entityKey isQuery iter data
    hasFields s
  = Ret (DUndefined,
         if isQuery then addDependency (fieldKeyOf ctx entityKey node) s else s).
Proof.
intros Hsp Hnext Hres Hnull. simpl. rewrite Hnext. simpl.
unfold readFieldValue. cbv zeta. rewrite Hres.
match goal with
| |- context [resolver ?parent ?args ?t ?vars] =>
    pose proof (Hnull parent) as Hn;
    unfold isNullish in Hn; rewrite Hn
end.
rewrite orb_true_r. simpl. by rewrite Hsp.
Qed.

Lemma resolver_nullish_is_cache_miss_witness :
  readFields (contextOf ResolverExamples.nullResolverStore) 2
    (readSelection 2 (contextOf ResolverExamples.nullResolverStore)) 1
    "Query" "Query" true
    (newSelectionIterator (Some "Query") "Query" intQuery
       (contextOf ResolverExamples.nullResolverStore))
    [("__typename", DStr "Query")] false initStoreState
  = Ret (DUndefined, addDependency "Query.int" initStoreState).
Proof.
  apply (resolver_nullish_is_cache_miss
           (contextOf ResolverExamples.nullResolverStore) 2 _ 0 "Query" "Query"
           true _
           (mkIterator (Some "Query") "Query" [1%nat]
              (contextOf ResolverExamples.nullResolverStore) [intQuery])
           (scalarField "int") _ false initStoreState
           ResolverExamples.nullResolver);
    [reflexivity | reflexivity | reflexivity | intros; reflexivity].
Defined.

(** X11.  A selection for which the iterator returns no field, such as the
    empty one or [{ __typename }], reads as an object that holds the
    [__typename] alone.  On the Query root this needs the read not to be
    partial already: otherwise the result is [undefined]. *)
Theorem readSelection_without_fields fuel ctx entityKey select fields0 s tn :
  entityTypename ctx entityKey = Some tn →
  Exhausted fuel (newSelectionIterator (Some tn) entityKey select ctx) →
  let isQuery :=
    String.eqb entityKey (getRootKey (tables (store ctx)) OpQuery) in
  readSelection (S fuel) ctx entityKey select (DObj fields0) s
  = Ret (if isQuery && ctxPartial s then DUndefined
         else DObj (setField fields0 "__typename" (DStr tn)),
         if isQuery then s else addDependency entityKey s).
Proof.
intros Htn [it' Hex] isQuery. simpl. unfold readSelectionBody.
unfold entityTypename in Htn. fold isQuery in Htn |- *.
assert ((if isQuery then DStr (getRootKey (tables (store ctx)) OpQuery)
         else getField (tables (store ctx)) entityKey "__typename" None)
        = DStr tn) as ->.
{ destruct isQuery; [congruence|].
  destruct (getField _ _ _ _); congruence. }
simpl. destruct fuel as [|fuel]; [discriminate|].
cbn [readFields]. rewrite Hex. simpl.
by destruct isQuery, (ctxPartial s).
Qed.

Lemma readSelection_without_fields_witness :
  readSelection 4 (contextOf todoStore) "Todo:1" ResolverExamples.typenameQuery
    (DObj []) initStoreState
  = Ret (DObj [("__typename", DStr "Todo")], addDependency "Todo:1" initStoreState).
Proof.
  apply (readSelection_without_fields 3 (contextOf todoStore) "Todo:1"
           ResolverExamples.typenameQuery [] initStoreState "Todo");
    [reflexivity | eexists; reflexivity].
Defined.

(** ** Lists *)

Lemma mapIndexed_Forall2 {A : Type}
  (f : A → nat → ReadState → Outcome (DataField * ReadState)) (xs : list A) :
  ∀ i out s r s',
    mapIndexed f xs i out s = Ret (r, s') →
    ∃ items,
      r = DArr (out ++ items)
      ∧ Forall2 (λ x v, ∃ index s1 s2, f x index s1 = Ret (v, s2)) xs items.
Proof.
induction xs as [|x xs IH]; intros i out s r s' H; simpl in H.
- injection H as <- _. exists []. by rewrite app_nil_r.
- bind_inv H. destruct a as [v s1].
  apply IH in H as (items & -> & Hitems).
  exists (v :: items). rewrite <- app_assoc. split; [done|].
  constructor; [|done]. eauto.
Qed.

(** X12.  The three list traversals of the read return an array with one
    element for each element of the list they are given, each element
    being what the traversal itself returns for that element of the
    list: a list is read item by item and is never [undefined] as a
    whole, whatever its items are read as. *)
Theorem list_traversals_elementwise ctx fuel rec select :
  (∀ links prevData s r s',
     resolveLink rec (LList links) select prevData s = Ret (r, s') →
     ∃ items,
       r = DArr items
       ∧ Forall2 (λ link v, ∃ prev s1 s2,
                    resolveLink rec link select prev s1 = Ret (v, s2))
           links items)
  ∧ (∀ results key prevData s r s',
       resolveResolverResult ctx rec (DArr results) key select prevData s
         = Ret (r, s') →
       ∃ items,
         r = DArr items
         ∧ Forall2 (λ result v, ∃ k prev s1 s2,
                      resolveResolverResult ctx rec result k select prev s1
                      = Ret (v, s2))
             results items)
  ∧ (∀ originals s r s',
       readRootField ctx fuel rec select (DArr originals) s = Ret (r, s') →
       ∃ items,
         r = DArr items
         ∧ Forall2 (λ original v, ∃ s1 s2,
                      readRootField ctx fuel rec select original s1 = Ret (v, s2))
             originals items).
Proof.
split_and!.
- intros links prevData s r s' H. simpl in H.
  apply mapIndexed_Forall2 in H as (items & -> & Hitems).
  exists items. split; [done|].
  eapply Forall2_impl; [exact Hitems|]. simpl.
  intros link v (index & s1 & s2 & Hv). bind_inv Hv. eauto.
- intros results key prevData s r s' H. simpl in H.
  apply mapIndexed_Forall2 in H as (items & -> & Hitems).
  exists items. split; [done|].
  eapply Forall2_impl; [exact Hitems|]. simpl.
  intros result v (index & s1 & s2 & Hv). bind_inv Hv. eauto.
- intros originals s r s' H. simpl in H.
  apply mapIndexed_Forall2 in H as (items & -> & Hitems).
  exists items. split; [done|].
  eapply Forall2_impl; [exact Hitems|]. simpl.
  intros original v (index & s1 & s2 & Hv). eauto.
Qed.

Lemma list_traversals_elementwise_witness :
  ∃ items,
    DArr [DObj [("__typename", DStr "Todo"); ("id", DNum 1);
                ("text", DStr "first")]; DUndefined]
    = DArr items
    ∧ Forall2 (λ link v, ∃ prev s1 s2,
                 resolveLink (readSelection 5 (contextOf todoStore)) link
                   [scalarField "id"; scalarField "text"] prev s1
                 = Ret (v, s2))
        [LKey "Todo:1"; LKey "Todo:2"] items.
Proof.
  destruct (list_traversals_elementwise (contextOf todoStore) 5
              (readSelection 5 (contextOf todoStore))
              [scalarField "id"; scalarField "text"]) as (H & _ & _).
  exact (H [LKey "Todo:1"; LKey "Todo:2"] DUndefined initStoreState _ _ eq_refl).
Defined.

(** ** Prior data that the store no longer backs *)

(** X13.  In prior data, an entity with a key whose [__typename] record is not
    in the store reads as [null], not as [undefined]; the entity is
    added to the dependencies. *)
Theorem readRootField_missing_entity ctx fuel rec select fields key s :
  keyOfEntity (tables (store ctx)) (DObj fields) = Some key →
  key ≠ getRootKey (tables (store ctx)) OpQuery →
  (∀ t, getField (tables (store ctx)) key "__typename" None ≠ DStr t) →
  readRootField ctx (S fuel) rec select (DObj fields) s
  = Ret (DNull, addDependency key s).
Proof.
intros Hkey Hroot Htn. simpl. rewrite Hkey. simpl. unfold readSelectionBody.
apply String.eqb_neq in Hroot. rewrite Hroot.
destruct (getField _ _ _ _) eqn:Hf; try done.
by destruct (Htn s0).
Qed.

Lemma readRootField_missing_entity_witness :
  readRootField (contextOf todoStore) 1 (readRoot 1 (contextOf todoStore))
    [scalarField "id"; scalarField "text"] (DObj ResolverExamples.missingTodo)
    initStoreState
  = Ret (DNull, addDependency "Todo:2" initStoreState).
Proof.
  apply (readRootField_missing_entity (contextOf todoStore) 0 _ _
           ResolverExamples.missingTodo "Todo:2" initStoreState);
    [reflexivity | discriminate | intros t; discriminate].
Defined.

(** ** Termination of a read with prior data *)

Lemma readRootField_halts ctx fuel rec select :
  (∀ key data s, halts (readSelection fuel ctx key select data s)) →
  (∀ key data s, halts (rec key select data s)) →
  ∀ originalData s, halts (readRootField ctx fuel rec select originalData s).
Proof.
intros Hsel Hrec originalData.
induction originalData as [x IH] using DataField_items_ind. intros s.
assert (halts
          match keyOfEntity (tables (store ctx)) x with
          | Some entityKey =>
              do (fieldValue, s') <-
                readSelection fuel ctx entityKey select (DObj []) s;
              Ret (if isUndefined fieldValue then DNull else fieldValue, s')
          | None =>
              match getProp x "__typename" with
              | DStr typename => rec typename select x s
              | _ => Ret (x, s)
              end
          end) as Hentity.
{ destruct (keyOfEntity _ _) as [entityKey|].
  - pose proof (Hsel entityKey (DObj []) s) as Hh.
    destruct (readSelection _ _ _ _ _ _) as [[v s1]| |]; done.
  - destruct (getProp x "__typename"); done. }
destruct x as [| | n | k | b | items | fields]; try exact Hentity.
simpl. apply mapIndexed_halts.
eapply Forall_impl; [exact (IH items eq_refl)|]. simpl.
intros y Hy i s0. apply Hy.
Qed.

Lemma readRootFields_halts ctx rank fuel rec :
  acyclicFragments (fragments ctx) rank →
  ∀ count m iter originalData data s,
    context iter = ctx →
    Frames (fragments ctx) rank (indexStack iter) (selectionStack iter) m →
    (m < fuel)%nat → (m < count)%nat →
    (∀ r select,
       bounded rank r select →
       (selectionWeight (fragments ctx) r select + 2 ≤ m)%nat →
       ∀ key data s, halts (rec key select data s)) →
    halts (readRootFields ctx fuel rec count iter originalData data s).
Proof.
intros Hacyclic. induction count as [|count IH];
  intros m iter originalData data s Hctx HF Hfuel Hcount Hrec; [lia |].
simpl.
destruct (next_progress ctx rank Hacyclic fuel iter m Hctx HF Hfuel)
  as (res & it1 & m1 & -> & Hctx1 & _ & _ & HF1 & Hres).
simpl. destruct res as [node|]; [| done].
destruct Hres as (r & Hb & Hle).
assert (∀ data1 s1,
          halts (readRootFields ctx fuel rec count it1 originalData data1 s1))
  as Hrest.
{ intros. apply (IH m1); try done; try lia.
  intros r' select' Hb' Hle'. apply (Hrec r' select' Hb'). lia. }
destruct (_ && _); [|apply Hrest].
match goal with
| |- halts (obind ?v _) =>
    assert (halts v) as Hv;
    [| destruct v as [[v0 s0] | |]; try done]
end.
{ apply readRootField_halts.
  - intros. apply (readSelection_halts ctx rank Hacyclic fuel r); [done | lia].
  - intros. apply (Hrec r); [done | lia]. }
simpl. apply Hrest.
Qed.

Lemma readRoot_halts ctx rank :
  acyclicFragments (fragments ctx) rank →
  ∀ fuel r select,
    bounded rank r select →
    (selectionWeight (fragments ctx) r select + 3 ≤ fuel)%nat →
    ∀ entityKey data s, halts (readRoot fuel ctx entityKey select data s).
Proof.
intros Hacyclic. induction fuel as [|fuel IH];
  intros r select Hb Hfuel entityKey data s; [lia |].
simpl. unfold readRootBody.
assert (∀ typename,
          halts (readRootFields ctx fuel (readRoot fuel ctx) fuel
                   (newSelectionIterator (Some entityKey) entityKey select ctx)
                   data (setField [] "__typename" (DStr typename)) s)) as Hloop.
{ intros typename. eapply (readRootFields_halts ctx rank); try done.
  - apply (Frames_new _ _ r). exact Hb.
  - lia.
  - lia.
  - intros r' select' Hb' Hle'. apply (IH r' select' Hb'). lia. }
destruct data as [| | n | k | b | items | fields]; try done;
  (destruct (getProp _ "__typename"); try done; apply Hloop).
Qed.

(** X14.  When the fragment references of the document are acyclic, [query]
    terminates, with and without prior data and whatever the store and
    the prior data are: from some amount of fuel on the model of [query]
    returns or raises an error. *)
Theorem query_terminates st request rank :
  acyclicFragments (getFragments (query_ request)) rank →
  ∃ bound, ∀ fuel, (bound ≤ fuel)%nat →
    ∀ input, halts (query fuel st request input).
Proof.
intros Hacyclic. unfold query, read.
destruct (getMainOperation (query_ request)) as [op|msg|] eqn:Hop; cycle 1.
{ exists 0%nat. intros fuel _ input. done. }
{ exfalso. revert Hop. generalize (query_ request).
  intros doc. induction doc as [|[o|f] doc IH]; simpl; done. }
destruct (bounded_exists rank (operationSelectionSet op)) as [r Hb].
exists (selectionWeight (getFragments (query_ request)) r
          (operationSelectionSet op) + 3)%nat.
intros fuel Hfuel input. simpl.
set (ctx := mkContext st _ _ _).
match goal with
| |- halts (obind ?v _) =>
    assert (halts v) as Hv;
    [| destruct v as [[v0 s0] | |]; try done]
end.
destruct input as [input|]; [destruct (isUndefined input)|].
- by apply (readSelection_halts ctx rank Hacyclic fuel r).
- by apply (readRoot_halts ctx rank Hacyclic fuel r).
- by apply (readSelection_halts ctx rank Hacyclic fuel r).
Qed.

Lemma query_terminates_witness :
  ∃ bound, ∀ fuel, (bound ≤ fuel)%nat →
    ∀ input,
      halts (query fuel todoStore
               (mkRequest
                  [OperationDefinition (mkOperation OpQuery None [] fragmentQuery);
                   FragmentDefinition todoFragment] None)
               input).
Proof.
  apply (query_terminates todoStore
           (mkRequest
              [OperationDefinition (mkOperation OpQuery None [] fragmentQuery);
               FragmentDefinition todoFragment] None)
           (λ _, 0%nat)).
  intros name def spread Hdef Hin.
  change (<[fragmentName todoFragment := todoFragment]> (∅ : Fragments) !! name
          = Some def) in Hdef.
  apply lookup_insert_Some in Hdef as [[<- <-]|[_ Hdef]]; [|done].
  simpl in Hin. inversion Hin.
Defined.

(** ** Reading a store that holds the graph of a result *)

(** X15.  When the tables of the store hold the normalized graph of a result
    [R] of a query, that is, for every entity that [R] shows its
    [__typename] record, the record of each scalar field and the link of
    each field with a selection set, then [query] returns data
    deep-equal to [R], and the result is not partial.  The store has no
    schema oracle and no resolvers; the selection sets consist of
    field nodes with distinct response keys. *)
Theorem query_reads_normalized_result fuel st request op R :
  storeSchemaPredicates st = None →
  resolvers st = ∅ →
  getMainOperation (query_ request) = Ret op →
  operation op = OpQuery →
  NormalizedResult (normalizeVariables op (requestVariables request))
    (tables st) (getRootKey (tables st) OpQuery) (operationSelectionSet op) R →
  (selectionSize (operationSelectionSet op) + 3 ≤ fuel)%nat →
  ∃ res,
    query fuel st request None = Ret res
    ∧ DeepEqual (data res) R
    ∧ partial res = false.
Proof.
intros Hschema Hres Hop Hquery HR Hfuel.
set (ctx := mkContext st (normalizeVariables op (requestVariables request))
              (getFragments (query_ request)) (storeSchemaPredicates st)).
destruct (read_back ctx (tables st) Hschema Hres eq_refl) as (Hread & _ & _).
destruct (Hread _ _ _ HR fuel (mkReadState false ∅) Hfuel eq_refl)
  as (d & s' & Hd & Heq & Hdef & Hpartial).
assert (isUndefined d = false) as Hundef by (by destruct d).
exists (mkQueryResult (currentDependencies s')
          (if isUndefined d then false else ctxPartial s')
          (if isUndefined d then DNull else d)).
split_and!.
- unfold query, read. rewrite Hop. cbn [obind]. rewrite Hquery.
  fold ctx. cbn [currentDependencies initStoreState]. by rewrite Hd.
- simpl. by rewrite Hundef.
- simpl. by rewrite Hundef.
Qed.

Lemma query_reads_normalized_result_witness :
  ∃ res,
    query 9 (mkStore RoundTripExamples.todoGraph ∅ ∅ None) (requestOf todoQuery)
      None = Ret res
    ∧ DeepEqual (data res) RoundTripExamples.todoResult
    ∧ partial res = false.
Proof.
  apply (query_reads_normalized_result 9
           (mkStore RoundTripExamples.todoGraph ∅ ∅ None) (requestOf todoQuery)
           (mkOperation OpQuery None [] todoQuery) RoundTripExamples.todoResult);
    [reflexivity | reflexivity | reflexivity | reflexivity
    | exact todoResult_normalized | vm_compute; lia].
Defined.

(** ** Resolver values that are not entities *)

(** X16.  Without a schema oracle, a field with a selection set whose resolver
    returns a value that is neither a list nor [null] nor, by
    [isDataOrKey], a key or an object with a [__typename], for instance a
    number or a boolean, is a cache miss: the loop of [readSelection]
    returns [undefined] at this field. *)
Theorem resolver_scalar_is_cache_miss ctx fuel rec count typename entityKey
  (isQuery : bool) iter iter' node data hasFields s resolver :
  schemaPredicates ctx = None →
  next fuel iter = Ret (Some node, iter') →
  hasSelectionSet node = true →
  resolverOf (store ctx) typename (getName node) = Some resolver →
  (∀ parent,
     let v := resolver parent (default [] (getFieldArguments node (variables ctx)))
                (tables (store ctx)) (variables ctx) in
     isDataOrKey v = false ∧ (∀ items, v ≠ DArr items)) →
  readFields ctx fuel rec (S count) typename entityKey isQuery iter data
    hasFields s
  = Ret (DUndefined,
         if isQuery then addDependency (fieldKeyOf ctx entityKey node) s else s).
Proof.
intros Hsp Hnext Hsel Hres Hscalar. simpl. rewrite Hnext. simpl.
unfold readFieldValue. cbv zeta. rewrite Hres, Hsel. simpl.
match goal with
| |- context [resolver ?parent ?args ?t ?vars] =>
    destruct (Hscalar parent) as [Hkey Harr];
    destruct (resolver parent args t vars) as [| | n | k | b | items | fields]
      eqn:Hv
end; simpl; try (by rewrite Hsp); try done.
- by destruct (Harr items).
- simpl in Hkey. rewrite Hkey. simpl. by rewrite Hsp.
Qed.

Lemma resolver_scalar_is_cache_miss_witness :
  readFields (contextOf ScalarResolverExamples.numberResolverStore) 2
    (readSelection 2 (contextOf ScalarResolverExamples.numberResolverStore)) 1
    "Query" "Query" true
    (newSelectionIterator (Some "Query") "Query" todoQuery
       (contextOf ScalarResolverExamples.numberResolverStore))
    [("__typename", DStr "Query")] false initStoreState
  = Ret (DUndefined, addDependency "Query.todo" initStoreState).
Proof.
  apply (resolver_scalar_is_cache_miss
           (contextOf ScalarResolverExamples.numberResolverStore) 2 _ 0 "Query"
           "Query" true _
           (mkIterator (Some "Query") "Query" [1%nat]
              (contextOf ScalarResolverExamples.numberResolverStore) [todoQuery])
           (objectField "todo" [scalarField "id"; scalarField "text"]) _ false
           initStoreState ScalarResolverExamples.numberResolver);
    [reflexivity | reflexivity | reflexivity | reflexivity
    | intros parent; split; [reflexivity | discriminate]].
Defined.

(** ** Prior data made of scalars *)

Lemma readRootFields_scalars ctx fuel rec originalData count :
  (∀ k, let v := getProp originalData k in isNull v || isScalar v = true) →
  ∀ iter data s r s',
    readRootFields ctx fuel rec count iter originalData data s = Ret (r, s') →
    s' = s.
Proof.
intros Hscalar. induction count as [|count IH]; intros iter data s r s' H;
  simpl in H; [discriminate|].
bind_inv H. destruct a as [[node|] iter']; [|by injection H as _ <-].
specialize (Hscalar (getFieldAlias node)). simpl in Hscalar.
assert (hasSelectionSet node
        && negb (isNull (getProp originalData (getFieldAlias node)))
        && negb (isScalar (getProp originalData (getFieldAlias node))) = false)
  as Hcond.
{ destruct (hasSelectionSet node); [|done].
  destruct (isNull _); [done|]. simpl in *. by rewrite Hscalar. }
rewrite Hcond in H. eapply IH, H.
Qed.

(** X17.  A read with prior data all of whose properties are scalars or
    [null] leaves the state of the read as it is: it adds no
    dependency, not even on the root fields that it returns. *)
Theorem readRoot_scalars_no_dependencies fuel ctx entityKey select fields
  s r s' :
  (∀ k, let v := getField_ fields k in isNull v || isScalar v = true) →
  readRoot fuel ctx entityKey select (DObj fields) s = Ret (r, s') →
  s' = s.
Proof.
intros Hscalar H. destruct fuel as [|fuel]; [discriminate|].
simpl in H. unfold readRootBody in H. cbn [getProp] in H.
destruct (getField_ fields "__typename"); try (by injection H as _ <-).
eapply readRootFields_scalars; [|exact H]. exact Hscalar.
Qed.

Lemma readRoot_scalars_no_dependencies_witness :
  readRoot 3 (contextOf intStore) "Query" intQuery
    (DObj ScalarResolverExamples.priorInt) initStoreState
  = Ret (DObj [("__typename", DStr "Query"); ("int", DNum 1)], initStoreState)
  ∧ initStoreState = initStoreState.
Proof.
  split; [reflexivity|].
  apply (readRoot_scalars_no_dependencies 3 (contextOf intStore) "Query" intQuery
           ScalarResolverExamples.priorInt initStoreState
           (DObj [("__typename", DStr "Query"); ("int", DNum 1)])).
  - intros k. unfold ScalarResolverExamples.priorInt. cbn [getField_].
    destruct (String.eqb "__typename" k); [reflexivity|].
    destruct (String.eqb "int" k); reflexivity.
  - reflexivity.
Defined.

(** ** Reading a selection and reading its flattening *)

#[local] Arguments shouldInclude : simpl never.

Lemma expandNode_selected ctx tn ek r :
  ∀ node n,
    n ∈ expandNode ctx tn ek r node →
    isFieldNode n = true ∧ selects (variables ctx) n = true.
Proof.
induction r as [|r IHr]; intros node;
  induction node as [alias name args ds | alias name args ds sel IH | name ds
                    | tc ds sel IH] using SelectionNode_nested_ind;
  intros n Hn;
  match type of Hn with
  | _ ∈ expandNode _ _ _ _ ?node =>
      destruct (shouldInclude node (variables ctx)) eqn:Hinc;
      [|rewrite expandNode_excluded in Hn by done; inversion Hn]
  end.
all: try (rewrite expandNode_field in Hn by done;
          destruct (String.eqb name "__typename") eqn:Hname; [inversion Hn|];
          apply list_elem_of_singleton in Hn as ->;
          split; [done|]; unfold selects; simpl; by rewrite Hinc, Hname).
all: try (rewrite expandNode_inline in Hn by done;
          destruct (isMatching _ _ _ _); [|inversion Hn];
          apply list_elem_of_In, in_flat_map in Hn as (node & Hnode & Hn);
          rewrite Forall_forall in IH;
          apply (IH node); by apply list_elem_of_In).
- simpl in Hn. rewrite Hinc in Hn. inversion Hn.
- rewrite expandNode_spread in Hn by done.
  destruct (fragments ctx !! name) as [def|]; [|inversion Hn].
  destruct (isMatching _ _ _ _); [|inversion Hn].
  apply list_elem_of_In, in_flat_map in Hn as (node & Hnode & Hn).
  apply (IHr node). by apply list_elem_of_In.
Qed.

Lemma Yields_selected fuel tn ek ctx (nodes : SelectionSet) :
  Forall (λ n, isFieldNode n = true ∧ selects (variables ctx) n = true) nodes →
  (length nodes + 2 ≤ fuel)%nat →
  ∃ it',
    Yields fuel (newSelectionIterator tn ek nodes ctx) nodes it'
    ∧ Exhausted fuel it'.
Proof.
intros Hall Hfuel.
assert (Forall (λ node, isFieldNode node = true) nodes) as Hfields.
{ eapply Forall_impl; [exact Hall|]. by intros n [? ?]. }
assert (∀ (left : list SelectionNode) i,
          drop i nodes = left →
          ∃ it',
            Yields fuel (mkIterator tn ek [i] ctx [nodes]) left it'
            ∧ Exhausted fuel it') as Hgen.
{ induction left as [|node rest IH]; intros i Hdrop.
  - exists (mkIterator tn ek [i] ctx [nodes]). split; [constructor|].
    eexists. rewrite (next_scan fuel tn ek ctx nodes Hfields [] i Hdrop);
      [reflexivity | simpl; lia].
  - assert (length (node :: rest) ≤ length nodes)%nat as Hlen.
    { rewrite <- Hdrop, length_drop. lia. }
    assert (node ∈ nodes) as Hin.
    { apply (subseteq_drop i nodes). rewrite Hdrop. apply list_elem_of_here. }
    rewrite Forall_forall in Hall. destruct (Hall node Hin) as [_ Hsel].
    destruct (IH (S i)) as (it' & Hy & Hex).
    { by eapply drop_cons_inv. }
    exists it'. split; [|done].
    econstructor; [|exact Hy].
    rewrite (next_scan fuel tn ek ctx nodes Hfields (node :: rest) i Hdrop)
      by lia.
    by rewrite scan_selected. }
apply (Hgen nodes 0%nat). apply drop_0.
Qed.

Lemma Pending_length ctx tn ek rank :
  acyclicFragments (fragments ctx) rank →
  ∀ nodes indices selections m,
    Pending ctx tn ek rank indices selections nodes m → (length nodes ≤ m)%nat.
Proof.
intros Hacyclic. induction nodes as [|node rest IH];
  intros indices selections m HP; simpl; [lia|].
pose proof (next_pending ctx rank tn ek Hacyclic (S m) _ _ _ _ HP
              ltac:(lia)) as Hstep.
destruct Hstep as (indices' & selections' & m' & _ & HP' & Hlt).
apply IH in HP'. lia.
Qed.

Lemma readFields_same_fields ctx fuel rec typename entityKey isQuery nodes :
  ∀ count it1 it1' it2 it2' data hasFields s,
    Yields fuel it1 nodes it1' → Exhausted fuel it1' →
    Yields fuel it2 nodes it2' → Exhausted fuel it2' →
    readFields ctx fuel rec count typename entityKey isQuery it1 data
      hasFields s
    = readFields ctx fuel rec count typename entityKey isQuery it2 data
        hasFields s.
Proof.
induction nodes as [|node nodes IH];
  intros count it1 it1' it2 it2' data hasFields s Hy1 Hex1 Hy2 Hex2;
  (destruct count as [|count]; [done|]);
  inversion Hy1; subst; inversion Hy2; subst; simpl.
- destruct Hex1 as [? ->]. destruct Hex2 as [? ->]. done.
- match goal with
  | H1 : next fuel it1 = _, H2 : next fuel it2 = _ |- _ => rewrite H1, H2
  end.
  simpl.
  destruct (readFieldValue _ _ _ _ _ _ _) as [[[v data1] s1]| |]; simpl;
    try done.
  destruct (schemaPredicates ctx).
  + destruct (_ && _); [|done]. eapply IH; eauto.
  + destruct (isUndefined v); [done|]. eapply IH; eauto.
Qed.

(** X23.  Reading a selection is reading the fields that it stands for: when
    the fragment references are acyclic, [readSelection] returns for a
    selection what it returns for the list of fields that the selection
    flattens to for the entity. *)
Theorem readSelection_flattened ctx rank r fuel entityKey select tn data s :
  acyclicFragments (fragments ctx) rank →
  bounded rank r select →
  entityTypename ctx entityKey = Some tn →
  (selectionWeight (fragments ctx) r select + 3 ≤ fuel)%nat →
  readSelection (S fuel) ctx entityKey select data s
  = readSelection (S fuel) ctx entityKey
      (expandSelection ctx (Some tn) entityKey r select) data s.
Proof.
intros Hacyclic Hb Htn Hfuel.
set (flat := expandSelection ctx (Some tn) entityKey r select).
assert (Pending ctx (Some tn) entityKey rank [0%nat] [select]
          (expandSelection ctx (Some tn) entityKey r (drop 0 select) ++ [])
          (1 + selectionWeight (fragments ctx) r (drop 0 select) + 0)%nat) as HP
  by (constructor; [done | constructor]).
rewrite drop_0, app_nil_r in HP. fold flat in HP.
destruct (next_drains_pending ctx rank (Some tn) entityKey fuel Hacyclic _ _ _ _ HP)
  as (it1' & Hy1 & Hend1); [lia|].
apply (Pending_length _ _ _ _ Hacyclic) in HP as Hlen.
destruct (Yields_selected fuel (Some tn) entityKey ctx flat)
  as (it2' & Hy2 & Hex2).
{ apply Forall_forall. intros n Hn. subst flat. unfold expandSelection in Hn.
  apply list_elem_of_In, in_flat_map in Hn as (node & _ & Hn).
  eapply expandNode_selected. by apply list_elem_of_In. }
{ lia. }
simpl. unfold readSelectionBody. unfold entityTypename in Htn.
set (isQuery := String.eqb entityKey _) in *.
assert ((if isQuery then DStr (getRootKey (tables (store ctx)) OpQuery)
         else getField (tables (store ctx)) entityKey "__typename" None)
        = DStr tn) as ->.
{ destruct isQuery; [congruence|].
  destruct (getField _ _ _ _); congruence. }
destruct (asData data) as [fields| |]; simpl; try done.
eapply readFields_same_fields; [exact Hy1 | by eexists | exact Hy2 | exact Hex2].
Qed.

Lemma readSelection_flattened_witness :
  readSelection 12 fragmentContext "Todo:1" IteratorExamples.spreadSelection
    (DObj []) initStoreState
  = readSelection 12 fragmentContext "Todo:1"
      [scalarField "id"; scalarField "text"; scalarField "done"]
      (DObj []) initStoreState.
Proof.
  apply (readSelection_flattened fragmentContext (λ _, 0%nat) 1 11 "Todo:1"
           IteratorExamples.spreadSelection "Todo" (DObj []) initStoreState).
  - intros name def spread Hdef Hin. simpl in Hdef.
    apply lookup_singleton_Some in Hdef as [<- <-].
    simpl in Hin. inversion Hin.
  - intros spread Hin. vm_compute in Hin.
    apply list_elem_of_singleton in Hin. lia.
  - reflexivity.
  - vm_compute. lia.
Defined.

(** ** The partial flag *)

(** X24.  Inside a read the partial flag is only ever set: a call of
    [readSelection] that is entered with the flag set returns with the
    flag set.  (Resolvers are functions of their arguments.) *)
Theorem readSelection_partial_sticky fuel ctx entityKey select data s r s' :
  readSelection fuel ctx entityKey select data s = Ret (r, s') →
  ctxPartial s = true →
  ctxPartial s' = true.
Proof.
intros H.
eapply (readSelection_preserving ctx
          (λ s s', ctxPartial s = true → ctxPartial s' = true)); [| | | |exact H].
- auto.
- auto.
- intros key s0 _ H0. exact H0.
- intros _ s0 _. reflexivity.
Qed.

Lemma readSelection_partial_sticky_witness :
  ctxPartial (addDependency "Todo:2" (setPartial initStoreState)) = true.
Proof.
  apply (readSelection_partial_sticky 1 (contextOf todoStore) "Todo:2" todoQuery
           (DObj []) (setPartial initStoreState) DUndefined
           (addDependency "Todo:2" (setPartial initStoreState)));
    reflexivity.
Defined.

(** * The read over a store of entities *)

(** ** What a read does to its context *)

Lemma EntityRead_mapLinks_related (Rel : EntityRead.Context → EntityRead.Context → Prop)
  (f : Link → nat → EntityRead.Context
       → Outcome (DataField * EntityRead.Context)) (links : list Link) :
  (∀ ctx, Rel ctx ctx) →
  (∀ c1 c2 c3, Rel c1 c2 → Rel c2 c3 → Rel c1 c3) →
  Forall (λ l, ∀ i ctx r ctx', f l i ctx = Ret (r, ctx') → Rel ctx ctx') links →
  ∀ i out ctx r ctx',
    EntityRead.mapLinks f links i out ctx = Ret (r, ctx') →
    Rel ctx ctx' ∧ ∃ items, r = DArr items.
Proof.
intros Hrefl Htrans.
induction 1 as [|l links Hl _ IH]; intros i out ctx r ctx' H; simpl in H.
- injection H as <- <-. split; [apply Hrefl | by eexists].
- bind_inv H. destruct a as [r1 ctx1].
  apply IH in H as [H ?]. split; [|done].
  eapply Htrans; [eapply Hl, Hm | exact H].
Qed.

Section EntityReadRelated.

Variable forEachFieldNode : SelectionSet → Fragments → Variables → list SelectionNode.
Variable Rel : EntityRead.Context → EntityRead.Context → Prop.
Hypothesis Rel_refl : ∀ ctx, Rel ctx ctx.
Hypothesis Rel_trans : ∀ c1 c2 c3, Rel c1 c2 → Rel c2 c3 → Rel c1 c3.
Hypothesis Rel_incomplete : ∀ ctx, Rel ctx (EntityRead.markIncomplete ctx).
Hypothesis Rel_dependency :
  ∀ key ctx, key ≠ "Query" → Rel ctx (EntityRead.pushDependency key ctx).

Section EntityReadRelatedLevel.

Variable rec :
  EntityRead.Context → string → SelectionSet → DataField
  → Outcome (DataField * EntityRead.Context).
Hypothesis rec_related :
  ∀ ctx key select data r ctx',
    rec ctx key select data = Ret (r, ctx') → Rel ctx ctx' ∧ r ≠ DUndefined.

Lemma EntityRead_readField_related link :
  ∀ ctx select prevData r ctx',
    EntityRead.readField rec ctx link select prevData = Ret (r, ctx') →
    Rel ctx ctx' ∧ r ≠ DUndefined.
Proof.
induction link as [key | | links IH] using Link_nested_ind;
  intros ctx select prevData r ctx' H; simpl in H.
- eapply rec_related, H.
- injection H as <- <-. split; [apply Rel_refl | done].
- eapply EntityRead_mapLinks_related in H as [H [items ->]]; [done..|].
  eapply Forall_impl; [exact IH |]. simpl.
  intros l Hl i c0 r0 c0' H0. bind_inv H0. eapply Hl, H0.
Qed.

Lemma EntityRead_readFieldNode_related entity key node data ctx data' ctx' :
  EntityRead.readFieldNode rec entity key node data ctx = Ret (data', ctx') →
  Rel ctx ctx'
  ∧ ∃ x, x ≠ DUndefined ∧ data' = setField data (getFieldAlias node) x.
Proof.
unfold EntityRead.readFieldNode. cbv zeta. intros H.
set (ctx1 := if String.eqb key "Query" then _ else ctx) in H.
assert (Rel ctx ctx1) as H1.
{ subst ctx1. destruct (String.eqb_spec key "Query") as [->|]; [|apply Rel_refl].
  apply Rel_dependency. apply joinKeys_ne. }
destruct (isUndefined _) eqn:Hundef.
{ injection H as <- <-. split; [|by exists DNull].
  eapply Rel_trans; [exact H1 | apply Rel_incomplete]. }
destruct (_ || _).
{ injection H as <- <-. split; [done|].
  eexists. split; [|done]. intros Heq. by rewrite Heq in Hundef. }
destruct (EntityRead.readLink _ _) as [link|].
- bind_inv H. destruct a as [r c2]. injection H as <- <-.
  apply EntityRead_readField_related in Hm as [H2 Hr].
  split; [by eapply Rel_trans | by exists r].
- injection H as <- <-. split; [|by exists DNull].
  eapply Rel_trans; [exact H1 | apply Rel_incomplete].
Qed.

Lemma EntityRead_readFieldNodes_related entity key nodes :
  ∀ data ctx data' ctx',
    EntityRead.readFieldNodes rec entity key nodes data ctx = Ret (data', ctx') →
    Rel ctx ctx'
    ∧ (∀ k, getField_ data k ≠ DUndefined → getField_ data' k ≠ DUndefined)
    ∧ (∀ node, node ∈ nodes → getField_ data' (getFieldAlias node) ≠ DUndefined).
Proof.
induction nodes as [|node nodes IH]; intros data ctx data' ctx' H; simpl in H.
- injection H as <- <-. split_and!; [apply Rel_refl | done |].
  intros node Hnode. inversion Hnode.
- bind_inv H. destruct a as [data1 ctx1].
  apply EntityRead_readFieldNode_related in Hm as [H1 (x & Hx & ->)].
  apply IH in H as (H2 & Hkeep & Hnodes).
  split_and!.
  + by eapply Rel_trans.
  + intros k Hk. apply Hkeep. by apply setField_defined.
  + intros n Hn. apply elem_of_cons in Hn as [->|Hn]; [|by apply Hnodes].
    apply Hkeep. by rewrite getField_setField_eq.
Qed.

Lemma EntityRead_readEntityBody_related ctx key select data r ctx' :
  EntityRead.readEntityBody forEachFieldNode rec ctx key select data
    = Ret (r, ctx') →
  Rel ctx ctx' ∧ r ≠ DUndefined.
Proof.
unfold EntityRead.readEntityBody. intros H.
destruct (EntityRead.find _ _) as [entity|].
- set (ctx1 := if negb _ then _ else ctx) in H.
  assert (Rel ctx ctx1) as H1.
  { subst ctx1. destruct (String.eqb_spec key "Query"); simpl;
      [apply Rel_refl | by apply Rel_dependency]. }
  unfold EntityRead.readSelection in H. bind_inv H. bind_inv H.
  destruct a0 as [data' c2]. injection H as <- <-.
  apply EntityRead_readFieldNodes_related in Hm0 as (H2 & _).
  split; [by eapply Rel_trans | done].
- injection H as <- <-. split; [apply Rel_incomplete | done].
Qed.

End EntityReadRelatedLevel.

Lemma EntityRead_readEntity_related fuel :
  ∀ ctx key select data r ctx',
    EntityRead.readEntity forEachFieldNode fuel ctx key select data
      = Ret (r, ctx') →
    Rel ctx ctx' ∧ r ≠ DUndefined.
Proof.
induction fuel as [|fuel IH]; intros ctx key select data r ctx' H;
  [discriminate|].
simpl in H. eapply EntityRead_readEntityBody_related; [|exact H]. exact IH.
Qed.

End EntityReadRelated.

Lemma EntityRead_extends_refl ctx : EntityRead.extends ctx ctx.
Proof. unfold EntityRead.extends. split_and!; try done. exists []. by rewrite app_nil_r. Qed.

Lemma EntityRead_extends_trans c1 c2 c3 :
  EntityRead.extends c1 c2 → EntityRead.extends c2 c3 → EntityRead.extends c1 c3.
Proof.
intros (? & ? & ? & ? & ? & [a1 Ha1]) (? & ? & ? & ? & ? & [a2 Ha2]).
unfold EntityRead.extends. split_and!; try congruence; [auto|].
exists (a1 ++ a2). rewrite Ha2, Ha1. by rewrite app_assoc.
Qed.

Lemma EntityRead_extends_markIncomplete ctx :
  EntityRead.extends ctx (EntityRead.markIncomplete ctx).
Proof. unfold EntityRead.extends. split_and!; try done. exists []. by rewrite app_nil_r. Qed.

Lemma EntityRead_extends_pushDependency key ctx :
  EntityRead.extends ctx (EntityRead.pushDependency key ctx).
Proof. unfold EntityRead.extends. split_and!; try done. by exists [key]. Qed.

(** X18.  A read over the entity store leaves the store, the fragments, the
    variables and the operation of its context as they are, never sets
    [isComplete] back to [true], and only appends to the dependencies;
    and what it returns is never [undefined]. *)
Theorem entity_read_extends_context forEachFieldNode fuel ctx key select data
  r ctx' :
  EntityRead.readEntity forEachFieldNode fuel ctx key select data
    = Ret (r, ctx') →
  EntityRead.extends ctx ctx' ∧ r ≠ DUndefined.
Proof.
apply EntityRead_readEntity_related.
- apply EntityRead_extends_refl.
- apply EntityRead_extends_trans.
- apply EntityRead_extends_markIncomplete.
- intros k c _. apply EntityRead_extends_pushDependency.
Qed.

Lemma entity_read_extends_context_witness :
  EntityRead.extends (EntityReadExamples.entityContext todoQuery)
    (EntityRead.mkContext EntityReadExamples.entityStore ∅ []
       (mkOperation OpQuery None [] todoQuery) false ["Query.todo"; "Todo:1"])
  ∧ DObj [("__typename", DStr "Query");
          ("todo", DObj [("__typename", DStr "Todo"); ("id", DNum 1);
                         ("text", DNull)])] ≠ DUndefined.
Proof.
  apply (entity_read_extends_context EntityReadExamples.fieldNodes 2
           (EntityReadExamples.entityContext todoQuery) "Query" todoQuery
           (DObj [])).
  reflexivity.
Defined.

(** ** What a read returns *)

(** X19.  A read of an entity that the store does not hold returns [null],
    marks the context incomplete and adds no dependency.  A read of an
    entity that the store holds returns an object in which the response
    key of every field node of the selection is defined: a field that is
    not cached is [null] there, it does not make the entity
    [undefined]. *)
Theorem entity_read_result forEachFieldNode fuel ctx key select data r ctx' :
  EntityRead.readEntity forEachFieldNode fuel ctx key select data
    = Ret (r, ctx') →
  match EntityRead.find (EntityRead.store ctx) key with
  | None => r = DNull ∧ ctx' = EntityRead.markIncomplete ctx
  | Some entity =>
      ∃ fields,
        r = DObj fields
        ∧ ∀ node,
            node ∈ forEachFieldNode select (EntityRead.fragments ctx)
                     (EntityRead.vars ctx) →
            getField_ fields (getFieldAlias node) ≠ DUndefined
  end.
Proof.
intros H. destruct fuel as [|fuel]; [discriminate|].
simpl in H. unfold EntityRead.readEntityBody in H.
destruct (EntityRead.find _ _) as [entity|]; [|by injection H as <- <-].
unfold EntityRead.readSelection in H. bind_inv H. bind_inv H.
destruct a0 as [data' c2]. injection H as <- <-.
eapply (EntityRead_readFieldNodes_related (λ _ _, True)) in Hm0
  as (_ & _ & Hnodes); try done.
- exists data'. split; [done|]. intros node Hnode. apply Hnodes.
  by destruct (negb _).
- intros c0 k0 sel0 d0 r0 c0' H0. split; [done|].
  eapply (EntityRead_readEntity_related forEachFieldNode (λ _ _, True)) in H0;
    try done. by destruct H0.
Qed.

Lemma entity_read_result_witness :
  ∃ fields,
    DObj [("__typename", DStr "Query");
          ("todo", DObj [("__typename", DStr "Todo"); ("id", DNum 1);
                         ("text", DNull)])] = DObj fields
    ∧ ∀ node, node ∈ todoQuery → getField_ fields (getFieldAlias node) ≠ DUndefined.
Proof.
  exact (entity_read_result EntityReadExamples.fieldNodes 2
           (EntityReadExamples.entityContext todoQuery) "Query" todoQuery
           (DObj []) _ _ eq_refl).
Defined.

(** ** Complete results *)

Lemma EntityRead_cachedField_extends ctx ctx' entity key node :
  EntityRead.extends ctx ctx' →
  EntityRead.cachedField ctx' entity key node →
  EntityRead.cachedField ctx entity key node.
Proof.
intros (Hstore & _ & Hvars & _).
unfold EntityRead.cachedField, EntityRead.fieldKeyOf.
by rewrite Hstore, Hvars.
Qed.

Lemma EntityRead_readEntity_extends forEachFieldNode fuel ctx key select data
  r ctx' :
  EntityRead.readEntity forEachFieldNode fuel ctx key select data
    = Ret (r, ctx') →
  EntityRead.extends ctx ctx' ∧ r ≠ DUndefined.
Proof.
apply EntityRead_readEntity_related.
- apply EntityRead_extends_refl.
- apply EntityRead_extends_trans.
- apply EntityRead_extends_markIncomplete.
- intros k c _. apply EntityRead_extends_pushDependency.
Qed.

Lemma EntityRead_readFieldNode_extends forEachFieldNode fuel entity key node
  data ctx data' ctx' :
  EntityRead.readFieldNode (EntityRead.readEntity forEachFieldNode fuel)
    entity key node data ctx = Ret (data', ctx') →
  EntityRead.extends ctx ctx'.
Proof.
intros H.
eapply (EntityRead_readFieldNode_related EntityRead.extends) in H; try done.
- by destruct H.
- apply EntityRead_extends_refl.
- apply EntityRead_extends_trans.
- apply EntityRead_extends_markIncomplete.
- intros k c _. apply EntityRead_extends_pushDependency.
- apply EntityRead_readEntity_extends.
Qed.

Lemma EntityRead_readFieldNodes_extends forEachFieldNode fuel entity key nodes
  data ctx data' ctx' :
  EntityRead.readFieldNodes (EntityRead.readEntity forEachFieldNode fuel)
    entity key nodes data ctx = Ret (data', ctx') →
  EntityRead.extends ctx ctx'.
Proof.
intros H.
eapply (EntityRead_readFieldNodes_related EntityRead.extends) in H; try done.
- by destruct H.
- apply EntityRead_extends_refl.
- apply EntityRead_extends_trans.
- apply EntityRead_extends_markIncomplete.
- intros k c _. apply EntityRead_extends_pushDependency.
- apply EntityRead_readEntity_extends.
Qed.

Lemma EntityRead_readFieldNode_complete forEachFieldNode fuel entity key node
  data ctx data' ctx' :
  EntityRead.readFieldNode (EntityRead.readEntity forEachFieldNode fuel)
    entity key node data ctx = Ret (data', ctx') →
  EntityRead.isComplete ctx' = true →
  EntityRead.cachedField ctx entity key node.
Proof.
unfold EntityRead.readFieldNode, EntityRead.cachedField, EntityRead.fieldKeyOf.
cbv zeta. intros H Hcomplete.
set (fieldValue := getField_ entity _) in *.
destruct (isUndefined fieldValue) eqn:Hundef.
{ injection H as _ <-. done. }
assert (fieldValue ≠ DUndefined) as Hdef
  by (intros Heq; by rewrite Heq in Hundef).
split; [done|]. intros Hsel Hnull.
rewrite Hsel, Hnull in H. simpl in H.
destruct (EntityRead.readLink _ _) as [link|] eqn:Hlink.
- revert Hlink. by destruct (String.eqb key "Query"); simpl; intros ->.
- injection H as _ <-. done.
Qed.

Lemma EntityRead_readFieldNodes_complete forEachFieldNode fuel entity key nodes :
  ∀ data ctx data' ctx',
    EntityRead.readFieldNodes (EntityRead.readEntity forEachFieldNode fuel)
      entity key nodes data ctx = Ret (data', ctx') →
    EntityRead.isComplete ctx' = true →
    ∀ node, node ∈ nodes → EntityRead.cachedField ctx entity key node.
Proof.
induction nodes as [|node nodes IH]; intros data ctx data' ctx' H Hcomplete n Hn.
{ inversion Hn. }
simpl in H. bind_inv H. destruct a as [data1 ctx1].
apply EntityRead_readFieldNode_extends in Hm as Hext1.
apply EntityRead_readFieldNodes_extends in H as Hext2.
assert (EntityRead.isComplete ctx1 = true) as Hc1.
{ destruct Hext2 as (_ & _ & _ & _ & Hmono & _).
  destruct (EntityRead.isComplete ctx1); [done|]. by rewrite Hmono in Hcomplete. }
apply elem_of_cons in Hn as [->|Hn].
- by eapply EntityRead_readFieldNode_complete.
- eapply EntityRead_cachedField_extends; [exact Hext1|]. by eapply IH.
Qed.

(** X20.  When a read of an entity leaves the context complete, the store
    holds the entity and every field node of the selection is cached on
    it: the entity has a value for the field, and where that value is
    [null] on a field with a selection set, the store has the link. *)
Theorem entity_read_complete forEachFieldNode fuel ctx key select data r ctx' :
  EntityRead.readEntity forEachFieldNode fuel ctx key select data
    = Ret (r, ctx') →
  EntityRead.isComplete ctx' = true →
  ∃ entity,
    EntityRead.find (EntityRead.store ctx) key = Some entity
    ∧ ∀ node,
        node ∈ forEachFieldNode select (EntityRead.fragments ctx)
                 (EntityRead.vars ctx) →
        EntityRead.cachedField ctx entity key node.
Proof.
intros H Hcomplete. destruct fuel as [|fuel]; [discriminate|].
simpl in H. unfold EntityRead.readEntityBody in H.
destruct (EntityRead.find _ _) as [entity|]; cycle 1.
{ injection H as _ <-. done. }
exists entity. split; [done|].
unfold EntityRead.readSelection in H. bind_inv H. bind_inv H.
destruct a0 as [data' c2]. injection H as _ <-.
set (ctx1 := if negb _ then _ else ctx) in Hm0.
assert (EntityRead.extends ctx ctx1) as Hext.
{ subst ctx1. destruct (negb _);
    [apply EntityRead_extends_pushDependency | apply EntityRead_extends_refl]. }
intros node Hnode.
eapply EntityRead_cachedField_extends; [exact Hext|].
eapply EntityRead_readFieldNodes_complete; [exact Hm0 | done |].
destruct Hext as (_ & -> & -> & _). done.
Qed.

Lemma entity_read_complete_witness :
  ∃ entity,
    EntityRead.find EntityReadExamples.entityStore "Query" = Some entity
    ∧ ∀ node,
        node ∈ EntityReadExamples.cachedQuery →
        EntityRead.cachedField
          (EntityReadExamples.entityContext EntityReadExamples.cachedQuery)
          entity "Query" node.
Proof.
  exact (entity_read_complete EntityReadExamples.fieldNodes 2
           (EntityReadExamples.entityContext EntityReadExamples.cachedQuery)
           "Query" EntityReadExamples.cachedQuery (DObj []) _ _ eq_refl eq_refl).
Defined.

(** ** Dependencies *)

Lemma EntityRead_readFieldNodes_dependencies forEachFieldNode fuel entity nodes :
  ∀ data ctx data' ctx',
    EntityRead.readFieldNodes (EntityRead.readEntity forEachFieldNode fuel)
      entity "Query" nodes data ctx = Ret (data', ctx') →
    ∀ node, node ∈ nodes →
      joinKeys "Query" (EntityRead.fieldKeyOf ctx node)
      ∈ EntityRead.dependencies ctx'.
Proof.
induction nodes as [|node nodes IH]; intros data ctx data' ctx' H n Hn.
{ inversion Hn. }
simpl in H. bind_inv H. destruct a as [data1 ctx1].
apply EntityRead_readFieldNode_extends in Hm as Hext1.
apply EntityRead_readFieldNodes_extends in H as Hext2.
apply elem_of_cons in Hn as [->|Hn].
- destruct Hext2 as (_ & _ & _ & _ & _ & [added ->]).
  apply elem_of_app. left.
  unfold EntityRead.readFieldNode in Hm. cbv zeta in Hm.
  change (String.eqb "Query" "Query") with true in Hm.
  set (ctx0 := EntityRead.pushDependency _ ctx) in Hm.
  assert (EntityRead.extends ctx0 ctx1) as Hext0.
  { destruct (isUndefined _).
    { injection Hm as _ <-. apply EntityRead_extends_markIncomplete. }
    destruct (_ || _).
    { injection Hm as _ <-. apply EntityRead_extends_refl. }
    destruct (EntityRead.readLink _ _) as [link|].
    - bind_inv Hm. destruct a as [r c2]. injection Hm as _ <-.
      eapply (EntityRead_readField_related EntityRead.extends) in Hm0;
        [by destruct Hm0 | apply EntityRead_extends_refl
        | apply EntityRead_extends_trans | ].
      apply EntityRead_readEntity_extends.
    - injection Hm as _ <-. apply EntityRead_extends_markIncomplete. }
  destruct Hext0 as (_ & _ & _ & _ & _ & [added0 ->]).
  apply elem_of_app. left. subst ctx0. simpl.
  apply elem_of_app. right. apply list_elem_of_singleton. done.
- destruct Hext1 as (_ & _ & Hvars & _).
  unfold EntityRead.fieldKeyOf. rewrite <- Hvars. by eapply IH.
Qed.

(** X21.  The dependencies of a read of an entity that the store holds: the
    key of the entity unless it is the Query root, and on the Query root
    the key of every field node of the selection.  The key ["Query"]
    itself is never added. *)
Theorem entity_read_dependencies forEachFieldNode fuel ctx key select data
  r ctx' entity :
  EntityRead.readEntity forEachFieldNode fuel ctx key select data
    = Ret (r, ctx') →
  EntityRead.find (EntityRead.store ctx) key = Some entity →
  (key ≠ "Query" → key ∈ EntityRead.dependencies ctx')
  ∧ (key = "Query" →
     ∀ node,
       node ∈ forEachFieldNode select (EntityRead.fragments ctx)
                (EntityRead.vars ctx) →
       joinKeys "Query" (EntityRead.fieldKeyOf ctx node)
       ∈ EntityRead.dependencies ctx')
  ∧ ("Query" ∉ EntityRead.dependencies ctx →
     "Query" ∉ EntityRead.dependencies ctx').
Proof.
intros H Hfind. split_and!.
- intros Hkey. destruct fuel as [|fuel]; [discriminate|].
  simpl in H. unfold EntityRead.readEntityBody in H. rewrite Hfind in H.
  apply String.eqb_neq in Hkey. rewrite Hkey in H. simpl in H.
  unfold EntityRead.readSelection in H. bind_inv H. bind_inv H.
  destruct a0 as [data' c2]. injection H as _ <-.
  apply EntityRead_readFieldNodes_extends in Hm0
    as (_ & _ & _ & _ & _ & [added ->]).
  simpl. apply elem_of_app. left. apply elem_of_app. right.
  by apply list_elem_of_singleton.
- intros -> node Hnode. destruct fuel as [|fuel]; [discriminate|].
  simpl in H. unfold EntityRead.readEntityBody in H. rewrite Hfind in H.
  change (negb (String.eqb "Query" "Query")) with false in H. cbv iota in H.
  unfold EntityRead.readSelection in H. bind_inv H. bind_inv H.
  destruct a0 as [data' c2]. injection H as _ <-.
  by eapply EntityRead_readFieldNodes_dependencies.
- revert H.
  pose (Rel := λ c c' : EntityRead.Context,
          "Query" ∉ EntityRead.dependencies c →
          "Query" ∉ EntityRead.dependencies c').
  intros H.
  eapply (EntityRead_readEntity_related forEachFieldNode Rel) in H;
    [by destruct H | intros c H0; exact H0 | | intros c H0; exact H0 | ].
  + intros c1 c2 c3 H1 H2 H0. apply H2, H1, H0.
  + intros k c Hk H0. simpl. apply not_elem_of_app. split; [done|].
    apply not_elem_of_cons. split; [done|]. apply not_elem_of_nil.
Qed.

Lemma entity_read_dependencies_witness :
  let ctx' :=
    EntityRead.mkContext EntityReadExamples.entityStore ∅ []
      (mkOperation OpQuery None [] EntityReadExamples.cachedQuery) true
      ["Query.todo"; "Todo:1"; "Query.int"] in
  ("Query" ≠ "Query" → "Query" ∈ EntityRead.dependencies ctx')
  ∧ ("Query" = "Query" →
     ∀ node,
       node ∈ EntityReadExamples.cachedQuery →
       joinKeys "Query"
         (EntityRead.fieldKeyOf
            (EntityReadExamples.entityContext EntityReadExamples.cachedQuery)
            node)
       ∈ EntityRead.dependencies ctx')
  ∧ ("Query" ∉ [] → "Query" ∉ EntityRead.dependencies ctx').
Proof.
  exact (entity_read_dependencies EntityReadExamples.fieldNodes 2
           (EntityReadExamples.entityContext EntityReadExamples.cachedQuery)
           "Query" EntityReadExamples.cachedQuery (DObj []) _ _ _
           eq_refl eq_refl).
Defined.

(** ** [query] *)

(** X22.  [query] over the entity store: without a context the result has no
    data, is incomplete and has no dependencies.  With a context the
    data is present and is never [undefined]; it is [null] exactly when
    the store does not hold the Query root; the result is complete only
    if the context was, and its dependencies are those of the context
    with the ones of the read appended. *)
Theorem entity_query_result {Request : Type}
  (makeContext : EntityRead.Store → Request → option EntityRead.Context)
  forEachFieldNode fuel st request res :
  EntityRead.query forEachFieldNode makeContext fuel st request = Ret res →
  match makeContext st request with
  | None => res = EntityRead.mkResult None false []
  | Some ctx =>
      ∃ d,
        EntityRead.data res = Some d
        ∧ d ≠ DUndefined
        ∧ (d = DNull ↔ EntityRead.find (EntityRead.store ctx) "Query" = None)
        ∧ (EntityRead.resultIsComplete res = true →
           EntityRead.isComplete ctx = true)
        ∧ ∃ added,
            EntityRead.resultDependencies res
            = EntityRead.dependencies ctx ++ added
  end.
Proof.
unfold EntityRead.query. intros H.
destruct (makeContext st request) as [ctx|]; [|by injection H as <-].
bind_inv H. destruct a as [d ctx']. injection H as <-. simpl.
exists d.
apply EntityRead_readEntity_extends in Hm as Hext.
destruct Hext as [(_ & _ & _ & _ & Hmono & Hdeps) Hd].
split_and!; try done.
- destruct fuel as [|fuel]; [discriminate|].
  simpl in Hm. unfold EntityRead.readEntityBody in Hm.
  destruct (EntityRead.find _ _) as [entity|].
  + unfold EntityRead.readSelection in Hm. bind_inv Hm. bind_inv Hm.
    destruct a0 as [data' c2]. injection Hm as <- _. done.
  + by injection Hm as <- _.
- intros Hc. destruct (EntityRead.isComplete ctx); [done|].
  by rewrite Hmono in Hc.
Qed.

Lemma entity_query_result_witness :
  ∃ d,
    Some (DObj [("__typename", DStr "Query");
                ("todo", DObj [("__typename", DStr "Todo"); ("id", DNum 1)]);
                ("int", DNum 42)]) = Some d
    ∧ d ≠ DUndefined
    ∧ (d = DNull ↔ EntityRead.find EntityReadExamples.entityStore "Query" = None)
    ∧ (true = true → true = true)
    ∧ ∃ added, ["Query.todo"; "Todo:1"; "Query.int"] = [] ++ added.
Proof.
  exact (entity_query_result
           (λ st (select : SelectionSet),
              Some (EntityReadExamples.entityContext select))
           EntityReadExamples.fieldNodes 3 EntityReadExamples.entityStore
           EntityReadExamples.cachedQuery _ eq_refl).
Defined.

(** * The dependencies of a read *)

(** ** Every call that a read makes returns into the result of the read *)

Lemma MapReaches_returns {A : Type}
  (f : A → nat → ReadState → Outcome (DataField * ReadState)) :
  (∀ x i s r s', f x i s = Ret (r, s') → grows s s') →
  ∀ xs index s x i si,
    MapReaches f xs index s x i si →
    ∀ out r s',
      mapIndexed f xs index out s = Ret (r, s') →
      ∃ ri si', f x i si = Ret (ri, si') ∧ grows s si ∧ grows si' s'.
Proof.
intros Hf xs index s x i si Hreach.
induction Hreach as [x rest index s | x0 rest index s r0 s1 x i si Hx0 _ IH];
  intros out r s' H; simpl in H.
- bind_inv H. destruct a as [ri si']. exists ri, si'.
  split_and!; [done | done |].
  eapply mapIndexed_grows; [| exact H].
  apply Forall_forall. intros y _ j s0 r1 s0'. apply Hf.
- rewrite Hx0 in H. simpl in H.
  destruct (IH _ _ _ H) as (ri & si' & Hrun & Hg1 & Hg2).
  exists ri, si'. split_and!; [done | | done].
  etrans; [eapply Hf, Hx0 | exact Hg1].
Qed.

Lemma LinkCalls_returns ctx fuel select link prevData s c :
  LinkCalls ctx fuel select link prevData s c →
  ∀ r s',
    resolveLink (readSelection fuel ctx) link select prevData s = Ret (r, s') →
    ∃ r' s'', runCall ctx c = Ret (r', s'')
              ∧ grows s (callState c) ∧ grows s'' s'.
Proof.
induction 1 as [key prevData s | links prevData s link i si data c Hreach Hprev _ IH];
  intros r s' H; simpl in H.
- exists r, s'. done.
- eapply MapReaches_returns in Hreach as (ri & si' & Hrun & Hg1 & Hg2);
    [| | exact H]; cycle 1.
  { intros l j s0 r0 s0' H0. bind_inv H0.
    eapply resolveLink_grows, H0. intros key. apply readSelection_grows. }
  simpl in Hrun. rewrite Hprev in Hrun. simpl in Hrun.
  destruct (IH _ _ Hrun) as (r' & s'' & Hc & Hg3 & Hg4).
  exists r', s''. split_and!; [done | by etrans | by etrans].
Qed.

Lemma ResultCalls_returns ctx fuel select result key prevData s c :
  ResultCalls ctx fuel select result key prevData s c →
  ∀ r s',
    resolveResolverResult ctx (readSelection fuel ctx) result key select
      prevData s = Ret (r, s') →
    ∃ r' s'', runCall ctx c = Ret (r', s'')
              ∧ grows s (callState c) ∧ grows s'' s'.
Proof.
induction 1 as [result key prevData s Harr Hnull Hdata
               | items key prevData s result i si data c Hreach Hprev _ IH];
  intros r s' H.
- exists r, s'. split_and!; [| done | done].
  unfold runCall, resolvedKey. simpl.
  destruct result as [| | n | k | b | items | fields]; simpl in H, Hdata;
    try done.
  by rewrite Hdata in H.
- simpl in H.
  eapply MapReaches_returns in Hreach as (ri & si' & Hrun & Hg1 & Hg2);
    [| | exact H]; cycle 1.
  { intros l j s0 r0 s0' H0. bind_inv H0.
    eapply resolveResolverResult_grows, H0.
    intros k. apply readSelection_grows. }
  simpl in Hrun. rewrite Hprev in Hrun. simpl in Hrun.
  destruct (IH _ _ Hrun) as (r' & s'' & Hc & Hg3 & Hg4).
  exists r', s''. split_and!; [done | by etrans | by etrans].
Qed.

Lemma FieldCalls_returns ctx fuel typename entityKey node data s c v data' s' :
  FieldCalls ctx fuel typename entityKey node data s c →
  readFieldValue ctx (readSelection fuel ctx) typename entityKey node data s
    = Ret (v, data', s') →
  ∃ r' s'', runCall ctx c = Ret (r', s'')
            ∧ grows s (callState c) ∧ grows s'' s'.
Proof.
unfold FieldCalls, readFieldValue, fieldKeyOf, isNullish.
intros [Hsel Hcalls] H. rewrite Hsel in H. simpl in H.
destruct (resolverOf _ _ _) as [resolver|].
- destruct Hcalls as [Hnullish Hcalls]. rewrite Hnullish in H.
  bind_inv H. destruct a as [r0 s0]. injection H as _ _ <-.
  eapply ResultCalls_returns; [exact Hcalls | exact Hm].
- destruct Hcalls as (link & Hlink & Hcalls). rewrite Hlink in H.
  bind_inv H. destruct a as [r0 s0]. injection H as _ _ <-.
  eapply LinkCalls_returns; [exact Hcalls | exact Hm].
Qed.

(** The body of the loop, run for a field that the loop reaches, has
    returned when the loop returns, and what it recorded is in the state
    of the loop's result. *)
Lemma LoopReaches_returns ctx fuel typename entityKey isQuery count iter data s
  node dk sk :
  LoopReaches ctx fuel typename entityKey isQuery count iter data s node dk sk →
  ∀ hasFields r s',
    readFields ctx fuel (readSelection fuel ctx) count typename entityKey
      isQuery iter data hasFields s = Ret (r, s') →
    ∃ v d1 s1,
      readFieldValue ctx (readSelection fuel ctx) typename entityKey node dk
        (fieldState ctx entityKey isQuery node sk) = Ret (v, d1, s1)
      ∧ grows s sk ∧ grows s1 s'.
Proof.
induction 1 as [count iter iter' node data s Hnext
               | count iter iter' node0 data s v data1 s1 x s2 node dk sk
                   Hnext Hvalue Haccepted _ IH];
  intros hasFields r s' H; simpl in H; rewrite Hnext in H; simpl in H.
- bind_inv H. destruct a as [[v d1] s1]. exists v, d1, s1.
  split_and!; [exact Hm | done |].
  destruct (schemaPredicates ctx) as [sp|].
  + destruct (isUndefined v && _).
    * etrans; [apply grows_setPartial |].
      eapply readFields_grows, H. intros key. apply readSelection_grows.
    * by injection H as _ <-.
  + destruct (isUndefined v).
    * by injection H as _ <-.
    * eapply readFields_grows, H. intros key. apply readSelection_grows.
- unfold fieldState, fieldKeyOf in Hvalue. rewrite Hvalue in H. simpl in H.
  assert (grows s s1) as Hg1.
  { etrans; [| eapply readFieldValue_grows, Hvalue;
               intros key; apply readSelection_grows].
    destruct isQuery; [apply grows_addDependency | done]. }
  unfold accepted in Haccepted.
  destruct (schemaPredicates ctx) as [sp|].
  + destruct (isUndefined v && _); [| done]. injection Haccepted as <- <-.
    destruct (IH _ _ _ H) as (v' & d1 & s1' & Hrun & Hg2 & Hg3).
    exists v', d1, s1'. split_and!; [done | | done].
    etrans; [exact Hg1 |]. etrans; [apply grows_setPartial | exact Hg2].
  + destruct (isUndefined v); [done |]. injection Haccepted as <- <-.
    destruct (IH _ _ _ H) as (v' & d1 & s1' & Hrun & Hg2 & Hg3).
    exists v', d1, s1'. split_and!; [done | by etrans | done].
Qed.

(** The same for the loop of a call. *)
Lemma CallReaches_returns ctx c typename node dk sk r s' :
  CallReaches ctx c typename node dk sk →
  runCall ctx c = Ret (r, s') →
  ∃ v d1 s1,
    readFieldValue ctx (readSelection (pred (callFuel c)) ctx) typename
      (callKey c) node dk
      (fieldState ctx (callKey c) (onQueryRoot ctx c) node sk) = Ret (v, d1, s1)
    ∧ grows (callState c) sk ∧ grows s1 s'.
Proof.
intros (fuel & fields & Hfuel & Htn & Hdata & Hloop) H.
unfold runCall in H. rewrite Hfuel, Hdata in H. rewrite Hfuel. simpl in H |- *.
unfold readSelectionBody in H. unfold entityTypename in Htn.
unfold onQueryRoot in *.
destruct (String.eqb (callKey c) _) eqn:Hroot.
- injection Htn as <-. simpl in H.
  destruct (LoopReaches_returns _ _ _ _ _ _ _ _ _ _ _ _ Hloop _ _ _ H)
    as (v & d1 & s1 & Hrun & Hg1 & Hg2).
  by exists v, d1, s1.
- destruct (getField _ _ _ _) as [| | | t | | |]; try done.
  injection Htn as <-. simpl in H.
  destruct (LoopReaches_returns _ _ _ _ _ _ _ _ _ _ _ _ Hloop _ _ _ H)
    as (v & d1 & s1 & Hrun & Hg1 & Hg2).
  exists v, d1, s1. split_and!; [done | | done].
  etrans; [apply grows_addDependency | exact Hg1].
Qed.

Lemma CallCalls_returns ctx c child r s' :
  CallCalls ctx c child →
  runCall ctx c = Ret (r, s') →
  ∃ r' s'', runCall ctx child = Ret (r', s'')
            ∧ grows (callState c) (callState child) ∧ grows s'' s'.
Proof.
intros (typename & node & dk & sk & Hreach & Hcalls) H.
destruct (CallReaches_returns _ _ _ _ _ _ _ _ Hreach H)
  as (v & d1 & s1 & Hrun & Hg1 & Hg2).
destruct (FieldCalls_returns _ _ _ _ _ _ _ _ _ _ _ Hcalls Hrun)
  as (r' & s'' & Hc & Hg3 & Hg4).
exists r', s''. split_and!; [done | | by etrans].
etrans; [exact Hg1 |]. etrans; [| exact Hg3].
unfold fieldState. destruct (onQueryRoot ctx c);
  [apply grows_addDependency | done].
Qed.

Lemma Visits_returns ctx c c' :
  Visits ctx c c' →
  ∀ r s',
    runCall ctx c = Ret (r, s') →
    ∃ r' s'', runCall ctx c' = Ret (r', s'')
              ∧ grows (callState c) (callState c') ∧ grows s'' s'.
Proof.
induction 1 as [c | c child c' Hcalls _ IH]; intros r s' H.
- exists r, s'. done.
- destruct (CallCalls_returns _ _ _ _ _ Hcalls H) as (r1 & s1 & Hc & Hg1 & Hg2).
  destruct (IH _ _ Hc) as (r' & s'' & Hc' & Hg3 & Hg4).
  exists r', s''. split_and!; [done | by etrans | by etrans].
Qed.

(** ** What a call records *)

(** A call on an entity other than the Query root records the key of the
    entity, whatever it returns. *)
Lemma runCall_entity_dependency ctx c r s' :
  runCall ctx c = Ret (r, s') →
  callKey c ≠ getRootKey (tables (store ctx)) OpQuery →
  callKey c ∈ currentDependencies s'.
Proof.
intros H Hne.
destruct (readSelection_dependency_completeness _ _ _ _ _ _ _ _ H)
  as (_ & Hkey & _).
by apply Hkey.
Qed.

(** A call on the Query root records the full key of every field for
    which its loop runs the body, the field at which the read is
    abandoned included. *)
Lemma runCall_root_field_dependency ctx c typename node dk sk r s' :
  runCall ctx c = Ret (r, s') →
  onQueryRoot ctx c = true →
  CallReaches ctx c typename node dk sk →
  fieldKeyOf ctx (callKey c) node ∈ currentDependencies s'.
Proof.
intros H Hroot Hreach.
destruct (CallReaches_returns _ _ _ _ _ _ _ _ Hreach H)
  as (v & d1 & s1 & Hrun & _ & Hg).
apply Hg. rewrite Hroot in Hrun. simpl in Hrun.
eapply readFieldValue_grows in Hrun; [| intros key; apply readSelection_grows].
apply Hrun. unfold addDependency. simpl. set_solver.
Qed.

(** ** Reads with prior data *)

Lemma readRoot_grows fuel ctx entityKey : growing (readRoot fuel ctx entityKey).
Proof.
apply (readRoot_preserving ctx grows).
- intros s. reflexivity.
- intros s1 s2 s3. apply grows_trans.
- intros key s _. apply grows_addDependency.
- intros _ s. apply grows_setPartial.
Qed.

Lemma readRootField_grows ctx fuel select originalData s r s' :
  readRootField ctx fuel (readRoot fuel ctx) select originalData s = Ret (r, s') →
  grows s s'.
Proof.
apply (readRootField_preserving ctx grows).
- intros s0. reflexivity.
- intros s1 s2 s3. apply grows_trans.
- intros key s0 _. apply grows_addDependency.
- intros _ s0. apply grows_setPartial.
- intros key. apply readRoot_grows.
Qed.

Lemma RootFieldCalls_returns ctx fuel select originalData s c :
  RootFieldCalls ctx fuel select originalData s c →
  ∀ r s',
    readRootField ctx fuel (readRoot fuel ctx) select originalData s
      = Ret (r, s') →
    ∃ r' s'', runEither ctx c = Ret (r', s'')
              ∧ grows s (stateOfEither c) ∧ grows s'' s'.
Proof.
induction 1 as [items s x i si c Hreach _ IH
               | originalData s entityKey Harr Hnull Hkey
               | originalData s typename Harr Hnull Hkey Htn];
  intros r s' H.
- simpl in H.
  eapply MapReaches_returns in Hreach as (ri & si' & Hrun & Hg1 & Hg2);
    [| | exact H]; cycle 1.
  { intros y j s0 r0 s0'. apply readRootField_grows. }
  destruct (IH _ _ Hrun) as (r' & s'' & Hc & Hg3 & Hg4).
  exists r', s''. split_and!; [done | by etrans | by etrans].
- assert ((do (fieldValue, s') <-
             readSelection fuel ctx entityKey select (DObj []) s;
           Ret (if isUndefined fieldValue then DNull else fieldValue, s'))
          = Ret (r, s')) as H'.
  { destruct originalData; simpl in H; rewrite ?Hkey in H; try done.
    all: by edestruct Harr. }
  bind_inv H'. destruct a as [v s1]. injection H' as _ <-.
  exists v, s1. done.
- assert (readRoot fuel ctx typename select originalData s = Ret (r, s')) as H'.
  { destruct originalData; simpl in H; rewrite ?Hkey in H;
      simpl in Htn; rewrite ?Htn in H; try done.
    all: by edestruct Harr. }
  exists r, s'. done.
Qed.

Lemma RootLoopReaches_returns ctx fuel originalData count iter s node sk :
  RootLoopReaches ctx fuel originalData count iter s node sk →
  recursesInto node originalData = true →
  ∀ data r s',
    readRootFields ctx fuel (readRoot fuel ctx) count iter originalData data s
      = Ret (r, s') →
    ∃ v s1,
      readRootField ctx fuel (readRoot fuel ctx) (getSelectionSet node)
        (getProp originalData (getFieldAlias node)) sk = Ret (v, s1)
      ∧ grows s sk ∧ grows s1 s'.
Proof.
intros Hreach Hinto.
induction Hreach as [count iter iter' node s Hnext
                    | count iter iter' node0 s node sk Hnext Hcopied _ IH
                    | count iter iter' node0 s r0 s1 node sk Hnext Hrec Hfield _ IH];
  intros data r s' H; simpl in H; rewrite Hnext in H; simpl in H.
- unfold recursesInto in Hinto. rewrite Hinto in H.
  bind_inv H. destruct a as [v s1]. exists v, s1.
  split_and!; [done | done |].
  eapply (readRootFields_preserving ctx grows), H.
  + intros s0. reflexivity.
  + intros s2 s3 s4. apply grows_trans.
  + intros key s0 _. apply grows_addDependency.
  + intros _ s0. apply grows_setPartial.
  + intros key. apply readRoot_grows.
- unfold recursesInto in Hcopied. rewrite Hcopied in H.
  by apply (IH Hinto _ _ _ H).
- unfold recursesInto in Hrec. rewrite Hrec, Hfield in H. simpl in H.
  destruct (IH Hinto _ _ _ H) as (v & s1' & Hrun & Hg1 & Hg2).
  exists v, s1'. split_and!; [done | | done].
  etrans; [eapply readRootField_grows, Hfield | exact Hg1].
Qed.

Lemma RootCallCalls_returns ctx rc c r s' :
  RootCallCalls ctx rc c →
  runEither ctx (inr rc) = Ret (r, s') →
  ∃ r' s'', runEither ctx c = Ret (r', s'')
            ∧ grows (rootCallState rc) (stateOfEither c) ∧ grows s'' s'.
Proof.
intros (fuel & typename & node & sk & Hfuel & Hundef & Hnull & Htn & Hloop
        & Hinto & Hcalls) H.
simpl in H. rewrite Hfuel in H. simpl in H. unfold readRootBody in H.
assert (readRootFields ctx fuel (readRoot fuel ctx) fuel
          (newSelectionIterator (Some (rootCallKey rc)) (rootCallKey rc)
             (rootCallSelect rc) ctx)
          (rootCallData rc) (setField [] "__typename" (DStr typename))
          (rootCallState rc) = Ret (r, s')) as H'.
{ destruct (rootCallData rc); try done; by rewrite Htn in H. }
destruct (RootLoopReaches_returns _ _ _ _ _ _ _ _ Hloop Hinto _ _ _ H')
  as (v & s1 & Hrun & Hg1 & Hg2).
destruct (RootFieldCalls_returns _ _ _ _ _ _ Hcalls _ _ Hrun)
  as (r' & s'' & Hc & Hg3 & Hg4).
exists r', s''. split_and!; [done | by etrans | by etrans].
Qed.

Lemma RootVisits_returns ctx rc c' :
  RootVisits ctx rc c' →
  ∀ r s',
    runEither ctx (inr rc) = Ret (r, s') →
    ∃ r' s'', runCall ctx c' = Ret (r', s'') ∧ grows s'' s'.
Proof.
induction 1 as [rc c c' Hcalls Hvisits | rc rc' c' Hcalls _ IH]; intros r s' H.
- destruct (RootCallCalls_returns _ _ _ _ _ Hcalls H) as (r1 & s1 & Hc & _ & Hg).
  destruct (Visits_returns _ _ _ Hvisits _ _ Hc) as (r' & s'' & Hc' & _ & Hg').
  exists r', s''. split; [done | by etrans].
- destruct (RootCallCalls_returns _ _ _ _ _ Hcalls H) as (r1 & s1 & Hc & _ & Hg).
  destruct (IH _ _ Hc) as (r' & s'' & Hc' & Hg').
  exists r', s''. split; [done | by etrans].
Qed.

(** Every call that [read] makes has returned when [query] returns, and
    the dependencies at its return are among those that [query] reports. *)
Lemma ReadVisits_returns fuel st request op input res c :
  getMainOperation (query_ request) = Ret op →
  query fuel st request input = Ret res →
  ReadVisits fuel st request op input c →
  ∃ r' s'',
    runCall (readContext st request op) c = Ret (r', s'')
    ∧ currentDependencies s'' ⊆ dependencies res.
Proof.
intros Hop H Hvisits. unfold query, read in H. rewrite Hop in H. simpl in H.
bind_inv H. destruct a as [r s']. injection H as <-. simpl.
unfold ReadVisits in Hvisits. fold (readContext st request op) in Hm.
assert (∀ c0,
          runCall (readContext st request op) c0 = Ret (r, s') →
          Visits (readContext st request op) c0 c →
          ∃ r' s'', runCall (readContext st request op) c = Ret (r', s'')
                    ∧ currentDependencies s'' ⊆ currentDependencies s')
  as Hsel.
{ intros c0 Hc0 Hv.
  destruct (Visits_returns _ _ _ Hv _ _ Hc0) as (r' & s'' & Hc & _ & Hg).
  by exists r', s''. }
destruct input as [input|]; [destruct (isUndefined input) |].
- eapply Hsel; [| exact Hvisits]. exact Hm.
- destruct (RootVisits_returns _ _ _ Hvisits _ _ Hm) as (r' & s'' & Hc & Hg).
  by exists r', s''.
- eapply Hsel; [| exact Hvisits]. exact Hm.
Qed.

(** The loop runs its body for every field that the iterator returns up
    to the point where the loop ends: when the read is abandoned this is
    the field whose value is missing, otherwise the iterator is
    exhausted. *)
Lemma readFields_reaches ctx fuel count :
  ∀ typename entityKey isQuery iter data hasFields s r s',
    readFields ctx fuel (readSelection fuel ctx) count typename entityKey
      isQuery iter data hasFields s = Ret (r, s') →
    ∃ nodes it',
      Yields fuel iter nodes it'
      ∧ (∀ node, node ∈ nodes →
           ∃ dk sk, LoopReaches ctx fuel typename entityKey isQuery count iter
                      data s node dk sk)
      ∧ (r ≠ DUndefined → Exhausted fuel it').
Proof.
induction count as [|count IH];
  intros typename entityKey isQuery iter data hasFields s r s' H;
  [discriminate |].
simpl in H. bind_inv H. destruct a as [[node|] iter']; cycle 1.
{ exists [], iter. split_and!; [constructor | | by exists iter'].
  intros node Hin. inversion Hin. }
bind_inv H. destruct a as [[v data1] s1].
assert (LoopReaches ctx fuel typename entityKey isQuery (S count) iter
          data s node data s) as Hhere.
{ eapply LoopReaches_here, Hm. }
assert (∃ nodes it',
          Yields fuel iter' nodes it'
          ∧ (∀ n, n ∈ nodes →
               ∃ dk sk, LoopReaches ctx fuel typename entityKey isQuery
                          (S count) iter data s n dk sk)
          ∧ (r ≠ DUndefined → Exhausted fuel it'))
  as (nodes & it' & Hy & Hreach & Hex).
{ destruct (accepted ctx typename node v s1) as [[x s2]|] eqn:Hacc.
  - assert (readFields ctx fuel (readSelection fuel ctx) count typename
              entityKey isQuery iter' (setField data1 (getFieldAlias node) x)
              true s2 = Ret (r, s')) as H'.
    { unfold accepted in Hacc. destruct (schemaPredicates ctx) as [sp|].
      - destruct (isUndefined v && _); [| done]. by injection Hacc as <- <-.
      - destruct (isUndefined v); [done |]. by injection Hacc as <- <-. }
    destruct (IH _ _ _ _ _ _ _ _ _ H') as (nodes & it' & Hy & Hreach & Hex).
    exists nodes, it'. split_and!; [done | | done].
    intros n Hin. destruct (Hreach n Hin) as (dk & sk & Hn).
    exists dk, sk. eapply LoopReaches_later; [exact Hm | exact Hm0 | exact Hacc |].
    exact Hn.
  - exists [], iter'. split_and!; [constructor | |].
    + intros n Hin. inversion Hin.
    + unfold accepted in Hacc. destruct (schemaPredicates ctx) as [sp|].
      * destruct (isUndefined v && _); [done |]. by injection H as <- _.
      * destruct (isUndefined v); [| done]. by injection H as <- _. }
exists (node :: nodes), it'. split_and!; [| | done].
- econstructor; [exact Hm | exact Hy].
- intros n Hin. apply elem_of_cons in Hin as [-> | Hin]; [| by apply Hreach].
  by exists data, s.
Qed.

(** C4.  Every entity key touched during a read and every root-level
    full field key appears in the dependency set that [query] returns:
    for every call of [readSelection] that the read makes, directly or
    through links, resolver results, lists and prior data, (a) when the
    call is on an entity other than the Query root its entity key is in
    the returned set, and (b) when it is on the Query root the full key
    [joinKeys rootKey fieldKey] of every field for which its loop runs
    the body is in the returned set, the field at which a read is
    abandoned included. *)
Theorem query_dependency_completeness (fuel : nat) (st : Store)
  (request : OperationRequest) (op : OperationDefinitionNode)
  (input : option DataField) (res : QueryResult) (c : Call) :
  getMainOperation (query_ request) = Ret op →
  query fuel st request input = Ret res →
  ReadVisits fuel st request op input c →
  let ctx := readContext st request op in
  let rootKey := getRootKey (tables st) OpQuery in
  (callKey c ≠ rootKey → callKey c ∈ dependencies res)
  ∧ (callKey c = rootKey →
     ∀ typename node dk sk,
       CallReaches ctx c typename node dk sk →
       joinKeys rootKey
         (keyOfField (getName node) (getFieldArguments node (variables ctx)))
       ∈ dependencies res).
Proof.
intros Hop H Hvisits ctx rootKey.
destruct (ReadVisits_returns _ _ _ _ _ _ _ Hop H Hvisits)
  as (r' & s'' & Hc & Hsub).
fold ctx in Hc. split.
- intros Hne. apply Hsub. eapply runCall_entity_dependency; [exact Hc | exact Hne].
- intros Heq typename node dk sk Hreach. apply Hsub.
  pose proof (runCall_root_field_dependency ctx c typename node dk sk r' s'' Hc)
    as Hkey.
  unfold fieldKeyOf in Hkey. rewrite Heq in Hkey. apply Hkey; [| exact Hreach].
  unfold onQueryRoot. rewrite Heq. apply String.eqb_refl.
Qed.

(** C10.  A call of [readSelection] that a read makes on an entity
    other than the Query root whose [__typename] record is absent
    returns [undefined] with the entity key added to the dependency set,
    and the key is in the dependency set that [query] returns. *)
Theorem query_missing_entity_dependency (fuel : nat) (st : Store)
  (request : OperationRequest) (op : OperationDefinitionNode)
  (input : option DataField) (res : QueryResult) (c : Call) :
  getMainOperation (query_ request) = Ret op →
  query fuel st request input = Ret res →
  ReadVisits fuel st request op input c →
  callKey c ≠ getRootKey (tables st) OpQuery →
  (∀ t, getField (tables st) (callKey c) "__typename" None ≠ DStr t) →
  runCall (readContext st request op) c
    = Ret (DUndefined, addDependency (callKey c) (callState c))
  ∧ callKey c ∈ dependencies res.
Proof.
intros Hop H Hvisits Hne Hmissing.
destruct (ReadVisits_returns _ _ _ _ _ _ _ Hop H Hvisits)
  as (r' & s'' & Hc & Hsub).
assert (runCall (readContext st request op) c
        = Ret (DUndefined, addDependency (callKey c) (callState c))) as Hrun.
{ unfold runCall in Hc |- *.
  destruct (callFuel c) as [|fuel']; [discriminate |].
  by apply readSelection_missing_entity_dependency. }
split; [exact Hrun |].
rewrite Hrun in Hc. injection Hc as _ <-. apply Hsub.
unfold addDependency. simpl. set_solver.
Qed.

Import DependencyExamples.

Lemma todoCall_visited :
  ReadVisits 3 todoStore (requestOf todoQuery) (queryOperation todoQuery) None
    todoCall.
Proof.
unfold ReadVisits. eapply rtc_l; [| apply rtc_refl].
exists "Query", (objectField "todo" [scalarField "id"; scalarField "text"]),
  [("__typename", DStr "Query")], (mkReadState false ∅).
split.
- exists 2%nat, []. split_and!; try reflexivity.
  eapply LoopReaches_here. reflexivity.
- split; [reflexivity |]. exists (LKey "Todo:2"). split; [reflexivity |].
  apply LinkCalls_key.
Qed.

Lemma abandonedQuery_reaches_missing :
  CallReaches
    (readContext intStore (requestOf abandonedQuery) (queryOperation abandonedQuery))
    (rootCall 3 abandonedQuery) "Query" (scalarField "missing")
    [("__typename", DStr "Query"); ("int", DNum 42)]
    (addDependency "Query.int" (mkReadState false ∅)).
Proof.
exists 2%nat, []. split_and!; try reflexivity.
eapply LoopReaches_later; [reflexivity | reflexivity | reflexivity |].
eapply LoopReaches_here. reflexivity.
Qed.

Lemma query_dependency_completeness_witness :
  (query 3 todoStore (requestOf todoQuery) None
   = Ret (mkQueryResult (list_to_set ["Query.todo"; "Todo:2"]) false DNull)
   ∧ ReadVisits 3 todoStore (requestOf todoQuery) (queryOperation todoQuery)
       None todoCall
   ∧ "Todo:2"
     ∈ dependencies
         (mkQueryResult (list_to_set ["Query.todo"; "Todo:2"]) false DNull))
  ∧ (query 3 intStore (requestOf abandonedQuery) None
     = Ret (mkQueryResult (list_to_set ["Query.int"; "Query.missing"]) false
              DNull)
     ∧ ReadVisits 3 intStore (requestOf abandonedQuery)
         (queryOperation abandonedQuery) None (rootCall 3 abandonedQuery)
     ∧ "Query.missing"
       ∈ dependencies
           (mkQueryResult (list_to_set ["Query.int"; "Query.missing"]) false
              DNull)).
Proof.
assert (query 3 todoStore (requestOf todoQuery) None
        = Ret (mkQueryResult (list_to_set ["Query.todo"; "Todo:2"]) false DNull))
  as Htodo by (vm_compute; reflexivity).
assert (query 3 intStore (requestOf abandonedQuery) None
        = Ret (mkQueryResult (list_to_set ["Query.int"; "Query.missing"]) false
                 DNull))
  as Hint by (vm_compute; reflexivity).
assert (ReadVisits 3 intStore (requestOf abandonedQuery)
          (queryOperation abandonedQuery) None (rootCall 3 abandonedQuery))
  as Hroot by apply rtc_refl.
split; split_and!.
- exact Htodo.
- exact todoCall_visited.
- apply (query_dependency_completeness 3 todoStore (requestOf todoQuery)
           (queryOperation todoQuery) None _ todoCall eq_refl Htodo
           todoCall_visited).
  discriminate.
- exact Hint.
- exact Hroot.
- apply (proj2 (query_dependency_completeness 3 intStore
                  (requestOf abandonedQuery) (queryOperation abandonedQuery)
                  None _ (rootCall 3 abandonedQuery) eq_refl Hint Hroot)
           eq_refl "Query" (scalarField "missing") _ _
           abandonedQuery_reaches_missing).
Defined.

Lemma query_missing_entity_dependency_witness :
  query 3 todoStore (requestOf todoQuery) None
  = Ret (mkQueryResult (list_to_set ["Query.todo"; "Todo:2"]) false DNull)
  ∧ ReadVisits 3 todoStore (requestOf todoQuery) (queryOperation todoQuery)
      None todoCall
  ∧ runCall
      (readContext todoStore (requestOf todoQuery) (queryOperation todoQuery))
      todoCall
    = Ret (DUndefined,
           addDependency "Todo:2"
             (addDependency "Query.todo" (mkReadState false ∅)))
  ∧ "Todo:2"
    ∈ dependencies
        (mkQueryResult (list_to_set ["Query.todo"; "Todo:2"]) false DNull).
Proof.
assert (query 3 todoStore (requestOf todoQuery) None
        = Ret (mkQueryResult (list_to_set ["Query.todo"; "Todo:2"]) false DNull))
  as Htodo by (vm_compute; reflexivity).
split; [exact Htodo |]. split; [exact todoCall_visited |].
apply (query_missing_entity_dependency 3 todoStore (requestOf todoQuery)
         (queryOperation todoQuery) None _ todoCall eq_refl Htodo
         todoCall_visited).
- discriminate.
- intros t. vm_compute. discriminate.
Defined.

(** * The merge of prior data with the store *)

Section MergedTraversal.

Variable ctx : Context.
Variable fuel : nat.
Variable rec : string → Reader.
Variable MergedRootRec :
  string → SelectionSet → DataField → ReadState → DataField → ReadState → Prop.
Hypothesis rec_merged :
  ∀ typename select x s r s',
    getProp x "__typename" = DStr typename →
    rec typename select x s = Ret (r, s') →
    MergedRootRec typename select x s r s'.

Lemma mapIndexed_MergedItems select items :
  Forall (λ x, ∀ s v s',
            readRootField ctx fuel rec select x s = Ret (v, s') →
            MergedField ctx fuel MergedRootRec select x s v s') items →
  ∀ i out s r s',
    mapIndexed (λ x _ s, readRootField ctx fuel rec select x s) items i out s
      = Ret (r, s') →
    ∃ vs, r = DArr (out ++ vs)
          ∧ MergedItems ctx fuel MergedRootRec select items s vs s'.
Proof.
induction 1 as [|x items Hx _ IH]; intros i out s r s' H; simpl in H.
- injection H as <- <-. exists []. rewrite app_nil_r. split; [done | constructor].
- bind_inv H. destruct a as [v s1].
  destruct (IH _ _ _ _ _ H) as (vs & -> & Hitems).
  exists (v :: vs). rewrite <- app_assoc. split; [done |].
  econstructor; [by apply Hx | exact Hitems].
Qed.

Lemma readRootField_merged select originalData :
  ∀ s v s',
    readRootField ctx fuel rec select originalData s = Ret (v, s') →
    MergedField ctx fuel MergedRootRec select originalData s v s'.
Proof.
induction originalData as [x IH] using DataField_items_ind.
intros s v s' H.
assert ((∀ items, x ≠ DArr items) → x ≠ DNull →
        MergedField ctx fuel MergedRootRec select x s v s') as Hentity.
{ intros Harr Hnull.
  assert (match keyOfEntity (tables (store ctx)) x with
          | Some entityKey =>
              do (fieldValue, s') <-
                readSelection fuel ctx entityKey select (DObj []) s;
              Ret (if isUndefined fieldValue then DNull else fieldValue, s')
          | None =>
              match getProp x "__typename" with
              | DStr typename => rec typename select x s
              | _ => Ret (x, s)
              end
          end = Ret (v, s')) as H'.
  { destruct x; try done. by edestruct Harr. }
  clear H. destruct (keyOfEntity _ _) as [entityKey|] eqn:Hkey.
  - bind_inv H'. destruct a as [v0 s0]. injection H' as <- <-.
    by eapply MergedField_entity.
  - destruct (getProp x "__typename") as [| | | typename | | |] eqn:Htn;
      try (injection H' as <- <-; apply MergedField_kept; try done;
           intros typename; rewrite Htn; discriminate).
    eapply MergedField_embedded; try done. by apply rec_merged. }
destruct x as [| | n | k | b | items | fields]; try (by apply Hentity).
- simpl in H. injection H as <- <-. constructor.
- simpl in H.
  apply mapIndexed_MergedItems in H as (vs & -> & Hitems);
    [| exact (IH items eq_refl)].
  by constructor.
Qed.

Lemma readRootFields_merged count :
  ∀ iter originalData data s r s',
    readRootFields ctx fuel rec count iter originalData data s = Ret (r, s') →
    ∃ nodes it' writes,
      Yields fuel iter nodes it'
      ∧ Exhausted fuel it'
      ∧ (length nodes < count)%nat
      ∧ MergedNodes ctx fuel MergedRootRec originalData nodes s writes s'
      ∧ r = DObj (applyWrites data writes).
Proof.
induction count as [|count IH]; intros iter originalData data s r s' H;
  [discriminate |].
simpl in H. bind_inv H. destruct a as [[node|] iter']; cycle 1.
{ injection H as <- <-. exists [], iter, [].
  split_and!; [constructor | by exists iter' | simpl; lia | constructor | done]. }
fold (recursesInto node originalData) in H.
destruct (recursesInto node originalData) eqn:Hinto.
- bind_inv H. destruct a as [v s1].
  apply readRootField_merged in Hm0.
  destruct (IH _ _ _ _ _ _ H)
    as (nodes & it' & writes & Hy & Hex & Hlen & Hnodes & ->).
  exists (node :: nodes), it', ((getFieldAlias node, v) :: writes).
  split_and!; [econstructor; eauto | done | simpl; lia | | done].
  eapply MergedNodes_merged; eauto.
- destruct (IH _ _ _ _ _ _ H)
    as (nodes & it' & writes & Hy & Hex & Hlen & Hnodes & ->).
  exists (node :: nodes), it',
    ((getFieldAlias node, getProp originalData (getFieldAlias node)) :: writes).
  split_and!; [econstructor; eauto | done | simpl; lia | | done].
  by eapply MergedNodes_copied.
Qed.

(** Conversely, the traversal returns what the relations describe. *)
Hypothesis merged_rec :
  ∀ typename select x s r s',
    MergedRootRec typename select x s r s' →
    rec typename select x s = Ret (r, s').

Lemma MergedField_readRootField select x s v s' :
  MergedField ctx fuel MergedRootRec select x s v s' →
  readRootField ctx fuel rec select x s = Ret (v, s').
Proof.
revert x s v s'.
apply (MergedField_mutual ctx fuel MergedRootRec select
         (λ x s v s', readRootField ctx fuel rec select x s = Ret (v, s'))
         (λ items s vs s',
            ∀ i out,
              mapIndexed (λ x _ s, readRootField ctx fuel rec select x s)
                items i out s = Ret (DArr (out ++ vs), s'))).
- intros items s vs s' _ IH. simpl. apply (IH 0%nat []).
- done.
- intros x s entityKey v s' Harr Hnull Hkey Hread.
  destruct x; simpl; rewrite ?Hkey, ?Hread; try done.
  all: by edestruct Harr.
- intros x s typename v s' Harr Hnull Hkey Htn Hrec.
  apply merged_rec in Hrec.
  destruct x; simpl in *; rewrite ?Hkey, ?Htn; try done.
  all: by edestruct Harr.
- intros x s Harr Hnull Hkey Htn.
  destruct x; simpl in *; rewrite ?Hkey; try done.
  all: try (by edestruct Harr).
  all: destruct (getField_ _ "__typename"); try done; by edestruct Htn.
- intros s i out. simpl. by rewrite app_nil_r.
- intros x items s v s1 vs s' _ Hx _ IH i out. simpl. rewrite Hx. simpl.
  rewrite (IH (S i) (out ++ [v])). by rewrite <- app_assoc.
Qed.

Lemma MergedNodes_readRootFields originalData nodes s writes s' :
  MergedNodes ctx fuel MergedRootRec originalData nodes s writes s' →
  ∀ count iter it' data,
    Yields fuel iter nodes it' →
    Exhausted fuel it' →
    (length nodes < count)%nat →
    readRootFields ctx fuel rec count iter originalData data s
    = Ret (DObj (applyWrites data writes), s').
Proof.
induction 1 as [s | node nodes s writes s' Hcopied _ IH
               | node nodes s v s1 writes s' Hinto Hfield _ IH];
  intros count iter it' data Hy Hex Hlen;
  (destruct count as [|count]; [simpl in Hlen; lia |]); simpl.
- inversion Hy; subst. destruct Hex as [it'' Hex]. by rewrite Hex.
- inversion Hy as [| ? ? it1 ? ? Hnext Hrest]; subst. rewrite Hnext. simpl.
  fold (recursesInto node originalData). rewrite Hcopied.
  eapply IH; [exact Hrest | exact Hex | simpl in Hlen; lia].
- inversion Hy as [| ? ? it1 ? ? Hnext Hrest]; subst. rewrite Hnext. simpl.
  fold (recursesInto node originalData). rewrite Hinto.
  rewrite (MergedField_readRootField _ _ _ _ _ Hfield). simpl.
  eapply IH; [exact Hrest | exact Hex | simpl in Hlen; lia].
Qed.

End MergedTraversal.

Lemma readRoot_merged fuel ctx :
  ∀ entityKey select originalData s r s' typename,
    getProp originalData "__typename" = DStr typename →
    readRoot fuel ctx entityKey select originalData s = Ret (r, s') →
    MergedRoot fuel ctx entityKey select originalData s r s'.
Proof.
induction fuel as [|fuel IH];
  intros entityKey select originalData s r s' typename Htn H; [discriminate |].
simpl in H |- *. unfold readRootBody in H.
assert (readRootFields ctx fuel (readRoot fuel ctx) fuel
          (newSelectionIterator (Some entityKey) entityKey select ctx)
          originalData (setField [] "__typename" (DStr typename)) s
        = Ret (r, s')) as H'.
{ destruct originalData; try done; by rewrite Htn in H. }
eapply readRootFields_merged in H'
  as (nodes & it' & writes & Hy & Hex & Hlen & Hnodes & ->).
- by exists typename, nodes, it', writes.
- intros t sel x s0 r0 s0' Hx Hrec. eapply IH; [exact Hx | exact Hrec].
Qed.

Lemma MergedRoot_readRoot fuel ctx :
  ∀ entityKey select originalData s r s',
    MergedRoot fuel ctx entityKey select originalData s r s' →
    readRoot fuel ctx entityKey select originalData s = Ret (r, s').
Proof.
induction fuel as [|fuel IH]; intros entityKey select originalData s r s' H;
  [done |].
simpl in H |- *.
destruct H as (typename & nodes & it' & writes & Htn & Hy & Hex & Hlen & Hnodes & ->).
unfold readRootBody.
assert (readRootFields ctx fuel (readRoot fuel ctx) fuel
          (newSelectionIterator (Some entityKey) entityKey select ctx)
          originalData (setField [] "__typename" (DStr typename)) s
        = Ret (DObj (applyWrites [("__typename", DStr typename)] writes), s'))
  as H.
{ eapply MergedNodes_readRootFields; [| exact Hnodes | exact Hy | exact Hex | exact Hlen].
  intros t sel x s0 r0 s0'. apply IH. }
destruct originalData; simpl in Htn; try done. simpl. by rewrite Htn.
Qed.

(** A field of the result of a merge holds what the last write to it
    wrote. *)
Lemma applyWrites_snoc data writes alias v :
  applyWrites data (writes ++ [(alias, v)])
  = setField (applyWrites data writes) alias v.
Proof. unfold applyWrites. by rewrite foldl_app. Qed.

Lemma applyWrites_unwritten data writes alias :
  alias ∉ map fst writes →
  getField_ (applyWrites data writes) alias = getField_ data alias.
Proof.
revert data. induction writes as [|[k v] writes IH]; intros data Hnot; [done |].
simpl. rewrite IH.
- apply getField_setField_ne. intros ->. apply Hnot. simpl. by left.
- intros Hin. apply Hnot. simpl. by right.
Qed.

Lemma applyWrites_last data writes alias v rest :
  alias ∉ map fst rest →
  getField_ (applyWrites data (writes ++ (alias, v) :: rest)) alias = v.
Proof.
intros Hnot. unfold applyWrites. rewrite foldl_app. simpl.
fold (applyWrites (setField (foldl (λ data w, setField data w.1 w.2) data writes)
                     alias v) rest).
rewrite applyWrites_unwritten; [| exact Hnot].
apply getField_setField_eq.
Qed.

(** A merged list has the length of the supplied list. *)
Lemma MergedItems_length ctx fuel rec select items s vs s' :
  MergedItems ctx fuel rec select items s vs s' → length vs = length items.
Proof. induction 1; simpl; congruence. Qed.

(** C7 (as amended).  [read] runs the normalized read from the root key
    of the store only when no prior data is supplied.  Prior data whose
    [__typename] is not a string is returned unchanged, without any access
    to the store.  Prior data whose [__typename] is a string goes through
    the root-merge read: the iterator is run to exhaustion over the root
    selection, and the result holds the typename of the supplied data and,
    for every field node that the iterator returns, in order, under the
    alias of the node: the supplied value when the node has no selection
    set or the supplied value is [null] or a scalar, and otherwise the
    merge of the supplied value, which keeps its shape -- a list is merged
    element by element, [null] stays [null], an entity with a key is read
    from the store with the selection of the node ([null] when that read
    fails), and an object with a typename and no key is merged in the same
    way as the root.  The dependencies and the partial flag of the result
    are those of the state after the last merge, and the read returns
    exactly the results that are described in this way. *)
Theorem read_merges_prior_data (fuel : nat) (st : Store)
  (request : OperationRequest) (op : OperationDefinitionNode) (s : ReadState) :
  getMainOperation (query_ request) = Ret op →
  let ctx := readContext st request op in
  let rootKey := getRootKey (tables st) (operation op) in
  let rootSelect := operationSelectionSet op in
  read fuel st request None s
  = (do r <- readSelection fuel ctx rootKey rootSelect (DObj [])
               (mkReadState false (currentDependencies s));
     Ret (readResult r))
  ∧ (∀ fields,
       typenameOf (DObj fields) = None →
       read (S fuel) st request (Some (DObj fields)) s
       = Ret (mkQueryResult (currentDependencies s) false (DObj fields)))
  ∧ (∀ fields t res,
       typenameOf (DObj fields) = Some t →
       read (S fuel) st request (Some (DObj fields)) s = Ret res
       ↔ ∃ nodes it' writes s',
           Yields fuel
             (newSelectionIterator (Some rootKey) rootKey rootSelect ctx)
             nodes it'
           ∧ Exhausted fuel it'
           ∧ (length nodes < fuel)%nat
           ∧ MergedNodes ctx fuel (MergedRoot fuel ctx) (DObj fields) nodes
               (mkReadState false (currentDependencies s)) writes s'
           ∧ res = mkQueryResult (currentDependencies s') (ctxPartial s')
                     (DObj (applyWrites [("__typename", DStr t)] writes))).
Proof.
intros Hop ctx rootKey rootSelect.
destruct (read_with_prior_data fuel st request op s Hop) as (Hnone & Hplain & _).
split; [exact Hnone |]. split; [exact Hplain |].
intros fields t res Htn.
assert (getProp (DObj fields) "__typename" = DStr t) as Htn'.
{ unfold typenameOf in Htn. destruct (getProp _ _); try discriminate.
  by injection Htn as ->. }
unfold read. rewrite Hop. cbn [obind isUndefined]. split.
- intros H. bind_inv H. destruct a as [r s']. injection H as <-.
  eapply readRoot_merged in Hm; [| exact Htn'].
  destruct Hm as (t' & nodes & it' & writes & Ht' & Hy & Hex & Hlen & Hnodes & ->).
  rewrite Htn' in Ht'. injection Ht' as <-.
  exists nodes, it', writes, s'. done.
- intros (nodes & it' & writes & s' & Hy & Hex & Hlen & Hnodes & ->).
  rewrite (MergedRoot_readRoot (S fuel) _ _ _ _ _
             (DObj (applyWrites [("__typename", DStr t)] writes)) s').
  + done.
  + by exists t, nodes, it', writes.
Qed.

Import DependencyExamples.

(** A read of [{ todos { id text } }] with prior data: the entity that
    the store holds is read from the store (its text is the stored one),
    the entity that the store lacks becomes [null], [null] stays [null],
    the object without a key is merged field by field, and the field that
    the query does not select is left out. *)
Example read_prior_data_merges_store :
  read 6 todoStore (requestOf todosQuery) (Some (DObj stalePrior)) initStoreState
  = Ret (mkQueryResult (list_to_set ["Todo:1"; "Todo:2"]) false
           (DObj mergedData)).
Proof. vm_compute. reflexivity. Qed.

Lemma read_merges_prior_data_witness :
  let ctx :=
    readContext todoStore (requestOf todosQuery) (queryOperation todosQuery) in
  let res :=
    mkQueryResult (list_to_set ["Todo:1"; "Todo:2"]) false (DObj mergedData) in
  getMainOperation (query_ (requestOf todosQuery))
  = Ret (queryOperation todosQuery)
  ∧ read 6 todoStore (requestOf todosQuery) (Some (DObj stalePrior))
      initStoreState = Ret res
  ∧ ∃ nodes it' writes s',
      Yields 5 (newSelectionIterator (Some "Query") "Query" todosQuery ctx)
        nodes it'
      ∧ Exhausted 5 it'
      ∧ (length nodes < 5)%nat
      ∧ MergedNodes ctx 5 (MergedRoot 5 ctx) (DObj stalePrior) nodes
          (mkReadState false ∅) writes s'
      ∧ res = mkQueryResult (currentDependencies s') (ctxPartial s')
                (DObj (applyWrites [("__typename", DStr "Query")] writes)).
Proof.
intros ctx res.
assert (read 6 todoStore (requestOf todosQuery) (Some (DObj stalePrior))
          initStoreState = Ret res) as Hread by (vm_compute; reflexivity).
split; [reflexivity |]. split; [exact Hread |].
destruct (read_merges_prior_data 5 todoStore (requestOf todosQuery)
            (queryOperation todosQuery) initStoreState eq_refl)
  as (_ & _ & H).
exact (proj1 (H stalePrior "Query" res eq_refl) Hread).
Defined.

(** C7 (counterexample).  The store holds [int: 42]; prior data without a
    [__typename] is handed back as it is, whereas the normalized read of
    the same request yields the stored value.  And the root-merge read of
    prior data with a typename does not keep the supplied data as it is:
    the supplied entity [Todo:2], which the store lacks, becomes [null],
    the text of [Todo:1] is the one of the store, and the supplied field
    that the query does not select is left out. *)
Lemma read_prior_data_without_typename :
  (query 3 intStore (requestOf intQuery) (Some (DObj [("int", DNum 1)]))
   = Ret (mkQueryResult ∅ false (DObj [("int", DNum 1)]))
   ∧ query 3 intStore (requestOf intQuery) None
     = Ret (mkQueryResult (list_to_set ["Query.int"]) false
              (DObj [("__typename", DStr "Query"); ("int", DNum 42)])))
  ∧ (query 6 todoStore (requestOf todosQuery) (Some (DObj stalePrior))
     = Ret (mkQueryResult (list_to_set ["Todo:1"; "Todo:2"]) false
              (DObj mergedData))
     ∧ getField_ stalePrior "unselected" = DNum 0
     ∧ getField_ mergedData "unselected" = DUndefined).
Proof. split_and!; vm_compute; reflexivity. Qed.

